(** * TryTakeTwo: the Time Engine and the Export Pipeline

    A shallow embedding of
      - the time engine ([mapClipSourceTime], [interpolateOverlay],
        [evaluateTimeline], [getSpeedAtTime]),
      - the export service ([runFfmpeg], [renderClipSegment],
        [exportProject] with its segment planner),
      - the export routes ([POST /:projectId/export], [processExportJob],
        the status and download routes),
      - the exporter's helpers ([sanitize], [ffmpegColor], [buildAnimExpr]),
      - the editor's store and timeline actions ([addKeyframe],
        [removeKeyframe], [splitAtPlayhead], [snapTime],
        [getTimelineDuration]),
    followed by the properties the specification states about them and by
    further properties read off the code.

    JavaScript numbers are IEEE-754 binary64 values.  The arithmetic of the
    time engine, of the segment planner, of the animated expressions and of
    the editor's timeline actions is written once, over a carrier [A] with
    the operations of the classes [Num] and [JsMath]; it is instantiated
    with the rationals [Q] (the exact arithmetic in which the general
    theorems are proved) and with Rocq's primitive binary64 floats (in which
    concrete values are evaluated bit for bit).  The export run itself (the
    encoder invocations, the files and the job table) is modelled over [Q],
    with the planner at its instance [Q].  A property that rounding can
    break says that it is stated in exact arithmetic, and a remark named
    [binary64_...] evaluates the code at an input where rounding shows.

    The two debug logs of the export ([ffmpeg_debug.log] and
    [export_debug.log]) are kept as the list of the lines appended by the
    encoder calls and by the worker.  Left out of the model: the console
    output, the time stamps (those of the log lines and
    [created_at]/[updated_at]), the line that the submit route appends to
    [export_debug.log] when it hands a job to the worker (the routes are
    modelled on the database), and the text of the encoder's argument
    vectors and filter graph (an invocation is kept as the values its
    arguments are formatted from; the expression of an animated overlay
    property is kept as text, over an abstract printer of numbers).  Clip
    [properties] are taken as parsed objects. *)

From Stdlib Require Import QArith Qround Qabs Lqa ZArith Lia List Bool.
From Stdlib Require Import String Ascii DecimalString Permutation Floats.
Import ListNotations.

Set Implicit Arguments.

(* ================================================================== *)
(** ** Numbers *)

Class Num (A : Type) : Type := {
  nlit : Z -> A;             (* an integer literal *)
  nadd : A -> A -> A;
  nsub : A -> A -> A;
  nmul : A -> A -> A;
  ndiv : A -> A -> A;
  nleb : A -> A -> bool;     (* a <= b *)
  nltb : A -> A -> bool;     (* a <  b *)
  neqb : A -> A -> bool      (* a === b *)
}.

Declare Scope num_scope.
Delimit Scope num_scope with num.
Infix "+" := nadd : num_scope.
Infix "-" := nsub : num_scope.
Infix "*" := nmul : num_scope.
Infix "/" := ndiv : num_scope.
Infix "<=?" := nleb : num_scope.
Infix "<?" := nltb : num_scope.
Infix "=?" := neqb : num_scope.

Definition Qltb (a b : Q) : bool := negb (Qle_bool b a).

#[export] Instance QNum : Num Q := {|
  nlit := inject_Z;
  nadd := Qplus;
  nsub := Qminus;
  nmul := Qmult;
  ndiv := Qdiv;
  nleb := Qle_bool;
  nltb := Qltb;
  neqb := Qeq_bool
|}.

Definition float_of_Z (z : Z) : float :=
  if (z <? 0)%Z then PrimFloat.opp (PrimFloat.of_uint63 (Uint63.of_Z (- z)))
  else PrimFloat.of_uint63 (Uint63.of_Z z).

#[export] Instance FloatNum : Num float := {|
  nlit := float_of_Z;
  nadd := PrimFloat.add;
  nsub := PrimFloat.sub;
  nmul := PrimFloat.mul;
  ndiv := PrimFloat.div;
  nleb := PrimFloat.leb;
  nltb := PrimFloat.ltb;
  neqb := PrimFloat.eqb
|}.

(* ================================================================== *)
(** ** The time engine *)

Section TimeEngine.

Context {A : Type} {N : Num A}.
Local Open Scope num_scope.

(** [Array.prototype.sort(cmp)] is a stable sort: [a] is placed before [b]
    when [cmp a b < 0], and elements that compare equal keep their input
    order.  It is modelled as a stable insertion sort driven by the
    comparator's numeric result. *)
Fixpoint insertBy {T : Type} (cmp : T -> T -> A) (x : T) (l : list T) : list T :=
  match l with
  | [] => [x]
  | y :: l' => if cmp x y <=? nlit 0 then x :: l else y :: insertBy cmp x l'
  end.

Fixpoint sortBy {T : Type} (cmp : T -> T -> A) (l : list T) : list T :=
  match l with
  | [] => []
  | x :: l' => insertBy cmp x (sortBy cmp l')
  end.

Record SpeedKeyframe : Type := mkSpeedKf {
  sk_time : A;
  sk_speed : A
}.

(** [(a, b) => a.time - b.time] *)
Definition bySpeedKfTime (a b : SpeedKeyframe) : A := sk_time a - sk_time b.

(** The [for] loop of [mapClipSourceTime], from index [i] on: [kf] is the
    part of the sorted array that is still to be visited. *)
Fixpoint integrateFrom (clipLocalTime : A) (kf : list SpeedKeyframe)
         (sourceTime prevTime prevSpeed : A) : A :=
  match kf with
  | [] =>
      let remaining := clipLocalTime - prevTime in
      sourceTime + remaining * prevSpeed
  | k :: rest =>
      let kfTime := sk_time k in
      let kfSpeed := sk_speed k in
      if clipLocalTime <=? kfTime then
        let segLen := kfTime - prevTime in
        let t := clipLocalTime - prevTime in
        if segLen =? nlit 0 then
          sourceTime + prevSpeed * t
        else
          let frac := t / segLen in
          let speedAtT := prevSpeed + (kfSpeed - prevSpeed) * frac in
          sourceTime + t * (prevSpeed + speedAtT) / nlit 2
      else
        let segLen := kfTime - prevTime in
        integrateFrom clipLocalTime rest
          (sourceTime + segLen * (prevSpeed + kfSpeed) / nlit 2) kfTime kfSpeed
  end.

Definition mapClipSourceTime (clipLocalTime : A) (keyframes : list SpeedKeyframe) : A :=
  match sortBy bySpeedKfTime keyframes with
  | [] => clipLocalTime
  | (k0 :: _) as kf => integrateFrom clipLocalTime kf (nlit 0) (nlit 0) (sk_speed k0)
  end.

(** [getSpeedAtTime] *)

Definition lerp (a b t : A) : A := a + (b - a) * t.

Fixpoint speedSegment (clipLocalTime : A) (kf : list SpeedKeyframe) : option A :=
  match kf with
  | [] => None
  | a :: rest =>
      match rest with
      | [] => None
      | b :: _ =>
          if (sk_time a <=? clipLocalTime) && (clipLocalTime <=? sk_time b) then
            let segLen := sk_time b - sk_time a in
            let t := if segLen =? nlit 0 then nlit 0
                     else (clipLocalTime - sk_time a) / segLen in
            Some (lerp (sk_speed a) (sk_speed b) t)
          else speedSegment clipLocalTime rest
      end
  end.

Definition getSpeedAtTime (clipLocalTime : A) (keyframes : list SpeedKeyframe) : A :=
  match sortBy bySpeedKfTime keyframes with
  | [] => nlit 1
  | (k0 :: _) as kf =>
      let kl := last kf k0 in
      if clipLocalTime <=? sk_time k0 then sk_speed k0
      else if sk_time kl <=? clipLocalTime then sk_speed kl
      else match speedSegment clipLocalTime kf with
           | Some v => v
           | None => sk_speed kl
           end
  end.

(** [interpolateOverlay].  The numeric fields [x], [y], [rotation] and
    [opacity] are always present (they are NOT NULL columns); the scale is
    stored as [scale_x] by the database and as [scaleX] by the editor, so
    both spellings are optional, and [easing] may be missing. *)

Record OverlayKeyframe : Type := mkOverlayKf {
  ok_time : A;
  ok_x : A;
  ok_y : A;
  ok_scale_x : option A;
  ok_scaleX : option A;
  ok_scale_y : option A;
  ok_scaleY : option A;
  ok_rotation : A;
  ok_opacity : A;
  ok_easing : option string
}.

Record Transform : Type := mkTransform {
  tr_x : A;
  tr_y : A;
  tr_scaleX : A;
  tr_scaleY : A;
  tr_rotation : A;
  tr_opacity : A
}.

Definition byOverlayKfTime (a b : OverlayKeyframe) : A := ok_time a - ok_time b.

(** [a ?? b ?? 1] *)
Definition coalesce1 (a b : option A) : A :=
  match a with
  | Some v => v
  | None => match b with Some v => v | None => nlit 1 end
  end.

Definition kfToTransform (kf : OverlayKeyframe) : Transform :=
  {| tr_x := ok_x kf;
     tr_y := ok_y kf;
     tr_scaleX := coalesce1 (ok_scale_x kf) (ok_scaleX kf);
     tr_scaleY := coalesce1 (ok_scale_y kf) (ok_scaleY kf);
     tr_rotation := ok_rotation kf;
     tr_opacity := ok_opacity kf |}.

Definition half : A := nlit 1 / nlit 2.

Definition getEasedProgress (t : A) (easing : string) : A :=
  if String.eqb easing "easeIn" then t * t
  else if String.eqb easing "easeOut" then t * (nlit 2 - t)
  else if String.eqb easing "easeInOut" then
    if t <? half then nlit 2 * t * t else nlit (-1) + (nlit 4 - nlit 2 * t) * t
  else t.

(** [kf.easing || 'linear']: a missing or empty easing is linear. *)
Definition easingOf (kf : OverlayKeyframe) : string :=
  match ok_easing kf with
  | Some e => if String.eqb e EmptyString then "linear" else e
  | None => "linear"
  end.

Fixpoint overlaySegment (clipLocalTime : A) (kf : list OverlayKeyframe)
  : option Transform :=
  match kf with
  | [] => None
  | a :: rest =>
      match rest with
      | [] => None
      | b :: _ =>
          if (ok_time a <=? clipLocalTime) && (clipLocalTime <=? ok_time b) then
            let segLen := ok_time b - ok_time a in
            let t0 := if segLen =? nlit 0 then nlit 0
                      else (clipLocalTime - ok_time a) / segLen in
            let t := getEasedProgress t0 (easingOf a) in
            Some {| tr_x := lerp (ok_x a) (ok_x b) t;
                    tr_y := lerp (ok_y a) (ok_y b) t;
                    tr_scaleX := lerp (coalesce1 (ok_scale_x a) (ok_scaleX a))
                                      (coalesce1 (ok_scale_x b) (ok_scaleX b)) t;
                    tr_scaleY := lerp (coalesce1 (ok_scale_y a) (ok_scaleY a))
                                      (coalesce1 (ok_scale_y b) (ok_scaleY b)) t;
                    tr_rotation := lerp (ok_rotation a) (ok_rotation b) t;
                    tr_opacity := lerp (ok_opacity a) (ok_opacity b) t |}
          else overlaySegment clipLocalTime rest
      end
  end.

Definition defaultTransform : Transform :=
  {| tr_x := nlit 0; tr_y := nlit 0; tr_scaleX := nlit 1; tr_scaleY := nlit 1;
     tr_rotation := nlit 0; tr_opacity := nlit 1 |}.

Definition interpolateOverlay (clipLocalTime : A) (keyframes : list OverlayKeyframe)
  : Transform :=
  match sortBy byOverlayKfTime keyframes with
  | [] => defaultTransform
  | (k0 :: _) as kf =>
      let kl := last kf k0 in
      if clipLocalTime <=? ok_time k0 then kfToTransform k0
      else if ok_time kl <=? clipLocalTime then kfToTransform kl
      else match overlaySegment clipLocalTime kf with
           | Some tr => tr
           | None => kfToTransform kl
           end
  end.

(** The project graph read by [evaluateTimeline] and by the exporter. *)

Inductive TrackType : Type :=
  VIDEO_A | VIDEO_B | OVERLAY_TEXT | OVERLAY_IMAGE | AUDIO.

Inductive PropValue : Type :=
| PBool (b : bool)
| PNum (n : A)
| PStr (s : string).

(** [clip.properties]: a free-form map. *)
Definition Properties : Type := list (string * PropValue).

Record Clip : Type := mkClip {
  clip_id : string;
  asset_id : option string;
  start_time : A;
  duration : A;
  in_point : A;
  out_point : A;
  speedKeyframes : list SpeedKeyframe;
  overlayKeyframes : list OverlayKeyframe;
  properties : Properties
}.

Record Track : Type := mkTrack {
  track_type : TrackType;
  clips : list Clip
}.

Record Project : Type := mkProject {
  tracks : list Track
}.

Record VideoEntry : Type := mkVideoEntry {
  ve_clipId : string;
  ve_assetId : option string;
  ve_sourceTime : A;
  ve_clipLocalTime : A;
  ve_properties : Properties
}.

Record OverlayEntry : Type := mkOverlayEntry {
  oe_clipId : string;
  oe_assetId : option string;
  oe_properties : Properties;
  oe_transform : Transform
}.

Record EvalResult : Type := mkEvalResult {
  videoA : option VideoEntry;
  videoB : option VideoEntry;
  overlayTexts : list OverlayEntry;
  overlayImages : list OverlayEntry;
  audio : option VideoEntry
}.

Definition emptyResult : EvalResult :=
  {| videoA := None; videoB := None; overlayTexts := []; overlayImages := [];
     audio := None |}.

(** [!(timelineTime < clipStart || timelineTime >= clipEnd)] *)
Definition clipActive (timelineTime : A) (clip : Clip) : bool :=
  let clipStart := start_time clip in
  let clipEnd := clipStart + duration clip in
  negb ((timelineTime <? clipStart) || (clipEnd <=? timelineTime)).

Definition videoEntryOf (timelineTime : A) (clip : Clip) : VideoEntry :=
  let clipLocalTime := timelineTime - start_time clip in
  {| ve_clipId := clip_id clip;
     ve_assetId := asset_id clip;
     ve_sourceTime := in_point clip + mapClipSourceTime clipLocalTime (speedKeyframes clip);
     ve_clipLocalTime := clipLocalTime;
     ve_properties := properties clip |}.

Definition overlayEntryOf (timelineTime : A) (clip : Clip) : OverlayEntry :=
  let clipLocalTime := timelineTime - start_time clip in
  {| oe_clipId := clip_id clip;
     oe_assetId := asset_id clip;
     oe_properties := properties clip;
     oe_transform := interpolateOverlay clipLocalTime (overlayKeyframes clip) |}.

(** The body of the inner loop of [evaluateTimeline]: one clip of a track of
    type [ty], updating the result object. *)
Definition evalClip (timelineTime : A) (ty : TrackType) (result : EvalResult)
           (clip : Clip) : EvalResult :=
  if clipActive timelineTime clip then
    match ty with
    | VIDEO_A =>
        {| videoA := Some (videoEntryOf timelineTime clip);
           videoB := videoB result;
           overlayTexts := overlayTexts result;
           overlayImages := overlayImages result;
           audio := audio result |}
    | VIDEO_B =>
        {| videoA := videoA result;
           videoB := Some (videoEntryOf timelineTime clip);
           overlayTexts := overlayTexts result;
           overlayImages := overlayImages result;
           audio := audio result |}
    | OVERLAY_TEXT =>
        {| videoA := videoA result;
           videoB := videoB result;
           overlayTexts := overlayTexts result ++ [overlayEntryOf timelineTime clip];
           overlayImages := overlayImages result;
           audio := audio result |}
    | OVERLAY_IMAGE =>
        {| videoA := videoA result;
           videoB := videoB result;
           overlayTexts := overlayTexts result;
           overlayImages := overlayImages result ++ [overlayEntryOf timelineTime clip];
           audio := audio result |}
    | AUDIO => result   (* "Audio support placeholder" *)
    end
  else result.

Definition evalTrack (timelineTime : A) (result : EvalResult) (track : Track)
  : EvalResult :=
  fold_left (evalClip timelineTime (track_type track)) (clips track) result.

(** [project] is [None] for a null project. *)
Definition evaluateTimeline (project : option Project) (timelineTime : A)
  : EvalResult :=
  match project with
  | None => emptyResult
  | Some p => fold_left (evalTrack timelineTime) (tracks p) emptyResult
  end.

End TimeEngine.

Arguments SpeedKeyframe A : clear implicits.
Arguments OverlayKeyframe A : clear implicits.
Arguments Transform A : clear implicits.
Arguments PropValue A : clear implicits.
Arguments Properties A : clear implicits.
Arguments Clip A : clear implicits.
Arguments Track A : clear implicits.
Arguments Project A : clear implicits.
Arguments VideoEntry A : clear implicits.
Arguments OverlayEntry A : clear implicits.
Arguments EvalResult A : clear implicits.

(* ================================================================== *)
(** ** The export service: files *)

Local Open Scope string_scope.

(** Files: everything the exporter touches lives in the job's scratch
    directory [TEMP/jobId], in [EXPORTS], or is an asset. *)
Inductive TempName : Type :=
| ClipSeg0 (ci : nat)                (* clip_<ci>_seg_0.mov *)
| ClipSeg (ci ki s : nat)            (* clip_<ci>_seg_<ki>_<s>.mov *)
| StillOf (n : TempName)             (* the same name with extension .jpg *)
| ConcatTxt                          (* concat.txt *)
| WithOv                             (* with_ov.mp4 *)
| OverlayFilterTxt                   (* overlay_filter.txt *)
| WithAud.                           (* with_aud.mp4 *)

Inductive Path : Type :=
| TempDir (jobId : string)
| TempFile (jobId : string) (name : TempName)
| ExportFile (jobId : string)        (* EXPORTS/<jobId>.mp4 *)
| AssetPath (path : string).

(** [outputPath] with its extension replaced by [.jpg]. *)
Definition framePathOf (outputPath : Path) : Path :=
  match outputPath with
  | TempFile j n => TempFile j (StillOf n)
  | p => p
  end.

(** The path is the scratch directory of [jobId] or lies inside it. *)
Definition inTemp (jobId : string) (p : Path) : bool :=
  match p with
  | TempDir j | TempFile j _ => String.eqb j jobId
  | _ => false
  end.

(* ================================================================== *)
(** ** The export service: the segment planner

    Planning is pure: the list [segmentFiles] that reaches the
    concatenation step is determined by the project and the assets table.
    Like the time engine, the planner is written over the carrier [A]. *)

(** [Math.ceil] of a number, as an integer, and [Math.abs]. *)
Class JsMath (A : Type) : Type := {
  nceil : A -> Z;
  nabs : A -> A
}.

#[export] Instance QMath : JsMath Q := {| nceil := Qceiling; nabs := Qabs |}.

(** The least integer not below a finite binary64 value (0 for an infinity
    or a NaN, with which no loop of the planner runs). *)
Definition float_ceil (x : float) : Z :=
  match Prim2SF x with
  | S754_finite sign m e =>
      if (0 <=? e)%Z then
        (if sign then - (Z.pos m * 2 ^ e) else Z.pos m * 2 ^ e)%Z
      else
        let d := (2 ^ (- e))%Z in
        (if sign then - (Z.pos m / d) else (Z.pos m + d - 1) / d)%Z
  | _ => 0%Z
  end.

#[export] Instance FloatMath : JsMath float :=
  {| nceil := float_ceil; nabs := PrimFloat.abs |}.

Section SegmentPlanner.

Context {A : Type} {N : Num A} {JM : JsMath A}.
Local Open Scope num_scope.

(** [Math.min], [Math.max] *)
Definition jsMin (a b : A) : A := if a <=? b then a else b.
Definition jsMax (a b : A) : A := if a <=? b then b else a.

Record Asset : Type := mkAsset {
  a_id : string;
  a_path : string;
  a_duration : option A;
  a_fps : option A;
  a_type : string
}.

Definition propLookup (name : string) (props : Properties A) : option (PropValue A) :=
  match find (fun kv => String.eqb (fst kv) name) props with
  | Some kv => Some (snd kv)
  | None => None
  end.

(** [clip.properties && clip.properties.muted === true] *)
Definition isMutedClip (clip : Clip A) : bool :=
  match propLookup "muted" (properties clip) with
  | Some (PBool true) => true
  | _ => false
  end.

(** [x || d] for a nullable number: null and 0 are falsy. *)
Definition orDefault (x : option A) (d : A) : A :=
  match x with
  | Some v => if v =? nlit 0 then d else v
  | None => d
  end.

(** [asset.duration || 10000] *)
Definition maxSourceDurOf (asset : Asset) : A :=
  orDefault (a_duration asset) (nlit 10000).

(** A call of [renderClipSegment]. *)
Record RenderCall : Type := mkRenderCall {
  rc_assetPath : string;
  rc_sourceStart : A;
  rc_sourceEnd : A;
  rc_avgSpeed : A;
  rc_outputPath : Path;
  rc_fps : A;
  rc_isMuted : bool
}.

(** An element of [segmentFiles]. *)
Record SegmentFile : Type := mkSegmentFile {
  seg_path : Path;
  seg_start : A;
  seg_duration : A
}.

Section Planner.

Variable jobId : string.
Variable ci : nat.
Variable clip : Clip A.
Variable asset : Asset.

Let isMuted : bool := isMutedClip clip.
Let maxSourceDur : A := maxSourceDurOf asset.
Let fps : A := orDefault (a_fps asset) (nlit 30).

(** The branch for at most one speed keyframe. *)
Definition planSingle : list (RenderCall * SegmentFile) :=
  let speedKfs := speedKeyframes clip in
  let speed := match speedKfs with [k] => sk_speed k | _ => nlit 1 end in
  let sourceNeeded := duration clip * speed in
  let actualSourceEnd := jsMin (in_point clip + sourceNeeded) maxSourceDur in
  let segPath := TempFile jobId (ClipSeg0 ci) in
  [ (mkRenderCall (a_path asset) (in_point clip) actualSourceEnd speed segPath
                  fps isMuted,
     mkSegmentFile segPath (start_time clip) (duration clip)) ].

Section Subdivision.

Variable sortedKfs : list (SpeedKeyframe A).

Definition lastDefinedSpeed : A :=
  match sortedKfs with
  | [] => nlit 1
  | k :: _ => sk_speed (last sortedKfs k)
  end.

(** [sortedKfs[i].speed] *)
Definition speedAtIndex (i : nat) : A :=
  match nth_error sortedKfs i with
  | Some k => sk_speed k
  | None => lastDefinedSpeed
  end.

Section Chunks.

Variable ki : nat.
Variable prevTime startSpeed endSpeed stepDur : A.
Variable steps : Z.

(** The loop [for (s = 0; s < steps; s++)], from [s] on, with [n] iterations
    left; returns the sub-chunks planned and the final [accumSourceTime]. *)
Fixpoint chunkLoop (n s : nat) (accumSourceTime : A)
  : list (RenderCall * SegmentFile) * A :=
  match n with
  | O => ([], accumSourceTime)
  | S n' =>
      let t0 := nlit (Z.of_nat s) / nlit steps in
      let t1 := nlit (Z.of_nat s + 1) / nlit steps in
      let s0 := startSpeed + (endSpeed - startSpeed) * t0 in
      let s1 := startSpeed + (endSpeed - startSpeed) * t1 in
      let avgS := (s0 + s1) / nlit 2 in
      let subSource := stepDur * avgS in
      let safeSourceEnd := jsMin (accumSourceTime + subSource) maxSourceDur in
      let segPath := TempFile jobId (ClipSeg ci ki s) in
      let item :=
        (mkRenderCall (a_path asset) accumSourceTime safeSourceEnd avgS segPath
                      fps isMuted,
         mkSegmentFile segPath
                       (start_time clip + prevTime + nlit (Z.of_nat s) * stepDur)
                       stepDur) in
      let accum' := accumSourceTime + subSource in
      if maxSourceDur <=? accum' then ([item], accum')
      else let (rest, final) := chunkLoop n' (S s) accum' in (item :: rest, final)
  end.

End Chunks.

(** The loop [for (ki = 0; ki <= sortedKfs.length; ki++)], from [ki] on,
    with [n] iterations left.  The literals [0.001] and [0.5] are the
    quotients [1 / 1000] and [1 / 2]. *)
Fixpoint kfLoop (n ki : nat) (prevTime accumSourceTime : A)
  : list (RenderCall * SegmentFile) :=
  match n with
  | O => []
  | S n' =>
      let kfTime0 := match nth_error sortedKfs ki with
                     | Some k => sk_time k
                     | None => duration clip
                     end in
      let kfTime := if duration clip <? kfTime0 then duration clip else kfTime0 in
      let segDuration := kfTime - prevTime in
      if segDuration <=? nlit 1 / nlit 1000 then
        kfLoop n' (S ki) prevTime accumSourceTime
      else
        let endSpeed := speedAtIndex ki in
        let startSpeed := match ki with
                          | O => speedAtIndex 0
                          | S ki' => speedAtIndex ki'
                          end in
        let steps := nceil (segDuration / (nlit 1 / nlit 2)) in
        let stepDur := segDuration / nlit steps in
        let (chunks, accum') :=
          chunkLoop ki prevTime startSpeed endSpeed stepDur steps
                    (Z.to_nat steps) 0 accumSourceTime in
        if maxSourceDur <=? accum' then chunks
        else chunks ++ kfLoop n' (S ki) kfTime accum'
  end.

End Subdivision.

(** The branch for two or more speed keyframes. *)
Definition planSubdivided : list (RenderCall * SegmentFile) :=
  let sortedKfs := sortBy bySpeedKfTime (speedKeyframes clip) in
  kfLoop sortedKfs (S (List.length sortedKfs)) 0 (nlit 0) (in_point clip).

Definition planClip : list (RenderCall * SegmentFile) :=
  if (List.length (speedKeyframes clip) <=? 1)%nat then planSingle else planSubdivided.

End Planner.

(** [Array.prototype.sort] with a comparator that need not order its
    arguments.  The elements are taken in input order and each is put into
    the sorted prefix in front of the first element for which the
    comparator answers a negative number, behind the others: what the
    binary insertion of Node's sort does on an array of fewer than 64
    elements when the negative answers for an element lie on a final part
    of the prefix, as they do for the comparator below.  For a comparator
    that orders the elements this is the stable sort. *)
Fixpoint insertFromLeft {T : Type} (cmp : T -> T -> A) (x : T) (sorted : list T)
  : list T :=
  match sorted with
  | [] => [x]
  | y :: r => if cmp x y <? nlit 0 then x :: sorted else y :: insertFromLeft cmp x r
  end.

Definition sortFromLeft {T : Type} (cmp : T -> T -> A) (l : list T) : list T :=
  fold_left (fun sorted x => insertFromLeft cmp x sorted) l [].

(** [videoClips.sort((a, b) => (a.start_time - b.start_time) ||
    (a.trackType === 'VIDEO_B' ? -1 : 1))].  The comparator does not order
    two clips of the same track type that start at the same time: it
    answers 1 both ways for VIDEO_A, which leaves them in input order, and
    -1 both ways for VIDEO_B, which reverses them. *)
Definition byStartThenTrack (a b : Clip A * TrackType) : A :=
  let d := start_time (fst a) - start_time (fst b) in
  if d =? nlit 0 then
    match snd a with VIDEO_B => nlit (-1) | _ => nlit 1 end
  else d.

Definition isVideoTrack (tr : Track A) : bool :=
  match track_type tr with VIDEO_A | VIDEO_B => true | _ => false end.

Definition isOverlayTrack (tr : Track A) : bool :=
  match track_type tr with OVERLAY_TEXT | OVERLAY_IMAGE => true | _ => false end.

Definition isAudioTrack (tr : Track A) : bool :=
  match track_type tr with AUDIO => true | _ => false end.

(** The clips of the tracks selected by [sel], each with its track type. *)
Definition collectClips (sel : Track A -> bool) (projectData : Project A)
  : list (Clip A * TrackType) :=
  flat_map (fun tr => map (fun c => (c, track_type tr)) (clips tr))
           (filter sel (tracks projectData)).

Definition sortedVideoClips (projectData : Project A) : list (Clip A * TrackType) :=
  sortFromLeft byStartThenTrack (collectClips isVideoTrack projectData).

(** [for (ci = 0; ...)]: the clips with their index. *)
Fixpoint indexFrom {X : Type} (i : nat) (l : list X) : list (nat * X) :=
  match l with
  | [] => []
  | x :: r => (i, x) :: indexFrom (S i) r
  end.

Definition indexed {X : Type} (l : list X) : list (nat * X) := indexFrom 0 l.

(** [db.prepare('SELECT * FROM assets WHERE id = ?').get(id)] on the
    assets table. *)
Definition findAsset (id : option string) (table : list Asset) : option Asset :=
  match id with
  | Some i => find (fun a => String.eqb (a_id a) i) table
  | None => None
  end.

(** The segments of a run in which every render succeeds. *)
Definition clipSegments (jobId : string) (table : list Asset)
           (icl : nat * (Clip A * TrackType)) : list SegmentFile :=
  match findAsset (asset_id (fst (snd icl))) table with
  | None => []
  | Some asset => map snd (planClip jobId (fst icl) (fst (snd icl)) asset)
  end.

Definition plannedSegments (jobId : string) (table : list Asset)
           (projectData : Project A) : list SegmentFile :=
  flat_map (clipSegments jobId table) (indexed (sortedVideoClips projectData)).

End SegmentPlanner.

Arguments Asset A : clear implicits.
Arguments RenderCall A : clear implicits.
Arguments SegmentFile A : clear implicits.

(* ================================================================== *)
(** ** The export service: data and the external world

    The export run is modelled over the rationals.  Its effects are threaded
    through an explicit world: the file system (the set of existing paths),
    the database, the encoder invocations made so far with their outcomes,
    and the lines appended to the debug logs.  The encoder itself is an
    oracle that decides the outcome of each invocation. *)

Local Open Scope string_scope.
Local Open Scope Q_scope.

(** [Math.round] *)
Definition jsRound (a : Q) : Z := Qfloor (a + (1 # 2)).

Inductive JobStatus : Type := QUEUED | RUNNING | COMPLETE | FAILED.

Record ExportJob : Type := mkJob {
  job_id : string;
  job_project_id : string;
  job_request_id : option string;
  job_status : JobStatus;
  job_progress : Q;
  job_output_path : option Path;
  job_error : option string
}.

(** The tables the exporter and the export routes read and write.  The
    project graph (tracks, clips, keyframes) is kept resolved per project. *)
Record DB : Type := mkDB {
  projects : list (string * Project Q);
  assets : list (Asset Q);
  export_jobs : list ExportJob
}.

(** How an encoder process ends: it closes with an exit code ([None] when
    it was killed by a signal) and what it wrote to stderr, or it could not
    be spawned and the [error] event carries an error code and message. *)
Inductive ProcOutcome : Type :=
| Exited (code : option Z) (stderr : string)
| SpawnError (code : string) (message : string).

Inductive AudioMode : Type :=
| SourceAudio (atempo : Q)
| SilentAudio (targetDuration : Q).

Inductive OverlayFilter : Type :=
| ImageOverlay (assetPath : string) (start stop : Q)
               (kfs : list (OverlayKeyframe Q))
| TextOverlay (text fontColor : string) (start stop : Q)
              (kfs : list (OverlayKeyframe Q)).

Record AudioInput : Type := mkAudioInput {
  ai_path : string;
  ai_in_point : Q;
  ai_duration : Q;
  ai_delay : Z;
  ai_volume : Q
}.

(** One invocation of the encoder: the argument vector, kept as the values
    it is formatted from. *)
Inductive Invocation : Type :=
| ExtractStill (assetPath : string) (sourceStart : Q) (framePath : Path)
| LoopStill (framePath : Path) (targetDuration fps : Q) (out : Path)
| RenderSegment (assetPath : string) (sourceStart sourceDuration ptsFactor : Q)
                (audioMode : AudioMode) (fps : Q) (out : Path)
| BlackFill (totalDuration : Q) (out : Path)
| Concat (entries : list Path) (listPath out : Path)
| OverlayPass (filters : list OverlayFilter) (script src out : Path)
| AudioMix (inputs : list AudioInput) (src out : Path).

Definition outputOf (inv : Invocation) : Path :=
  match inv with
  | ExtractStill _ _ framePath => framePath
  | LoopStill _ _ _ out => out
  | RenderSegment _ _ _ _ _ _ out => out
  | BlackFill _ out => out
  | Concat _ _ out => out
  | OverlayPass _ _ _ out => out
  | AudioMix _ _ out => out
  end.

(** A line appended to one of the two debug logs in the working directory,
    without its time stamp: [ffmpeg_debug.log] gets a line for every encoder
    invocation and [export_debug.log] a line when a job starts and when it
    fails (there with the message of the error, the stack being left out). *)
Inductive LogLine : Type :=
| FfmpegRunning (args : Invocation)
| JobStarted (jobId : string)
| JobFailed (jobId : string) (message : string).

Record World : Type := mkWorld {
  fs : list Path;
  db : DB;
  trace : list (Invocation * ProcOutcome);
  debugLog : list LogLine
}.

(** A computation that may throw an [Error] with a message. *)
Inductive Result (X : Type) : Type :=
| Ok (x : X)
| Throw (message : string).

Arguments Ok {X} x.
Arguments Throw {X} message.

Definition M (X : Type) : Type := World -> Result X * World.

Definition ret {X : Type} (x : X) : M X := fun w => (Ok x, w).

Definition bind {X Y : Type} (m : M X) (k : X -> M Y) : M Y :=
  fun w => match m w with
           | (Ok x, w') => k x w'
           | (Throw e, w') => (Throw e, w')
           end.

Definition throw {X : Type} (message : string) : M X := fun w => (Throw message, w).

(** [try { body } catch (err) { handler(err) }] *)
Definition tryCatch {X : Type} (body : M X) (handler : string -> M X) : M X :=
  fun w => match body w with
           | (Ok x, w') => (Ok x, w')
           | (Throw e, w') => handler e w'
           end.

Notation "x <- m ;; k" := (bind m (fun x => k))
  (at level 61, m at next level, right associativity).
Notation "m ;;; k" := (bind m (fun _ => k))
  (at level 61, right associativity).

Fixpoint forEach {X : Type} (l : list X) (body : X -> M unit) : M unit :=
  match l with
  | [] => ret tt
  | x :: r => body x ;;; forEach r body
  end.

(** A loop that carries the value of a local variable. *)
Fixpoint foldM {X S : Type} (l : list X) (s : S) (body : S -> X -> M S) : M S :=
  match l with
  | [] => ret s
  | x :: r => s' <- body s x ;; foldM r s' body
  end.

(** File system calls. *)
Definition appendFileSync (line : LogLine) : M unit :=
  fun w => (Ok tt, {| fs := fs w; db := db w; trace := trace w;
                      debugLog := (debugLog w ++ [line])%list |}).

Definition mkdirSync (p : Path) : M unit :=
  fun w => (Ok tt, {| fs := p :: fs w; db := db w; trace := trace w; debugLog := debugLog w |}).

Definition writeFileSync (p : Path) : M unit :=
  fun w => (Ok tt, {| fs := p :: fs w; db := db w; trace := trace w; debugLog := debugLog w |}).

Fixpoint tempNameEqb (a b : TempName) : bool :=
  match a, b with
  | ClipSeg0 i, ClipSeg0 j => Nat.eqb i j
  | ClipSeg i k s, ClipSeg j l t => Nat.eqb i j && Nat.eqb k l && Nat.eqb s t
  | StillOf n, StillOf m => tempNameEqb n m
  | ConcatTxt, ConcatTxt | WithOv, WithOv | OverlayFilterTxt, OverlayFilterTxt
  | WithAud, WithAud => true
  | _, _ => false
  end.

Definition pathEqb (p q : Path) : bool :=
  match p, q with
  | TempDir i, TempDir j => String.eqb i j
  | TempFile i n, TempFile j m => String.eqb i j && tempNameEqb n m
  | ExportFile i, ExportFile j => String.eqb i j
  | AssetPath a, AssetPath b => String.eqb a b
  | _, _ => false
  end.

(** [try { fs.unlinkSync(p) } catch (e) { }] *)
Definition unlinkSync (p : Path) : M unit :=
  fun w => (Ok tt, {| fs := filter (fun q => negb (pathEqb p q)) (fs w);
                      db := db w; trace := trace w; debugLog := debugLog w |}).

(** [try { fs.rmSync(tempDir, { recursive: true, force: true }) } catch (e) { }]
    for the scratch directory of [jobId]. *)
Definition rmTempDir (jobId : string) : M unit :=
  fun w => (Ok tt, {| fs := filter (fun q => negb (inTemp jobId q)) (fs w);
                      db := db w; trace := trace w; debugLog := debugLog w |}).

Definition copyFileSync (src dst : Path) : M unit :=
  fun w => if existsb (pathEqb src) (fs w)
           then (Ok tt, {| fs := dst :: fs w; db := db w; trace := trace w; debugLog := debugLog w |})
           else (Throw "ENOENT: no such file or directory, copyfile", w).

(** [db.prepare('SELECT * FROM assets WHERE id = ?').get(id)] *)
Definition getAsset (id : option string) : M (option (Asset Q)) :=
  fun w => (Ok match id with
               | Some i => find (fun a => String.eqb (a_id a) i) (assets (db w))
               | None => None
               end, w).

Definition totalDurationOf (projectData : Project Q) : Q :=
  fold_left (fun acc tr =>
               fold_left (fun acc' c => jsMax acc' (start_time c + duration c))
                         (clips tr) acc)
            (tracks projectData) 0.

(** *** The encoder and the render orchestrator *)

(** [String(code)] for an exit code. *)
Definition showCode (code : option Z) : string :=
  match code with
  | Some z => NilZero.string_of_int (Z.to_int z)
  | None => "null"
  end.

(** [s.slice(-n)] *)
Definition sliceLast (n : nat) (s : string) : string :=
  substring (String.length s - n) n s.

Definition dquote : string := String (ascii_of_nat 34) EmptyString.

(** [sanitize(val)]: a number is returned as it is; any other value is
    turned into a string, from which every character outside the class
    [[a-zA-Z0-9._\-\/: \\]] is removed. *)
Inductive JsValue : Type :=
| JsNumber (n : Q)
| JsString (s : string).

Definition inRange (lo hi : nat) (c : ascii) : bool :=
  (lo <=? nat_of_ascii c)%nat && (nat_of_ascii c <=? hi)%nat.

Definition allowedChar (c : ascii) : bool :=
  inRange 97 122 c                       (* a-z *)
  || inRange 65 90 c                     (* A-Z *)
  || inRange 48 57 c                     (* 0-9 *)
  || Ascii.eqb c "."%char || Ascii.eqb c "_"%char || Ascii.eqb c "-"%char
  || Ascii.eqb c "/"%char || Ascii.eqb c ":"%char || Ascii.eqb c " "%char
  || Ascii.eqb c "\"%char.

(** [s.replace(/[^...]/g, '')] for a character class given by [keep]. *)
Fixpoint keepChars (keep : ascii -> bool) (s : string) : string :=
  match s with
  | EmptyString => EmptyString
  | String c rest =>
      if keep c then String c (keepChars keep rest) else keepChars keep rest
  end.

Definition sanitize (val : JsValue) : JsValue :=
  match val with
  | JsNumber _ => val
  | JsString s => JsString (keepChars allowedChar s)
  end.

(** [ffmpegColor(color)]; [None] is a missing colour. *)
Definition ffmpegColor (color : option string) : string :=
  match color with
  | None => "white"
  | Some EmptyString => "white"
  | Some (String c rest as s) =>
      if Ascii.eqb c "#"%char then "0x" ++ rest else s
  end.

(** [buildAnimExpr(kfs, prop, defaultVal, clipStart)]: the expression, in
    the encoder's expression language, of an animated overlay property.
    [prop] is one of the property names the exporter passes; [defaultVal] is
    a number or, for the position of a text, the text of an expression. *)
Inductive OverlayProp : Type :=
  PropX | PropY | PropScaleX | PropScaleY | PropRotation | PropOpacity.

Section AnimExpr.

Context {A : Type} {N : Num A}.
Local Open Scope num_scope.

(** [kf[prop]], [None] when it is null: the properties ['x'], ['y'],
    ['scale_x'], ['scale_y'], ['rotation'], ['opacity']. *)
Definition propOf (prop : OverlayProp) (kf : OverlayKeyframe A) : option A :=
  match prop with
  | PropX => Some (ok_x kf)
  | PropY => Some (ok_y kf)
  | PropScaleX => ok_scale_x kf
  | PropScaleY => ok_scale_y kf
  | PropRotation => Some (ok_rotation kf)
  | PropOpacity => Some (ok_opacity kf)
  end.

Inductive AnimValue : Type :=
| AnimNum (v : A)
| AnimText (s : string).

(** [String(v)] for a number. *)
Variable showNumber : A -> string.

Definition showValue (v : AnimValue) : string :=
  match v with
  | AnimNum q => showNumber q
  | AnimText s => s
  end.

(** [function pv(v) { return v < 0 ? '(' + v + ')' : String(v); }] *)
Definition pv (v : AnimValue) : string :=
  match v with
  | AnimNum q => if q <? nlit 0 then "(" ++ showNumber q ++ ")" else showNumber q
  | AnimText s => s
  end.

(** [kf[prop] != null ? kf[prop] : defaultVal] *)
Definition valueAt (prop : OverlayProp) (defaultVal : AnimValue)
           (kf : OverlayKeyframe A) : AnimValue :=
  match propOf prop kf with
  | Some q => AnimNum q
  | None => defaultVal
  end.

(** The value of [e] after the loop [for (j = sorted.length - 2; j >= 0; j--)],
    for the part of [sorted] from index [j] on. *)
Fixpoint animLoop (prop : OverlayProp) (defaultVal : AnimValue) (clipStart : A)
         (sorted : list (OverlayKeyframe A)) : string :=
  match sorted with
  | [] => EmptyString
  | k1 :: rest =>
      match rest with
      | [] => pv (valueAt prop defaultVal k1)
      | k2 :: _ =>
          let v1 := valueAt prop defaultVal k1 in
          let v2 := valueAt prop defaultVal k2 in
          let dur := ok_time k2 - ok_time k1 in
          let tB := "(t-" ++ showNumber clipStart ++ ")" in
          let lerp :=
            if dur <=? nlit 0 then pv v1
            else "(" ++ pv v1 ++ "+(" ++ pv v2 ++ "-" ++ pv v1 ++ ")*(" ++ tB
                 ++ "-" ++ showNumber (ok_time k1) ++ ")/" ++ showNumber dur ++ ")" in
          "if(lte(" ++ tB ++ "\," ++ showNumber (ok_time k2) ++ ")\," ++ lerp
          ++ "\," ++ animLoop prop defaultVal clipStart rest ++ ")"
      end
  end.

Definition buildAnimExpr (kfs : list (OverlayKeyframe A)) (prop : OverlayProp)
           (defaultVal : AnimValue) (clipStart : A) : string :=
  match sortBy byOverlayKfTime kfs with
  | [] => showValue defaultVal
  | (first :: _) as sorted =>
      let firstVal := pv (valueAt prop defaultVal first) in
      "if(lte(t-" ++ showNumber clipStart ++ "\," ++ showNumber (ok_time first)
      ++ ")\," ++ firstVal ++ "\," ++ animLoop prop defaultVal clipStart sorted ++ ")"
  end.

End AnimExpr.

Arguments AnimValue A : clear implicits.

Section Exporter.

(** The configured encoder binary. *)
Variable FFMPEG_PATH : string.

(** [hasAudioStream(filePath)]: the probe of the asset's streams. *)
Variable hasAudioStream : string -> bool.

(** The outcome of the [n]-th encoder invocation of the run. *)
Variable encoder : nat -> Invocation -> ProcOutcome.

Definition exitMessage (code : option Z) (stderr : string) : string :=
  "FFmpeg exited with code " ++ showCode code ++ ": " ++ sliceLast 500 stderr.

Definition notFoundMessage : string :=
  "FFmpeg not found at " ++ dquote ++ FFMPEG_PATH ++ dquote
  ++ ". Please ensure FFmpeg is installed/in PATH.".

Definition procSucceeded (o : ProcOutcome) : bool :=
  match o with
  | Exited (Some 0%Z) _ => true
  | _ => false
  end.

(** The message of the [Error] with which [runFfmpeg] rejects. *)
Definition failureMessage (o : ProcOutcome) : string :=
  match o with
  | Exited code stderr => exitMessage code stderr
  | SpawnError code message =>
      if String.eqb code "ENOENT" then notFoundMessage else message
  end.

(** Run an FFmpeg command and return a promise.  The line for
    [ffmpeg_debug.log] is appended before the spawn. *)
Definition runFfmpeg (args : Invocation) : M unit :=
  fun w =>
    let lines := (debugLog w ++ [FfmpegRunning args])%list in
    let o := encoder (List.length (trace w)) args in
    let logged := (trace w ++ [(args, o)])%list in
    if procSucceeded o
    then (Ok tt, {| fs := outputOf args :: fs w; db := db w; trace := logged;
                    debugLog := lines |})
    else (Throw (failureMessage o), {| fs := fs w; db := db w; trace := logged;
                                       debugLog := lines |}).

Definition renderClipSegment (call : (RenderCall Q)) : M unit :=
  let assetPath := rc_assetPath call in
  let sourceStart := rc_sourceStart call in
  let sourceEnd := rc_sourceEnd call in
  let avgSpeed := rc_avgSpeed call in
  let outputPath := rc_outputPath call in
  let fps := if Qeq_bool (rc_fps call) 0 then 30 else rc_fps call in
  let sourceDuration := sourceEnd - sourceStart in
  let targetDuration := sourceDuration / jsMax (1 # 100) avgSpeed in
  if Qltb avgSpeed (1 # 100) then
    (* HOLD: extract still frame *)
    let framePath := framePathOf outputPath in
    runFfmpeg (ExtractStill assetPath sourceStart framePath) ;;;
    runFfmpeg (LoopStill framePath targetDuration fps outputPath) ;;;
    unlinkSync framePath
  else
    (* Normal speed segment *)
    let hasAudio := hasAudioStream assetPath in
    let ptsFactor := 1 / avgSpeed in
    if hasAudio && negb (rc_isMuted call) then
      runFfmpeg (RenderSegment assetPath sourceStart sourceDuration ptsFactor
                               (SourceAudio (jsMax (1 # 2) (jsMin 100 avgSpeed)))
                               fps outputPath)
    else
      runFfmpeg (RenderSegment assetPath sourceStart sourceDuration ptsFactor
                               (SilentAudio targetDuration) fps outputPath).

(** Step 1, one clip: look the asset up, render the planned segments in
    order and push each onto [segmentFiles]. *)
Definition renderVideoClip (jobId : string) (total : nat) (onProgress : Q -> M unit)
           (segmentFiles : list (SegmentFile Q)) (icl : nat * (Clip Q * TrackType))
  : M (list (SegmentFile Q)) :=
  let ci := fst icl in
  let clip := fst (snd icl) in
  asset <- getAsset (asset_id clip) ;;
  match asset with
  | None => ret segmentFiles
  | Some asset =>
      segs <- foldM (planClip jobId ci clip asset) segmentFiles
                (fun acc item =>
                   renderClipSegment (fst item) ;;; ret (acc ++ [snd item])%list) ;;
      onProgress (inject_Z (Z.of_nat ci + 1) / inject_Z (Z.of_nat total) * 40) ;;;
      ret segs
  end.

(** A computation that only returns or throws. *)
Definition liftResult {X : Type} (r : Result X) : M X :=
  match r with
  | Ok x => ret x
  | Throw message => throw message
  end.

(** JavaScript truthiness of a property value. *)
Definition truthy (v : PropValue Q) : bool :=
  match v with
  | PBool b => b
  | PNum n => negb (Qeq_bool n 0)
  | PStr s => negb (String.eqb s EmptyString)
  end.

(** [var rawText = props.text || 'Text'] followed by [rawText.replace(...)]:
    a truthy text that is not a string has no [replace]. *)
Definition rawTextOf (props : Properties Q) : Result string :=
  match propLookup "text" props with
  | None => Ok "Text"
  | Some (PStr s) => Ok (if String.eqb s EmptyString then "Text" else s)
  | Some v => if truthy v then Throw "rawText.replace is not a function"
              else Ok "Text"
  end.

(** [ffmpegColor(props.color)]: a truthy colour that is not a string has no
    [charAt]. *)
Definition fontColorOf (props : Properties Q) : Result string :=
  match propLookup "color" props with
  | None => Ok (ffmpegColor None)
  | Some (PStr s) => Ok (ffmpegColor (Some s))
  | Some v => if truthy v then Throw "color.charAt is not a function"
              else Ok (ffmpegColor None)
  end.

(** Step 3: the filter of one overlay clip, if it yields one. *)
Definition overlayFilterOf (w : World) (icl : Clip Q * TrackType)
  : Result (option OverlayFilter) :=
  let clip := fst icl in
  let start := start_time clip in
  let stop := start + duration clip in
  let kfs := overlayKeyframes clip in
  match snd icl with
  | OVERLAY_IMAGE =>
      match fst (getAsset (asset_id clip) w) with
      | Ok (Some asset) => Ok (Some (ImageOverlay (a_path asset) start stop kfs))
      | _ => Ok None
      end
  | _ =>
      match rawTextOf (properties clip) with
      | Throw message => Throw message
      | Ok rawText =>
          match fontColorOf (properties clip) with
          | Throw message => Throw message
          | Ok fontColor => Ok (Some (TextOverlay rawText fontColor start stop kfs))
          end
      end
  end.

(** The text and the colour of a text overlay are strings, or falsy
    values: the case in which step 3 raises no [TypeError]. *)
Definition stringOrFalsy (v : option (PropValue Q)) : Prop :=
  match v with
  | None => True
  | Some (PStr _) => True
  | Some v' => truthy v' = false
  end.

Definition textTyped (icl : Clip Q * TrackType) : Prop :=
  snd icl = OVERLAY_IMAGE \/
  (stringOrFalsy (propLookup "text" (properties (fst icl))) /\
   stringOrFalsy (propLookup "color" (properties (fst icl)))).

Definition textsTyped (projectData : Project Q) : Prop :=
  Forall textTyped (collectClips isOverlayTrack projectData).

Fixpoint somes {X : Type} (l : list (option X)) : list X :=
  match l with
  | [] => []
  | Some x :: r => x :: somes r
  | None :: r => somes r
  end.

(** Step 4: the mixer input of one audio clip, if its asset qualifies. *)
Definition audioInputOf (w : World) (clip : Clip Q) : option AudioInput :=
  match fst (getAsset (asset_id clip) w) with
  | Ok (Some asset) =>
      if String.eqb (a_type asset) "audio" || String.eqb (a_type asset) "video" then
        let delay := jsRound (start_time clip * 1000) in
        let vol := match propLookup "volume" (properties clip) with
                   | Some (PNum v) => v
                   | _ => 1
                   end in
        let volumeVal := if isMutedClip clip then 0 else vol in
        Some (mkAudioInput (a_path asset) (in_point clip) (duration clip) delay
                           volumeVal)
      else None
  | _ => None
  end.

Definition readWorld : M World := fun w => (Ok w, w).

(** Main export pipeline. *)
Definition exportProject (projectData : Project Q) (jobId : string)
           (onProgress : Q -> M unit) : M Path :=
  let tempDir := TempDir jobId in
  mkdirSync tempDir ;;;
  tryCatch
    (let outputPath := ExportFile jobId in
     let totalDuration := totalDurationOf projectData in
     if Qle_bool totalDuration 0 then throw "No content on timeline"
     else
       (* == Step 1: Render video clips == *)
       let videoClips := sortedVideoClips projectData in
       segmentFiles <- foldM (indexed videoClips) []
                         (renderVideoClip jobId (List.length videoClips) onProgress) ;;
       (* == Step 2: Concat == *)
       match segmentFiles with
       | [] => runFfmpeg (BlackFill totalDuration outputPath)
       | _ =>
           let listPath := TempFile jobId ConcatTxt in
           writeFileSync listPath ;;;
           runFfmpeg (Concat (map seg_path segmentFiles) listPath outputPath)
       end ;;;
       onProgress 60 ;;;
       (* == Step 3: Overlays == *)
       let overlays := collectClips isOverlayTrack projectData in
       match overlays with
       | [] => ret tt
       | _ =>
           let withOvPath := TempFile jobId WithOv in
           w <- readWorld ;;
           filterLines <- foldM overlays []
                            (fun lines icl =>
                               line <- liftResult (overlayFilterOf w icl) ;;
                               ret match line with
                                   | Some l => (lines ++ [l])%list
                                   | None => lines
                                   end) ;;
           let filterScriptPath := TempFile jobId OverlayFilterTxt in
           writeFileSync filterScriptPath ;;;
           runFfmpeg (OverlayPass filterLines filterScriptPath outputPath withOvPath) ;;;
           copyFileSync withOvPath outputPath
       end ;;;
       onProgress 80 ;;;
       (* == Step 4: Multi-Track Audio Mixing == *)
       let audioClips := map fst (collectClips isAudioTrack projectData) in
       w <- readWorld ;;
       match somes (map (audioInputOf w) audioClips) with
       | [] => ret tt
       | audFilters =>
           let withAudPath := TempFile jobId WithAud in
           runFfmpeg (AudioMix audFilters outputPath withAudPath) ;;;
           copyFileSync withAudPath outputPath
       end ;;;
       onProgress 100 ;;;
       rmTempDir jobId ;;;
       ret outputPath)
    (fun err => rmTempDir jobId ;;; throw err).

(** ** The export routes *)

(** [UPDATE export_jobs SET ... WHERE id = ?] *)
Definition updateJob (jobId : string) (f : ExportJob -> ExportJob) : M unit :=
  fun w =>
    (Ok tt,
     {| fs := fs w;
        db := {| projects := projects (db w);
                 assets := assets (db w);
                 export_jobs :=
                   map (fun j => if String.eqb (job_id j) jobId then f j else j)
                       (export_jobs (db w)) |};
        trace := trace w; debugLog := debugLog w |}).

Definition setStatus (s : JobStatus) (j : ExportJob) : ExportJob :=
  {| job_id := job_id j; job_project_id := job_project_id j;
     job_request_id := job_request_id j; job_status := s;
     job_progress := job_progress j; job_output_path := job_output_path j;
     job_error := job_error j |}.

Definition setProgress (p : Q) (j : ExportJob) : ExportJob :=
  {| job_id := job_id j; job_project_id := job_project_id j;
     job_request_id := job_request_id j; job_status := job_status j;
     job_progress := p; job_output_path := job_output_path j;
     job_error := job_error j |}.

Definition setComplete (out : Path) (j : ExportJob) : ExportJob :=
  {| job_id := job_id j; job_project_id := job_project_id j;
     job_request_id := job_request_id j; job_status := COMPLETE;
     job_progress := 100; job_output_path := Some out;
     job_error := job_error j |}.

Definition setFailed (message : string) (j : ExportJob) : ExportJob :=
  {| job_id := job_id j; job_project_id := job_project_id j;
     job_request_id := job_request_id j; job_status := FAILED;
     job_progress := job_progress j; job_output_path := job_output_path j;
     job_error := Some message |}.

(** The project graph as the queries of [processExportJob] load it: clips
    ordered by start time, keyframes by time; no rows when the project is
    missing. *)
Definition byClipStart (a b : Clip Q) : Q := start_time a - start_time b.

Definition loadClip (c : Clip Q) : Clip Q :=
  {| clip_id := clip_id c; asset_id := asset_id c; start_time := start_time c;
     duration := duration c; in_point := in_point c; out_point := out_point c;
     speedKeyframes := sortBy bySpeedKfTime (speedKeyframes c);
     overlayKeyframes := sortBy byOverlayKfTime (overlayKeyframes c);
     properties := properties c |}.

Definition loadTrack (tr : Track Q) : Track Q :=
  {| track_type := track_type tr;
     clips := sortBy byClipStart (map loadClip (clips tr)) |}.

Definition loadProject (projectId : string) : M (Project Q) :=
  fun w =>
    (Ok match find (fun kv => String.eqb (fst kv) projectId) (projects (db w)) with
        | Some kv => {| tracks := map loadTrack (tracks (snd kv)) |}
        | None => {| tracks := [] |}
        end, w).

(** Process an export job asynchronously (in-process). *)
Definition processExportJob (jobId projectId : string) : M unit :=
  tryCatch
    (appendFileSync (JobStarted jobId) ;;;
     updateJob jobId (setStatus RUNNING) ;;;
     projectData <- loadProject projectId ;;
     outputPath <- exportProject projectData jobId
                     (fun progress => updateJob jobId (setProgress progress)) ;;
     updateJob jobId (setComplete outputPath))
    (fun err => appendFileSync (JobFailed jobId err) ;;;
                updateJob jobId (setFailed err)).

End Exporter.

(** The response of [POST /:projectId/export], the database after it, and
    the job handed to [processExportJob], if any. *)
Inductive Response : Type :=
| NotFound                     (* 404, 'Project not found' *)
| Json (job : ExportJob)
| Crashed.                     (* the INSERT violated a constraint *)

Definition findJobByRequest (requestId : string) (d : DB) : option ExportJob :=
  find (fun j => match job_request_id j with
                 | Some r => String.eqb r requestId
                 | None => false
                 end) (export_jobs d).

Definition findJobById (jobId : string) (d : DB) : option ExportJob :=
  find (fun j => String.eqb (job_id j) jobId) (export_jobs d).

(** [INSERT INTO export_jobs ...]: [id] is the primary key and [request_id]
    is UNIQUE. *)
Definition insertJob (j : ExportJob) (d : DB) : option DB :=
  match findJobById (job_id j) d,
        match job_request_id j with
        | Some r => findJobByRequest r d
        | None => None
        end with
  | None, None =>
      Some {| projects := projects d; assets := assets d;
              export_jobs := (export_jobs d ++ [j])%list |}
  | _, _ => None
  end.

(** [router.post('/:projectId/export')].  [requestId] is [req.body.requestId];
    [uuid1] and [uuid2] are the results of the first and the second call of
    [uuid()], should they be made.  The last component of the result is the
    job handed to [processExportJob]; the line that the route appends to
    [export_debug.log] before that call is left out. *)
Definition postExport (projectId : string) (requestId : option string)
           (uuid1 uuid2 : string) (d : DB)
  : Response * DB * option string :=
  match find (fun kv => String.eqb (fst kv) projectId) (projects d) with
  | None => (NotFound, d, None)
  | Some project =>
      (* req.body.requestId || uuid() *)
      let supplied := match requestId with
                      | Some r => negb (String.eqb r EmptyString)
                      | None => false
                      end in
      let rid := match requestId with
                 | Some r => if supplied then r else uuid1
                 | None => uuid1
                 end in
      match findJobByRequest rid d with
      | Some existing => (Json existing, d, None)
      | None =>
          let jobId := if supplied then uuid1 else uuid2 in
          let job := {| job_id := jobId; job_project_id := fst project;
                        job_request_id := Some rid; job_status := QUEUED;
                        job_progress := 0; job_output_path := None;
                        job_error := None |} in
          match insertJob job d with
          | None => (Crashed, d, None)
          | Some d' =>
              match findJobById jobId d' with
              | Some j => (Json j, d', Some jobId)
              | None => (Crashed, d', Some jobId)
              end
          end
      end
  end.

(** [router.get('/exports/:id')] *)
Inductive StatusResponse : Type :=
| StatusNotFound               (* 404, 'Export job not found' *)
| StatusJson (job : ExportJob).

Definition getExport (id : string) (d : DB) : StatusResponse :=
  match findJobById id d with
  | None => StatusNotFound
  | Some job => StatusJson job
  end.

(** [router.get('/exports/:id/download')] *)
Inductive DownloadResponse : Type :=
| ExportNotFound               (* 404, 'Export not found' *)
| ExportNotComplete            (* 400, 'Export not complete' *)
| ExportFileNotFound           (* 404, 'Export file not found' *)
| Download (path : Path) (filename : string).

Definition downloadExport (id : string) (w : World) : DownloadResponse :=
  match findJobById id (db w) with
  | None => ExportNotFound
  | Some job =>
      match job_status job with
      | COMPLETE =>
          match job_output_path job with
          | Some outputPath =>
              if existsb (pathEqb outputPath) (fs w)
              then Download outputPath ("export_" ++ job_id job ++ ".mp4")
              else ExportFileNotFound
          | None => ExportFileNotFound
          end
      | _ => ExportNotComplete
      end
  end.

(* ================================================================== *)
(** ** The editor: the store and the edits of the timeline

    The editor keeps the project in a store and hands it to
    [evaluateTimeline] for the preview.  Its tracks carry an id.  Like the
    time engine, the store is written over the carrier [A]. *)

Section Editor.

Context {A : Type} {N : Num A} {JM : JsMath A}.
Local Open Scope num_scope.

Record EditorTrack : Type := mkEditorTrack {
  et_id : string;
  et_type : TrackType;
  et_clips : list (Clip A)
}.

Record EditorProject : Type := mkEditorProject {
  ep_tracks : list EditorTrack
}.

Record Store : Type := mkStore {
  currentProject : option EditorProject;
  selectedClipId : option string;
  currentTime : A;
  zoom : A
}.

(** What [evaluateTimeline] reads of the editor's project. *)
Definition trackOf (t : EditorTrack) : Track A :=
  {| track_type := et_type t; clips := et_clips t |}.

Definition projectOf (p : EditorProject) : Project A :=
  {| tracks := map trackOf (ep_tracks p) |}.

Definition selectClip (clipId : option string) (st : Store) : Store :=
  {| currentProject := currentProject st; selectedClipId := clipId;
     currentTime := currentTime st; zoom := zoom st |}.

Definition setTime (time : A) (st : Store) : Store :=
  {| currentProject := currentProject st; selectedClipId := selectedClipId st;
     currentTime := jsMax (nlit 0) time; zoom := zoom st |}.

Definition setZoom (z : A) (st : Store) : Store :=
  {| currentProject := currentProject st; selectedClipId := selectedClipId st;
     currentTime := currentTime st; zoom := jsMax (nlit 20) (jsMin (nlit 500) z) |}.

Definition setTracks (newTracks : list EditorTrack) (st : Store) : Store :=
  {| currentProject := Some {| ep_tracks := newTracks |};
     selectedClipId := selectedClipId st;
     currentTime := currentTime st; zoom := zoom st |}.

Definition updateTrackClips (trackId : string) (newClips : list (Clip A))
           (st : Store) : Store :=
  match currentProject st with
  | None => st
  | Some project =>
      setTracks (map (fun t => if String.eqb (et_id t) trackId
                               then {| et_id := et_id t; et_type := et_type t;
                                       et_clips := newClips |}
                               else t)
                     (ep_tracks project)) st
  end.

(** [Array.prototype.findIndex]; [None] is -1. *)
Fixpoint findIndex {X : Type} (f : X -> bool) (l : list X) : option nat :=
  match l with
  | [] => None
  | x :: r => if f x then Some O
              else match findIndex f r with
                   | Some i => Some (S i)
                   | None => None
                   end
  end.

(** [l.splice(i, 1, ...items)] on a copy of [l]. *)
Definition splice1 {X : Type} (i : nat) (items : list X) (l : list X) : list X :=
  (firstn i l ++ items ++ skipn (S i) l)%list.

(** [newClips[clipIdx] = f(newClips[clipIdx])] on a copy, for an index that
    [findIndex] has returned. *)
Definition updateAt {X : Type} (i : nat) (f : X -> X) (l : list X) : list X :=
  match nth_error l i with
  | Some x => splice1 i [f x] l
  | None => l
  end.

Definition hasId (clipId : string) (c : Clip A) : bool :=
  String.eqb (clip_id c) clipId.

(** The body shared by the keyframe actions: in every track, the first clip
    with the id is replaced. *)
Definition onClip (clipId : string) (f : Clip A -> Clip A) (st : Store) : Store :=
  match currentProject st with
  | None => st
  | Some project =>
      setTracks (map (fun track =>
                        match findIndex (hasId clipId) (et_clips track) with
                        | None => track
                        | Some clipIdx =>
                            {| et_id := et_id track; et_type := et_type track;
                               et_clips := updateAt clipIdx f (et_clips track) |}
                        end)
                     (ep_tracks project)) st
  end.

Definition withSpeedKeyframes (kfs : list (SpeedKeyframe A)) (c : Clip A) : Clip A :=
  {| clip_id := clip_id c; asset_id := asset_id c; start_time := start_time c;
     duration := duration c; in_point := in_point c; out_point := out_point c;
     speedKeyframes := kfs; overlayKeyframes := overlayKeyframes c;
     properties := properties c |}.

Definition withOverlayKeyframes (kfs : list (OverlayKeyframe A)) (c : Clip A) : Clip A :=
  {| clip_id := clip_id c; asset_id := asset_id c; start_time := start_time c;
     duration := duration c; in_point := in_point c; out_point := out_point c;
     speedKeyframes := speedKeyframes c; overlayKeyframes := kfs;
     properties := properties c |}.

(** [{ ...kf, easing: kf.easing || 'linear' }] *)
Definition withEasing (kf : OverlayKeyframe A) : OverlayKeyframe A :=
  {| ok_time := ok_time kf; ok_x := ok_x kf; ok_y := ok_y kf;
     ok_scale_x := ok_scale_x kf; ok_scaleX := ok_scaleX kf;
     ok_scale_y := ok_scale_y kf; ok_scaleY := ok_scaleY kf;
     ok_rotation := ok_rotation kf; ok_opacity := ok_opacity kf;
     ok_easing := Some (easingOf kf) |}.

(** [addKeyframe(clipId, type, kf)]: [inl] for the type ['speed'], [inr] for
    any other type. *)
Definition addKeyframe (clipId : string)
           (kf : SpeedKeyframe A + OverlayKeyframe A) (st : Store) : Store :=
  match kf with
  | inl k =>
      onClip clipId
             (fun clip => withSpeedKeyframes
                            (sortBy bySpeedKfTime (speedKeyframes clip ++ [k])%list)
                            clip) st
  | inr k =>
      onClip clipId
             (fun clip => withOverlayKeyframes
                            (sortBy byOverlayKfTime
                                    (overlayKeyframes clip ++ [withEasing k])%list)
                            clip) st
  end.

(** [kfs.splice(index, 1)] on a copy. *)
Definition removeAt {X : Type} (index : nat) (l : list X) : list X :=
  (firstn index l ++ skipn (S index) l)%list.

(** [removeKeyframe(clipId, type, index)]: [true] for the type ['speed']. *)
Definition removeKeyframe (clipId : string) (isSpeed : bool) (index : nat)
           (st : Store) : Store :=
  if isSpeed then
    onClip clipId
           (fun clip => withSpeedKeyframes (removeAt index (speedKeyframes clip)) clip) st
  else
    onClip clipId
           (fun clip => withOverlayKeyframes (removeAt index (overlayKeyframes clip))
                                             clip) st.

(** [splitAtPlayhead()]; [newId] is the result of [generateId()] for the
    second part.  (The ids of keyframes are not part of the model.) *)
Definition strictlyInside (t : A) (c : Clip A) : bool :=
  (start_time c <? t) && (t <? start_time c + duration c).

Definition firstPart (localT : A) (clip : Clip A) : Clip A :=
  {| clip_id := clip_id clip; asset_id := asset_id clip;
     start_time := start_time clip; duration := localT;
     in_point := in_point clip; out_point := in_point clip + localT;
     speedKeyframes := filter (fun k => sk_time k <=? localT)
                              (speedKeyframes clip);
     overlayKeyframes := overlayKeyframes clip; properties := properties clip |}.

Definition secondPart (newId : string) (t localT : A) (clip : Clip A) : Clip A :=
  {| clip_id := newId; asset_id := asset_id clip;
     start_time := t; duration := duration clip - localT;
     in_point := in_point clip + localT; out_point := out_point clip;
     speedKeyframes :=
       map (fun k => {| sk_time := sk_time k - localT; sk_speed := sk_speed k |})
           (filter (fun k => localT <=? sk_time k) (speedKeyframes clip));
     overlayKeyframes := overlayKeyframes clip; properties := properties clip |}.

Fixpoint splitIn (newId : string) (st : Store) (tracks : list EditorTrack) : Store :=
  match tracks with
  | [] => st
  | track :: rest =>
      match findIndex (strictlyInside (currentTime st)) (et_clips track) with
      | Some clipIdx =>
          match nth_error (et_clips track) clipIdx with
          | Some clip =>
              let localT := currentTime st - start_time clip in
              let clip1 := firstPart localT clip in
              let clip2 := secondPart newId (currentTime st) localT clip in
              let newClips := splice1 clipIdx [clip1; clip2] (et_clips track) in
              selectClip (Some (clip_id clip1))
                         (updateTrackClips (et_id track) newClips st)
          | None => st
          end
      | None => splitIn newId st rest
      end
  end.

Definition splitAtPlayhead (newId : string) (st : Store) : Store :=
  match currentProject st with
  | None => st
  | Some project => splitIn newId st (ep_tracks project)
  end.

(** [getTimelineDuration()] *)
Definition getTimelineDuration (st : Store) : A :=
  let maxTime :=
    match currentProject st with
    | None => nlit 10
    | Some project =>
        fold_left (fun m track =>
                     fold_left (fun m' clip =>
                                  let end_ := start_time clip + duration clip in
                                  if m' <? end_ then end_ else m')
                               (et_clips track) m)
                  (ep_tracks project) (nlit 10)
    end in
  maxTime + nlit 5.





End Editor.

Arguments EditorTrack A : clear implicits.
Arguments EditorProject A : clear implicits.
Arguments Store A : clear implicits.

(* ================================================================== *)
(** ** Sample keyframe lists: the two lists of the specification *)

Definition kfQ (t s : Q) : SpeedKeyframe Q := mkSpeedKf t s.
Definition kfF (t s : float) : SpeedKeyframe float := mkSpeedKf t s.

Definition rampQ : list (SpeedKeyframe Q) := [kfQ 0 1; kfQ 2 3].
Definition holdQ : list (SpeedKeyframe Q) := [kfQ 0 1; kfQ 1 0; kfQ 3 0; kfQ 4 1].
Definition rampF : list (SpeedKeyframe float) := [kfF 0 1; kfF 2 3]%float.
Definition holdF : list (SpeedKeyframe float) :=
  [kfF 0 1; kfF 1 0; kfF 3 0; kfF 4 1]%float.

(* ================================================================== *)
(** ** Rational arithmetic: reflection of the boolean tests *)

Lemma Qle_bool_false (a b : Q) : Qle_bool a b = false -> b < a.
Proof.
  intro H. apply Qnot_le_lt. intro Hle.
  apply Qle_bool_iff in Hle. congruence.
Qed.

Lemma Qltb_true (a b : Q) : Qltb a b = true <-> a < b.
Proof.
  unfold Qltb. rewrite negb_true_iff. split.
  - apply Qle_bool_false.
  - intro H. destruct (Qle_bool b a) eqn:E; [|reflexivity].
    apply Qle_bool_iff in E. apply Qle_not_lt in E. contradiction.
Qed.

Lemma Qltb_false (a b : Q) : Qltb a b = false <-> b <= a.
Proof.
  unfold Qltb. rewrite negb_false_iff. apply Qle_bool_iff.
Qed.

(** Expose the rational operations behind the [Num] interface. *)
Ltac qnum :=
  change (@nadd Q QNum) with Qplus in *;
  change (@nsub Q QNum) with Qminus in *;
  change (@nmul Q QNum) with Qmult in *;
  change (@ndiv Q QNum) with Qdiv in *;
  change (@nleb Q QNum) with Qle_bool in *;
  change (@nltb Q QNum) with Qltb in *;
  change (@neqb Q QNum) with Qeq_bool in *;
  change (@nlit Q QNum 0) with 0%Q in *;
  change (@nlit Q QNum 1) with 1%Q in *;
  change (@nlit Q QNum 2) with 2%Q in *;
  change (@nlit Q QNum 4) with 4%Q in *;
  change (@nlit Q QNum (-1)) with (-1)%Q in *;
  change (@nlit Q QNum) with inject_Z in *;
  change (inject_Z 0) with 0%Q in *;
  change (inject_Z 1) with 1%Q in *;
  change (inject_Z 2) with 2%Q in *;
  change (inject_Z 4) with 4%Q in *;
  change (inject_Z (-1)) with (-1)%Q in *.

(** The same for the planner, with its literals. *)
Ltac qplan :=
  change (@nceil Q QMath) with Qceiling in *;
  change (@nabs Q QMath) with Qabs in *;
  change (@ndiv Q QNum (@nlit Q QNum 1) (@nlit Q QNum 1000)) with (1 # 1000) in *;
  change (@ndiv Q QNum (@nlit Q QNum 1) (@nlit Q QNum 2)) with (1 # 2) in *;
  change (@nlit Q QNum 10000) with 10000%Q in *;
  change (@nlit Q QNum 30) with 30%Q in *;
  change (@ndiv Q QNum (@nlit Q QNum 15) (@nlit Q QNum 100)) with (15 # 100) in *;
  change (@nlit Q QNum 5) with 5%Q in *;
  change (@nlit Q QNum 10) with 10%Q in *;
  change (@nlit Q QNum 20) with 20%Q in *;
  change (@nlit Q QNum 500) with 500%Q in *;
  qnum.

(** Case analysis on a boolean comparison of rationals. *)
Ltac qcase H :=
  match goal with
  | |- context [Qle_bool ?a ?b] =>
      destruct (Qle_bool a b) eqn:H;
      [apply Qle_bool_iff in H | apply Qle_bool_false in H]
  | |- context [Qeq_bool ?a ?b] =>
      destruct (Qeq_bool a b) eqn:H;
      [apply Qeq_bool_iff in H | apply Qeq_bool_neq in H]
  | |- context [Qltb ?a ?b] =>
      destruct (Qltb a b) eqn:H;
      [apply Qltb_true in H | apply Qltb_false in H]
  end.

(* ================================================================== *)
(** ** The sort, over the rationals *)

Section SortFacts.

Local Open Scope Q_scope.

Variable T : Type.
Variable key : T -> Q.
Variable cmp : T -> T -> Q.

(** [l] is in non-decreasing order of [key]. *)
Fixpoint sortedBy (l : list T) : Prop :=
  match l with
  | [] => True
  | x :: r => match r with [] => True | y :: _ => key x <= key y end /\ sortedBy r
  end.

Lemma insertBy_perm (x : T) (l : list T) : Permutation (insertBy cmp x l) (x :: l).
Proof.
  induction l as [|y l IH]; simpl.
  - apply Permutation_refl.
  - match goal with |- context [if ?b then _ else _] => destruct b end.
    + apply Permutation_refl.
    + eapply Permutation_trans; [apply perm_skip, IH | apply perm_swap].
Qed.

Lemma sortBy_perm (l : list T) : Permutation (sortBy cmp l) l.
Proof.
  induction l as [|x l IH]; simpl.
  - apply perm_nil.
  - eapply Permutation_trans; [apply insertBy_perm | apply perm_skip, IH].
Qed.

(** The comparator orders by [key]; how it breaks ties is irrelevant. *)
Hypothesis cmp_le : forall x y, cmp x y <= 0 -> key x <= key y.
Hypothesis cmp_gt : forall x y, 0 < cmp x y -> key y <= key x.

Lemma insertBy_sorted (x : T) (l : list T) :
  sortedBy l -> sortedBy (insertBy cmp x l).
Proof.
  induction l as [|y l IH]; intro Hs; simpl.
  - auto.
  - qnum. qcase E.
    + split; [apply cmp_le; exact E | exact Hs].
    + destruct Hs as [Hy Hs]. specialize (IH Hs).
      split; [|exact IH].
      destruct l as [|z l]; simpl.
      * apply cmp_gt; exact E.
      * simpl in IH. qnum.
        destruct (Qle_bool (cmp x z) 0); [apply cmp_gt; exact E | exact Hy].
Qed.

Lemma sortBy_sorted (l : list T) : sortedBy (sortBy cmp l).
Proof.
  induction l as [|x l IH]; simpl; [exact I | apply insertBy_sorted, IH].
Qed.

End SortFacts.

(* ================================================================== *)
(** ** Monotonicity of [mapClipSourceTime] *)

Section SourceTimeMonotone.

Local Open Scope Q_scope.

(** The keyframe times from [p] on never decrease. *)
Fixpoint timesFrom (p : Q) (kf : list (SpeedKeyframe Q)) : Prop :=
  match kf with
  | [] => True
  | k :: rest => p <= sk_time k /\ timesFrom (sk_time k) rest
  end.

Definition nonNegSpeeds (kf : list (SpeedKeyframe Q)) : Prop :=
  Forall (fun k => 0 <= sk_speed k) kf.

(** The closed form of the partial trapezoid: the area under the speed line
    from [prevTime] to [prevTime + u] in a segment of length [L]. *)
Lemma partial_trapezoid (u L pS kS : Q) :
  ~ L == 0 ->
  u * (pS + (pS + (kS - pS) * (u / L))) / 2 ==
  u * pS + (kS - pS) * (u * u) / (2 * L).
Proof.
  intro HL. field. exact HL.
Qed.

Lemma partial_trapezoid_mono (u1 u2 L pS kS : Q) :
  0 < L -> 0 <= u1 -> u1 <= u2 -> u2 <= L -> 0 <= pS -> 0 <= kS ->
  u1 * (pS + (pS + (kS - pS) * (u1 / L))) / 2 <=
  u2 * (pS + (pS + (kS - pS) * (u2 / L))) / 2.
Proof.
  intros HL H1 H12 H2 HpS HkS.
  assert (HL0 : ~ L == 0) by lra.
  rewrite !partial_trapezoid by exact HL0.
  (* difference = (u2-u1) * ((2L - (u1+u2)) pS + (u1+u2) kS) / (2L) *)
  assert (E : u2 * pS + (kS - pS) * (u2 * u2) / (2 * L)
              - (u1 * pS + (kS - pS) * (u1 * u1) / (2 * L))
              == (u2 - u1) * ((2 * L - (u1 + u2)) * pS + (u1 + u2) * kS) / (2 * L)).
  { field. exact HL0. }
  assert (P : 0 <= (u2 - u1) * ((2 * L - (u1 + u2)) * pS + (u1 + u2) * kS) / (2 * L)).
  { apply Qle_shift_div_l; [lra|].
    rewrite Qmult_0_l. apply Qmult_le_0_compat; [lra|].
    assert (0 <= (2 * L - (u1 + u2)) * pS) by (apply Qmult_le_0_compat; lra).
    assert (0 <= (u1 + u2) * kS) by (apply Qmult_le_0_compat; lra).
    lra. }
  lra.
Qed.

Lemma Qhalf_nonneg (x : Q) : 0 <= x -> 0 <= x / 2.
Proof.
  intro H. apply Qle_shift_div_l; lra.
Qed.

Lemma full_trapezoid (L pS kS : Q) :
  ~ L == 0 ->
  L * (pS + (pS + (kS - pS) * (L / L))) / 2 == L * (pS + kS) / 2.
Proof.
  intro HL. field. exact HL.
Qed.

(** One step of the loop, at a time inside the current segment. *)
Lemma partial_step_bounds (u L pS kS : Q) :
  0 <= u -> u <= L -> 0 <= pS -> 0 <= kS ->
  let v := if Qeq_bool L 0 then pS * u
           else u * (pS + (pS + (kS - pS) * (u / L))) / 2 in
  0 <= v /\ v <= L * (pS + kS) / 2.
Proof.
  intros Hu HuL HpS HkS. cbv zeta.
  qcase E.
  - assert (u == 0) by lra. rewrite H, E.
    setoid_replace (0 * (pS + kS) / 2) with 0 by field. split; lra.
  - assert (HL : 0 < L) by lra.
    split.
    + pose proof (@partial_trapezoid_mono 0 u L pS kS HL) as M.
      assert (Z : 0 * (pS + (pS + (kS - pS) * (0 / L))) / 2 == 0) by (field; lra).
      rewrite Z in M. apply M; lra.
    + rewrite <- (@full_trapezoid L pS kS) by exact E.
      apply partial_trapezoid_mono; lra.
Qed.

Lemma integrateFrom_ge (kf : list (SpeedKeyframe Q)) :
  forall t acc pT pS,
    timesFrom pT kf -> pT <= t -> 0 <= pS -> nonNegSpeeds kf ->
    acc <= integrateFrom t kf acc pT pS.
Proof.
  induction kf as [|k rest IH]; intros t acc pT pS Hs Ht HpS Hn; simpl; qnum.
  - assert (0 <= (t - pT) * pS) by (apply Qmult_le_0_compat; lra). lra.
  - destruct Hs as [Hk Hs]. inversion Hn as [|? ? HkS Hn']; subst.
    qcase E.
    + pose proof (@partial_step_bounds (t - pT) (sk_time k - pT) pS (sk_speed k)) as B.
      cbv zeta in B. destruct B as [B _]; try lra.
      destruct (Qeq_bool (sk_time k - pT) 0); lra.
    + eapply Qle_trans; [|apply IH; try assumption; lra].
      assert (H : 0 <= (sk_time k - pT) * (pS + sk_speed k))
        by (apply Qmult_le_0_compat; lra).
      apply Qhalf_nonneg in H. lra.
Qed.

Lemma integrateFrom_mono (kf : list (SpeedKeyframe Q)) :
  forall t1 t2 acc pT pS,
    timesFrom pT kf -> pT <= t1 -> t1 <= t2 -> 0 <= pS -> nonNegSpeeds kf ->
    integrateFrom t1 kf acc pT pS <= integrateFrom t2 kf acc pT pS.
Proof.
  induction kf as [|k rest IH]; intros t1 t2 acc pT pS Hs H1 H12 HpS Hn;
    simpl; qnum.
  - assert (0 <= (t2 - t1) * pS) by (apply Qmult_le_0_compat; lra). lra.
  - destruct Hs as [Hk Hs]. inversion Hn as [|? ? HkS Hn']; subst.
    qcase E1.
    + (* t1 lies in the current segment *)
      destruct (Qle_bool t2 (sk_time k)) eqn:E2;
        [apply Qle_bool_iff in E2 | apply Qle_bool_false in E2].
      * (* and so does t2 *)
        qcase EL.
        -- assert (t1 == t2) by lra. rewrite H. lra.
        -- apply Qplus_le_r. apply partial_trapezoid_mono; lra.
      * (* t2 is past it *)
        pose proof (@partial_step_bounds (t1 - pT) (sk_time k - pT) pS (sk_speed k)) as B.
        cbv zeta in B. destruct B as [_ B]; try lra.
        eapply Qle_trans; [|apply integrateFrom_ge; try assumption; lra].
        destruct (Qeq_bool (sk_time k - pT) 0); lra.
    + (* t1 is past the current segment, hence so is t2 *)
      destruct (Qle_bool t2 (sk_time k)) eqn:E2;
        [apply Qle_bool_iff in E2; lra | apply Qle_bool_false in E2].
      apply IH; try assumption; lra.
Qed.

Lemma bySpeedKfTime_le (x y : SpeedKeyframe Q) :
  bySpeedKfTime x y <= 0 -> sk_time x <= sk_time y.
Proof. unfold bySpeedKfTime; qnum; lra. Qed.

Lemma bySpeedKfTime_gt (x y : SpeedKeyframe Q) :
  0 < bySpeedKfTime x y -> sk_time y <= sk_time x.
Proof. unfold bySpeedKfTime; qnum; lra. Qed.

Lemma sorted_timesFrom (kf : list (SpeedKeyframe Q)) :
  forall p,
    sortedBy (@sk_time Q) kf ->
    match kf with [] => True | k :: _ => p <= sk_time k end ->
    timesFrom p kf.
Proof.
  induction kf as [|k rest IH]; intros p Hs Hp; simpl; [exact I|].
  destruct Hs as [Hk Hs]. split; [exact Hp|].
  apply IH; [exact Hs|]. destruct rest; [exact I | exact Hk].
Qed.

Lemma sorted_speeds_nonneg (kfs : list (SpeedKeyframe Q)) :
  nonNegSpeeds kfs -> nonNegSpeeds (sortBy bySpeedKfTime kfs).
Proof.
  unfold nonNegSpeeds. intro H.
  eapply Permutation_Forall; [|exact H].
  apply Permutation_sym, sortBy_perm.
Qed.

End SourceTimeMonotone.

(** C2, amended: evaluated in exact arithmetic, with non-negative keyframe
    speeds the source time never goes backwards: [0 <= t1 <= t2] gives
    [mapClipSourceTime t1 kfs <= mapClipSourceTime t2 kfs], hold segments
    included. *)
Theorem mapClipSourceTime_monotone (kfs : list (SpeedKeyframe Q)) (t1 t2 : Q) :
  nonNegSpeeds kfs -> (0 <= t1)%Q -> (t1 <= t2)%Q ->
  (mapClipSourceTime t1 kfs <= mapClipSourceTime t2 kfs)%Q.
Proof.
  intros Hn H0 H12. unfold mapClipSourceTime.
  pose proof (sorted_speeds_nonneg Hn) as Hn'.
  pose proof (sortBy_sorted (@sk_time Q) bySpeedKfTime
                bySpeedKfTime_le bySpeedKfTime_gt kfs) as Hs.
  destruct (sortBy bySpeedKfTime kfs) as [|k0 rest]; [exact H12|].
  assert (Hk0 : (0 <= sk_speed k0)%Q) by (inversion Hn'; assumption).
  qnum.
  destruct (Qlt_le_dec (sk_time k0) 0) as [Hneg|Hpos].
  - (* the first keyframe lies before the clip start: both times are past it *)
    simpl; qnum.
    destruct (Qle_bool t1 (sk_time k0)) eqn:E1;
      [apply Qle_bool_iff in E1; lra|].
    destruct (Qle_bool t2 (sk_time k0)) eqn:E2;
      [apply Qle_bool_iff in E2; lra|].
    destruct Hs as [Hk Hs].
    apply integrateFrom_mono; try assumption; try lra.
    + apply sorted_timesFrom; [exact Hs|]. destruct rest; [exact I | exact Hk].
    + inversion Hn'; assumption.
  - apply integrateFrom_mono; try assumption.
    apply sorted_timesFrom; [exact Hs | exact Hpos].
Qed.

Lemma mapClipSourceTime_monotone_witness :
  (mapClipSourceTime 1 holdQ <= mapClipSourceTime 2 holdQ)%Q.
Proof.
  apply mapClipSourceTime_monotone.
  - repeat constructor; simpl; lra.
  - lra.
  - lra.
Defined.

(** C2, as stated, fails on the code's own arithmetic.  In binary64 the
    keyframes [{1, 0.5}, {2.5, 0}], whose speeds are non-negative, give at
    2.375000000000001 a value one unit in the last place below the value at
    2.375 (0.8723958333333333 against 0.8723958333333334): rounding moves
    the computed source time back.  (The repository's monotonicity test
    compares with a tolerance of 0.0001.) *)
Lemma mapClipSourceTime_monotone_counterexample :
  let kf := [kfF 1 0.5; kfF 2.5 0]%float in
  let t1 := 0x1.3p+1%float in
  let t2 := 0x1.3000000000002p+1%float in
  (forallb (fun k => nlit 0 <=? sk_speed k) kf = true /\
   (nlit 0 <=? t1) = true /\ (t1 <=? t2) = true /\
   mapClipSourceTime t1 kf = 0x1.beaaaaaaaaaabp-1%float /\
   mapClipSourceTime t2 kf = 0x1.beaaaaaaaaaaap-1%float /\
   (mapClipSourceTime t1 kf <=? mapClipSourceTime t2 kf) = false)%num.
Proof. cbv zeta. repeat split; vm_compute; reflexivity. Qed.

(* ================================================================== *)
(** ** Permutations of the keyframe list *)

Section SortUnique.

Local Open Scope Q_scope.

Variable T : Type.
Variable key : T -> Q.

(** The comparator [(a, b) => a.time - b.time]. *)
Definition byKey (a b : T) : Q := (key a - key b)%num.

(** No two elements of [l] have the same key. *)
Fixpoint distinctBy (l : list T) : Prop :=
  match l with
  | [] => True
  | x :: r => Forall (fun y => ~ key x == key y) r /\ distinctBy r
  end.

Lemma byKey_true (x y : T) : Qle_bool (byKey x y) 0 = true -> key x <= key y.
Proof. intro H. apply Qle_bool_iff in H. unfold byKey in H. qnum. lra. Qed.

Lemma byKey_false (x y : T) : Qle_bool (byKey x y) 0 = false -> key y < key x.
Proof. intro H. apply Qle_bool_false in H. unfold byKey in H. qnum. lra. Qed.

Ltac order_facts :=
  repeat match goal with
         | H : Qle_bool (byKey _ _) 0 = true |- _ => apply byKey_true in H
         | H : Qle_bool (byKey _ _) 0 = false |- _ => apply byKey_false in H
         end.

Lemma insertBy_comm (x y : T) (l : list T) :
  ~ key x == key y ->
  insertBy byKey x (insertBy byKey y l) = insertBy byKey y (insertBy byKey x l).
Proof.
  intro Hxy. induction l as [|a l IH]; simpl; qnum.
  - destruct (Qle_bool (byKey x y) 0) eqn:Exy;
    destruct (Qle_bool (byKey y x) 0) eqn:Eyx;
    try reflexivity; order_facts; exfalso; apply Hxy; lra.
  - destruct (Qle_bool (byKey y a) 0) eqn:Eya;
    destruct (Qle_bool (byKey x a) 0) eqn:Exa;
    simpl; qnum; rewrite ?Eya, ?Exa;
    destruct (Qle_bool (byKey x y) 0) eqn:Exy;
    destruct (Qle_bool (byKey y x) 0) eqn:Eyx;
    simpl; qnum; rewrite ?Eya, ?Exa;
    try reflexivity; try (f_equal; exact IH);
    order_facts; exfalso; try (apply Hxy; lra); lra.
Qed.

Lemma distinctBy_perm (l l' : list T) :
  Permutation l l' -> distinctBy l -> distinctBy l'.
Proof.
  induction 1 as [|x l l' HP IH|x y l|l l' l'' HP1 IH1 HP2 IH2]; simpl.
  - auto.
  - intros [Hx Hd]. split; [|auto]. eapply Permutation_Forall; eassumption.
  - intros [Hy [Hx Hd]]. inversion Hy as [|? ? Hyx Hyl]; subst.
    repeat split; try assumption.
    constructor; [|assumption]. intro E. apply Hyx. symmetry. exact E.
  - auto.
Qed.

Lemma sortBy_perm_eq (l l' : list T) :
  Permutation l l' -> distinctBy l -> sortBy byKey l = sortBy byKey l'.
Proof.
  induction 1 as [|x l l' HP IH|x y l|l l' l'' HP1 IH1 HP2 IH2]; simpl.
  - reflexivity.
  - intros [_ Hd]. rewrite IH by exact Hd. reflexivity.
  - intros [Hy _]. inversion Hy as [|? ? Hyx _]; subst.
    apply insertBy_comm. exact Hyx.
  - intro Hd. rewrite IH1 by exact Hd. apply IH2.
    eapply distinctBy_perm; eassumption.
Qed.

End SortUnique.

(* ================================================================== *)
(** ** The timeline evaluator *)

Section Evaluator.

Local Open Scope Q_scope.

Lemma clipActive_iff (t : Q) (c : Clip Q) :
  clipActive t c = true <->
  start_time c <= t /\ t < start_time c + duration c.
Proof.
  unfold clipActive. cbv zeta. qnum.
  rewrite negb_true_iff, orb_false_iff, Qltb_false.
  split.
  - intros [H1 H2]. split; [exact H1 | apply Qle_bool_false; exact H2].
  - intros [H1 H2]. split; [exact H1|].
    destruct (Qle_bool (start_time c + duration c) t) eqn:E; [|reflexivity].
    apply Qle_bool_iff in E. lra.
Qed.

Lemma evalClip_inactive (t : Q) (ty : TrackType) (r : EvalResult Q) (c : Clip Q) :
  clipActive t c = false -> evalClip t ty r c = r.
Proof.
  intro H. unfold evalClip. rewrite H. reflexivity.
Qed.

Lemma fold_evalClip_active (t : Q) (ty : TrackType) (cs : list (Clip Q)) :
  forall r,
    fold_left (evalClip t ty) cs r =
    fold_left (evalClip t ty) (filter (clipActive t) cs) r.
Proof.
  induction cs as [|c cs IH]; intro r; simpl; [reflexivity|].
  destruct (clipActive t c) eqn:E; simpl.
  - apply IH.
  - rewrite evalClip_inactive by exact E. apply IH.
Qed.

(** The project restricted to the clips whose extent contains [t]. *)
Definition activeTrack (t : Q) (tr : Track Q) : Track Q :=
  {| track_type := track_type tr; clips := filter (clipActive t) (clips tr) |}.

Definition activePart (t : Q) (p : Project Q) : Project Q :=
  {| tracks := map (activeTrack t) (tracks p) |}.

Lemma fold_evalTrack_active (t : Q) (trs : list (Track Q)) :
  forall r,
    fold_left (evalTrack t) trs r =
    fold_left (evalTrack t) (map (activeTrack t) trs) r.
Proof.
  induction trs as [|tr trs IH]; intro r; simpl; [reflexivity|].
  rewrite IH. f_equal. unfold evalTrack. simpl.
  apply fold_evalClip_active.
Qed.

Lemma fold_evalClip_none_active (t : Q) (ty : TrackType) (cs : list (Clip Q)) :
  forall r,
    (forall c, In c cs -> clipActive t c = false) ->
    fold_left (evalClip t ty) cs r = r.
Proof.
  induction cs as [|c cs IH]; intros r H; simpl; [reflexivity|].
  rewrite evalClip_inactive by (apply H; left; reflexivity).
  apply IH. intros c' Hc'. apply H. right. exact Hc'.
Qed.

Lemma fold_evalTrack_none_active (t : Q) (trs : list (Track Q)) :
  forall r,
    (forall tr c, In tr trs -> In c (clips tr) -> clipActive t c = false) ->
    fold_left (evalTrack t) trs r = r.
Proof.
  induction trs as [|tr trs IH]; intros r H; simpl; [reflexivity|].
  unfold evalTrack at 2.
  rewrite fold_evalClip_none_active
    by (intros c Hc; apply (H tr c); [left; reflexivity | exact Hc]).
  apply IH. intros tr' c Htr Hc. apply (H tr' c); [right; exact Htr | exact Hc].
Qed.

End Evaluator.

Section VideoSlots.

Local Open Scope Q_scope.

Definition trackTypeEqb (a b : TrackType) : bool :=
  match a, b with
  | VIDEO_A, VIDEO_A | VIDEO_B, VIDEO_B | OVERLAY_TEXT, OVERLAY_TEXT
  | OVERLAY_IMAGE, OVERLAY_IMAGE | AUDIO, AUDIO => true
  | _, _ => false
  end.

(** The result field written for a video track of type [ty]. *)
Definition videoSlot (ty : TrackType) (r : EvalResult Q) : option (VideoEntry Q) :=
  match ty with
  | VIDEO_A => videoA r
  | VIDEO_B => videoB r
  | _ => None
  end.

Definition isVideo (ty : TrackType) : bool :=
  match ty with VIDEO_A | VIDEO_B => true | _ => false end.

Fixpoint lastOpt {X : Type} (l : list X) : option X :=
  match l with
  | [] => None
  | x :: r => match lastOpt r with Some y => Some y | None => Some x end
  end.

Definition orElse {X : Type} (a b : option X) : option X :=
  match a with Some _ => a | None => b end.

(** The entry of the last clip of [cs] that is active at [t]. *)
Definition lastActiveEntry (t : Q) (cs : list (Clip Q)) : option (VideoEntry Q) :=
  lastOpt (map (videoEntryOf t) (filter (clipActive t) cs)).

Lemma lastOpt_app {X : Type} (l1 l2 : list X) :
  lastOpt (l1 ++ l2) = orElse (lastOpt l2) (lastOpt l1).
Proof.
  induction l1 as [|x l1 IH]; simpl.
  - destruct (lastOpt l2); reflexivity.
  - rewrite IH. destruct (lastOpt l2), (lastOpt l1); reflexivity.
Qed.

Lemma videoSlot_evalClip (t : Q) (ty ty' : TrackType) (r : EvalResult Q) (c : Clip Q) :
  isVideo ty = true ->
  videoSlot ty (evalClip t ty' r c) =
  if trackTypeEqb ty ty' && clipActive t c then Some (videoEntryOf t c)
  else videoSlot ty r.
Proof.
  intro Hv. unfold evalClip.
  destruct (clipActive t c); [|rewrite andb_false_r; reflexivity].
  destruct ty; try discriminate; destruct ty'; reflexivity.
Qed.

Lemma videoSlot_track (t : Q) (ty : TrackType) (tr : Track Q) :
  isVideo ty = true ->
  forall r,
    videoSlot ty (evalTrack t r tr) =
    if trackTypeEqb ty (track_type tr)
    then orElse (lastActiveEntry t (clips tr)) (videoSlot ty r)
    else videoSlot ty r.
Proof.
  intro Hv. unfold evalTrack, lastActiveEntry.
  induction (clips tr) as [|c cs IH]; intro r; simpl.
  - destruct (trackTypeEqb ty (track_type tr)); reflexivity.
  - rewrite IH, videoSlot_evalClip by exact Hv.
    destruct (trackTypeEqb ty (track_type tr)); simpl; [|reflexivity].
    destruct (clipActive t c); simpl; [|reflexivity].
    destruct (lastOpt (map (videoEntryOf t) (filter (clipActive t) cs)));
      reflexivity.
Qed.

(** The clips of all tracks of type [ty], in track order. *)
Definition clipsOfType (ty : TrackType) (trs : list (Track Q)) : list (Clip Q) :=
  flat_map (@clips Q) (filter (fun tr => trackTypeEqb ty (track_type tr)) trs).

Lemma lastActiveEntry_app (t : Q) (cs1 cs2 : list (Clip Q)) :
  lastActiveEntry t (cs1 ++ cs2) =
  orElse (lastActiveEntry t cs2) (lastActiveEntry t cs1).
Proof.
  unfold lastActiveEntry. rewrite filter_app, map_app. apply lastOpt_app.
Qed.

Lemma videoSlot_tracks (t : Q) (ty : TrackType) (trs : list (Track Q)) :
  isVideo ty = true ->
  forall r,
    videoSlot ty (fold_left (evalTrack t) trs r) =
    orElse (lastActiveEntry t (clipsOfType ty trs)) (videoSlot ty r).
Proof.
  intro Hv. unfold clipsOfType.
  induction trs as [|tr trs IH]; intro r; simpl; [reflexivity|].
  rewrite IH, videoSlot_track by exact Hv.
  destruct (trackTypeEqb ty (track_type tr)); simpl; [|reflexivity].
  rewrite lastActiveEntry_app.
  destruct (lastActiveEntry t (flat_map (@clips Q) _)); reflexivity.
Qed.

Lemma audio_fold_clips (t : Q) (ty : TrackType) (cs : list (Clip Q)) :
  forall r, audio (fold_left (evalClip t ty) cs r) = audio r.
Proof.
  induction cs as [|c cs IH]; intro r; simpl; [reflexivity|].
  rewrite IH. unfold evalClip.
  destruct (clipActive t c); [destruct ty|]; reflexivity.
Qed.

Lemma audio_fold_tracks (t : Q) (trs : list (Track Q)) :
  forall r, audio (fold_left (evalTrack t) trs r) = audio r.
Proof.
  induction trs as [|tr trs IH]; intro r; simpl; [reflexivity|].
  rewrite IH. apply audio_fold_clips.
Qed.

End VideoSlots.

Section OverlaySlots.

Local Open Scope Q_scope.

(** The overlay list written for an overlay track of type [ty]. *)
Definition overlaySlot (ty : TrackType) (r : EvalResult Q) : list (OverlayEntry Q) :=
  match ty with
  | OVERLAY_TEXT => overlayTexts r
  | OVERLAY_IMAGE => overlayImages r
  | _ => []
  end.

Definition isOverlay (ty : TrackType) : bool :=
  match ty with OVERLAY_TEXT | OVERLAY_IMAGE => true | _ => false end.

(** The entries of the clips of [cs] that are active at [t], in order. *)
Definition activeOverlays (t : Q) (cs : list (Clip Q)) : list (OverlayEntry Q) :=
  map (overlayEntryOf t) (filter (clipActive t) cs).

Lemma overlaySlot_track (t : Q) (ty : TrackType) (tr : Track Q) :
  isOverlay ty = true ->
  forall r,
    overlaySlot ty (evalTrack t r tr) =
    (overlaySlot ty r ++
     if trackTypeEqb ty (track_type tr) then activeOverlays t (clips tr) else [])%list.
Proof.
  intro Ho. unfold evalTrack, activeOverlays.
  induction (clips tr) as [|c cs IH]; intro r; simpl.
  - destruct (trackTypeEqb ty (track_type tr)); rewrite app_nil_r; reflexivity.
  - rewrite IH. unfold evalClip.
    destruct (clipActive t c) eqn:Ec.
    + destruct ty; try discriminate; destruct (track_type tr); simpl;
        rewrite <- ?app_assoc; reflexivity.
    + reflexivity.
Qed.

Lemma overlaySlot_tracks (t : Q) (ty : TrackType) (trs : list (Track Q)) :
  isOverlay ty = true ->
  forall r,
    overlaySlot ty (fold_left (evalTrack t) trs r) =
    (overlaySlot ty r ++ activeOverlays t (clipsOfType ty trs))%list.
Proof.
  intro Ho. unfold clipsOfType, activeOverlays.
  induction trs as [|tr trs IH]; intro r; simpl.
  - rewrite app_nil_r. reflexivity.
  - rewrite IH, overlaySlot_track by exact Ho.
    destruct (trackTypeEqb ty (track_type tr)); simpl.
    + unfold activeOverlays. rewrite filter_app, map_app, app_assoc. reflexivity.
    + rewrite app_nil_r. reflexivity.
Qed.

End OverlaySlots.

(* ================================================================== *)
(** * The claims about the time engine *)

(** C1: on the ramp [{0,1},{2,3}] the source time is 1.5 at 1 and 4.0 at 2;
    on the hold list [{0,1},{1,0},{3,0},{4,1}] it is 0.5 at 1, 2 and 3 and
    1.0 at 4.  The values are exact both in rational arithmetic and in
    binary64 floating point. *)
Theorem mapClipSourceTime_ramp_and_hold_values :
  (mapClipSourceTime 1 rampQ == 3 # 2 /\
   mapClipSourceTime 2 rampQ == 4 /\
   mapClipSourceTime 1 holdQ == 1 # 2 /\
   mapClipSourceTime 2 holdQ == 1 # 2 /\
   mapClipSourceTime 3 holdQ == 1 # 2 /\
   mapClipSourceTime 4 holdQ == 1)%Q /\
  (mapClipSourceTime 1 rampF = 1.5 /\
   mapClipSourceTime 2 rampF = 4 /\
   mapClipSourceTime 1 holdF = 0.5 /\
   mapClipSourceTime 2 holdF = 0.5 /\
   mapClipSourceTime 3 holdF = 0.5 /\
   mapClipSourceTime 4 holdF = 1)%float.
Proof.
  split; repeat split; vm_compute; reflexivity.
Qed.

(** The cases of the repository's own tests ([timeEngine.test.js],
    [editFlow.test.js]), as a check of the embedding. *)

Example test_speed_ramp :
  let kf := [kfF 0 1; kfF 2 2; kfF 4 1]%float in
  (mapClipSourceTime 0 kf = 0 /\ mapClipSourceTime 1 kf = 1.25 /\
   mapClipSourceTime 2 kf = 3 /\ mapClipSourceTime 3 kf = 4.75 /\
   mapClipSourceTime 4 kf = 6 /\ mapClipSourceTime 5 kf = 7)%float.
Proof. cbv zeta. repeat split; vm_compute; reflexivity. Qed.

Example test_hold :
  (mapClipSourceTime 0 holdF = 0 /\ mapClipSourceTime 3.5 holdF = 0.625)%float.
Proof. split; vm_compute; reflexivity. Qed.

Example test_basic_edit_flow :
  let kf := [kfQ 0 1; kfQ 3 3; kfQ 6 1] in
  mapClipSourceTime 0 kf == 0 /\ mapClipSourceTime 3 kf == 6 /\
  mapClipSourceTime 6 kf == 12.
Proof. cbv zeta. repeat split; vm_compute; reflexivity. Qed.

Definition testOverlayKfs (easing : option string) : list (OverlayKeyframe Q) :=
  [ mkOverlayKf 0 0 0 (Some 1) None None None 0 1 easing;
    mkOverlayKf 10 100 0 (Some 1) None None None 0 1 None ].

Example test_easing :
  tr_x (interpolateOverlay 5 (testOverlayKfs (Some "linear"))) == 50 /\
  tr_x (interpolateOverlay 5 (testOverlayKfs (Some "easeIn"))) == 25 /\
  tr_x (interpolateOverlay 5 (testOverlayKfs (Some "easeOut"))) == 75 /\
  tr_x (interpolateOverlay 5 (testOverlayKfs (Some "easeInOut"))) == 50 /\
  tr_x (interpolateOverlay (5 # 2) (testOverlayKfs (Some "easeInOut"))) == 25 # 2.
Proof. repeat split; vm_compute; reflexivity. Qed.

Definition testProject : Project Q :=
  {| tracks :=
       [ {| track_type := VIDEO_A;
            clips := [ {| clip_id := "clip1"; asset_id := Some "asset1";
                          start_time := 0; duration := 5; in_point := 0;
                          out_point := 5;
                          speedKeyframes := [kfQ 0 1; kfQ 2 2];
                          overlayKeyframes := []; properties := [] |} ] |};
         {| track_type := OVERLAY_TEXT;
            clips := [ {| clip_id := "text1"; asset_id := None;
                          start_time := 1; duration := 3; in_point := 0;
                          out_point := 3; speedKeyframes := [];
                          overlayKeyframes :=
                            [ mkOverlayKf 0 0 0 (Some 1) None (Some 1) None 0 0 None;
                              mkOverlayKf 3 100 100 (Some 2) None (Some 2) None 45 1
                                          None ];
                          properties := [("text", PStr "Hello")] |} ] |} ] |}.

Example test_evaluateTimeline :
  let r := evaluateTimeline (Some testProject) (5 # 2) in
  option_map (@ve_clipId Q) (videoA r) = Some "clip1" /\
  (exists e, overlayTexts r = [e] /\
             tr_x (oe_transform e) == 50 /\ tr_opacity (oe_transform e) == 1 # 2) /\
  videoA (evaluateTimeline (Some testProject) 6) = None.
Proof.
  cbv zeta. split; [reflexivity|]. split; [|reflexivity].
  eexists. split; [reflexivity|]. split; vm_compute; reflexivity.
Qed.

Definition plainClip (id : string) (asset : option string) (start dur inp : Q)
           (kfs : list (SpeedKeyframe Q)) : Clip Q :=
  {| clip_id := id; asset_id := asset; start_time := start; duration := dur;
     in_point := inp; out_point := inp + dur; speedKeyframes := kfs;
     overlayKeyframes := []; properties := [] |}.

(** Two abutting clips on VIDEO_A, [0,2) and [2,5). *)
Definition abutA : Clip Q := plainClip "a" (Some "asset1") 0 2 0 [].
Definition abutB : Clip Q := plainClip "b" (Some "asset1") 2 3 0 [].
Definition abutProject : Project Q :=
  {| tracks := [ {| track_type := VIDEO_A; clips := [abutA; abutB] |} ] |}.

Lemma lastOpt_In {X : Type} (l : list X) (x : X) : lastOpt l = Some x -> In x l.
Proof.
  induction l as [|a l IH]; simpl; [discriminate|].
  destruct (lastOpt l) as [y|].
  - intro H. right. apply IH. exact H.
  - intro H. injection H as <-. left. reflexivity.
Qed.

Lemma lastOpt_none {X : Type} (l : list X) : lastOpt l = None -> l = [].
Proof.
  destruct l as [|a l]; [reflexivity|]. simpl.
  destruct (lastOpt l); discriminate.
Qed.

(** The entry in the field of a video type comes from a clip of that type
    whose extent contains [t], and there is one as soon as such a clip
    exists. *)
Lemma videoSlot_from_active (p : Project Q) (t : Q) (ty : TrackType) :
  isVideo ty = true ->
  (forall e, videoSlot ty (evaluateTimeline (Some p) t) = Some e ->
             exists c, In c (clipsOfType ty (tracks p)) /\
                       clipActive t c = true /\ e = videoEntryOf t c) /\
  (forall c, In c (clipsOfType ty (tracks p)) -> clipActive t c = true ->
             videoSlot ty (evaluateTimeline (Some p) t) <> None).
Proof.
  intro Hv. cbn [evaluateTimeline]. rewrite videoSlot_tracks by exact Hv.
  assert (Hnone : videoSlot ty (@emptyResult Q) = None) by (destruct ty; reflexivity).
  rewrite Hnone. unfold lastActiveEntry. split.
  - intros e He.
    assert (He' : lastOpt (map (videoEntryOf t)
                               (filter (clipActive t) (clipsOfType ty (tracks p))))
                  = Some e).
    { destruct (lastOpt (map (videoEntryOf t)
                             (filter (clipActive t) (clipsOfType ty (tracks p)))));
        [exact He | discriminate He]. }
    apply lastOpt_In, in_map_iff in He'. destruct He' as (c & <- & Hc).
    apply filter_In in Hc. destruct Hc as [Hin Hact].
    exists c. split; [exact Hin|]. split; [exact Hact | reflexivity].
  - intros c Hin Hact Hn.
    assert (Hn' : lastOpt (map (videoEntryOf t)
                               (filter (clipActive t) (clipsOfType ty (tracks p))))
                  = None).
    { destruct (lastOpt (map (videoEntryOf t)
                             (filter (clipActive t) (clipsOfType ty (tracks p)))));
        [discriminate Hn | reflexivity]. }
    apply lastOpt_none, map_eq_nil in Hn'.
    assert (Hf : In c (filter (clipActive t) (clipsOfType ty (tracks p))))
      by (apply filter_In; split; assumption).
    rewrite Hn' in Hf. exact Hf.
Qed.

(** The entries in the list of an overlay type are those of the clips of
    that type whose extent contains [t]. *)
Lemma overlaySlot_from_active (p : Project Q) (t : Q) (ty : TrackType) :
  isOverlay ty = true ->
  forall e, In e (overlaySlot ty (evaluateTimeline (Some p) t)) <->
            exists c, In c (clipsOfType ty (tracks p)) /\
                      clipActive t c = true /\ e = overlayEntryOf t c.
Proof.
  intros Ho e. cbn [evaluateTimeline]. rewrite overlaySlot_tracks by exact Ho.
  assert (Hnil : overlaySlot ty (@emptyResult Q) = []) by (destruct ty; reflexivity).
  rewrite Hnil, app_nil_l. unfold activeOverlays. rewrite in_map_iff. split.
  - intros (c & <- & Hc). apply filter_In in Hc. destruct Hc as [Hin Hact].
    exists c. split; [exact Hin|]. split; [exact Hact | reflexivity].
  - intros (c & Hin & Hact & ->). exists c. split; [reflexivity|].
    apply filter_In. split; assumption.
Qed.

(** A track that holds the two clips [c1; c2]. *)
Definition pairProject (ty : TrackType) (c1 c2 : Clip Q) : Project Q :=
  {| tracks := [ {| track_type := ty; clips := [c1; c2] |} ] |}.

(** C4: a clip is active exactly on the half-open interval
    [start_time <= t < start_time + duration].  The result of
    [evaluateTimeline] is determined by the clips that are active: the entry
    of a video field is that of a clip of that track type whose extent
    contains [t], and there is an entry as soon as such a clip exists; the
    entries of an overlay list are exactly those of the clips of that type
    whose extent contains [t].  At the boundary shared by two abutting
    clips of a track only the later one is active, and the result holds the
    entry of the later one and no other.  When [t] lies in no clip's extent
    the result is the empty one (video fields null, overlay lists empty). *)
Theorem evaluateTimeline_half_open (p : Project Q) (t : Q) :
  (forall c, clipActive t c = true <->
             start_time c <= t /\ t < start_time c + duration c) /\
  evaluateTimeline (Some p) t = evaluateTimeline (Some (activePart t p)) t /\
  (forall ty, isVideo ty = true ->
     (forall e, videoSlot ty (evaluateTimeline (Some p) t) = Some e ->
        exists c, In c (clipsOfType ty (tracks p)) /\
                  (start_time c <= t /\ t < start_time c + duration c) /\
                  e = videoEntryOf t c) /\
     (forall c, In c (clipsOfType ty (tracks p)) ->
                start_time c <= t /\ t < start_time c + duration c ->
                videoSlot ty (evaluateTimeline (Some p) t) <> None)) /\
  (forall ty, isOverlay ty = true ->
     forall e, In e (overlaySlot ty (evaluateTimeline (Some p) t)) <->
        exists c, In c (clipsOfType ty (tracks p)) /\
                  (start_time c <= t /\ t < start_time c + duration c) /\
                  e = overlayEntryOf t c) /\
  (forall c1 c2,
      start_time c2 == start_time c1 + duration c1 -> 0 < duration c2 ->
      t == start_time c2 ->
      (clipActive t c1 = false /\ clipActive t c2 = true) /\
      (forall ty, isVideo ty = true ->
         videoSlot ty (evaluateTimeline (Some (pairProject ty c1 c2)) t)
         = Some (videoEntryOf t c2)) /\
      (forall ty, isOverlay ty = true ->
         overlaySlot ty (evaluateTimeline (Some (pairProject ty c1 c2)) t)
         = [overlayEntryOf t c2])) /\
  ((forall tr c, In tr (tracks p) -> In c (clips tr) ->
                 ~ (start_time c <= t /\ t < start_time c + duration c)) ->
   evaluateTimeline (Some p) t = emptyResult).
Proof.
  split; [apply clipActive_iff|].
  split; [apply fold_evalTrack_active|].
  split.
  { intros ty Hv. destruct (@videoSlot_from_active p t ty Hv) as [H1 H2]. split.
    - intros e He. destruct (H1 e He) as (c & Hin & Hact & ->).
      exists c. split; [exact Hin|].
      split; [apply clipActive_iff; exact Hact | reflexivity].
    - intros c Hin Hext. apply (H2 c Hin). apply clipActive_iff. exact Hext. }
  split.
  { intros ty Ho e. rewrite (@overlaySlot_from_active p t ty Ho e). split.
    - intros (c & Hin & Hact & ->). exists c. split; [exact Hin|].
      split; [apply clipActive_iff; exact Hact | reflexivity].
    - intros (c & Hin & Hext & ->). exists c. split; [exact Hin|].
      split; [apply clipActive_iff; exact Hext | reflexivity]. }
  split.
  - intros c1 c2 Hab Hd Ht.
    assert (H1 : clipActive t c1 = false).
    { destruct (clipActive t c1) eqn:E; [|reflexivity].
      apply clipActive_iff in E. lra. }
    assert (H2 : clipActive t c2 = true) by (apply clipActive_iff; lra).
    split; [split; assumption|]. split.
    + intros ty Hv. unfold pairProject. cbn [evaluateTimeline tracks fold_left].
      unfold evalTrack. cbn [clips track_type fold_left].
      unfold evalClip. rewrite H1, H2. destruct ty; try discriminate; reflexivity.
    + intros ty Ho. unfold pairProject. cbn [evaluateTimeline tracks fold_left].
      unfold evalTrack. cbn [clips track_type fold_left].
      unfold evalClip. rewrite H1, H2. destruct ty; try discriminate; reflexivity.
  - intro H. simpl. apply fold_evalTrack_none_active.
    intros tr c Htr Hc. destruct (clipActive t c) eqn:E; [|reflexivity].
    exfalso. apply (H tr c Htr Hc). apply clipActive_iff. exact E.
Qed.

Lemma evaluateTimeline_half_open_witness :
  (clipActive 2 abutA = false /\ clipActive 2 abutB = true) /\
  videoA (evaluateTimeline (Some abutProject) 2) = Some (videoEntryOf 2 abutB) /\
  videoA (evaluateTimeline (Some abutProject) 1) <> None /\
  evaluateTimeline (Some abutProject) 7 = emptyResult.
Proof.
  split; [|split; [|split]].
  - destruct (evaluateTimeline_half_open abutProject 2) as (_ & _ & _ & _ & H & _).
    destruct (H abutA abutB) as [Hact _]; [simpl; lra .. | exact Hact].
  - destruct (evaluateTimeline_half_open abutProject 2) as (_ & _ & _ & _ & H & _).
    destruct (H abutA abutB) as (_ & Hv & _); [simpl; lra .. |].
    exact (Hv VIDEO_A eq_refl).
  - destruct (evaluateTimeline_half_open abutProject 1) as (_ & _ & H & _).
    destruct (H VIDEO_A eq_refl) as [_ Hsome].
    apply (Hsome abutA); [left; reflexivity | simpl; lra].
  - destruct (evaluateTimeline_half_open abutProject 7) as (_ & _ & _ & _ & _ & H).
    apply H. intros tr c [Htr|[]] Hc; subst tr.
    destruct Hc as [Hc|[Hc|[]]]; subst c; simpl; lra.
Defined.

(** A project whose only clip is on the AUDIO track, with extent [0,5). *)
Definition audioClip : Clip Q := plainClip "music" (Some "asset2") 0 5 2 [].
Definition audioProject : Project Q :=
  {| tracks := [ {| track_type := AUDIO; clips := [audioClip] |} ] |}.

(** C5: [evaluateTimeline] produces no entry for AUDIO-track clips: its
    [audio] field is always null, and a project whose only clip is an audio
    clip active at the query time evaluates to the empty result. *)
Theorem evaluateTimeline_audio_placeholder :
  (forall (p : option (Project Q)) (t : Q), audio (evaluateTimeline p t) = None) /\
  clipActive 1 audioClip = true /\
  evaluateTimeline (Some audioProject) 1 = emptyResult.
Proof.
  split; [|split; reflexivity].
  intros [p|] t; simpl; [|reflexivity].
  apply audio_fold_tracks.
Qed.

(** Keyframes that share a time. *)
Definition dupKfs : list (SpeedKeyframe Q) := [kfQ 0 1; kfQ 0 3].
Definition dupKfs' : list (SpeedKeyframe Q) := [kfQ 0 3; kfQ 0 1].

(** C9, as stated, fails: two keyframes with the same time keep their input
    order in the stable sort, so swapping them changes the result. *)
Lemma keyframe_permutation_counterexample :
  Permutation dupKfs dupKfs' /\
  mapClipSourceTime 1 dupKfs == 3 /\ mapClipSourceTime 1 dupKfs' == 1 /\
  getSpeedAtTime 1 dupKfs == 3 /\ getSpeedAtTime 1 dupKfs' == 1 /\
  ~ mapClipSourceTime 1 dupKfs == mapClipSourceTime 1 dupKfs' /\
  ~ getSpeedAtTime 1 dupKfs == getSpeedAtTime 1 dupKfs'.
Proof.
  split; [apply perm_swap|].
  split; [vm_compute; reflexivity|].
  split; [vm_compute; reflexivity|].
  split; [vm_compute; reflexivity|].
  split; [vm_compute; reflexivity|].
  split; vm_compute; discriminate.
Qed.

(** C9, amended: when no two keyframes share a time, the three keyframe
    functions give the same result on every permutation of the keyframe
    list. *)
Theorem keyframe_math_permutation_invariant
        (kfs kfs' : list (SpeedKeyframe Q)) (okfs okfs' : list (OverlayKeyframe Q))
        (t : Q) :
  Permutation kfs kfs' -> distinctBy (@sk_time Q) kfs ->
  Permutation okfs okfs' -> distinctBy (@ok_time Q) okfs ->
  mapClipSourceTime t kfs = mapClipSourceTime t kfs' /\
  getSpeedAtTime t kfs = getSpeedAtTime t kfs' /\
  interpolateOverlay t okfs = interpolateOverlay t okfs'.
Proof.
  intros HP HD HP' HD'.
  pose proof (sortBy_perm_eq (@sk_time Q) HP HD) as E.
  pose proof (sortBy_perm_eq (@ok_time Q) HP' HD') as E'.
  unfold mapClipSourceTime, getSpeedAtTime, interpolateOverlay.
  change (@bySpeedKfTime Q QNum) with (byKey (@sk_time Q)).
  change (@byOverlayKfTime Q QNum) with (byKey (@ok_time Q)).
  rewrite E, E'. repeat split.
Qed.

Definition fadeKfs : list (OverlayKeyframe Q) :=
  [ mkOverlayKf 3 100 100 (Some 2) None (Some 2) None 45 1 None;
    mkOverlayKf 0 0 0 (Some 1) None (Some 1) None 0 0 (Some "easeIn") ].

Lemma keyframe_math_permutation_invariant_witness :
  mapClipSourceTime 2 holdQ = mapClipSourceTime 2 (rev holdQ) /\
  getSpeedAtTime 2 holdQ = getSpeedAtTime 2 (rev holdQ) /\
  interpolateOverlay 2 fadeKfs = interpolateOverlay 2 (rev fadeKfs).
Proof.
  apply (@keyframe_math_permutation_invariant
           holdQ (rev holdQ) fadeKfs (rev fadeKfs) 2).
  - apply Permutation_rev.
  - simpl. repeat split; repeat constructor; simpl; lra.
  - apply Permutation_rev.
  - simpl. repeat split; repeat constructor; simpl; lra.
Defined.

(** Two overlapping clips on VIDEO_A and one on VIDEO_B. *)
Definition overA1 : Clip Q := plainClip "a1" (Some "asset1") 0 4 0 [].
Definition overA2 : Clip Q := plainClip "a2" (Some "asset1") 1 4 10 rampQ.
Definition overB1 : Clip Q := plainClip "b1" (Some "asset2") 0 9 0 [].
Definition overTrackA : Track Q := {| track_type := VIDEO_A; clips := [overA1; overA2] |}.
Definition overTrackB : Track Q := {| track_type := VIDEO_B; clips := [overB1] |}.
Definition overProject : Project Q := {| tracks := [overTrackA; overTrackB] |}.

(** C10: for each video track type the result holds at most one entry, the
    one of the last active clip in clip list order: in general over the clip
    lists of all tracks of that type in track order, hence over the clip
    list of the track when it is the only one of its type. *)
Theorem evaluateTimeline_video_last_wins (p : Project Q) (t : Q) (ty : TrackType) :
  isVideo ty = true ->
  videoSlot ty (evaluateTimeline (Some p) t) =
    lastActiveEntry t (clipsOfType ty (tracks p)) /\
  (forall tr,
      filter (fun tr' => trackTypeEqb ty (track_type tr')) (tracks p) = [tr] ->
      videoSlot ty (evaluateTimeline (Some p) t) = lastActiveEntry t (clips tr)).
Proof.
  intro Hv.
  assert (G : videoSlot ty (evaluateTimeline (Some p) t) =
              lastActiveEntry t (clipsOfType ty (tracks p))).
  { simpl. rewrite videoSlot_tracks by exact Hv.
    destruct ty; try discriminate; simpl;
      destruct (lastActiveEntry t _); reflexivity. }
  split; [exact G|].
  intros tr Htr. rewrite G. unfold clipsOfType. rewrite Htr. simpl.
  rewrite app_nil_r. reflexivity.
Qed.

Lemma evaluateTimeline_video_last_wins_witness :
  videoA (evaluateTimeline (Some overProject) 2) = Some (videoEntryOf 2 overA2) /\
  videoB (evaluateTimeline (Some overProject) 2) = Some (videoEntryOf 2 overB1).
Proof.
  split.
  - destruct (@evaluateTimeline_video_last_wins overProject 2 VIDEO_A eq_refl)
      as [_ H].
    exact (H overTrackA eq_refl).
  - destruct (@evaluateTimeline_video_last_wins overProject 2 VIDEO_B eq_refl)
      as [_ H].
    exact (H overTrackB eq_refl).
Defined.

(* ================================================================== *)
(** ** The export run: what every computation of the exporter respects *)

Section Orderly.

Variable FFMPEG_PATH : string.
Variable hasAudioStream : string -> bool.
Variable encoder : nat -> Invocation -> ProcOutcome.

(** What is to be shown of every invocation made, and the assets table the
    run starts with. *)
Variable P : Invocation -> Prop.
Variable table : list (Asset Q).

Definition errOf {X : Type} (r : Result X) : option string :=
  match r with
  | Ok _ => None
  | Throw e => Some e
  end.

(** From [w] to [w'], ending with the thrown message [e] (or none): the job
    rows are the same up to their mutable columns, the assets are
    untouched, the log has only grown, by invocations that satisfy [P], and
    every failed invocation in the new part of the log is the reason of the
    throw. *)
Definition step (w : World) (e : option string) (w' : World) : Prop :=
  map job_id (export_jobs (db w')) = map job_id (export_jobs (db w)) /\
  assets (db w') = assets (db w) /\
  exists new,
    trace w' = (trace w ++ new)%list /\
    Forall (fun entry => P (fst entry)) new /\
    forall inv o, In (inv, o) new -> procSucceeded o = false ->
                  e = Some (failureMessage FFMPEG_PATH o).

Definition orderly {X : Type} (m : M X) : Prop :=
  forall w, assets (db w) = table -> step w (errOf (fst (m w))) (snd (m w)).

(** The values [m] can return. *)
Definition returns {X : Type} (m : M X) (V : X -> Prop) : Prop :=
  forall w x w', assets (db w) = table -> m w = (Ok x, w') -> V x.

Lemma step_refl (w : World) (e : option string) : step w e w.
Proof.
  split; [reflexivity|]. split; [reflexivity|].
  exists []. split; [rewrite app_nil_r; reflexivity|].
  split; [constructor|]. intros inv o [].
Qed.

Lemma step_trans (w w1 w2 : World) (e : option string) :
  step w None w1 -> step w1 e w2 -> step w e w2.
Proof.
  intros (Hj1 & Ha1 & n1 & Ht1 & Hp1 & Hf1) (Hj2 & Ha2 & n2 & Ht2 & Hp2 & Hf2).
  split; [congruence|]. split; [congruence|].
  exists (n1 ++ n2)%list. split; [|split].
  - rewrite Ht2, Ht1, app_assoc. reflexivity.
  - apply Forall_app. split; assumption.
  - intros inv o Hin Hfail. apply in_app_or in Hin. destruct Hin as [Hin|Hin].
    + specialize (Hf1 inv o Hin Hfail). discriminate.
    + exact (Hf2 inv o Hin Hfail).
Qed.

(** A computation that leaves the job ids, the assets and the log alone. *)
Definition quiet {X : Type} (m : M X) : Prop :=
  forall w, map job_id (export_jobs (db (snd (m w)))) =
            map job_id (export_jobs (db w)) /\
            assets (db (snd (m w))) = assets (db w) /\
            trace (snd (m w)) = trace w.

Lemma quiet_orderly {X : Type} (m : M X) : quiet m -> orderly m.
Proof.
  intros H w _. destruct (H w) as (Hj & Ha & Ht).
  split; [exact Hj|]. split; [exact Ha|].
  exists []. split; [rewrite app_nil_r; exact Ht|].
  split; [constructor|]. intros inv o [].
Qed.

Lemma orderly_ret {X : Type} (x : X) : orderly (ret x).
Proof. intros w _. apply step_refl. Qed.

Lemma orderly_throw {X : Type} (e : string) : orderly (@throw X e).
Proof. intros w _. apply step_refl. Qed.

Lemma orderly_bind_returns {X Y : Type} (m : M X) (k : X -> M Y) (V : X -> Prop) :
  orderly m -> returns m V -> (forall x, V x -> orderly (k x)) ->
  orderly (bind m k).
Proof.
  intros Hm Hv Hk w Hw. unfold bind. specialize (Hm w Hw). specialize (Hv w).
  destruct (m w) as [[x|e] w1]; simpl in *.
  - eapply step_trans; [exact Hm|].
    apply Hk; [eapply Hv; [exact Hw | reflexivity]|].
    destruct Hm as (_ & Ha & _). congruence.
  - exact Hm.
Qed.

Lemma orderly_bind {X Y : Type} (m : M X) (k : X -> M Y) :
  orderly m -> (forall x, orderly (k x)) -> orderly (bind m k).
Proof.
  intros Hm Hk. apply (@orderly_bind_returns _ _ m k (fun _ => True)).
  - exact Hm.
  - intros w x w' _ _. exact I.
  - intros x _. apply Hk.
Qed.

Lemma orderly_runFfmpeg (args : Invocation) :
  P args -> orderly (runFfmpeg FFMPEG_PATH encoder args).
Proof.
  intros HP w _. unfold runFfmpeg.
  destruct (procSucceeded (encoder (List.length (trace w)) args)) eqn:E; simpl.
  - split; [reflexivity|]. split; [reflexivity|].
    eexists. split; [reflexivity|]. split; [repeat constructor; exact HP|].
    intros inv o [Hin|[]] Hfail. inversion Hin; subst. congruence.
  - split; [reflexivity|]. split; [reflexivity|].
    eexists. split; [reflexivity|]. split; [repeat constructor; exact HP|].
    intros inv o [Hin|[]] Hfail. inversion Hin; subst. reflexivity.
Qed.

Lemma orderly_foldM {X S : Type} (body : S -> X -> M S) (l : list X) :
  (forall s x, In x l -> orderly (body s x)) -> forall s, orderly (foldM l s body).
Proof.
  induction l as [|x l IH]; intros Hb s; simpl.
  - apply orderly_ret.
  - apply orderly_bind; [apply Hb; left; reflexivity|].
    intro s'. apply IH. intros s'' y Hy. apply Hb. right. exact Hy.
Qed.

Lemma quiet_mkdirSync (p : Path) : quiet (mkdirSync p).
Proof. intro w. repeat split. Qed.

Lemma quiet_writeFileSync (p : Path) : quiet (writeFileSync p).
Proof. intro w. repeat split. Qed.

Lemma quiet_unlinkSync (p : Path) : quiet (unlinkSync p).
Proof. intro w. repeat split. Qed.

Lemma quiet_rmTempDir (jobId : string) : quiet (rmTempDir jobId).
Proof. intro w. repeat split. Qed.

Lemma quiet_copyFileSync (src dst : Path) : quiet (copyFileSync src dst).
Proof.
  intro w. unfold copyFileSync.
  destruct (existsb (pathEqb src) (fs w)); repeat split.
Qed.

Lemma quiet_getAsset (id : option string) : quiet (getAsset id).
Proof. intro w. repeat split. Qed.

Lemma quiet_readWorld : quiet readWorld.
Proof. intro w. repeat split. Qed.

Lemma quiet_loadProject (projectId : string) : quiet (loadProject projectId).
Proof. intro w. repeat split. Qed.

Lemma updateJob_ids (jobId : string) (f : ExportJob -> ExportJob)
      (jobs : list ExportJob) :
  (forall j, job_id (f j) = job_id j) ->
  map job_id (map (fun j => if String.eqb (job_id j) jobId then f j else j) jobs)
  = map job_id jobs.
Proof.
  intro Hf. rewrite map_map. apply map_ext. intro j.
  destruct (String.eqb (job_id j) jobId); [apply Hf | reflexivity].
Qed.

Lemma quiet_appendFileSync (line : LogLine) : quiet (appendFileSync line).
Proof. intro w. repeat split. Qed.

Lemma quiet_updateJob (jobId : string) (f : ExportJob -> ExportJob) :
  (forall j, job_id (f j) = job_id j) -> quiet (updateJob jobId f).
Proof.
  intros Hf w. split; [|split; reflexivity]. simpl. apply updateJob_ids. exact Hf.
Qed.

Lemma orderly_tryCatch_rethrow {X : Type} (body : M X) (jobId : string) :
  orderly body ->
  orderly (tryCatch body (fun err => rmTempDir jobId ;;; throw err)).
Proof.
  intros Hb w Hw. unfold tryCatch. specialize (Hb w Hw).
  destruct (body w) as [[x|e] w1]; simpl in *; exact Hb.
Qed.

Ltac orderly_step :=
  match goal with
  | |- orderly (bind _ _) => apply orderly_bind; [|intro]
  | |- orderly (ret _) => apply orderly_ret
  | |- orderly (throw _) => apply orderly_throw
  | |- orderly (mkdirSync _) => apply quiet_orderly, quiet_mkdirSync
  | |- orderly (writeFileSync _) => apply quiet_orderly, quiet_writeFileSync
  | |- orderly (unlinkSync _) => apply quiet_orderly, quiet_unlinkSync
  | |- orderly (rmTempDir _) => apply quiet_orderly, quiet_rmTempDir
  | |- orderly (copyFileSync _ _) => apply quiet_orderly, quiet_copyFileSync
  | |- orderly (getAsset _) => apply quiet_orderly, quiet_getAsset
  | |- orderly readWorld => apply quiet_orderly, quiet_readWorld
  | |- orderly (loadProject _) => apply quiet_orderly, quiet_loadProject
  | |- orderly (foldM _ _ _) => apply orderly_foldM; intros
  | |- orderly (liftResult _) => unfold liftResult
  | |- orderly (if ?b then _ else _) => destruct b
  | |- orderly (match ?x with _ => _ end) => destruct x
  end.

(** The invocations other than the concatenation. *)
Definition notConcat (inv : Invocation) : Prop :=
  match inv with
  | Concat _ _ _ => False
  | _ => True
  end.

Hypothesis P_notConcat : forall inv, notConcat inv -> P inv.

Lemma orderly_renderClipSegment (call : (RenderCall Q)) :
  orderly (renderClipSegment FFMPEG_PATH hasAudioStream encoder call).
Proof.
  unfold renderClipSegment. cbv zeta.
  repeat first [apply orderly_runFfmpeg; apply P_notConcat; exact I | orderly_step].
Qed.

Lemma orderly_renderVideoClip (jobId : string) (total : nat)
      (onProgress : Q -> M unit) (segmentFiles : list (SegmentFile Q))
      (icl : nat * (Clip Q * TrackType)) :
  (forall p, orderly (onProgress p)) ->
  orderly (renderVideoClip FFMPEG_PATH hasAudioStream encoder jobId total
                           onProgress segmentFiles icl).
Proof.
  intro Hp. unfold renderVideoClip. cbv zeta.
  repeat first [apply orderly_renderClipSegment | apply Hp | orderly_step].
Qed.

(** The value of the inner loop of step 1: the segments of the plan, pushed
    in order. *)
Lemma renderPlan_returns (plan : list ((RenderCall Q) * (SegmentFile Q))) :
  forall acc w segs w',
    foldM plan acc
          (fun acc item =>
             renderClipSegment FFMPEG_PATH hasAudioStream encoder (fst item) ;;;
             ret (acc ++ [snd item])%list) w = (Ok segs, w') ->
    segs = (acc ++ map snd plan)%list.
Proof.
  induction plan as [|item plan IH]; intros acc w segs w'; simpl.
  - unfold ret. intro H. inversion H. rewrite app_nil_r. reflexivity.
  - unfold bind at 1. unfold bind at 1.
    destruct (renderClipSegment FFMPEG_PATH hasAudioStream encoder (fst item) w)
      as [[u|e] w1]; [|discriminate].
    unfold ret at 1. intro H. apply IH in H. rewrite H, <- app_assoc. reflexivity.
Qed.

Lemma renderVideoClip_returns (jobId : string) (total : nat)
      (onProgress : Q -> M unit) (acc : list (SegmentFile Q))
      (icl : nat * (Clip Q * TrackType)) (w : World) (segs : list (SegmentFile Q))
      (w' : World) :
  assets (db w) = table ->
  renderVideoClip FFMPEG_PATH hasAudioStream encoder jobId total onProgress acc icl w
  = (Ok segs, w') ->
  segs = (acc ++ clipSegments jobId table icl)%list.
Proof.
  intro Hw. unfold renderVideoClip, clipSegments. cbv zeta.
  unfold bind at 1. unfold getAsset at 1. unfold findAsset. rewrite Hw.
  destruct (match asset_id (fst (snd icl)) with
            | Some i => find (fun a => String.eqb (a_id a) i) table
            | None => None
            end) as [asset|].
  - unfold bind at 1.
    match goal with
    | |- context [foldM ?pl ?ac ?bd w] =>
        destruct (foldM pl ac bd w) as [[s1|e] w1] eqn:E; [|discriminate]
    end.
    apply renderPlan_returns in E. subst s1.
    unfold bind. destruct (onProgress _ w1) as [[u|e] w2]; [|discriminate].
    unfold ret. intro H. inversion H. reflexivity.
  - unfold ret. intro H. inversion H. rewrite app_nil_r. reflexivity.
Qed.

Lemma renderAll_returns (jobId : string) (total : nat) (onProgress : Q -> M unit)
      (l : list (nat * (Clip Q * TrackType))) :
  (forall p, orderly (onProgress p)) ->
  forall acc,
    returns (foldM l acc (renderVideoClip FFMPEG_PATH hasAudioStream encoder
                                          jobId total onProgress))
            (fun segs => segs = (acc ++ flat_map (clipSegments jobId table) l)%list).
Proof.
  intro Hp. induction l as [|icl l IH]; intros acc w segs w' Hw; simpl.
  - unfold ret. intro H. inversion H. rewrite app_nil_r. reflexivity.
  - unfold bind.
    pose proof (@orderly_renderVideoClip jobId total onProgress acc icl Hp w Hw)
      as Hstep.
    destruct (renderVideoClip FFMPEG_PATH hasAudioStream encoder jobId total
                              onProgress acc icl w) as [[s1|e] w1] eqn:E;
      [|discriminate].
    apply renderVideoClip_returns in E; [|exact Hw]. subst s1.
    destruct Hstep as (_ & Ha & _). simpl in Ha.
    intro H. apply IH in H; [|congruence].
    rewrite H, <- app_assoc. reflexivity.
Qed.

(** The concatenation lists the planned segments, in their order. *)
Lemma orderly_exportProject (projectData : Project Q) (jobId : string)
      (onProgress : Q -> M unit) :
  (forall listPath out,
      P (Concat (map seg_path (plannedSegments jobId table projectData))
                listPath out)) ->
  (forall p, orderly (onProgress p)) ->
  orderly (exportProject FFMPEG_PATH hasAudioStream encoder projectData jobId
                         onProgress).
Proof.
  intros P_concat Hp. unfold exportProject. cbv zeta.
  apply orderly_bind; [apply quiet_orderly, quiet_mkdirSync | intros _].
  apply orderly_tryCatch_rethrow.
  destruct (Qle_bool (totalDurationOf projectData) 0); [apply orderly_throw|].
  eapply orderly_bind_returns.
  - apply orderly_foldM. intros. apply orderly_renderVideoClip. exact Hp.
  - apply renderAll_returns. exact Hp.
  - cbv beta. intros segs Hsegs. simpl in Hsegs.
    fold (plannedSegments jobId table projectData) in Hsegs. subst segs.
    apply orderly_bind.
    + destruct (plannedSegments jobId table projectData) as [|s0 sr] eqn:E.
      * apply orderly_runFfmpeg, P_notConcat. exact I.
      * apply orderly_bind; [apply quiet_orderly, quiet_writeFileSync | intros _].
        apply orderly_runFfmpeg, P_concat.
    + intros _.
      repeat first
        [ apply Hp
        | apply orderly_runFfmpeg; apply P_notConcat; exact I
        | orderly_step ].
Qed.

(** When [exportProject] throws, the scratch directory is gone. *)
Lemma exportProject_throw_cleans (projectData : Project Q) (jobId : string)
      (onProgress : Q -> M unit) (w w' : World) (e : string) :
  exportProject FFMPEG_PATH hasAudioStream encoder projectData jobId onProgress w
  = (Throw e, w') ->
  forall p, In p (fs w') -> inTemp jobId p = false.
Proof.
  unfold exportProject. cbv zeta. unfold bind at 1. simpl.
  unfold tryCatch.
  match goal with |- context [match ?b ?w0 with _ => _ end] =>
    destruct (b w0) as [[x|e'] w1] end.
  - discriminate.
  - unfold bind, rmTempDir, throw. simpl. intro H. inversion H; subst; clear H.
    simpl. intros p Hp. apply filter_In in Hp. destruct Hp as [_ Hp].
    apply negb_true_iff in Hp. exact Hp.
Qed.

Lemma findJobById_In (jobId : string) (d : DB) :
  In jobId (map job_id (export_jobs d)) ->
  exists j, findJobById jobId d = Some j /\ job_id j = jobId.
Proof.
  unfold findJobById. induction (export_jobs d) as [|j jobs IH]; simpl.
  - intros [].
  - intros [H|H].
    + exists j. split; [|exact H].
      rewrite <- H, String.eqb_refl. reflexivity.
    + destruct (String.eqb (job_id j) jobId) eqn:E.
      * exists j. split; [reflexivity | apply String.eqb_eq; exact E].
      * apply IH; exact H.
Qed.

Lemma find_updated_job (jobId : string) (f : ExportJob -> ExportJob)
      (jobs : list ExportJob) :
  (forall j, job_id (f j) = job_id j) ->
  find (fun j => String.eqb (job_id j) jobId)
       (map (fun j => if String.eqb (job_id j) jobId then f j else j) jobs)
  = option_map f (find (fun j => String.eqb (job_id j) jobId) jobs).
Proof.
  intro Hf. induction jobs as [|j jobs IH]; simpl; [reflexivity|].
  destruct (String.eqb (job_id j) jobId) eqn:E; simpl.
  - rewrite Hf, E. reflexivity.
  - rewrite E. exact IH.
Qed.

End Orderly.

(* ================================================================== *)
(** * The claims about the export job and the render orchestrator *)

Lemma find_app_none {X : Type} (f : X -> bool) (l : list X) (x : X) :
  find f l = None -> find f (l ++ [x])%list = (if f x then Some x else None).
Proof.
  induction l as [|y l IH]; simpl; [reflexivity|].
  destruct (f y); [discriminate | exact IH].
Qed.

Lemma findJobById_none (jobId : string) (d : DB) :
  ~ In jobId (map job_id (export_jobs d)) -> findJobById jobId d = None.
Proof.
  unfold findJobById. induction (export_jobs d) as [|j jobs IH]; simpl;
    [reflexivity|].
  intro H. destruct (String.eqb (job_id j) jobId) eqn:E.
  - exfalso. apply H. left. apply String.eqb_eq. exact E.
  - apply IH. intro Hin. apply H. right. exact Hin.
Qed.

Lemma find_project (projectId : string) (d : DB) :
  In projectId (map fst (projects d)) ->
  exists kv, find (fun kv => String.eqb (fst kv) projectId) (projects d) = Some kv
             /\ fst kv = projectId.
Proof.
  induction (projects d) as [|kv ps IH]; simpl.
  - intros [].
  - intro H. destruct (String.eqb (fst kv) projectId) eqn:E.
    + exists kv. split; [reflexivity | apply String.eqb_eq; exact E].
    + destruct H as [H|H]; [rewrite H, String.eqb_refl in E; discriminate|].
      apply IH; exact H.
Qed.

(** C3: for an existing project and a supplied request token, a submit
    call returns the job already recorded for that token as it is, leaves
    the database unchanged and starts no export, whatever the job's status;
    when no job is recorded for the token it inserts one new job in status
    QUEUED under the fresh id, returns it and hands it to the worker, and
    every later submit with the same token returns that same record. *)
Theorem submit_idempotent (d : DB) (projectId requestId uuid1 uuid2 : string) :
  In projectId (map fst (projects d)) ->
  requestId <> EmptyString ->
  (forall existing,
      findJobByRequest requestId d = Some existing ->
      postExport projectId (Some requestId) uuid1 uuid2 d = (Json existing, d, None)) /\
  (findJobByRequest requestId d = None ->
   ~ In uuid1 (map job_id (export_jobs d)) ->
   exists job d',
     postExport projectId (Some requestId) uuid1 uuid2 d = (Json job, d', Some uuid1) /\
     job_id job = uuid1 /\ job_status job = QUEUED /\
     job_request_id job = Some requestId /\ job_project_id job = projectId /\
     export_jobs d' = (export_jobs d ++ [job])%list /\
     forall u1 u2,
       postExport projectId (Some requestId) u1 u2 d' = (Json job, d', None)).
Proof.
  intros Hp Hr.
  destruct (find_project projectId d Hp) as (kv & Hfind & Hkv).
  assert (Hs : negb (String.eqb requestId EmptyString) = true).
  { apply negb_true_iff. apply String.eqb_neq. exact Hr. }
  split.
  - intros existing He. unfold postExport. rewrite Hfind, Hs, He. reflexivity.
  - intros Hnone Hfresh.
    pose proof (findJobById_none uuid1 d Hfresh) as Hid.
    set (job := {| job_id := uuid1; job_project_id := fst kv;
                   job_request_id := Some requestId; job_status := QUEUED;
                   job_progress := 0; job_output_path := None;
                   job_error := None |}).
    set (d' := {| projects := projects d; assets := assets d;
                  export_jobs := (export_jobs d ++ [job])%list |}).
    assert (Hins : insertJob job d = Some d').
    { unfold insertJob. simpl. rewrite Hid, Hnone. reflexivity. }
    assert (Hget : findJobById uuid1 d' = Some job).
    { unfold findJobById in *. simpl. rewrite find_app_none by exact Hid.
      simpl. rewrite String.eqb_refl. reflexivity. }
    assert (Hreq : findJobByRequest requestId d' = Some job).
    { unfold findJobByRequest in *. simpl. rewrite find_app_none by exact Hnone.
      simpl. rewrite String.eqb_refl. reflexivity. }
    exists job, d'. repeat split; try reflexivity; try exact Hkv.
    + unfold postExport. rewrite Hfind, Hs, Hnone. fold job.
      rewrite Hins, Hget. reflexivity.
    + intros u1 u2. unfold postExport.
      change (projects d') with (projects d). rewrite Hfind, Hs, Hreq.
      reflexivity.
Qed.

Definition sampleClip : Clip Q := plainClip "c1" (Some "asset1") 0 4 0 [].
Definition sampleAsset : (Asset Q) :=
  {| a_id := "asset1"; a_path := "uploads/a.mp4"; a_duration := Some 10;
     a_fps := Some 30; a_type := "video" |}.
Definition sampleProject : Project Q :=
  {| tracks := [ {| track_type := VIDEO_A; clips := [sampleClip] |} ] |}.
Definition sampleDB : DB :=
  {| projects := [("p1", sampleProject)]; assets := [sampleAsset];
     export_jobs := [] |}.

Lemma submit_idempotent_witness :
  exists job d',
    postExport "p1" (Some "req-1") "job-1" "job-2" sampleDB
    = (Json job, d', Some "job-1") /\
    job_status job = QUEUED /\
    postExport "p1" (Some "req-1") "job-3" "job-4" d' = (Json job, d', None).
Proof.
  destruct (@submit_idempotent sampleDB "p1" "req-1" "job-1" "job-2") as [_ H].
  - simpl. left. reflexivity.
  - discriminate.
  - destruct H as (job & d' & H1 & _ & H2 & _ & _ & _ & H3).
    + reflexivity.
    + simpl. intros [].
    + exists job, d'. split; [exact H1|]. split; [exact H2 | apply H3].
Defined.

(** The failed process left a message: always for a process that exited or
    a missing binary; for any other spawn error, when the error object
    carries one. *)
Definition messageCarried (o : ProcOutcome) : Prop :=
  match o with
  | Exited _ _ => True
  | SpawnError code message => code = "ENOENT" \/ message <> EmptyString
  end.

(** C7: when an encoder invocation of an export run fails, the job ends in
    status FAILED with the message of that failure as its error, a
    non-empty text; nothing of the job's scratch directory is left; and the
    text for a missing encoder binary differs from the text for a non-zero
    exit, which holds the exit code and the tail of stderr. *)
Theorem export_failure_semantics
        (FFMPEG_PATH : string) (hasAudioStream : string -> bool)
        (encoder : nat -> Invocation -> ProcOutcome)
        (jobId projectId : string) (w : World) (inv : Invocation) (o : ProcOutcome) :
  let w' := snd (processExportJob FFMPEG_PATH hasAudioStream encoder
                                  jobId projectId w) in
  In jobId (map job_id (export_jobs (db w))) ->
  In (inv, o) (skipn (List.length (trace w)) (trace w')) ->
  procSucceeded o = false ->
  (exists j, findJobById jobId (db w') = Some j /\
             job_status j = FAILED /\
             job_error j = Some (failureMessage FFMPEG_PATH o)) /\
  (messageCarried o -> failureMessage FFMPEG_PATH o <> EmptyString) /\
  (forall p, In p (fs w') -> inTemp jobId p = false) /\
  (forall code stderr m,
      failureMessage FFMPEG_PATH (SpawnError "ENOENT" m) = notFoundMessage FFMPEG_PATH /\
      failureMessage FFMPEG_PATH (Exited code stderr)
      = "FFmpeg exited with code " ++ showCode code ++ ": " ++ sliceLast 500 stderr /\
      notFoundMessage FFMPEG_PATH <> exitMessage code stderr).
Proof.
  intros w' Hjob Hin Hfail.
  (* the run of the body of [processExportJob] *)
  set (onProgress := fun progress : Q => updateJob jobId (setProgress progress)).
  set (body :=
         appendFileSync (JobStarted jobId) ;;;
         updateJob jobId (setStatus RUNNING) ;;;
         projectData <- loadProject projectId ;;
         outputPath <- exportProject FFMPEG_PATH hasAudioStream encoder
                         projectData jobId onProgress ;;
         updateJob jobId (setComplete outputPath)).
  assert (Hord : orderly FFMPEG_PATH (fun _ => True) (assets (db w)) body).
  { unfold body.
    repeat first
      [ apply orderly_exportProject;
        [ intros; exact I | intros; exact I
        | intro; apply quiet_orderly, quiet_updateJob; reflexivity ]
      | apply quiet_orderly, quiet_updateJob; reflexivity
      | apply quiet_orderly, quiet_appendFileSync
      | apply quiet_orderly, quiet_loadProject
      | apply orderly_bind; [|intro] ]. }
  assert (Hw' : w' = snd (tryCatch body
                            (fun err => appendFileSync (JobFailed jobId err) ;;;
                                        updateJob jobId (setFailed err)) w))
    by reflexivity.
  clearbody w'.
  specialize (Hord w eq_refl).
  destruct Hord as (Hids & _ & new & Htrace & _ & Hnew).
  unfold tryCatch in Hw'.
  destruct (body w) as [[u|e] w1] eqn:Ebody; simpl in *.
  - (* the body returned: no invocation failed *)
    subst w'. rewrite Htrace, skipn_app, skipn_all, Nat.sub_diag in Hin.
    simpl in Hin. specialize (Hnew inv o Hin Hfail). discriminate.
  - (* the body threw [e] *)
    assert (Ht' : trace w' = trace w1) by (subst w'; reflexivity).
    rewrite Ht', Htrace, skipn_app, skipn_all, Nat.sub_diag in Hin.
    simpl in Hin. specialize (Hnew inv o Hin Hfail).
    inversion Hnew; subst e; clear Hnew.
    split; [|split; [|split]].
    + rewrite <- Hids in Hjob.
      destruct (findJobById_In jobId (db w1) Hjob) as (j1 & Hj1 & _).
      exists (setFailed (failureMessage FFMPEG_PATH o) j1).
      split; [|split; reflexivity].
      subst w'. unfold findJobById in *. simpl.
      rewrite find_updated_job by reflexivity. rewrite Hj1. reflexivity.
    + destruct o as [code stderr|code message]; simpl.
      * intros _. unfold exitMessage. simpl. discriminate.
      * intros [Hc|Hm].
        -- subst code. simpl. unfold notFoundMessage. simpl. discriminate.
        -- destruct (String.eqb code "ENOENT"); [|exact Hm].
           unfold notFoundMessage. simpl. discriminate.
    + assert (Hfs : fs w' = fs w1) by (subst w'; reflexivity).
      rewrite Hfs.
      (* the throw comes out of [exportProject] *)
      unfold body, bind in Ebody. simpl in Ebody.
      match type of Ebody with
      | context [exportProject ?a ?b ?c ?d ?e ?f ?g] =>
          destruct (exportProject a b c d e f g) as [[out|e'] w2] eqn:Eexp
      end.
      * simpl in Ebody. discriminate.
      * inversion Ebody; subst. eapply exportProject_throw_cleans; exact Eexp.
    + intros code stderr m. split; [reflexivity|]. split; [reflexivity|].
      unfold notFoundMessage, exitMessage. simpl. discriminate.
Qed.

Definition queuedJob : ExportJob :=
  {| job_id := "job-1"; job_project_id := "p1"; job_request_id := Some "req-1";
     job_status := QUEUED; job_progress := 0; job_output_path := None;
     job_error := None |}.

Definition sampleWorld : World :=
  {| fs := [];
     db := {| projects := [("p1", sampleProject)]; assets := [sampleAsset];
              export_jobs := [queuedJob] |};
     trace := []; debugLog := [] |}.

(** An encoder that rejects its input, and one that is not installed. *)
Definition brokenEncoder (n : nat) (args : Invocation) : ProcOutcome :=
  Exited (Some 1%Z) "Invalid data found when processing input".
Definition missingEncoder (n : nat) (args : Invocation) : ProcOutcome :=
  SpawnError "ENOENT" "spawn ffmpeg ENOENT".
Definition workingEncoder (n : nat) (args : Invocation) : ProcOutcome :=
  Exited (Some 0%Z) EmptyString.

Lemma export_failure_semantics_witness :
  let w' := snd (processExportJob "ffmpeg" (fun _ => true) brokenEncoder
                                  "job-1" "p1" sampleWorld) in
  (exists j, findJobById "job-1" (db w') = Some j /\
             job_status j = FAILED /\
             job_error j =
             Some "FFmpeg exited with code 1: Invalid data found when processing input")
  /\ fs w' = [].
Proof.
  intro w'.
  destruct (@export_failure_semantics
              "ffmpeg" (fun _ => true) brokenEncoder "job-1" "p1" sampleWorld
              (RenderSegment "uploads/a.mp4" 0 (4 - 0) (1 / 1)
                             (SourceAudio 1) 30 (TempFile "job-1" (ClipSeg0 0)))
              (brokenEncoder 0 (BlackFill 0 (ExportFile "job-1"))))
    as (H1 & _ & _ & _).
  - simpl. left. reflexivity.
  - vm_compute. left. reflexivity.
  - reflexivity.
  - split; [exact H1 | reflexivity].
Defined.

(* ================================================================== *)
(** ** The segment planner: the source cursor *)

Section Pairwise.

Variable X : Type.

(** [R] holds between every element and every later one. *)
Fixpoint pairwise (R : X -> X -> Prop) (l : list X) : Prop :=
  match l with
  | [] => True
  | x :: r => Forall (R x) r /\ pairwise R r
  end.

Definition nondecreasing (key : X -> Q) (l : list X) : Prop :=
  pairwise (fun x y => key x <= key y) l.

Lemma pairwise_app (R : X -> X -> Prop) (l1 l2 : list X) :
  pairwise R l1 -> pairwise R l2 ->
  Forall (fun x => Forall (R x) l2) l1 ->
  pairwise R (l1 ++ l2).
Proof.
  induction l1 as [|x l1 IH]; simpl; intros H1 H2 H12; [exact H2|].
  destruct H1 as [Hx H1]. inversion H12 as [|? ? Hx2 H12']; subst.
  split.
  - apply Forall_app. split; assumption.
  - apply IH; assumption.
Qed.

End Pairwise.




Lemma jsMin_le_l (a b : Q) : jsMin a b <= a.
Proof.
  unfold jsMin. qplan. qplan. destruct (Qle_bool a b) eqn:E; [lra|].
  apply Qle_bool_false in E. lra.
Qed.

Section Cursor.

Variable maxSourceDur : Q.

(** The sub-chunks [cs] are planned from the cursor value [a] and leave it
    at [f]: each starts at the current cursor and ends at most at
    [maxSourceDur], the cursor moves forward, and another sub-chunk follows
    only while the cursor is below [maxSourceDur]. *)
Fixpoint chainTo (a : Q) (cs : list (RenderCall Q)) (f : Q) : Prop :=
  match cs with
  | [] => a = f
  | c :: r =>
      rc_sourceStart c = a /\ rc_sourceEnd c <= maxSourceDur /\
      exists a', a <= a' /\ (r <> [] -> a' < maxSourceDur) /\ chainTo a' r f
  end.


Lemma chainTo_final (cs : list (RenderCall Q)) :
  forall a f, chainTo a cs f -> a <= f.
Proof.
  induction cs as [|c r IH]; simpl; intros a f H.
  - subst. lra.
  - destruct H as (_ & _ & a' & Ha & _ & Hc). specialize (IH _ _ Hc). lra.
Qed.




End Cursor.



Lemma last_In {X : Type} (l : list X) (d : X) : l <> [] -> In (last l d) l.
Proof.
  induction l as [|x l IH]; [intro H; contradiction H; reflexivity|].
  intros _. destruct l as [|y l]; [left; reflexivity|].
  right. apply IH. discriminate.
Qed.


(** The number of sub-chunks of a keyframe span longer than 0.001. *)
Lemma steps_positive (segDuration : Q) :
  1 # 1000 < segDuration -> (0 < Qceiling (segDuration / (1 # 2)))%Z.
Proof.
  intro H.
  assert (Hpos : 0 < segDuration / (1 # 2)) by (apply Qlt_shift_div_l; lra).
  pose proof (Qle_ceiling (segDuration / (1 # 2))) as Hc.
  rewrite Zlt_Qlt. change (inject_Z 0) with 0. lra.
Qed.



(** The clip of the specification's end-to-end scenario, on a 10 s and on a
    3 s asset. *)
Definition scenarioClip : Clip Q :=
  plainClip "c2" (Some "asset1") 0 5 0
            [kfQ 0 1; kfQ (3 # 2) 2; kfQ (5 # 2) 0; kfQ (7 # 2) 0; kfQ 5 1].
Definition shortAsset : (Asset Q) :=
  {| a_id := "asset1"; a_path := "uploads/a.mp4"; a_duration := Some 3;
     a_fps := Some 30; a_type := "video" |}.




(* ================================================================== *)
(** ** The segment planner: the timeline starts of the segments *)

Lemma zmul_mono (a b : Z) (sd : Q) :
  (a <= b)%Z -> 0 <= sd -> inject_Z a * sd <= inject_Z b * sd.
Proof.
  intros Hab Hsd. apply Qmult_le_compat_r; [|exact Hsd].
  rewrite <- Zle_Qle. exact Hab.
Qed.

Lemma zmul_succ (z : Z) (sd : Q) :
  inject_Z (z + 1) * sd == inject_Z z * sd + sd.
Proof.
  rewrite inject_Z_plus. change (inject_Z 1) with 1. ring.
Qed.

Lemma chunkLoop_starts (jobId : string) (ci : nat) (clip : Clip Q) (asset : (Asset Q))
      (ki : nat) (prevTime startSpeed endSpeed stepDur : Q) (steps : Z) :
  0 <= stepDur ->
  forall n s a,
    let segs := map snd (fst (chunkLoop jobId ci clip asset ki prevTime startSpeed
                                        endSpeed stepDur steps n s a)) in
    nondecreasing seg_start segs /\
    Forall (fun sg =>
              start_time clip + prevTime + inject_Z (Z.of_nat s) * stepDur
              <= seg_start sg /\
              seg_start sg + stepDur
              <= start_time clip + prevTime
                 + inject_Z (Z.of_nat s + Z.of_nat n) * stepDur) segs.
Proof.
  intros Hsd. induction n as [|n IH]; intros s a; simpl; qplan.
  - split; [exact I | constructor].
  - assert (Hitem :
      start_time clip + prevTime + inject_Z (Z.of_nat s) * stepDur
      <= start_time clip + prevTime + inject_Z (Z.of_nat s) * stepDur /\
      start_time clip + prevTime + inject_Z (Z.of_nat s) * stepDur + stepDur
      <= start_time clip + prevTime
         + inject_Z (Z.of_nat s + Z.pos (Pos.of_succ_nat n)) * stepDur).
    { split; [lra|].
      pose proof (@zmul_mono (Z.of_nat s + 1)
                    (Z.of_nat s + Z.pos (Pos.of_succ_nat n)) stepDur
                    ltac:(lia) Hsd) as M.
      rewrite zmul_succ in M. lra. }
    match goal with
    | |- context [Qle_bool ?m ?x] => destruct (Qle_bool m x); simpl
    end.
    + split; [split; [constructor | exact I]|].
      constructor; [exact Hitem | constructor].
    + specialize (IH (S s) (a + stepDur *
        ((startSpeed + (endSpeed - startSpeed) * (inject_Z (Z.of_nat s) / inject_Z steps)
          + (startSpeed + (endSpeed - startSpeed)
                          * (inject_Z (Z.of_nat s + 1) / inject_Z steps))) / 2))).
      match goal with
      | |- context [chunkLoop ?j ?c ?cl ?as_ ?k ?p ?ss ?es ?sd ?st ?n' ?s' ?a'] =>
          destruct (chunkLoop j c cl as_ k p ss es sd st n' s' a') as [rest final]
      end.
      cbv zeta in IH. cbn [fst snd map] in IH |- *. destruct IH as [Hnd Hb].
      assert (Hs1 : inject_Z (Z.of_nat s) * stepDur
                    <= inject_Z (Z.of_nat (S s)) * stepDur)
        by (apply zmul_mono; [lia | exact Hsd]).
      assert (Hs2 : inject_Z (Z.of_nat (S s) + Z.of_nat n) * stepDur
                    <= inject_Z (Z.of_nat s + Z.pos (Pos.of_succ_nat n)) * stepDur)
        by (apply zmul_mono; [lia | exact Hsd]).
      split; [split|].
      * eapply Forall_impl; [|exact Hb]. cbn [seg_start]. intros sg [H1 _]. lra.
      * exact Hnd.
      * constructor; [exact Hitem|].
        eapply Forall_impl; [|exact Hb]. cbv beta. intros sg [H1 H2]. split; lra.
Qed.

Lemma kfLoop_starts (jobId : string) (ci : nat) (clip : Clip Q) (asset : (Asset Q))
      (sortedKfs : list (SpeedKeyframe Q)) :
  forall n ki prevTime a,
    let segs := map snd (kfLoop jobId ci clip asset sortedKfs n ki prevTime a) in
    nondecreasing seg_start segs /\
    Forall (fun sg => start_time clip + prevTime <= seg_start sg /\
                      seg_start sg < start_time clip + duration clip) segs.
Proof.
  induction n as [|n IH]; intros ki prevTime a; cbn [kfLoop]; qplan.
  - split; [exact I | constructor].
  - match goal with
    | |- context [Qle_bool (?kt - prevTime) (1 # 1000)] =>
        set (kfTime := kt);
        destruct (Qle_bool (kfTime - prevTime) (1 # 1000)) eqn:Eseg
    end.
    + apply IH.
    + apply Qle_bool_false in Eseg.
      assert (HkfTime : kfTime <= duration clip).
      { unfold kfTime.
        match goal with
        | |- context [Qltb ?d ?k0] =>
            destruct (Qltb d k0) eqn:E;
            [lra | apply Qltb_false in E; exact E]
        end. }
      pose proof (steps_positive Eseg) as Hsteps.
      set (steps := Qceiling ((kfTime - prevTime) / (1 # 2))) in *.
      assert (Hst : 0 < inject_Z steps)
        by (change 0 with (inject_Z 0); rewrite <- Zlt_Qlt; exact Hsteps).
      set (stepDur := (kfTime - prevTime) / inject_Z steps).
      assert (Hdur : 0 < stepDur) by (apply Qlt_shift_div_l; lra).
      assert (Hfull : inject_Z steps * stepDur == kfTime - prevTime)
        by (unfold stepDur; field; lra).
      match goal with
      | |- context [chunkLoop ?j ?c ?cl ?as_ ?k ?p ?ss ?es ?sd ?st ?n' ?s' ?a'] =>
          pose proof (@chunkLoop_starts j c cl as_ k p ss es sd st
                        ltac:(lra) n' s' a') as Hc;
          destruct (chunkLoop j c cl as_ k p ss es sd st n' s' a')
            as [chunks accum']
      end.
      cbv zeta in Hc. simpl in Hc. destruct Hc as [Hnd Hb].
      rewrite Z2Nat.id in Hb by lia. simpl in Hb.
      assert (Hb' : Forall (fun sg => start_time clip + prevTime <= seg_start sg /\
                                      seg_start sg < start_time clip + kfTime)
                           (map snd chunks)).
      { eapply Forall_impl; [|exact Hb]. simpl. intros sg [H1 H2].
        change (inject_Z 0) with 0 in H1. split; lra. }
      destruct (Qle_bool (maxSourceDurOf asset) accum').
      * split; [exact Hnd|].
        eapply Forall_impl; [|exact Hb']. simpl. intros sg [H1 H2]. split; lra.
      * destruct (IH (S ki) kfTime accum') as [Hnd2 Hb2]. cbv zeta in Hnd2, Hb2.
        rewrite map_app. split.
        -- apply pairwise_app; [exact Hnd | exact Hnd2 |].
           eapply Forall_impl; [|exact Hb']. simpl. intros sg [_ H2].
           eapply Forall_impl; [|exact Hb2]. simpl. intros sg' [H1' _]. lra.
        -- apply Forall_app. split.
           ++ eapply Forall_impl; [|exact Hb']. simpl. intros sg [H1 H2].
              split; lra.
           ++ eapply Forall_impl; [|exact Hb2]. simpl. intros sg [H1 H2].
              split; lra.
Qed.

(** The segments of one clip lie inside the clip's extent, in order. *)
Lemma planClip_starts (jobId : string) (ci : nat) (clip : Clip Q) (asset : (Asset Q)) :
  0 < duration clip ->
  let segs := map snd (planClip jobId ci clip asset) in
  nondecreasing seg_start segs /\
  Forall (fun sg => start_time clip <= seg_start sg /\
                    seg_start sg < start_time clip + duration clip) segs.
Proof.
  intros Hd segs. unfold segs, planClip.
  destruct (List.length (speedKeyframes clip) <=? 1)%nat.
  - simpl. split; [split; [constructor | exact I]|].
    constructor; [split; simpl; lra | constructor].
  - unfold planSubdivided.
    destruct (@kfLoop_starts jobId ci clip asset
                (sortBy bySpeedKfTime (speedKeyframes clip))
                (S (List.length (sortBy bySpeedKfTime (speedKeyframes clip))))
                0%nat 0 (in_point clip)) as [Hnd Hb].
    split; [exact Hnd|].
    eapply Forall_impl; [|exact Hb]. simpl. intros sg [H1 H2]. split; lra.
Qed.

(* ================================================================== *)
(** ** The order of the concat list *)

Lemma pairwise_perm {X : Type} (R : X -> X -> Prop) (l l' : list X) :
  (forall x y, R x y -> R y x) ->
  Permutation l l' -> pairwise R l -> pairwise R l'.
Proof.
  intro Hsym.
  induction 1 as [|x l l' HP IH|x y l|l l' l'' HP1 IH1 HP2 IH2]; simpl.
  - auto.
  - intros [Hx Hd]. split; [|auto]. eapply Permutation_Forall; eassumption.
  - intros [Hy [Hx Hd]]. inversion Hy as [|? ? Hyx Hyl]; subst.
    repeat split; try assumption.
    constructor; [apply Hsym; exact Hyx | assumption].
  - auto.
Qed.

Lemma sortedBy_pairwise {X : Type} (key : X -> Q) (l : list X) :
  sortedBy key l -> nondecreasing key l.
Proof.
  induction l as [|x l IH]; simpl; [auto|].
  intros [Hx Hs]. specialize (IH Hs). split; [|exact IH].
  destruct l as [|y l]; [constructor|].
  destruct IH as [Hy _]. constructor; [exact Hx|].
  eapply Forall_impl; [|exact Hy]. simpl. intros z Hz. lra.
Qed.

Lemma insertFromLeft_perm {T : Type} (cmp : T -> T -> Q) (x : T) (l : list T) :
  Permutation (insertFromLeft cmp x l) (x :: l).
Proof.
  induction l as [|y l IH]; simpl; qplan.
  - apply Permutation_refl.
  - destruct (Qltb (cmp x y) 0).
    + apply Permutation_refl.
    + eapply Permutation_trans; [apply perm_skip, IH | apply perm_swap].
Qed.

Lemma sortFromLeft_perm {T : Type} (cmp : T -> T -> Q) (l : list T) :
  Permutation (sortFromLeft cmp l) l.
Proof.
  unfold sortFromLeft.
  assert (G : forall acc,
             Permutation (fold_left (fun sorted x => insertFromLeft cmp x sorted) l acc)
                         (acc ++ l)).
  { induction l as [|x l IH]; intro acc; simpl.
    - rewrite app_nil_r. apply Permutation_refl.
    - eapply Permutation_trans; [apply IH|].
      eapply Permutation_trans;
        [apply Permutation_app_tail, insertFromLeft_perm|].
      simpl. apply Permutation_middle. }
  exact (G []).
Qed.

Lemma insertFromLeft_sorted {T : Type} (key : T -> Q) (cmp : T -> T -> Q) :
  (forall x y, cmp x y < 0 -> key x <= key y) ->
  (forall x y, 0 <= cmp x y -> key y <= key x) ->
  forall x l, sortedBy key l -> sortedBy key (insertFromLeft cmp x l).
Proof.
  intros Hlt Hge x l. induction l as [|y l IH]; intro Hs; simpl; qplan.
  - auto.
  - destruct (Qltb (cmp x y) 0) eqn:E.
    + apply Qltb_true in E. split; [apply Hlt; exact E | exact Hs].
    + apply Qltb_false in E. destruct Hs as [Hy Hs]. specialize (IH Hs).
      split; [|exact IH].
      destruct l as [|z l]; simpl.
      * apply Hge; exact E.
      * simpl in IH. qplan. destruct (Qltb (cmp x z) 0); [apply Hge; exact E | exact Hy].
Qed.

Lemma sortFromLeft_sorted {T : Type} (key : T -> Q) (cmp : T -> T -> Q) :
  (forall x y, cmp x y < 0 -> key x <= key y) ->
  (forall x y, 0 <= cmp x y -> key y <= key x) ->
  forall l, sortedBy key (sortFromLeft cmp l).
Proof.
  intros Hlt Hge l. unfold sortFromLeft.
  assert (G : forall acc, sortedBy key acc ->
             sortedBy key (fold_left (fun sorted x => insertFromLeft cmp x sorted)
                                     l acc)).
  { induction l as [|x l IH]; intros acc Hacc; simpl; [exact Hacc|].
    apply IH. apply insertFromLeft_sorted; assumption. }
  apply G. exact I.
Qed.

Lemma byStartThenTrack_lt (x y : Clip Q * TrackType) :
  byStartThenTrack x y < 0 -> start_time (fst x) <= start_time (fst y).
Proof.
  unfold byStartThenTrack. qplan. cbv zeta.
  destruct (Qeq_bool (start_time (fst x) - start_time (fst y)) 0) eqn:E.
  - apply Qeq_bool_iff in E. intros _. lra.
  - lra.
Qed.

Lemma byStartThenTrack_ge (x y : Clip Q * TrackType) :
  0 <= byStartThenTrack x y -> start_time (fst y) <= start_time (fst x).
Proof.
  unfold byStartThenTrack. qplan. cbv zeta.
  destruct (Qeq_bool (start_time (fst x) - start_time (fst y)) 0) eqn:E.
  - apply Qeq_bool_iff in E. intros _. lra.
  - lra.
Qed.

Definition clipEnd (c : Clip Q) : Q := start_time c + duration c.

(** The extents of two clips do not overlap. *)
Definition disjointClips (a b : Clip Q * TrackType) : Prop :=
  clipEnd (fst a) <= start_time (fst b) \/ clipEnd (fst b) <= start_time (fst a).

(** No two video clips of the project overlap in time, across both video
    tracks, and every video clip has a positive duration. *)
Definition videoClipsDisjoint (projectData : Project Q) : Prop :=
  pairwise disjointClips (collectClips isVideoTrack projectData) /\
  Forall (fun c => 0 < duration (fst c)) (collectClips isVideoTrack projectData).

Lemma ends_before_starts (l : list (Clip Q * TrackType)) :
  Forall (fun c => 0 < duration (fst c)) l ->
  pairwise disjointClips l ->
  nondecreasing (fun c => start_time (fst c)) l ->
  pairwise (fun a b => clipEnd (fst a) <= start_time (fst b)) l.
Proof.
  induction l as [|x l IH]; simpl; [auto|].
  intros Hd [Hdx Hdl] [Hsx Hsl]. inversion Hd as [|? ? Hx Hd']; subst.
  split; [|apply IH; assumption].
  rewrite Forall_forall in *. intros y Hy.
  specialize (Hdx y Hy). specialize (Hsx y Hy). specialize (Hd' y Hy).
  unfold disjointClips, clipEnd in *. destruct Hdx as [H|H]; lra.
Qed.

Lemma pairwise_indexFrom {X : Type} (R : X -> X -> Prop) (l : list X) :
  forall i, pairwise R l ->
            pairwise (fun x y => R (snd x) (snd y)) (indexFrom i l).
Proof.
  induction l as [|x l IH]; intros i H; simpl; [exact I|].
  destruct H as [Hx Hl]. split; [|apply IH; exact Hl].
  clear IH Hl. revert Hx. generalize (S i).
  induction l as [|y l IH]; intros j Hx; simpl; constructor.
  - inversion Hx; assumption.
  - apply IH. inversion Hx; assumption.
Qed.

Lemma Forall_indexFrom {X : Type} (P : X -> Prop) (l : list X) :
  forall i, Forall P l -> Forall (fun x => P (snd x)) (indexFrom i l).
Proof.
  induction l as [|x l IH]; intros i H; simpl; constructor.
  - inversion H; assumption.
  - apply IH. inversion H; assumption.
Qed.

Lemma flat_map_nondecreasing {X : Type} (g : X -> list (SegmentFile Q))
      (lo hi : X -> Q) (l : list X) :
  Forall (fun x => nondecreasing seg_start (g x) /\
                   Forall (fun sg => lo x <= seg_start sg /\ seg_start sg < hi x)
                          (g x)) l ->
  pairwise (fun x y => hi x <= lo y) l ->
  nondecreasing seg_start (flat_map g l).
Proof.
  induction l as [|x l IH]; simpl; intros Hg Hp; [exact I|].
  inversion Hg as [|? ? [Hnd Hb] Hg']; subst. destruct Hp as [Hx Hp].
  apply pairwise_app; [exact Hnd | apply IH; assumption |].
  rewrite Forall_forall in *. intros sg Hsg. rewrite Forall_forall.
  intros sg' Hsg'. apply in_flat_map in Hsg'. destruct Hsg' as (y & Hy & Hsg').
  specialize (Hb sg Hsg). specialize (Hx y Hy).
  destruct (Hg' y Hy) as [_ Hby]. rewrite Forall_forall in Hby.
  specialize (Hby sg' Hsg'). lra.
Qed.

Lemma clipSegments_starts (jobId : string) (table : list (Asset Q))
      (icl : nat * (Clip Q * TrackType)) :
  0 < duration (fst (snd icl)) ->
  nondecreasing seg_start (clipSegments jobId table icl) /\
  Forall (fun sg => start_time (fst (snd icl)) <= seg_start sg /\
                    seg_start sg < clipEnd (fst (snd icl)))
         (clipSegments jobId table icl).
Proof.
  intro Hd. unfold clipSegments.
  destruct (findAsset (asset_id (fst (snd icl))) table) as [asset|].
  - apply planClip_starts. exact Hd.
  - split; [exact I | constructor].
Qed.

(** Clips of one track type that start together: two on VIDEO_A stay in
    the order of the track, two on VIDEO_B are reversed. *)
Remark sortedVideoClips_ties :
  let clipAt (id : string) := plainClip id (Some "asset1") 3 1 0 [] in
  let project (ty : TrackType) :=
    {| tracks := [ {| track_type := ty; clips := [clipAt "1"; clipAt "2"] |} ] |} in
  map (fun c => clip_id (fst c)) (sortedVideoClips (project VIDEO_A)) = ["1"; "2"] /\
  map (fun c => clip_id (fst c)) (sortedVideoClips (project VIDEO_B)) = ["2"; "1"].
Proof. split; vm_compute; reflexivity. Qed.

Lemma sortedVideoClips_sorted (projectData : Project Q) :
  nondecreasing (fun c : Clip Q * TrackType => start_time (fst c))
                (sortedVideoClips projectData).
Proof.
  apply sortedBy_pairwise. unfold sortedVideoClips.
  apply sortFromLeft_sorted; [apply byStartThenTrack_lt | apply byStartThenTrack_ge].
Qed.

Lemma plannedSegments_nondecreasing (jobId : string) (table : list (Asset Q))
      (projectData : Project Q) :
  videoClipsDisjoint projectData ->
  nondecreasing seg_start (plannedSegments jobId table projectData).
Proof.
  intros [Hdis Hdur]. unfold plannedSegments, indexed.
  pose proof (sortFromLeft_perm byStartThenTrack
                                (collectClips isVideoTrack projectData)) as HP.
  fold (sortedVideoClips projectData) in HP.
  assert (Hdur' : Forall (fun c : Clip Q * TrackType => 0 < duration (fst c))
                         (sortedVideoClips projectData)).
  { eapply Permutation_Forall; [apply Permutation_sym; exact HP | exact Hdur]. }
  assert (Hdis' : pairwise disjointClips (sortedVideoClips projectData)).
  { eapply pairwise_perm; [|apply Permutation_sym; exact HP | exact Hdis].
    unfold disjointClips. tauto. }
  pose proof (ends_before_starts Hdur' Hdis' (sortedVideoClips_sorted projectData))
    as Hord.
  apply (@flat_map_nondecreasing _ (clipSegments jobId table)
           (fun icl => start_time (fst (snd icl)))
           (fun icl => clipEnd (fst (snd icl)))).
  - eapply Forall_impl; [|apply (@Forall_indexFrom _ _ _ 0%nat Hdur')].
    cbv beta. intros icl Hicl. apply clipSegments_starts. exact Hicl.
  - apply (@pairwise_indexFrom _
             (fun a b : Clip Q * TrackType => clipEnd (fst a) <= start_time (fst b))).
    exact Hord.
Qed.

Lemma clipSegments_nondecreasing (jobId : string) (table : list (Asset Q))
      (icl : nat * (Clip Q * TrackType)) :
  nondecreasing seg_start (clipSegments jobId table icl).
Proof.
  unfold clipSegments.
  destruct (findAsset (asset_id (fst (snd icl))) table) as [asset|]; [|exact I].
  unfold planClip.
  destruct (List.length (speedKeyframes (fst (snd icl))) <=? 1)%nat.
  - simpl. split; [constructor | exact I].
  - unfold planSubdivided. apply kfLoop_starts.
Qed.

(** A clip on VIDEO_A whose constant-speed ramp is cut into four sub-chunks,
    overlapped by a clip on VIDEO_B that starts in its middle. *)
Definition rampClipA : Clip Q :=
  plainClip "a" (Some "asset1") 0 2 0 [kfQ 0 1; kfQ 2 1].
Definition lateClipB : Clip Q := plainClip "b" (Some "asset1") 1 1 0 [].
Definition overlapProject : Project Q :=
  {| tracks := [ {| track_type := VIDEO_A; clips := [rampClipA] |};
                 {| track_type := VIDEO_B; clips := [lateClipB] |} ] |}.
Definition overlapWorld : World :=
  {| fs := [];
     db := {| projects := [("p1", overlapProject)]; assets := [sampleAsset];
              export_jobs := [queuedJob] |};
     trace := []; debugLog := [] |}.

(** C8, as stated, fails: with overlapping clips on the two video tracks
    the export run concatenates the four sub-chunks of the first clip, with
    timeline starts 0, 1/2, 1 and 3/2, and then the segment of the second
    clip, whose timeline start is 1. *)
Lemma concat_order_counterexample :
  let segs := plannedSegments "job-1" [sampleAsset] overlapProject in
  let w' := snd (processExportJob "ffmpeg" (fun _ => true) workingEncoder
                                  "job-1" "p1" overlapWorld) in
  In (Concat (map seg_path segs) (TempFile "job-1" ConcatTxt) (ExportFile "job-1"),
      Exited (Some 0%Z) EmptyString) (trace w') /\
  map (fun sg => Qred (seg_start sg)) segs = [0; 1 # 2; 1; 3 # 2; 1] /\
  ~ nondecreasing seg_start segs.
Proof.
  intros segs w'. split; [|split].
  - vm_compute. do 5 right. left. reflexivity.
  - vm_compute. reflexivity.
  - intro H. simpl in H. destruct H as (_ & _ & _ & H & _).
    inversion H as [|? ? H34 _]. vm_compute in H34. apply H34. reflexivity.
Qed.

(** C8, amended: the concat list of an export run enumerates the planned
    segments clip by clip: the video clips of both tracks in non-decreasing
    order of start time (clips that start together in the order the sort
    leaves them), and within each clip its segments in non-decreasing
    order of timeline start.  Hence, when no two video clips overlap in
    time, the whole list is in non-decreasing order of timeline start.
    Numbers are read as exact: the segments and their timeline starts are
    those of the planner's formulae, without binary64 rounding (far out on
    the timeline the rounded starts of one clip can step back, see
    [binary64_segment_starts_step_back]). *)
Theorem concat_lists_segments_by_clip
        (FFMPEG_PATH : string) (hasAudioStream : string -> bool)
        (encoder : nat -> Invocation -> ProcOutcome)
        (projectData : Project Q) (jobId : string) (onProgress : Q -> M unit)
        (w : World) (entries : list Path) (listPath out : Path) (o : ProcOutcome) :
  (forall p, quiet (onProgress p)) ->
  let w' := snd (exportProject FFMPEG_PATH hasAudioStream encoder projectData
                               jobId onProgress w) in
  In (Concat entries listPath out, o) (skipn (List.length (trace w)) (trace w')) ->
  exists order : list (Clip Q * TrackType),
    Permutation order (collectClips isVideoTrack projectData) /\
    nondecreasing (fun c : Clip Q * TrackType => start_time (fst c)) order /\
    let segs := flat_map (clipSegments jobId (assets (db w))) (indexed order) in
    entries = map seg_path segs /\
    (forall icl, nondecreasing seg_start (clipSegments jobId (assets (db w)) icl)) /\
    (videoClipsDisjoint projectData -> nondecreasing seg_start segs).
Proof.
  intros Hq w' Hin.
  set (table := assets (db w)) in *.
  set (listed := fun inv : Invocation =>
                   match inv with
                   | Concat e _ _ =>
                       e = map seg_path (plannedSegments jobId table projectData)
                   | _ => True
                   end).
  assert (Hord : orderly FFMPEG_PATH listed table
                   (exportProject FFMPEG_PATH hasAudioStream encoder projectData
                                  jobId onProgress)).
  { apply orderly_exportProject.
    - intros inv Hn. destruct inv; simpl in *; auto; contradiction.
    - intros. reflexivity.
    - intro p. apply quiet_orderly, Hq. }
  destruct (Hord w eq_refl) as (_ & _ & new & Ht & HP & _).
  fold w' in Ht. rewrite Ht, skipn_app, skipn_all, Nat.sub_diag in Hin.
  simpl in Hin. rewrite Forall_forall in HP. specialize (HP _ Hin). simpl in HP.
  exists (sortedVideoClips projectData).
  split; [apply sortFromLeft_perm|].
  split; [apply sortedVideoClips_sorted|].
  cbv zeta.
  split; [exact HP|].
  split; [intro icl; apply clipSegments_nondecreasing|].
  apply plannedSegments_nondecreasing.
Qed.

(** The same two clips, one after the other. *)
Definition nextClipB : Clip Q := plainClip "b" (Some "asset1") 2 1 0 [].
Definition sequenceProject : Project Q :=
  {| tracks := [ {| track_type := VIDEO_A; clips := [rampClipA] |};
                 {| track_type := VIDEO_B; clips := [nextClipB] |} ] |}.

Lemma concat_lists_segments_by_clip_witness :
  let segs := plannedSegments "job-1" [sampleAsset] sequenceProject in
  map (fun sg => Qred (seg_start sg)) segs = [0; 1 # 2; 1; 3 # 2; 2] /\
  exists order : list (Clip Q * TrackType),
    Permutation order (collectClips isVideoTrack sequenceProject) /\
    map seg_path segs
    = map seg_path (flat_map (clipSegments "job-1" [sampleAsset]) (indexed order)) /\
    nondecreasing seg_start
                  (flat_map (clipSegments "job-1" [sampleAsset]) (indexed order)).
Proof.
  intro segs. split; [vm_compute; reflexivity|].
  destruct (@concat_lists_segments_by_clip
              "ffmpeg" (fun _ => true) workingEncoder sequenceProject "job-1"
              (fun p => updateJob "job-1" (setProgress p)) overlapWorld
              (map seg_path segs) (TempFile "job-1" ConcatTxt) (ExportFile "job-1")
              (Exited (Some 0%Z) EmptyString))
    as (order & HP & _ & He & _ & H).
  - intro p. apply quiet_updateJob. reflexivity.
  - vm_compute. do 5 right. left. reflexivity.
  - exists order. split; [exact HP|]. split; [exact He|].
    apply H. split.
    + simpl. unfold disjointClips, clipEnd. simpl.
      split; [constructor; [left; simpl; lra | constructor]
             | split; [constructor | exact I]].
    + repeat constructor; simpl; lra.
Defined.

(* ================================================================== *)
(** * Further properties of the time engine *)

Section SourceTimeShape.

Local Open Scope Q_scope.

(** With one speed [s] on every keyframe the loop integrates a constant. *)
Lemma integrateFrom_uniform (s : Q) (kf : list (SpeedKeyframe Q)) :
  Forall (fun k => sk_speed k == s) kf ->
  forall t acc pT pS,
    pS == s -> integrateFrom t kf acc pT pS == acc + s * (t - pT).
Proof.
  induction kf as [|k rest IH]; intros Hs t acc pT pS Hp; simpl; qnum.
  - rewrite Hp. ring.
  - inversion Hs as [|? ? Hk Hrest]; subst.
    qcase E.
    + qcase EL.
      * rewrite Hp. ring.
      * rewrite Hp, Hk. field. exact EL.
    + rewrite (IH Hrest) by exact Hk. rewrite Hp, Hk. field.
Qed.

(** The area under the speed line over the keyframes [kf], entered at time
    [pT] with speed [pS]; the time and speed at which it is left. *)
Fixpoint area (pT pS : Q) (kf : list (SpeedKeyframe Q)) : Q :=
  match kf with
  | [] => 0
  | k :: rest => (sk_time k - pT) * (pS + sk_speed k) / 2 + area (sk_time k) (sk_speed k) rest
  end.

Fixpoint exitTime (pT : Q) (kf : list (SpeedKeyframe Q)) : Q :=
  match kf with
  | [] => pT
  | k :: rest => exitTime (sk_time k) rest
  end.

Fixpoint exitSpeed (pS : Q) (kf : list (SpeedKeyframe Q)) : Q :=
  match kf with
  | [] => pS
  | k :: rest => exitSpeed (sk_speed k) rest
  end.

(** Past every keyframe: the whole area, then the last speed. *)
Lemma integrateFrom_past (kf : list (SpeedKeyframe Q)) :
  forall t acc pT pS,
    Forall (fun k => sk_time k < t) kf ->
    integrateFrom t kf acc pT pS
    == acc + area pT pS kf + (t - exitTime pT kf) * exitSpeed pS kf.
Proof.
  induction kf as [|k rest IH]; intros t acc pT pS Hlt; simpl; qnum.
  - ring.
  - inversion Hlt as [|? ? Hk Hrest]; subst.
    destruct (Qle_bool t (sk_time k)) eqn:E;
      [apply Qle_bool_iff in E; lra|].
    rewrite (IH _ _ _ _ Hrest). ring.
Qed.

Lemma area_flat (kf : list (SpeedKeyframe Q)) :
  forall pT pS, Forall (fun k => sk_time k == pT) kf -> area pT pS kf == 0.
Proof.
  induction kf as [|k rest IH]; intros pT pS H; simpl; [reflexivity|].
  inversion H as [|? ? Hk Hrest]; subst.
  rewrite IH.
  - rewrite Hk. field.
  - eapply Forall_impl; [|exact Hrest]. cbv beta. intros k' Hk'.
    rewrite Hk', Hk. reflexivity.
Qed.

(** At the time of the last keyframe of a sorted list: the whole area. *)
Lemma integrateFrom_at_last (kf : list (SpeedKeyframe Q)) :
  forall tl acc pT pS,
    sortedBy (@sk_time Q) kf -> kf <> [] -> tl == exitTime pT kf ->
    integrateFrom tl kf acc pT pS == acc + area pT pS kf.
Proof.
  induction kf as [|k rest IH]; intros tl acc pT pS Hs Hne Htl;
    [contradiction Hne; reflexivity|].
  simpl in *. qnum. destruct Hs as [Hk Hs].
  assert (Hmax : sk_time k <= tl /\
                 (tl <= sk_time k -> Forall (fun k' => sk_time k' == sk_time k) rest)).
  { rewrite Htl. clear IH Hne Htl. revert k Hk Hs.
    induction rest as [|k2 rest IH2]; intros k Hk Hs; simpl.
    - split; [lra | constructor].
    - destruct Hs as [Hk2 Hs]. destruct (IH2 k2 Hk2 Hs) as [A B].
      split; [lra|]. intro Hle.
      assert (E2 : sk_time k2 == sk_time k) by lra.
      constructor; [exact E2|].
      assert (Hle2 : exitTime (sk_time k2) rest <= sk_time k2) by lra.
      eapply Forall_impl; [|exact (B Hle2)]. cbv beta. intros k' Hk'.
      rewrite Hk'. exact E2. }
  destruct Hmax as [Hle Hflat].
  qcase E.
  - assert (Eu : tl - pT == sk_time k - pT) by lra.
    rewrite (area_flat _ (Hflat E)).
    qcase EL.
    + rewrite Eu, EL. field.
    + rewrite partial_trapezoid by exact EL. rewrite Eu. field. exact EL.
  - destruct rest as [|k2 rest].
    + simpl in Htl. lra.
    + rewrite (IH tl _ _ _ Hs) by (try discriminate; exact Htl). ring.
Qed.

End SourceTimeShape.

Section SourceTimeEnds.

Local Open Scope Q_scope.

Lemma sorted_speed_keyframes (kfs : list (SpeedKeyframe Q)) :
  sortedBy (@sk_time Q) (sortBy bySpeedKfTime kfs).
Proof.
  apply sortBy_sorted; [apply bySpeedKfTime_le | apply bySpeedKfTime_gt].
Qed.

(** At or before the first keyframe the loop stops in its first round. *)
Lemma integrateFrom_first_segment (t : Q) (k0 : SpeedKeyframe Q)
      (rest : list (SpeedKeyframe Q)) :
  t <= sk_time k0 ->
  integrateFrom t (k0 :: rest) 0 0 (sk_speed k0) == sk_speed k0 * t.
Proof.
  intro Ht. simpl. qnum.
  destruct (Qle_bool t (sk_time k0)) eqn:E;
    [|apply Qle_bool_false in E; lra].
  qcase EL; [ring | field; intro Z; apply EL; lra].
Qed.

Lemma last_any_default {X : Type} (l : list X) (d d' : X) :
  l <> [] -> last l d = last l d'.
Proof.
  induction l as [|x l IH]; intro H; [contradiction H; reflexivity|].
  destruct l as [|y l]; [reflexivity|].
  change (last (y :: l) d = last (y :: l) d'). apply IH. discriminate.
Qed.

Lemma exitTime_last (kf : list (SpeedKeyframe Q)) :
  forall k0 pT, exitTime pT (k0 :: kf) = sk_time (last (k0 :: kf) k0).
Proof.
  induction kf as [|k rest IH]; intros k0 pT; [reflexivity|].
  change (exitTime pT (k0 :: k :: rest)) with (exitTime (sk_time k0) (k :: rest)).
  rewrite (IH k (sk_time k0)).
  change (last (k0 :: k :: rest) k0) with (last (k :: rest) k0).
  f_equal. apply last_any_default. discriminate.
Qed.

Lemma exitSpeed_last (kf : list (SpeedKeyframe Q)) :
  forall k0 pS, exitSpeed pS (k0 :: kf) = sk_speed (last (k0 :: kf) k0).
Proof.
  induction kf as [|k rest IH]; intros k0 pS; [reflexivity|].
  change (exitSpeed pS (k0 :: k :: rest)) with (exitSpeed (sk_speed k0) (k :: rest)).
  rewrite (IH k (sk_speed k0)).
  change (last (k0 :: k :: rest) k0) with (last (k :: rest) k0).
  f_equal. apply last_any_default. discriminate.
Qed.

(** In a sorted list no keyframe is later than the last one. *)
Lemma sorted_le_exit (kf : list (SpeedKeyframe Q)) :
  forall pT,
    sortedBy (@sk_time Q) kf ->
    match kf with [] => True | k :: _ => pT <= sk_time k end ->
    pT <= exitTime pT kf /\ Forall (fun k => sk_time k <= exitTime pT kf) kf.
Proof.
  induction kf as [|k rest IH]; intros pT Hs Hp; simpl.
  - split; [lra | constructor].
  - destruct Hs as [Hk Hs].
    destruct (IH (sk_time k) Hs) as [A B]; [destruct rest; [exact I | exact Hk]|].
    split; [lra|]. constructor; [exact A | exact B].
Qed.

End SourceTimeEnds.

(** X1: when every speed keyframe carries the same speed [s], the source
    time is [s * t] at every clip-local time [t], wherever the keyframes
    lie; without keyframes it is [t] itself. *)
Theorem mapClipSourceTime_constant_speed (kfs : list (SpeedKeyframe Q)) (s t : Q) :
  Forall (fun k => sk_speed k == s)%Q kfs -> (kfs = [] -> s == 1)%Q ->
  (mapClipSourceTime t kfs == s * t)%Q.
Proof.
  intros Hs He. unfold mapClipSourceTime.
  assert (Hs' : Forall (fun k => sk_speed k == s)%Q (sortBy bySpeedKfTime kfs)).
  { eapply Permutation_Forall; [|exact Hs]. apply Permutation_sym, sortBy_perm. }
  pose proof (sortBy_perm bySpeedKfTime kfs) as HP.
  destruct (sortBy bySpeedKfTime kfs) as [|k0 rest].
  - apply Permutation_nil in HP. rewrite (He HP). ring.
  - qnum. rewrite (integrateFrom_uniform Hs').
    + ring.
    + inversion Hs'; assumption.
Qed.

Lemma mapClipSourceTime_constant_speed_witness :
  (mapClipSourceTime 3 [kfQ 5 2; kfQ 1 2] == 2 * 3)%Q.
Proof.
  apply mapClipSourceTime_constant_speed.
  - repeat constructor; simpl; reflexivity.
  - discriminate.
Defined.

(** X2: up to the earliest keyframe (the head of the sorted list) the source
    advances at that keyframe's speed: the source time at [t] is
    [speed * t]. *)
Theorem mapClipSourceTime_before_first_keyframe
        (kfs rest : list (SpeedKeyframe Q)) (k0 : SpeedKeyframe Q) (t : Q) :
  sortBy bySpeedKfTime kfs = k0 :: rest -> (t <= sk_time k0)%Q ->
  (mapClipSourceTime t kfs == sk_speed k0 * t)%Q.
Proof.
  intros Hs Ht. unfold mapClipSourceTime. rewrite Hs. qnum.
  apply integrateFrom_first_segment. exact Ht.
Qed.

Lemma mapClipSourceTime_before_first_keyframe_witness :
  (mapClipSourceTime (1 # 2) [kfQ 3 1; kfQ 1 4] == 4 * (1 # 2))%Q.
Proof.
  apply (@mapClipSourceTime_before_first_keyframe
           [kfQ 3 1; kfQ 1 4] [kfQ 3 1] (kfQ 1 4) (1 # 2)).
  - reflexivity.
  - simpl. lra.
Defined.

(** X3: when no keyframe lies before the clip start, the clip starts at its
    in-point: the source time at clip-local time 0 is 0. *)
Theorem mapClipSourceTime_zero (kfs : list (SpeedKeyframe Q)) :
  Forall (fun k => 0 <= sk_time k)%Q kfs -> (mapClipSourceTime 0 kfs == 0)%Q.
Proof.
  intro Hp. unfold mapClipSourceTime.
  assert (Hp' : Forall (fun k => 0 <= sk_time k)%Q (sortBy bySpeedKfTime kfs)).
  { eapply Permutation_Forall; [|exact Hp]. apply Permutation_sym, sortBy_perm. }
  destruct (sortBy bySpeedKfTime kfs) as [|k0 rest]; [reflexivity|].
  qnum. rewrite integrateFrom_first_segment.
  - ring.
  - inversion Hp'; assumption.
Qed.

Lemma mapClipSourceTime_zero_witness : (mapClipSourceTime 0 holdQ == 0)%Q.
Proof.
  apply mapClipSourceTime_zero. repeat constructor; simpl; lra.
Defined.

(** X4: in exact arithmetic, past the latest keyframe (the last of the
    sorted list) the source advances at that keyframe's speed: for [t] after
    its time [tl], the source time is the one at [tl] plus
    [(t - tl) * speed].  (In binary64 the two sides can differ in the last
    places, see [binary64_after_last_keyframe].) *)
Theorem mapClipSourceTime_after_last_keyframe
        (kfs rest : list (SpeedKeyframe Q)) (k0 kl : SpeedKeyframe Q) (t : Q) :
  sortBy bySpeedKfTime kfs = k0 :: rest -> kl = last (k0 :: rest) k0 ->
  (sk_time kl < t)%Q ->
  (mapClipSourceTime t kfs ==
   mapClipSourceTime (sk_time kl) kfs + (t - sk_time kl) * sk_speed kl)%Q.
Proof.
  intros Hs Hl Ht. unfold mapClipSourceTime.
  pose proof (sorted_speed_keyframes kfs) as Hsorted.
  rewrite Hs in *. qnum.
  assert (Het : exitTime 0 (k0 :: rest) = sk_time kl)
    by (rewrite Hl; apply exitTime_last).
  assert (Hes : exitSpeed (sk_speed k0) (k0 :: rest) = sk_speed kl)
    by (rewrite Hl; apply exitSpeed_last).
  rewrite integrateFrom_past.
  - rewrite (@integrateFrom_at_last (k0 :: rest) (sk_time kl)).
    + rewrite Het, Hes. ring.
    + exact Hsorted.
    + discriminate.
    + rewrite Het. reflexivity.
  - destruct Hsorted as [Hk Hsorted].
    destruct (@sorted_le_exit rest (sk_time k0) Hsorted) as [A B];
      [destruct rest; [exact I | exact Hk]|].
    simpl in Het. rewrite Het in A, B.
    constructor; [lra|].
    eapply Forall_impl; [|exact B]. cbv beta. intros k Hk'. lra.
Qed.

Lemma mapClipSourceTime_after_last_keyframe_witness :
  (mapClipSourceTime 6 holdQ == mapClipSourceTime 4 holdQ + (6 - 4) * 1)%Q.
Proof.
  apply (@mapClipSourceTime_after_last_keyframe
           holdQ [kfQ 1 0; kfQ 3 0; kfQ 4 1] (kfQ 0 1) (kfQ 4 1) 6).
  - reflexivity.
  - reflexivity.
  - simpl. lra.
Defined.

Section SourceTimeRate.

Local Open Scope Q_scope.

Variables m M : Q.

(** Every speed of [kf] lies between [m] and [M]. *)
Definition speedsWithin (kf : list (SpeedKeyframe Q)) : Prop :=
  Forall (fun k => m <= sk_speed k /\ sk_speed k <= M) kf.

Lemma weighted_bounds (a b p k : Q) :
  0 <= a -> 0 <= b -> m <= p -> p <= M -> m <= k -> k <= M ->
  m * (a + b) <= a * p + b * k /\ a * p + b * k <= M * (a + b).
Proof.
  intros Ha Hb Hp1 Hp2 Hk1 Hk2.
  assert (0 <= a * (p - m)) by (apply Qmult_le_0_compat; lra).
  assert (0 <= a * (M - p)) by (apply Qmult_le_0_compat; lra).
  assert (0 <= b * (k - m)) by (apply Qmult_le_0_compat; lra).
  assert (0 <= b * (M - k)) by (apply Qmult_le_0_compat; lra).
  split; lra.
Qed.

Lemma partial_trapezoid_rate (u1 u2 L pS kS : Q) :
  0 < L -> 0 <= u1 -> u1 <= u2 -> u2 <= L ->
  m <= pS -> pS <= M -> m <= kS -> kS <= M ->
  let P := fun u => u * (pS + (pS + (kS - pS) * (u / L))) / 2 in
  m * (u2 - u1) <= P u2 - P u1 /\ P u2 - P u1 <= M * (u2 - u1).
Proof.
  intros HL H1 H12 H2 Hp1 Hp2 Hk1 Hk2. cbv zeta beta.
  assert (HL0 : ~ L == 0) by lra.
  assert (E : u2 * (pS + (pS + (kS - pS) * (u2 / L))) / 2
              - u1 * (pS + (pS + (kS - pS) * (u1 / L))) / 2
              == (u2 - u1) * (((2 * L - (u1 + u2)) * pS + (u1 + u2) * kS) / (2 * L))).
  { field. exact HL0. }
  rewrite E.
  destruct (@weighted_bounds (2 * L - (u1 + u2)) (u1 + u2) pS kS) as [A B];
    try lra.
  set (w := (2 * L - (u1 + u2)) * pS + (u1 + u2) * kS) in *.
  assert (A' : m <= w / (2 * L)) by (apply Qle_shift_div_l; lra).
  assert (B' : w / (2 * L) <= M) by (apply Qle_shift_div_r; lra).
  assert (0 <= (u2 - u1) * (w / (2 * L) - m)) by (apply Qmult_le_0_compat; lra).
  assert (0 <= (u2 - u1) * (M - w / (2 * L))) by (apply Qmult_le_0_compat; lra).
  split; lra.
Qed.

(** The value of one round of the loop that stops at [u] inside a segment
    of length [L]. *)
Definition partialStep (u L pS kS : Q) : Q :=
  if Qeq_bool L 0 then pS * u else u * (pS + (pS + (kS - pS) * (u / L))) / 2.

Lemma partialStep_rate (u1 u2 L pS kS : Q) :
  0 <= u1 -> u1 <= u2 -> u2 <= L ->
  m <= pS -> pS <= M -> m <= kS -> kS <= M ->
  m * (u2 - u1) <= partialStep u2 L pS kS - partialStep u1 L pS kS /\
  partialStep u2 L pS kS - partialStep u1 L pS kS <= M * (u2 - u1).
Proof.
  intros H1 H12 H2 Hp1 Hp2 Hk1 Hk2. unfold partialStep.
  qcase EL.
  - assert (0 <= (u2 - u1) * (pS - m)) by (apply Qmult_le_0_compat; lra).
    assert (0 <= (u2 - u1) * (M - pS)) by (apply Qmult_le_0_compat; lra).
    split; lra.
  - apply partial_trapezoid_rate; lra.
Qed.

Lemma partialStep_full (L pS kS : Q) :
  0 <= L -> partialStep L L pS kS == L * (pS + kS) / 2.
Proof.
  intro HL. unfold partialStep. qcase EL.
  - rewrite EL. field.
  - field. exact EL.
Qed.

Lemma integrateFrom_rate_from (kf : list (SpeedKeyframe Q)) :
  forall t acc pT pS,
    timesFrom pT kf -> pT <= t -> m <= pS -> pS <= M -> speedsWithin kf ->
    acc + m * (t - pT) <= integrateFrom t kf acc pT pS /\
    integrateFrom t kf acc pT pS <= acc + M * (t - pT).
Proof.
  induction kf as [|k rest IH]; intros t acc pT pS Hs Ht Hp1 Hp2 Hw; simpl; qnum.
  - assert (0 <= (t - pT) * (pS - m)) by (apply Qmult_le_0_compat; lra).
    assert (0 <= (t - pT) * (M - pS)) by (apply Qmult_le_0_compat; lra).
    split; lra.
  - destruct Hs as [Hk Hs]. inversion Hw as [|? ? [Hk1 Hk2] Hw']; subst.
    qcase E.
    + pose proof (@partialStep_rate 0 (t - pT) (sk_time k - pT) pS (sk_speed k)) as B.
      unfold partialStep in B.
      destruct (Qeq_bool (sk_time k - pT) 0) eqn:EL.
      * destruct B as [B1 B2]; try lra; try (split; lra).
      * apply Qeq_bool_neq in EL.
        assert (Z : 0 * (pS + (pS + (sk_speed k - pS) * (0 / (sk_time k - pT)))) / 2 == 0)
          by (field; exact EL).
        rewrite Z in B. destruct B as [B1 B2]; try lra; try (split; lra).
    + destruct (IH t (acc + (sk_time k - pT) * (pS + sk_speed k) / 2)
                  (sk_time k) (sk_speed k)) as [A B]; try assumption; try lra.
      pose proof (@partialStep_rate 0 (sk_time k - pT) (sk_time k - pT) pS (sk_speed k)) as F.
      rewrite partialStep_full in F by lra.
      assert (Z : partialStep 0 (sk_time k - pT) pS (sk_speed k) == 0).
      { unfold partialStep. qcase EL; [ring | field; exact EL]. }
      rewrite Z in F. destruct F as [F1 F2]; try lra; try (split; lra).
Qed.

Lemma integrateFrom_rate (kf : list (SpeedKeyframe Q)) :
  forall t1 t2 acc pT pS,
    timesFrom pT kf -> pT <= t1 -> t1 <= t2 -> m <= pS -> pS <= M ->
    speedsWithin kf ->
    m * (t2 - t1) <= integrateFrom t2 kf acc pT pS - integrateFrom t1 kf acc pT pS /\
    integrateFrom t2 kf acc pT pS - integrateFrom t1 kf acc pT pS <= M * (t2 - t1).
Proof.
  induction kf as [|k rest IH]; intros t1 t2 acc pT pS Hs H1 H12 Hp1 Hp2 Hw;
    simpl; qnum.
  - assert (0 <= (t2 - t1) * (pS - m)) by (apply Qmult_le_0_compat; lra).
    assert (0 <= (t2 - t1) * (M - pS)) by (apply Qmult_le_0_compat; lra).
    split; lra.
  - destruct Hs as [Hk Hs]. inversion Hw as [|? ? [Hk1 Hk2] Hw']; subst.
    destruct (Qle_bool t1 (sk_time k)) eqn:E1;
      [apply Qle_bool_iff in E1 | apply Qle_bool_false in E1].
    + destruct (Qle_bool t2 (sk_time k)) eqn:E2;
        [apply Qle_bool_iff in E2 | apply Qle_bool_false in E2].
      * pose proof (@partialStep_rate (t1 - pT) (t2 - pT) (sk_time k - pT)
                      pS (sk_speed k)) as B.
        unfold partialStep in B.
        destruct (Qeq_bool (sk_time k - pT) 0);
          (destruct B as [B1 B2]; try lra; try (split; lra)).
      * destruct (@integrateFrom_rate_from rest t2
                    (acc + (sk_time k - pT) * (pS + sk_speed k) / 2)
                    (sk_time k) (sk_speed k)) as [A B]; try assumption; try lra.
        pose proof (@partialStep_rate (t1 - pT) (sk_time k - pT) (sk_time k - pT)
                      pS (sk_speed k)) as F.
        rewrite partialStep_full in F by lra.
        unfold partialStep in F.
        destruct (Qeq_bool (sk_time k - pT) 0);
          (destruct F as [F1 F2]; try lra; try (split; lra)).
    + destruct (Qle_bool t2 (sk_time k)) eqn:E2;
        [apply Qle_bool_iff in E2; lra | apply Qle_bool_false in E2].
      apply IH; try assumption; lra.
Qed.

End SourceTimeRate.

(** X5: in exact arithmetic, the source never advances slower than the
    slowest keyframe speed nor faster than the fastest one: when every
    keyframe speed lies in [[m, M]], then for [0 <= t1 <= t2] the source time
    grows between [t1] and [t2] by at least [m * (t2 - t1)] and at most
    [M * (t2 - t1)].  (In binary64 the growth can miss a bound by a rounding
    error in the last place, see [binary64_growth_below_bound].) *)
Theorem mapClipSourceTime_rate_bounds (kfs : list (SpeedKeyframe Q)) (m M t1 t2 : Q) :
  kfs <> [] -> speedsWithin m M kfs -> (0 <= t1)%Q -> (t1 <= t2)%Q ->
  (m * (t2 - t1) <= mapClipSourceTime t2 kfs - mapClipSourceTime t1 kfs /\
   mapClipSourceTime t2 kfs - mapClipSourceTime t1 kfs <= M * (t2 - t1))%Q.
Proof.
  intros Hne Hw H0 H12. unfold mapClipSourceTime.
  assert (Hw' : speedsWithin m M (sortBy bySpeedKfTime kfs)).
  { unfold speedsWithin in *. eapply Permutation_Forall; [|exact Hw].
    apply Permutation_sym, sortBy_perm. }
  pose proof (sorted_speed_keyframes kfs) as Hs.
  pose proof (sortBy_perm bySpeedKfTime kfs) as HP.
  destruct (sortBy bySpeedKfTime kfs) as [|k0 rest].
  - apply Permutation_nil in HP. contradiction.
  - assert (Hk0 : (m <= sk_speed k0 /\ sk_speed k0 <= M)%Q)
      by (inversion Hw'; assumption).
    destruct Hk0 as [Hk1 Hk2]. qnum.
    destruct (Qlt_le_dec (sk_time k0) 0) as [Hneg|Hpos].
    + simpl; qnum.
      destruct (Qle_bool t1 (sk_time k0)) eqn:E1;
        [apply Qle_bool_iff in E1; lra|].
      destruct (Qle_bool t2 (sk_time k0)) eqn:E2;
        [apply Qle_bool_iff in E2; lra|].
      destruct Hs as [Hk Hs].
      apply integrateFrom_rate; try assumption; try lra.
      * apply sorted_timesFrom; [exact Hs|]. destruct rest; [exact I | exact Hk].
      * inversion Hw'; assumption.
    + apply integrateFrom_rate; try assumption.
      apply sorted_timesFrom; [exact Hs | exact Hpos].
Qed.

Lemma mapClipSourceTime_rate_bounds_witness :
  (0 * (2 - 1) <= mapClipSourceTime 2 holdQ - mapClipSourceTime 1 holdQ /\
   mapClipSourceTime 2 holdQ - mapClipSourceTime 1 holdQ <= 1 * (2 - 1))%Q.
Proof.
  apply mapClipSourceTime_rate_bounds.
  - discriminate.
  - repeat constructor; simpl; lra.
  - lra.
  - lra.
Defined.

(* ================================================================== *)
(** ** Interpolation between keyframes *)

Section Interpolation.

Local Open Scope Q_scope.

Lemma lerp_within (lo hi a b f : Q) :
  lo <= a -> a <= hi -> lo <= b -> b <= hi -> 0 <= f -> f <= 1 ->
  lo <= lerp a b f /\ lerp a b f <= hi.
Proof.
  intros Ha1 Ha2 Hb1 Hb2 Hf0 Hf1. unfold lerp. qnum.
  destruct (@weighted_bounds lo hi (1 - f) f a b) as [A B]; try lra;
    try (split; lra).
Qed.

(** The fraction of a segment [[ta, tb]] covered at [t]. *)
Lemma segment_fraction (ta tb t : Q) :
  ta <= t -> t <= tb ->
  let f := if Qeq_bool (tb - ta) 0 then 0 else (t - ta) / (tb - ta) in
  0 <= f /\ f <= 1.
Proof.
  intros Ha Hb. cbv zeta. qcase E; [split; lra|].
  split.
  - apply Qle_shift_div_l; lra.
  - apply Qle_shift_div_r; lra.
Qed.

Lemma speedSegment_within (m M : Q) (kf : list (SpeedKeyframe Q)) (t v : Q) :
  speedsWithin m M kf -> speedSegment t kf = Some v -> m <= v /\ v <= M.
Proof.
  induction kf as [|a rest IH]; intros Hw Hv; [discriminate|].
  simpl in Hv. destruct rest as [|b rest']; [discriminate|].
  inversion Hw as [|? ? [Ha1 Ha2] Hw']; subst.
  qnum.
  destruct (Qle_bool (sk_time a) t && Qle_bool t (sk_time b)) eqn:E.
  - apply andb_true_iff in E. destruct E as [E1 E2].
    apply Qle_bool_iff in E1. apply Qle_bool_iff in E2.
    inversion Hw' as [|? ? [Hb1 Hb2] _]; subst.
    injection Hv as <-.
    destruct (@segment_fraction (sk_time a) (sk_time b) t E1 E2) as [F0 F1].
    apply lerp_within; assumption.
  - apply IH; assumption.
Qed.

Lemma square_le_1 (t : Q) : 0 <= t -> t <= 1 -> 0 <= t * t /\ t * t <= 1.
Proof.
  intros H0 H1.
  assert (0 <= t * t) by (apply Qmult_le_0_compat; lra).
  assert (0 <= t * (1 - t)) by (apply Qmult_le_0_compat; lra).
  split; lra.
Qed.

Lemma product_mono (a b c d : Q) :
  0 <= a -> a <= b -> 0 <= c -> c <= d -> a * c <= b * d.
Proof.
  intros Ha Hab Hc Hcd.
  assert (0 <= (b - a) * c) by (apply Qmult_le_0_compat; lra).
  assert (0 <= b * (d - c)) by (apply Qmult_le_0_compat; lra).
  lra.
Qed.

Lemma getEasedProgress_mono (e : string) (t1 t2 : Q) :
  0 <= t1 -> t1 <= t2 -> t2 <= 1 ->
  getEasedProgress t1 e <= getEasedProgress t2 e.
Proof.
  intros H0 H12 H1. unfold getEasedProgress, half. qnum.
  destruct (String.eqb e "easeIn").
  { apply product_mono; lra. }
  destruct (String.eqb e "easeOut").
  { assert (0 <= (t2 - t1) * (2 - t1 - t2)) by (apply Qmult_le_0_compat; lra).
    lra. }
  destruct (String.eqb e "easeInOut"); [|exact H12].
  assert (Hh : 1 / 2 == 1 # 2) by reflexivity.
  destruct (Qltb t1 (1 / 2)) eqn:E1;
    [apply Qltb_true in E1 | apply Qltb_false in E1];
  (destruct (Qltb t2 (1 / 2)) eqn:E2;
    [apply Qltb_true in E2 | apply Qltb_false in E2]);
  rewrite Hh in *.
  - assert (t1 * t1 <= t2 * t2) by (apply product_mono; lra). lra.
  - assert (0 <= ((1 # 2) - t1) * ((1 # 2) + t1)) by (apply Qmult_le_0_compat; lra).
    assert (0 <= (t2 - (1 # 2)) * ((3 # 2) - t2)) by (apply Qmult_le_0_compat; lra).
    lra.
  - lra.
  - assert (0 <= (t2 - t1) * (2 - t1 - t2)) by (apply Qmult_le_0_compat; lra).
    lra.
Qed.

Lemma getEasedProgress_at_0 (e : string) : getEasedProgress 0 e == 0.
Proof.
  unfold getEasedProgress, half. qnum.
  destruct (String.eqb e "easeIn"); [reflexivity|].
  destruct (String.eqb e "easeOut"); [reflexivity|].
  destruct (String.eqb e "easeInOut"); reflexivity.
Qed.

(** At the end of a segment every easing has arrived, whatever the
    representation of the fraction 1. *)
Lemma getEasedProgress_at_1 (e : string) (t : Q) :
  t == 1 -> getEasedProgress t e == 1.
Proof.
  intro Ht. unfold getEasedProgress, half. qnum.
  destruct (String.eqb e "easeIn"); [rewrite Ht; reflexivity|].
  destruct (String.eqb e "easeOut"); [rewrite Ht; reflexivity|].
  destruct (String.eqb e "easeInOut"); [|exact Ht].
  destruct (Qltb t (1 / 2)) eqn:E;
    [apply Qltb_true in E; rewrite Ht in E; discriminate E|].
  rewrite Ht. reflexivity.
Qed.

Lemma getEasedProgress_unit (e : string) (t : Q) :
  0 <= t -> t <= 1 -> 0 <= getEasedProgress t e /\ getEasedProgress t e <= 1.
Proof.
  intros H0 H1. split.
  - rewrite <- (getEasedProgress_at_0 e). apply getEasedProgress_mono; lra.
  - rewrite <- (@getEasedProgress_at_1 e 1) by reflexivity.
    apply getEasedProgress_mono; lra.
Qed.

End Interpolation.

(** X6: in exact arithmetic, the speed read at any clip-local time lies
    between the slowest and the fastest keyframe speed.  (In binary64 the
    speed read at an inner keyframe can leave the range in the last place,
    see [binary64_at_inner_keyframe].) *)
Theorem getSpeedAtTime_within (kfs : list (SpeedKeyframe Q)) (m M t : Q) :
  kfs <> [] -> speedsWithin m M kfs ->
  (m <= getSpeedAtTime t kfs /\ getSpeedAtTime t kfs <= M)%Q.
Proof.
  intros Hne Hw. unfold getSpeedAtTime.
  assert (Hw' : speedsWithin m M (sortBy bySpeedKfTime kfs)).
  { unfold speedsWithin in *. eapply Permutation_Forall; [|exact Hw].
    apply Permutation_sym, sortBy_perm. }
  pose proof (sortBy_perm bySpeedKfTime kfs) as HP.
  destruct (sortBy bySpeedKfTime kfs) as [|k0 rest].
  - apply Permutation_nil in HP. contradiction.
  - cbv zeta.
    assert (Hl : (m <= sk_speed (last (k0 :: rest) k0) /\
                  sk_speed (last (k0 :: rest) k0) <= M)%Q).
    { unfold speedsWithin in Hw'. rewrite Forall_forall in Hw'.
      apply Hw'. apply last_In. discriminate. }
    destruct (_ <=? sk_time k0)%num; [inversion Hw'; assumption|].
    destruct (_ <=? t)%num; [exact Hl|].
    destruct (speedSegment t (k0 :: rest)) as [v|] eqn:Ev; [|exact Hl].
    eapply speedSegment_within; eassumption.
Qed.

Lemma getSpeedAtTime_within_witness :
  (0 <= getSpeedAtTime (1 # 2) holdQ /\ getSpeedAtTime (1 # 2) holdQ <= 1)%Q.
Proof.
  apply getSpeedAtTime_within.
  - discriminate.
  - repeat constructor; simpl; lra.
Defined.

(** X7: in exact arithmetic, every easing maps the progress of a segment
    onto itself without turning back: for [0 <= t1 <= t2 <= 1] the eased
    values satisfy [0 <= eased t1 <= eased t2 <= 1], for the three named
    easings and for any other name (linear).  (In binary64 [easeOut] steps
    back in the last place next to 1, see [binary64_easeOut_near_one].) *)
Theorem getEasedProgress_monotone_unit (e : string) (t1 t2 : Q) :
  (0 <= t1)%Q -> (t1 <= t2)%Q -> (t2 <= 1)%Q ->
  (0 <= getEasedProgress t1 e /\
   getEasedProgress t1 e <= getEasedProgress t2 e /\
   getEasedProgress t2 e <= 1)%Q.
Proof.
  intros H0 H12 H1.
  split; [apply getEasedProgress_unit; lra|].
  split; [apply getEasedProgress_mono; assumption|].
  apply getEasedProgress_unit; lra.
Qed.

Lemma getEasedProgress_monotone_unit_witness :
  (0 <= getEasedProgress (1 # 4) "easeInOut" /\
   getEasedProgress (1 # 4) "easeInOut" <= getEasedProgress (3 # 4) "easeInOut" /\
   getEasedProgress (3 # 4) "easeInOut" <= 1)%Q.
Proof.
  apply getEasedProgress_monotone_unit; lra.
Defined.

(** X8: every easing starts at 0 and arrives at 1. *)
Theorem getEasedProgress_endpoints (e : string) :
  (getEasedProgress 0 e == 0 /\ getEasedProgress 1 e == 1)%Q.
Proof.
  split; [apply getEasedProgress_at_0 | apply getEasedProgress_at_1; reflexivity].
Qed.

Section OverlayKeyframes.

Local Open Scope Q_scope.

(** Two transforms with the same values. *)
Definition sameTransform (a b : Transform Q) : Prop :=
  tr_x a == tr_x b /\ tr_y a == tr_y b /\
  tr_scaleX a == tr_scaleX b /\ tr_scaleY a == tr_scaleY b /\
  tr_rotation a == tr_rotation b /\ tr_opacity a == tr_opacity b.

Lemma sameTransform_refl (a : Transform Q) : sameTransform a a.
Proof. repeat split; reflexivity. Qed.

Lemma byOverlayKfTime_le (x y : OverlayKeyframe Q) :
  byOverlayKfTime x y <= 0 -> ok_time x <= ok_time y.
Proof. unfold byOverlayKfTime; qnum; lra. Qed.

Lemma byOverlayKfTime_gt (x y : OverlayKeyframe Q) :
  0 < byOverlayKfTime x y -> ok_time y <= ok_time x.
Proof. unfold byOverlayKfTime; qnum; lra. Qed.

Lemma sorted_overlay_keyframes (kfs : list (OverlayKeyframe Q)) :
  sortedBy (@ok_time Q) (sortBy byOverlayKfTime kfs).
Proof.
  apply sortBy_sorted; [apply byOverlayKfTime_le | apply byOverlayKfTime_gt].
Qed.

Lemma distinct_same_key {T : Type} (key : T -> Q) (l : list T) (x y : T) :
  distinctBy key l -> In x l -> In y l -> key x == key y -> x = y.
Proof.
  induction l as [|a l IH]; intros Hd Hx Hy E; [contradiction|].
  destruct Hd as [Ha Hd]. rewrite Forall_forall in Ha.
  destruct Hx as [<-|Hx], Hy as [<-|Hy].
  - reflexivity.
  - exfalso. exact (Ha y Hy E).
  - exfalso. apply (Ha x Hx). symmetry. exact E.
  - apply IH; assumption.
Qed.

Lemma nondecreasing_last {T : Type} (key : T -> Q) (l : list T) (d x : T) :
  nondecreasing key l -> In x l -> key x <= key (last l d).
Proof.
  induction l as [|a l IH]; intros Hn Hx; [contradiction|].
  destruct Hn as [Ha Hn]. destruct l as [|b l].
  - destruct Hx as [<-|[]]. simpl. lra.
  - change (last (a :: b :: l) d) with (last (b :: l) d).
    destruct Hx as [<-|Hx].
    + rewrite Forall_forall in Ha.
      apply Ha. apply last_In. discriminate.
    + apply IH; assumption.
Qed.

Lemma lerp_at_1 (a b f : Q) : f == 1 -> lerp a b f == b.
Proof. intro H. unfold lerp. qnum. rewrite H. ring. Qed.

(** Inside the list, the segment that ends at a keyframe yields that
    keyframe's transform. *)
Lemma overlaySegment_at_keyframe (k : OverlayKeyframe Q)
      (l : list (OverlayKeyframe Q)) :
  forall a,
    sortedBy (@ok_time Q) (a :: l) -> distinctBy (@ok_time Q) (a :: l) ->
    In k l ->
    exists tr, overlaySegment (ok_time k) (a :: l) = Some tr /\
               sameTransform tr (kfToTransform k).
Proof.
  induction l as [|b l IH]; intros a Hs Hd Hk; [contradiction|].
  pose proof (sortedBy_pairwise _ _ Hs) as Hn.
  destruct Hn as [Ha [Hb _]].
  assert (Hak : ok_time a <= ok_time k).
  { rewrite Forall_forall in Ha. apply Ha. exact Hk. }
  assert (Hbk : ok_time b <= ok_time k).
  { destruct Hk as [<-|Hk]; [lra|]. rewrite Forall_forall in Hb. apply Hb, Hk. }
  cbn [overlaySegment]. qnum.
  destruct (Qle_bool (ok_time a) (ok_time k)) eqn:E1;
    [|apply Qle_bool_false in E1; lra].
  destruct (Qle_bool (ok_time k) (ok_time b)) eqn:E2;
    [apply Qle_bool_iff in E2 | apply Qle_bool_false in E2]; cbn [andb].
  - assert (k = b).
    { apply (@distinct_same_key _ (@ok_time Q) (a :: b :: l));
        [exact Hd | right; exact Hk | right; left; reflexivity | lra]. }
    subst k. eexists. split; [reflexivity|].
    destruct Hd as [Hda _]. inversion Hda as [|? ? Hab _]; subst.
    assert (F : (if Qeq_bool (ok_time b - ok_time a) 0 then 0
                 else (ok_time b - ok_time a) / (ok_time b - ok_time a)) == 1).
    { qcase EL; [exfalso; apply Hab; lra | field; exact EL]. }
    pose proof (@getEasedProgress_at_1 (easingOf a) _ F) as G.
    unfold sameTransform, kfToTransform. cbn [tr_x tr_y tr_scaleX tr_scaleY tr_rotation tr_opacity].
    repeat split; apply lerp_at_1; exact G.
  - destruct Hk as [<-|Hk]; [lra|].
    apply IH; [apply Hs | apply Hd | exact Hk].
Qed.

Definition opacityWithin (lo hi : Q) (kf : list (OverlayKeyframe Q)) : Prop :=
  Forall (fun k => lo <= ok_opacity k /\ ok_opacity k <= hi) kf.

Lemma overlaySegment_opacity (lo hi : Q) (kf : list (OverlayKeyframe Q))
      (t : Q) (tr : Transform Q) :
  opacityWithin lo hi kf -> overlaySegment t kf = Some tr ->
  lo <= tr_opacity tr /\ tr_opacity tr <= hi.
Proof.
  induction kf as [|a rest IH]; intros Hw Hv; [discriminate|].
  cbn [overlaySegment] in Hv. destruct rest as [|b rest']; [discriminate|].
  inversion Hw as [|? ? [Ha1 Ha2] Hw']; subst.
  qnum.
  destruct (Qle_bool (ok_time a) t && Qle_bool t (ok_time b)) eqn:E.
  - apply andb_true_iff in E. destruct E as [E1 E2].
    apply Qle_bool_iff in E1. apply Qle_bool_iff in E2.
    inversion Hw' as [|? ? [Hb1 Hb2] _]; subst.
    injection Hv as <-. cbn [tr_opacity].
    destruct (@segment_fraction (ok_time a) (ok_time b) t E1 E2) as [F0 F1].
    destruct (@getEasedProgress_unit (easingOf a) _ F0 F1) as [G0 G1].
    apply lerp_within; assumption.
  - apply IH; assumption.
Qed.

End OverlayKeyframes.

(** X9: in exact arithmetic, the interpolated opacity never leaves the
    range of the keyframes' opacities, whatever the easing: with every
    keyframe opacity in [[lo, hi]] (and 1 in that range when there is no
    keyframe, the default then being 1), the opacity at any time lies in
    [[lo, hi]].  (In binary64 it can leave the range in the last place, see
    [binary64_at_inner_keyframe].) *)
Theorem interpolateOverlay_opacity_within
        (kfs : list (OverlayKeyframe Q)) (lo hi t : Q) :
  opacityWithin lo hi kfs -> (kfs = [] -> lo <= 1 /\ 1 <= hi)%Q ->
  (lo <= tr_opacity (interpolateOverlay t kfs) /\
   tr_opacity (interpolateOverlay t kfs) <= hi)%Q.
Proof.
  intros Hw He. unfold interpolateOverlay.
  assert (Hw' : opacityWithin lo hi (sortBy byOverlayKfTime kfs)).
  { unfold opacityWithin in *. eapply Permutation_Forall; [|exact Hw].
    apply Permutation_sym, sortBy_perm. }
  pose proof (sortBy_perm byOverlayKfTime kfs) as HP.
  destruct (sortBy byOverlayKfTime kfs) as [|k0 rest].
  - apply Permutation_nil in HP. exact (He HP).
  - cbv zeta.
    assert (Hl : (lo <= ok_opacity (last (k0 :: rest) k0) /\
                  ok_opacity (last (k0 :: rest) k0) <= hi)%Q).
    { unfold opacityWithin in Hw'. rewrite Forall_forall in Hw'.
      apply Hw'. apply last_In. discriminate. }
    destruct (_ <=? ok_time k0)%num; [inversion Hw'; assumption|].
    destruct (_ <=? t)%num; [exact Hl|].
    destruct (overlaySegment t (k0 :: rest)) as [v|] eqn:Ev; [|exact Hl].
    eapply overlaySegment_opacity; eassumption.
Qed.

Definition slideKfs : list (OverlayKeyframe Q) :=
  [ mkOverlayKf 0 10 20 None None None None 0 0 (Some "easeIn");
    mkOverlayKf 2 30 40 None None None None 0 1 None ].

Lemma interpolateOverlay_opacity_within_witness :
  (0 <= tr_opacity (interpolateOverlay 1 slideKfs) /\
   tr_opacity (interpolateOverlay 1 slideKfs) <= 1)%Q.
Proof.
  apply interpolateOverlay_opacity_within.
  - repeat constructor; simpl; lra.
  - discriminate.
Defined.

(** X10: in exact arithmetic a keyframe is hit exactly: when the overlay
    keyframes have pairwise different times, the transform interpolated at
    the time of a keyframe is that keyframe's own transform, whatever the
    easings.  (In binary64 an inner keyframe is reached as [a + (b - a)],
    which can differ from [b] in the last place, see
    [binary64_at_inner_keyframe].) *)
Theorem interpolateOverlay_at_keyframe
        (kfs : list (OverlayKeyframe Q)) (k : OverlayKeyframe Q) :
  distinctBy (@ok_time Q) kfs -> In k kfs ->
  sameTransform (interpolateOverlay (ok_time k) kfs) (kfToTransform k).
Proof.
  intros Hd Hk. unfold interpolateOverlay.
  pose proof (sortBy_perm byOverlayKfTime kfs) as HP.
  pose proof (sorted_overlay_keyframes kfs) as Hs.
  assert (Hd' : distinctBy (@ok_time Q) (sortBy byOverlayKfTime kfs)).
  { eapply distinctBy_perm; [apply Permutation_sym; exact HP | exact Hd]. }
  assert (Hk' : In k (sortBy byOverlayKfTime kfs)).
  { eapply Permutation_in; [apply Permutation_sym; exact HP | exact Hk]. }
  destruct (sortBy byOverlayKfTime kfs) as [|k0 rest]; [contradiction|].
  cbv zeta. qnum.
  pose proof (sortedBy_pairwise _ _ Hs) as Hn.
  destruct (Qle_bool (ok_time k) (ok_time k0)) eqn:E1;
    [apply Qle_bool_iff in E1 | apply Qle_bool_false in E1].
  - assert (k = k0).
    { apply (@distinct_same_key _ (@ok_time Q) (k0 :: rest));
        [exact Hd' | exact Hk' | left; reflexivity|].
      destruct Hk' as [<-|Hk']; [reflexivity|].
      destruct Hn as [Hn _]. rewrite Forall_forall in Hn.
      specialize (Hn k Hk'). lra. }
    subst. apply sameTransform_refl.
  - destruct (Qle_bool (ok_time (last (k0 :: rest) k0)) (ok_time k)) eqn:E2;
      [apply Qle_bool_iff in E2 | apply Qle_bool_false in E2].
    + assert (k = last (k0 :: rest) k0).
      { apply (@distinct_same_key _ (@ok_time Q) (k0 :: rest));
          [exact Hd' | exact Hk' | apply last_In; discriminate|].
        pose proof (@nondecreasing_last _ (@ok_time Q) (k0 :: rest) k0 k Hn Hk').
        lra. }
      rewrite <- H. apply sameTransform_refl.
    + destruct Hk' as [<-|Hk']; [lra|].
      destruct (@overlaySegment_at_keyframe k rest k0 Hs Hd' Hk') as [tr [Etr Htr]].
      rewrite Etr. exact Htr.
Qed.

Lemma interpolateOverlay_at_keyframe_witness :
  sameTransform (interpolateOverlay 2 slideKfs)
                (kfToTransform (mkOverlayKf 2 30 40 None None None None 0 1 None)).
Proof.
  apply (@interpolateOverlay_at_keyframe slideKfs
           (mkOverlayKf 2 30 40 None None None None 0 1 None)).
  - simpl. repeat split; repeat constructor; intro H; discriminate H.
  - right. left. reflexivity.
Defined.

(* ================================================================== *)
(** ** The entries of an evaluated timeline *)

Section Entries.

Local Open Scope Q_scope.

(** The source time of a clip whose keyframes start no earlier than the
    clip and whose speeds lie in [[0, M]]. *)
Lemma mapClipSourceTime_range (kfs : list (SpeedKeyframe Q)) (M t : Q) :
  speedsWithin 0 M kfs -> 1 <= M ->
  Forall (fun k => 0 <= sk_time k) kfs -> 0 <= t ->
  0 <= mapClipSourceTime t kfs /\ mapClipSourceTime t kfs <= M * t.
Proof.
  intros Hw HM Hp Ht. unfold mapClipSourceTime.
  assert (Hw' : speedsWithin 0 M (sortBy bySpeedKfTime kfs)).
  { unfold speedsWithin in *. eapply Permutation_Forall; [|exact Hw].
    apply Permutation_sym, sortBy_perm. }
  assert (Hp' : Forall (fun k => 0 <= sk_time k) (sortBy bySpeedKfTime kfs)).
  { eapply Permutation_Forall; [|exact Hp]. apply Permutation_sym, sortBy_perm. }
  pose proof (sorted_speed_keyframes kfs) as Hs.
  destruct (sortBy bySpeedKfTime kfs) as [|k0 rest].
  - assert (0 <= (M - 1) * t) by (apply Qmult_le_0_compat; lra). split; lra.
  - qnum.
    destruct (@integrateFrom_rate_from 0 M (k0 :: rest) t 0 0 (sk_speed k0))
      as [A B]; try lra; try (split; lra).
    + apply sorted_timesFrom; [exact Hs | inversion Hp'; assumption].
    + inversion Hw' as [|? ? [H1 H2] ?]; exact H1.
    + inversion Hw' as [|? ? [H1 H2] ?]; exact H2.
    + exact Hw'.
Qed.

End Entries.

(** X11: the overlay lists of the evaluated timeline are the entries of the
    clips active at the evaluation time on the tracks of that type, in the
    order of the tracks and of the clips in each track; no active overlay
    is dropped and none appears twice. *)
Theorem evaluateTimeline_overlays_in_order (p : Project Q) (t : Q) :
  overlayTexts (evaluateTimeline (Some p) t) =
    activeOverlays t (clipsOfType OVERLAY_TEXT (tracks p)) /\
  overlayImages (evaluateTimeline (Some p) t) =
    activeOverlays t (clipsOfType OVERLAY_IMAGE (tracks p)).
Proof.
  unfold evaluateTimeline. split.
  - exact (@overlaySlot_tracks t OVERLAY_TEXT (tracks p) eq_refl emptyResult).
  - exact (@overlaySlot_tracks t OVERLAY_IMAGE (tracks p) eq_refl emptyResult).
Qed.

(** X12: in exact arithmetic, the video entry of an evaluated timeline
    comes from a clip of that track type whose extent contains the
    evaluation time; its clip-local time lies in [[0, duration)], and when
    the clip's speed keyframes lie at non-negative times with speeds in
    [[0, M]] ([1 <= M]), its source time lies between the in-point and the
    in-point plus [M] times the clip-local time.  (In binary64 the source
    time can pass the upper bound in the last place, see
    [binary64_constant_speed].) *)
Theorem evaluateTimeline_video_entry_range
        (p : Project Q) (t M : Q) (ty : TrackType) (e : VideoEntry Q) :
  isVideo ty = true -> (1 <= M)%Q ->
  (forall c, In c (clipsOfType ty (tracks p)) ->
             speedsWithin 0 M (speedKeyframes c) /\
             Forall (fun k => 0 <= sk_time k)%Q (speedKeyframes c)) ->
  videoSlot ty (evaluateTimeline (Some p) t) = Some e ->
  exists c,
    In c (clipsOfType ty (tracks p)) /\ ve_clipId e = clip_id c /\
    (0 <= ve_clipLocalTime e /\ ve_clipLocalTime e < duration c /\
     in_point c <= ve_sourceTime e /\
     ve_sourceTime e <= in_point c + M * ve_clipLocalTime e)%Q.
Proof.
  intros Hv HM Hk He. unfold evaluateTimeline in He.
  rewrite videoSlot_tracks in He by exact Hv.
  assert (Hempty : videoSlot ty (@emptyResult Q) = None)
    by (destruct ty; reflexivity).
  rewrite Hempty in He.
  assert (Hl : lastActiveEntry t (clipsOfType ty (tracks p)) = Some e).
  { destruct (lastActiveEntry t (clipsOfType ty (tracks p))); [exact He | discriminate]. }
  unfold lastActiveEntry in Hl. apply lastOpt_In in Hl.
  apply in_map_iff in Hl. destruct Hl as [c [Ec Hc]].
  apply filter_In in Hc. destruct Hc as [Hc Hact].
  apply clipActive_iff in Hact. destruct Hact as [A1 A2].
  exists c. subst e. unfold videoEntryOf. cbv zeta.
  cbn [ve_clipId ve_clipLocalTime ve_sourceTime]. qnum.
  destruct (Hk c Hc) as [Hw Hp].
  destruct (@mapClipSourceTime_range (speedKeyframes c) M (t - start_time c) Hw HM Hp)
    as [R1 R2]; [lra|].
  repeat split; try reflexivity; try assumption; lra.
Qed.

Definition rampedClip : Clip Q :=
  {| clip_id := "c1"; asset_id := Some "a1"; start_time := 1; duration := 4;
     in_point := 2; out_point := 10; speedKeyframes := rampQ;
     overlayKeyframes := []; properties := [] |}.

Definition rampedProject : Project Q :=
  {| tracks := [ {| track_type := VIDEO_A; clips := [rampedClip] |} ] |}.

Lemma evaluateTimeline_video_entry_range_witness :
  exists c,
    In c (clipsOfType VIDEO_A (tracks rampedProject)) /\
    ve_clipId (videoEntryOf 2 rampedClip) = clip_id c /\
    (0 <= ve_clipLocalTime (videoEntryOf 2 rampedClip) /\
     ve_clipLocalTime (videoEntryOf 2 rampedClip) < duration c /\
     in_point c <= ve_sourceTime (videoEntryOf 2 rampedClip) /\
     ve_sourceTime (videoEntryOf 2 rampedClip)
       <= in_point c + 3 * ve_clipLocalTime (videoEntryOf 2 rampedClip))%Q.
Proof.
  apply (@evaluateTimeline_video_entry_range rampedProject 2 3 VIDEO_A
           (videoEntryOf 2 rampedClip)).
  - reflexivity.
  - lra.
  - simpl. intros c [<-|[]]. split; repeat constructor; simpl; lra.
  - reflexivity.
Defined.

(* ================================================================== *)
(** ** Binary64: where rounding shows

    The properties above that are stated "in exact arithmetic" hold of the
    formulae of the time engine.  Evaluated in binary64, as the code runs,
    they can fail in the last places; these are instances. *)

(** 0.3, 0.9, 1.1, 0.7 and 0.1 in binary64. *)
Definition f0_3 : float := 0x1.3333333333333p-2%float.
Definition f0_9 : float := 0x1.ccccccccccccdp-1%float.
Definition f1_1 : float := 0x1.199999999999ap+0%float.
Definition f0_7 : float := 0x1.6666666666666p-1%float.
Definition f0_1 : float := 0x1.999999999999ap-4%float.

(** Past the last keyframe: keyframes [{0, 0.3}, {1, 0.9}] give
    0.69000000000000006 at 1.1, and the value at 1 plus [(1.1 - 1) * 0.9] is
    0.69000000000000017. *)
Remark binary64_after_last_keyframe :
  let kf := [kfF 0 f0_3; kfF 1 f0_9] in
  (mapClipSourceTime f1_1 kf
   =? mapClipSourceTime (nlit 1) kf + (f1_1 - nlit 1) * f0_9)%num = false.
Proof. vm_compute. reflexivity. Qed.

(** At an inner keyframe: with the values 0.3, 0.9 and 0.5 at the times 0, 1
    and 2, the value read at time 1 is 0.90000000000000013, above 0.9, for
    the speed and for the opacity of an overlay. *)
Remark binary64_at_inner_keyframe :
  let kf := [kfF 0 f0_3; kfF 1 f0_9; kfF 2 0.5%float] in
  let okf := [ mkOverlayKf 0%float 0%float 0%float None None None None 0%float f0_3 None;
               mkOverlayKf 1%float 0%float 0%float None None None None 0%float f0_9 None;
               mkOverlayKf 2%float 0%float 0%float None None None None 0%float
                           0.5%float None ] in
  (getSpeedAtTime (nlit 1) kf <=? f0_9)%num = false /\
  (tr_opacity (interpolateOverlay (nlit 1) okf) <=? f0_9)%num = false.
Proof. split; vm_compute; reflexivity. Qed.

(** [easeOut] next to 1: at [1 - 2^-52] it gives 1, at the larger
    [1 - 2^-53] it gives 0.99999999999999989. *)
Remark binary64_easeOut_near_one :
  let t1 := 0x1.ffffffffffffep-1%float in
  let t2 := 0x1.fffffffffffffp-1%float in
  (t1 <=? t2)%num = true /\
  (getEasedProgress t1 "easeOut" <=? getEasedProgress t2 "easeOut")%num = false.
Proof. split; vm_compute; reflexivity. Qed.

(** A constant speed: keyframes [{0.1, 3}, {0.3, 3}] give
    2.1000000000000001 at 0.7, above [3 * 0.7 = 2.0999999999999996]. *)
Remark binary64_constant_speed :
  let kf := [kfF f0_1 3%float; kfF f0_3 3%float] in
  (mapClipSourceTime f0_7 kf <=? nlit 3 * f0_7)%num = false.
Proof. vm_compute. reflexivity. Qed.

(** The growth of the source time: with the keyframes [{1, 0.5}, {2.5, 0}],
    whose speeds lie in [[0, 0.5]], the source time at 2.375000000000001 is
    below the one at 2.375, so the growth between the two times is negative,
    below [0 * (t2 - t1)]. *)
Remark binary64_growth_below_bound :
  let kf := [kfF 1 0.5; kfF 2.5 0]%float in
  let t1 := 0x1.3p+1%float in
  let t2 := 0x1.3000000000002p+1%float in
  (t1 <=? t2)%num = true /\
  (mapClipSourceTime t2 kf - mapClipSourceTime t1 kf <? nlit 0 * (t2 - t1))%num = true.
Proof. split; vm_compute; reflexivity. Qed.

(** The end of the second part of a split: a clip that starts at 0.1 and
    lasts 1.3 is shown at the time 1.4 (its end is 1.4000000000000001); after
    [splitAtPlayhead] at 0.2 its second part starts at 0.2 and lasts
    [1.3 - (0.2 - 0.1)], which ends at 1.4, and nothing is shown at 1.4. *)
Definition splitStoreF : Store float :=
  {| currentProject :=
       Some {| ep_tracks :=
                 [ {| et_id := "t1"; et_type := VIDEO_A;
                      et_clips :=
                        [ {| clip_id := "c"; asset_id := Some "asset1";
                             start_time := f0_1;
                             duration := 0x1.4cccccccccccdp+0%float;
                             in_point := 0%float;
                             out_point := 0x1.4cccccccccccdp+0%float;
                             speedKeyframes := []; overlayKeyframes := [];
                             properties := [] |} ] |} ] |};
     selectedClipId := None;
     currentTime := 0x1.999999999999ap-3%float;
     zoom := 100%float |}.

Remark binary64_split_end :
  let t := 0x1.6666666666666p+0%float in
  let shown (st : Store float) :=
    match currentProject st with
    | Some project =>
        option_map (@ve_clipId float)
                   (videoA (evaluateTimeline (Some (projectOf project)) t))
    | None => None
    end in
  shown splitStoreF = Some "c" /\
  shown (splitAtPlayhead "c2" splitStoreF) = None /\
  option_map (fun project =>
                map (fun track => map (@clip_id float) (et_clips track))
                    (ep_tracks project))
             (currentProject (splitAtPlayhead "c2" splitStoreF))
  = Some [["c"; "c2"]].
Proof. repeat split; vm_compute; reflexivity. Qed.

(** The planner at the end of the asset: a clip with in-point 0.5 and
    duration 2 whose speed ramps from 0 at time 0 to 2 at time 1.5, on an
    asset of 2 s.  In exact arithmetic the source cursor is 2 after three
    sub-chunks and planning stops there.  In binary64 it is
    1.9999999999999998, below the asset's duration, and a fourth sub-chunk
    is planned from there to 2; the time engine puts the source at its
    timeline start, 1.5, at exactly 2. *)
Definition boundaryClip {A : Type} {N : Num A} : Clip A :=
  {| clip_id := "c"; asset_id := Some "asset1"; start_time := nlit 0;
     duration := nlit 2; in_point := (nlit 1 / nlit 2)%num;
     out_point := (nlit 5 / nlit 2)%num;
     speedKeyframes := [ mkSpeedKf (nlit 0) (nlit 0);
                         mkSpeedKf (nlit 3 / nlit 2)%num (nlit 2) ];
     overlayKeyframes := []; properties := [] |}.
Definition boundaryAsset {A : Type} {N : Num A} : Asset A :=
  {| a_id := "asset1"; a_path := "uploads/a.mp4"; a_duration := Some (nlit 2);
     a_fps := Some (nlit 30); a_type := "video" |}.

Remark binary64_planner_boundary :
  let planQ := planClip "job-1" 0 (@boundaryClip Q _) boundaryAsset in
  let planF := planClip "job-1" 0 (@boundaryClip float _) boundaryAsset in
  map (fun item => Qred (rc_sourceStart (fst item))) planQ = [1 # 2; 2 # 3; 7 # 6] /\
  map (fun item => rc_sourceStart (fst item)) planF
  = [0x1p-1; 0x1.5555555555555p-1; 0x1.2aaaaaaaaaaaap+0; 0x1.fffffffffffffp+0]%float /\
  map (fun item => rc_sourceEnd (fst item)) planF
  = [0x1.5555555555555p-1; 0x1.2aaaaaaaaaaaap+0; 0x1.fffffffffffffp+0; 0x1p+1]%float /\
  map (fun item => seg_start (snd item)) planF = [0; 0x1p-1; 1; 0x1.8p+0]%float /\
  (in_point (@boundaryClip float _)
   + mapClipSourceTime (nlit 3 / nlit 2) (speedKeyframes (@boundaryClip float _))
   =? 0x1.fffffffffffffp+0%float)%num = false.
Proof. cbv zeta. repeat split; vm_compute; reflexivity. Qed.

(** The ends of the planned segments: a clip that starts at 4.3 and lasts
    1.4, with keyframes at 0.8, 1.1 and 1.2.  In binary64 the second segment
    ends at 5.1000000000000005, after the third starts at
    5.0999999999999996, and the last one ends at 5.7000000000000002, after
    the clip's end 5.6999999999999993. *)
Remark binary64_planner_segment_ends :
  let clip : Clip float :=
    {| clip_id := "c"; asset_id := Some "asset1";
       start_time := 0x1.1333333333333p+2%float;
       duration := 0x1.6666666666666p+0%float; in_point := 0%float;
       out_point := 0x1.6666666666666p+0%float;
       speedKeyframes := [ kfF 0x1.999999999999ap-1 1; kfF 0x1.199999999999ap+0 1;
                           kfF 0x1.3333333333333p+0 1 ]%float;
       overlayKeyframes := []; properties := [] |} in
  let asset : Asset float :=
    {| a_id := "asset1"; a_path := "uploads/a.mp4"; a_duration := Some 100%float;
       a_fps := Some 30%float; a_type := "video" |} in
  let segs := map snd (planClip "job-1" 0 clip asset) in
  let endOf (sg : SegmentFile float) := (seg_start sg + seg_duration sg)%num in
  List.length segs = 5%nat /\
  (seg_start (nth 2 segs (nth 0 segs (mkSegmentFile (TempDir "") 0%float 0%float)))
   <? endOf (nth 1 segs (nth 0 segs (mkSegmentFile (TempDir "") 0%float 0%float))))%num
  = true /\
  (start_time clip + duration clip
   <? endOf (nth 4 segs (nth 0 segs (mkSegmentFile (TempDir "") 0%float 0%float))))%num
  = true.
Proof. cbv zeta. repeat split; vm_compute; reflexivity. Qed.

(** The timeline starts within a clip, far out on the timeline: a clip that
    starts at 2^53 + 2 and lasts 4, with keyframes at 1 and 2.9.  In
    binary64 the numbers next to its start are 2 apart; the last sub-chunk
    before the keyframe at 2.9 starts at [(start + 1) + 3 * 0.475], which is
    2^53 + 6, and the sub-chunk after it at [start + 2.9], which is
    2^53 + 4. *)
Remark binary64_segment_starts_step_back :
  let clip : Clip float :=
    {| clip_id := "c"; asset_id := Some "asset1";
       start_time := 0x1.0000000000001p+53%float;
       duration := 4%float; in_point := 0%float; out_point := 4%float;
       speedKeyframes := [ kfF 1 1; kfF 0x1.7333333333333p+1 1 ]%float;
       overlayKeyframes := []; properties := [] |} in
  let asset : Asset float :=
    {| a_id := "asset1"; a_path := "uploads/a.mp4"; a_duration := Some 100%float;
       a_fps := Some 30%float; a_type := "video" |} in
  map (fun item => seg_start (snd item)) (planClip "job-1" 0 clip asset)
  = [ 0x1.0000000000001p+53; 0x1.0000000000001p+53;
      0x1.0000000000002p+53; 0x1.0000000000002p+53; 0x1.0000000000002p+53;
      0x1.0000000000003p+53;
      0x1.0000000000002p+53; 0x1.0000000000002p+53; 0x1.0000000000002p+53 ]%float.
Proof. vm_compute. reflexivity. Qed.

(* ================================================================== *)
(** ** The segment planner: the files and the extents of the segments *)

Section PlanShape.

Local Open Scope Q_scope.

Variable jobId : string.
Variable ci : nat.
Variable clip : Clip Q.
Variable asset : (Asset Q).

(** The clip index and the position inside the clip that a segment file
    name encodes: the keyframe round (0 for the single segment of a clip
    without subdivision) and the sub-chunk. *)
Definition segmentIndex (p : Path) : option (nat * (nat * nat)) :=
  match p with
  | TempFile _ (ClipSeg0 c) => Some (c, (0, 0))%nat
  | TempFile _ (ClipSeg c k s) => Some (c, (S k, s))
  | _ => None
  end.

(** What every planned item has: the render writes the segment's file,
    which lies in the scratch directory of the job. *)
Definition wellPlaced (item : (RenderCall Q) * (SegmentFile Q)) : Prop :=
  rc_outputPath (fst item) = seg_path (snd item) /\
  inTemp jobId (seg_path (snd item)) = true.

Lemma inTemp_TempFile (n : TempName) : inTemp jobId (TempFile jobId n) = true.
Proof. simpl. apply String.eqb_refl. Qed.

Lemma chunkLoop_shape (ki : nat) (prevTime startSpeed endSpeed stepDur : Q)
      (steps : Z) :
  forall n s a,
    Forall (fun item =>
              wellPlaced item /\ seg_duration (snd item) = stepDur /\
              exists s', (s <= s')%nat /\
                         segmentIndex (seg_path (snd item)) = Some (ci, (S ki, s')))
           (fst (chunkLoop jobId ci clip asset ki prevTime startSpeed endSpeed
                           stepDur steps n s a)).
Proof.
  induction n as [|n IH]; intros s a; simpl; qplan; [constructor|].
  assert (Hitem : forall (rc : (RenderCall Q)) (st : Q),
             rc_outputPath rc = TempFile jobId (ClipSeg ci ki s) ->
             (fun item : (RenderCall Q) * (SegmentFile Q) =>
                wellPlaced item /\ seg_duration (snd item) = stepDur /\
                exists s', (s <= s')%nat /\
                           segmentIndex (seg_path (snd item)) = Some (ci, (S ki, s')))
               (rc, mkSegmentFile (TempFile jobId (ClipSeg ci ki s)) st stepDur)).
  { intros rc st Hrc. split; [split; [exact Hrc | apply inTemp_TempFile]|].
    split; [reflexivity|]. exists s. split; [lia | reflexivity]. }
  match goal with
  | |- context [Qle_bool ?m ?x] => destruct (Qle_bool m x); simpl
  end.
  - constructor; [apply Hitem; reflexivity | constructor].
  - match goal with
    | |- context [chunkLoop ?j ?c ?cl ?as_ ?k ?p ?ss ?es ?sd ?st ?n' ?s' ?a'] =>
        specialize (IH s' a');
        destruct (chunkLoop j c cl as_ k p ss es sd st n' s' a') as [rest final]
    end.
    cbn [fst] in IH |- *.
    constructor; [apply Hitem; reflexivity|].
    eapply Forall_impl; [|exact IH]. cbv beta.
    intros item (Hw & Hd & s' & Hs' & Hi).
    split; [exact Hw|]. split; [exact Hd|]. exists s'. split; [lia | exact Hi].
Qed.

Lemma kfLoop_shape (sortedKfs : list (SpeedKeyframe Q)) :
  forall n ki prevTime a,
    Forall (fun item =>
              wellPlaced item /\
              exists ki' s', (ki <= ki')%nat /\
                             segmentIndex (seg_path (snd item)) = Some (ci, (S ki', s')))
           (kfLoop jobId ci clip asset sortedKfs n ki prevTime a).
Proof.
  induction n as [|n IH]; intros ki prevTime a; cbn [kfLoop]; qplan; [constructor|].
  assert (Hlater : forall pT a',
             Forall (fun item =>
                       wellPlaced item /\
                       exists ki' s', (ki <= ki')%nat /\
                         segmentIndex (seg_path (snd item)) = Some (ci, (S ki', s')))
                    (kfLoop jobId ci clip asset sortedKfs n (S ki) pT a')).
  { intros pT a'. eapply Forall_impl; [|apply IH]. cbv beta.
    intros item (Hw & ki' & s' & Hk & Hi).
    split; [exact Hw|]. exists ki', s'. split; [lia | exact Hi]. }
  match goal with
  | |- context [Qle_bool (?kt - prevTime) (1 # 1000)] =>
      destruct (Qle_bool (kt - prevTime) (1 # 1000))
  end; [apply Hlater|].
  match goal with
  | |- context [chunkLoop ?j ?c ?cl ?as_ ?k ?p ?ss ?es ?sd ?st ?n' ?s' ?a'] =>
      pose proof (@chunkLoop_shape k p ss es sd st n' s' a') as Hc;
      destruct (chunkLoop j c cl as_ k p ss es sd st n' s' a') as [chunks accum']
  end.
  cbn [fst] in Hc.
  assert (Hc' : Forall (fun item =>
                          wellPlaced item /\
                          exists ki' s', (ki <= ki')%nat /\
                            segmentIndex (seg_path (snd item)) = Some (ci, (S ki', s')))
                       chunks).
  { eapply Forall_impl; [|exact Hc]. cbv beta.
    intros item (Hw & _ & s' & _ & Hi).
    split; [exact Hw|]. exists ki, s'. split; [lia | exact Hi]. }
  destruct (Qle_bool (maxSourceDurOf asset) accum'); [exact Hc'|].
  apply Forall_app. split; [exact Hc' | apply Hlater].
Qed.

(** Every item of the plan of a clip is well placed, under the clip's
    index. *)
Lemma planClip_shape :
  Forall (fun item =>
            wellPlaced item /\
            exists pos, segmentIndex (seg_path (snd item)) = Some (ci, pos))
         (planClip jobId ci clip asset).
Proof.
  unfold planClip. destruct (List.length (speedKeyframes clip) <=? 1)%nat.
  - unfold planSingle. qplan. cbv zeta. constructor; [|constructor].
    split; [split; [reflexivity | apply inTemp_TempFile]|].
    eexists. reflexivity.
  - unfold planSubdivided. cbv zeta.
    eapply Forall_impl; [|apply kfLoop_shape]. cbv beta.
    intros item (Hw & ki' & s' & _ & Hi). split; [exact Hw|].
    eexists. exact Hi.
Qed.

End PlanShape.

(* ================================================================== *)
(** ** The export run: what it leaves alone *)

Lemma tempNameEqb_eq (a : TempName) : forall b, tempNameEqb a b = true -> a = b.
Proof.
  induction a as [i|i k s|n IH| | | |]; intros [j|j l t|m| | | |] H;
    simpl in H; try discriminate; try reflexivity.
  - apply Nat.eqb_eq in H. subst. reflexivity.
  - apply andb_true_iff in H. destruct H as [H Hs].
    apply andb_true_iff in H. destruct H as [Hi Hk].
    apply Nat.eqb_eq in Hi, Hk, Hs. subst. reflexivity.
  - f_equal. apply IH. exact H.
Qed.

Lemma tempNameEqb_refl (a : TempName) : tempNameEqb a a = true.
Proof.
  induction a; simpl; rewrite ?Nat.eqb_refl; try reflexivity. exact IHa.
Qed.

Lemma pathEqb_eq (p q : Path) : pathEqb p q = true -> p = q.
Proof.
  destruct p, q; simpl; intro H; try discriminate.
  - apply String.eqb_eq in H. subst. reflexivity.
  - apply andb_true_iff in H. destruct H as [H1 H2].
    apply String.eqb_eq in H1. apply tempNameEqb_eq in H2. subst. reflexivity.
  - apply String.eqb_eq in H. subst. reflexivity.
  - apply String.eqb_eq in H. subst. reflexivity.
Qed.

Lemma pathEqb_refl (p : Path) : pathEqb p p = true.
Proof.
  destruct p; simpl; rewrite ?String.eqb_refl, ?tempNameEqb_refl; reflexivity.
Qed.

Lemma bind_Ok {X Y : Type} (m : M X) (k : X -> M Y) (w w' : World) (y : Y) :
  bind m k w = (Ok y, w') ->
  exists x w1, m w = (Ok x, w1) /\ k x w1 = (Ok y, w').
Proof.
  unfold bind. destruct (m w) as [[x|e] w1]; [|discriminate].
  intro H. exists x, w1. split; [reflexivity | exact H].
Qed.

Section Confined.

Variable jobId : string.

(** The paths that belong to the job: its scratch directory, the files in
    it, and its output file. *)
Definition ownPath (p : Path) : bool :=
  inTemp jobId p || pathEqb p (ExportFile jobId).

(** A job row before and after: its identity columns are fixed, and a row
    of another job is the same row. *)
Definition sameRow (j j' : ExportJob) : Prop :=
  job_id j' = job_id j /\ job_project_id j' = job_project_id j /\
  job_request_id j' = job_request_id j /\ (job_id j <> jobId -> j' = j).

(** The lines of the debug logs that belong to the job: those of its start
    and of its failure, and those of invocations that write to its paths. *)
Definition ownLine (line : LogLine) : Prop :=
  match line with
  | FfmpegRunning args => ownPath (outputOf args) = true
  | JobStarted j => j = jobId
  | JobFailed j _ => j = jobId
  end.

(** From [w] to [w']: the projects and assets are untouched; the job rows
    are the same rows, changed at most in the job's own row; the files that
    are not the job's own are the same; the output file, once there, stays;
    the encoder has been invoked to write to the job's own paths only; and
    the debug logs have grown by lines of the job. *)
Definition confined (w w' : World) : Prop :=
  projects (db w') = projects (db w) /\
  assets (db w') = assets (db w) /\
  Forall2 sameRow (export_jobs (db w)) (export_jobs (db w')) /\
  (forall p, ownPath p = false -> (In p (fs w') <-> In p (fs w))) /\
  (In (ExportFile jobId) (fs w) -> In (ExportFile jobId) (fs w')) /\
  (exists new, trace w' = (trace w ++ new)%list /\
               Forall (fun entry => ownPath (outputOf (fst entry)) = true) new) /\
  exists lines, debugLog w' = (debugLog w ++ lines)%list /\ Forall ownLine lines.

Definition keeps {X : Type} (m : M X) : Prop :=
  forall w, confined w (snd (m w)).

Lemma sameRow_refl (j : ExportJob) : sameRow j j.
Proof. repeat split; reflexivity. Qed.

Lemma sameRows_refl (l : list ExportJob) : Forall2 sameRow l l.
Proof. induction l; constructor; [apply sameRow_refl | assumption]. Qed.

Lemma sameRows_trans (l1 l2 l3 : list ExportJob) :
  Forall2 sameRow l1 l2 -> Forall2 sameRow l2 l3 -> Forall2 sameRow l1 l3.
Proof.
  intro H12. revert l3. induction H12 as [|a b l1 l2 Hab H12 IH]; intros l3 H23.
  - inversion H23. constructor.
  - inversion H23 as [|? c ? l3' Hbc H23']; subst. constructor; [|apply IH; exact H23'].
    destruct Hab as (A1 & A2 & A3 & A4), Hbc as (B1 & B2 & B3 & B4).
    repeat split; try congruence.
    intro Hne. rewrite B4 by congruence. apply A4. exact Hne.
Qed.

Lemma confined_refl (w : World) : confined w w.
Proof.
  split; [reflexivity|]. split; [reflexivity|]. split; [apply sameRows_refl|].
  split; [tauto|]. split; [tauto|].
  split; exists []; (split; [rewrite app_nil_r; reflexivity | constructor]).
Qed.

Lemma confined_trans (w1 w2 w3 : World) :
  confined w1 w2 -> confined w2 w3 -> confined w1 w3.
Proof.
  intros (P1 & A1 & J1 & F1 & E1 & (n1 & T1 & O1) & l1 & L1 & M1)
         (P2 & A2 & J2 & F2 & E2 & (n2 & T2 & O2) & l2 & L2 & M2).
  split; [congruence|]. split; [congruence|].
  split; [eapply sameRows_trans; eassumption|].
  split; [intros p Hp; rewrite (F2 p Hp); apply F1; exact Hp|].
  split; [tauto|]. split.
  - exists (n1 ++ n2)%list. split.
    + rewrite T2, T1, app_assoc. reflexivity.
    + apply Forall_app. split; assumption.
  - exists (l1 ++ l2)%list. split.
    + rewrite L2, L1, app_assoc. reflexivity.
    + apply Forall_app. split; assumption.
Qed.

Lemma keeps_ret {X : Type} (x : X) : keeps (ret x).
Proof. intro w. apply confined_refl. Qed.

Lemma keeps_throw {X : Type} (e : string) : keeps (@throw X e).
Proof. intro w. apply confined_refl. Qed.

Lemma keeps_liftResult {X : Type} (r : Result X) : keeps (liftResult r).
Proof. destruct r; [apply keeps_ret | apply keeps_throw]. Qed.

Lemma keeps_bind {X Y : Type} (m : M X) (k : X -> M Y) :
  keeps m -> (forall x, keeps (k x)) -> keeps (bind m k).
Proof.
  intros Hm Hk w. unfold bind. specialize (Hm w).
  destruct (m w) as [[x|e] w1]; simpl in *; [|exact Hm].
  eapply confined_trans; [exact Hm | apply Hk].
Qed.

Lemma keeps_tryCatch {X : Type} (body : M X) (handler : string -> M X) :
  keeps body -> (forall e, keeps (handler e)) -> keeps (tryCatch body handler).
Proof.
  intros Hb Hh w. unfold tryCatch. specialize (Hb w).
  destruct (body w) as [[x|e] w1]; simpl in *; [exact Hb|].
  eapply confined_trans; [exact Hb | apply Hh].
Qed.

Lemma keeps_foldM {X S : Type} (body : S -> X -> M S) (l : list X) :
  (forall s x, In x l -> keeps (body s x)) -> forall s, keeps (foldM l s body).
Proof.
  induction l as [|x l IH]; intros Hb s; simpl.
  - apply keeps_ret.
  - apply keeps_bind; [apply Hb; left; reflexivity|].
    intro s'. apply IH. intros s'' y Hy. apply Hb. right. exact Hy.
Qed.

(** A computation that only reads. *)
Lemma keeps_reader {X : Type} (m : M X) :
  (forall w, snd (m w) = w) -> keeps m.
Proof. intros H w. rewrite H. apply confined_refl. Qed.

Lemma own_not_other (p q : Path) : ownPath p = true -> ownPath q = false -> p <> q.
Proof. intros Hp Hq E. subst. congruence. Qed.

(** A new file among the job's own paths. *)
Lemma confined_add_file (w : World) (p : Path) (t : list (Invocation * ProcOutcome))
      (lines : list LogLine) :
  ownPath p = true ->
  Forall (fun entry => ownPath (outputOf (fst entry)) = true) t ->
  Forall ownLine lines ->
  confined w {| fs := p :: fs w; db := db w; trace := (trace w ++ t)%list;
                debugLog := (debugLog w ++ lines)%list |}.
Proof.
  intros Hp Ht Hl. split; [reflexivity|]. split; [reflexivity|].
  split; [apply sameRows_refl|]. split; [|split; [|split]].
  - intros q Hq. simpl. split; [|tauto].
    intros [H|H]; [|exact H]. exfalso. eapply own_not_other; eassumption.
  - simpl. tauto.
  - exists t. split; [reflexivity | exact Ht].
  - exists lines. split; [reflexivity | exact Hl].
Qed.

Lemma keeps_appendFileSync (line : LogLine) : ownLine line -> keeps (appendFileSync line).
Proof.
  intros Hl w. unfold appendFileSync. simpl.
  split; [reflexivity|]. split; [reflexivity|]. split; [apply sameRows_refl|].
  split; [tauto|]. split; [tauto|]. split.
  - exists []. split; [rewrite app_nil_r; reflexivity | constructor].
  - exists [line]. split; [reflexivity | repeat constructor; exact Hl].
Qed.

Lemma keeps_mkdirSync (p : Path) : ownPath p = true -> keeps (mkdirSync p).
Proof.
  intros Hp w. unfold mkdirSync. simpl.
  pose proof (@confined_add_file w p [] [] Hp (Forall_nil _) (Forall_nil _)) as H.
  rewrite !app_nil_r in H. exact H.
Qed.

Lemma keeps_writeFileSync (p : Path) : ownPath p = true -> keeps (writeFileSync p).
Proof. exact (keeps_mkdirSync p). Qed.

Lemma keeps_copyFileSync (src dst : Path) :
  ownPath dst = true -> keeps (copyFileSync src dst).
Proof.
  intros Hp w. unfold copyFileSync.
  destruct (existsb (pathEqb src) (fs w)); simpl; [|apply confined_refl].
  pose proof (@confined_add_file w dst [] [] Hp (Forall_nil _) (Forall_nil _)) as H.
  rewrite !app_nil_r in H. exact H.
Qed.

(** Removing files of the scratch directory. *)
Lemma confined_remove (w : World) (gone : Path -> bool) :
  (forall q, gone q = true -> inTemp jobId q = true) ->
  confined w {| fs := filter (fun q => negb (gone q)) (fs w); db := db w;
                trace := trace w; debugLog := debugLog w |}.
Proof.
  intro Hg. split; [reflexivity|]. split; [reflexivity|].
  split; [apply sameRows_refl|]. split; [|split; [|split]].
  - intros p Hp. simpl. rewrite filter_In. split; [tauto|].
    intro H. split; [exact H|].
    destruct (gone p) eqn:E; [|reflexivity].
    apply Hg in E. unfold ownPath in Hp. rewrite E in Hp. discriminate.
  - simpl. intro H. apply filter_In. split; [exact H|].
    destruct (gone (ExportFile jobId)) eqn:E; [|reflexivity].
    apply Hg in E. discriminate.
  - exists []. split; [rewrite app_nil_r; reflexivity | constructor].
  - exists []. split; [rewrite app_nil_r; reflexivity | constructor].
Qed.

Lemma keeps_unlinkSync (p : Path) : inTemp jobId p = true -> keeps (unlinkSync p).
Proof.
  intros Hp w. unfold unlinkSync. simpl. apply confined_remove.
  intros q Hq. apply pathEqb_eq in Hq. subst. exact Hp.
Qed.

Lemma keeps_rmTempDir : keeps (rmTempDir jobId).
Proof.
  intro w. unfold rmTempDir. simpl. apply confined_remove. auto.
Qed.

Lemma keeps_updateJob (f : ExportJob -> ExportJob) :
  (forall j, job_id (f j) = job_id j /\ job_project_id (f j) = job_project_id j /\
             job_request_id (f j) = job_request_id j) ->
  keeps (updateJob jobId f).
Proof.
  intros Hf w. unfold updateJob.
  split; [reflexivity|]. split; [reflexivity|]. split; [|split; [|split; [|split]]];
    simpl; try tauto.
  - induction (export_jobs (db w)) as [|j jobs IH]; simpl; constructor; [|exact IH].
    destruct (String.eqb (job_id j) jobId) eqn:E.
    + destruct (Hf j) as (A & B & C). repeat split; try assumption.
      intro Hne. apply String.eqb_eq in E. contradiction.
    + apply sameRow_refl.
  - exists []. split; [rewrite app_nil_r; reflexivity | constructor].
  - exists []. split; [rewrite app_nil_r; reflexivity | constructor].
Qed.

Lemma inTemp_own (p : Path) : inTemp jobId p = true -> ownPath p = true.
Proof. intro H. unfold ownPath. rewrite H. reflexivity. Qed.

Lemma inTemp_framePathOf (p : Path) :
  inTemp jobId p = true -> inTemp jobId (framePathOf p) = true.
Proof. destruct p; simpl; auto. Qed.

End Confined.

Section ConfinedRun.

Variable FFMPEG_PATH : string.
Variable hasAudioStream : string -> bool.
Variable encoder : nat -> Invocation -> ProcOutcome.
Variable jobId : string.

Local Set Default Proof Using "Type".

Lemma own_TempFile (n : TempName) : ownPath jobId (TempFile jobId n) = true.
Proof. apply inTemp_own, inTemp_TempFile. Qed.

Lemma own_TempDir : ownPath jobId (TempDir jobId) = true.
Proof. apply inTemp_own. simpl. apply String.eqb_refl. Qed.

Lemma own_ExportFile : ownPath jobId (ExportFile jobId) = true.
Proof. unfold ownPath. rewrite pathEqb_refl. apply orb_true_r. Qed.

Lemma keeps_runFfmpeg (args : Invocation) :
  ownPath jobId (outputOf args) = true -> keeps jobId (runFfmpeg FFMPEG_PATH encoder args).
Proof.
  clear hasAudioStream.
  intros Hp w. unfold runFfmpeg. cbv zeta.
  destruct (procSucceeded _); simpl.
  - apply confined_add_file;
      [exact Hp | repeat constructor; exact Hp | repeat constructor; exact Hp].
  - split; [reflexivity|]. split; [reflexivity|].
    split; [apply sameRows_refl|]. split; [|split; [|split]]; simpl; try tauto.
    + eexists. split; [reflexivity | repeat constructor; exact Hp].
    + eexists. split; [reflexivity | repeat constructor; exact Hp].
Qed.

Lemma keeps_renderClipSegment (call : (RenderCall Q)) :
  inTemp jobId (rc_outputPath call) = true ->
  keeps jobId (renderClipSegment FFMPEG_PATH hasAudioStream encoder call).
Proof.
  intro Hp. unfold renderClipSegment. cbv zeta.
  pose proof (@inTemp_framePathOf jobId _ Hp) as Hf.
  destruct (Qltb _ _).
  - apply keeps_bind; [apply keeps_runFfmpeg, inTemp_own; exact Hf | intros _].
    apply keeps_bind; [apply keeps_runFfmpeg, inTemp_own; exact Hp | intros _].
    apply keeps_unlinkSync. exact Hf.
  - destruct (_ && _); apply keeps_runFfmpeg, inTemp_own; exact Hp.
Qed.

Lemma keeps_renderVideoClip (total : nat) (onProgress : Q -> M unit)
      (segmentFiles : list (SegmentFile Q)) (icl : nat * (Clip Q * TrackType)) :
  (forall p, keeps jobId (onProgress p)) ->
  keeps jobId (renderVideoClip FFMPEG_PATH hasAudioStream encoder jobId total
                               onProgress segmentFiles icl).
Proof.
  intro Hp. unfold renderVideoClip. cbv zeta.
  apply keeps_bind; [apply keeps_reader; reflexivity|].
  intros [asset|]; [|apply keeps_ret].
  apply keeps_bind.
  - apply keeps_foldM. intros acc item Hitem.
    apply keeps_bind; [|intros _; apply keeps_ret].
    apply keeps_renderClipSegment.
    pose proof (planClip_shape jobId (fst icl) (fst (snd icl)) asset) as Hs.
    rewrite Forall_forall in Hs. destruct (Hs item Hitem) as [[Ho Ht] _].
    rewrite Ho. exact Ht.
  - intros segs. apply keeps_bind; [apply Hp | intros _; apply keeps_ret].
Qed.

Lemma keeps_exportProject (projectData : Project Q) (onProgress : Q -> M unit) :
  (forall p, keeps jobId (onProgress p)) ->
  keeps jobId (exportProject FFMPEG_PATH hasAudioStream encoder projectData jobId
                             onProgress).
Proof.
  intro Hp. unfold exportProject. cbv zeta.
  apply keeps_bind; [apply keeps_mkdirSync, own_TempDir | intros _].
  apply keeps_tryCatch;
    [|intro e; apply keeps_bind; [apply keeps_rmTempDir | intros _; apply keeps_throw]].
  destruct (Qle_bool (totalDurationOf projectData) 0); [apply keeps_throw|].
  apply keeps_bind.
  { apply keeps_foldM. intros. apply keeps_renderVideoClip. exact Hp. }
  intros segs. apply keeps_bind.
  { destruct segs.
    - apply keeps_runFfmpeg, own_ExportFile.
    - apply keeps_bind; [apply keeps_writeFileSync, own_TempFile | intros _].
      apply keeps_runFfmpeg, own_ExportFile. }
  intros _. apply keeps_bind; [apply Hp | intros _].
  apply keeps_bind.
  { destruct (collectClips isOverlayTrack projectData); [apply keeps_ret|].
    apply keeps_bind; [apply keeps_reader; reflexivity | intros w0].
    apply keeps_bind.
    { apply keeps_foldM. intros lines icl _.
      apply keeps_bind; [apply keeps_liftResult | intros line; apply keeps_ret]. }
    intros filterLines.
    apply keeps_bind; [apply keeps_writeFileSync, own_TempFile | intros _].
    apply keeps_bind; [apply keeps_runFfmpeg, own_TempFile | intros _].
    apply keeps_copyFileSync, own_ExportFile. }
  intros _. apply keeps_bind; [apply Hp | intros _].
  apply keeps_bind; [apply keeps_reader; reflexivity | intros w0].
  apply keeps_bind.
  { destruct (somes _); [apply keeps_ret|].
    apply keeps_bind; [apply keeps_runFfmpeg, own_TempFile | intros _].
    apply keeps_copyFileSync, own_ExportFile. }
  intros _. apply keeps_bind; [apply Hp | intros _].
  apply keeps_bind; [apply keeps_rmTempDir | intros _; apply keeps_ret].
Qed.

(** The steps after the concatenation, and the handler. *)
Ltac keeps_tail Hp :=
  repeat first
    [ apply Hp
    | apply keeps_ret
    | apply keeps_throw
    | apply keeps_rmTempDir
    | apply keeps_reader; reflexivity
    | apply keeps_liftResult
    | apply keeps_foldM; intros
    | apply keeps_writeFileSync, own_TempFile
    | apply keeps_runFfmpeg, own_TempFile
    | apply keeps_copyFileSync, own_ExportFile
    | apply keeps_bind; [|intro]
    | match goal with
      | |- keeps _ (match ?x with _ => _ end) => destruct x
      end ].

Lemma keeps_run {X : Type} (m : M X) (w w' : World) (r : Result X) :
  keeps jobId m -> m w = (r, w') -> confined jobId w w'.
Proof. intros Hk E. specialize (Hk w). rewrite E in Hk. exact Hk. Qed.

Lemma runFfmpeg_ok (args : Invocation) (w w' : World) (u : unit) :
  runFfmpeg FFMPEG_PATH encoder args w = (Ok u, w') -> In (outputOf args) (fs w').
Proof.
  unfold runFfmpeg. cbv zeta. destruct (procSucceeded _); [|discriminate].
  intro H. inversion H. simpl. left. reflexivity.
Qed.

(** When [exportProject] returns, it returns the path of the job's output
    file, that file exists, and nothing of the scratch directory is left. *)
Lemma exportProject_ok (projectData : Project Q) (onProgress : Q -> M unit)
      (w w' : World) (out : Path) :
  (forall p, keeps jobId (onProgress p)) ->
  exportProject FFMPEG_PATH hasAudioStream encoder projectData jobId onProgress w
  = (Ok out, w') ->
  out = ExportFile jobId /\ In (ExportFile jobId) (fs w') /\
  forall p, In p (fs w') -> inTemp jobId p = false.
Proof.
  intros Hp H. unfold exportProject in H. cbv zeta in H.
  apply bind_Ok in H. destruct H as (u0 & w0 & _ & H).
  unfold tryCatch in H.
  match type of H with
  | context [match ?b w0 with _ => _ end] =>
      destruct (b w0) as [[x|e] w1] eqn:EB
  end.
  2:{ unfold bind, rmTempDir, throw in H. discriminate H. }
  inversion H; subst x w1; clear H.
  destruct (Qle_bool (totalDurationOf projectData) 0); [discriminate EB|].
  apply bind_Ok in EB. destruct EB as (segs & wa & _ & EB).
  apply bind_Ok in EB. destruct EB as (u2 & wb & H2 & EB).
  assert (Hout : In (ExportFile jobId) (fs wb)).
  { destruct segs.
    - apply runFfmpeg_ok in H2. exact H2.
    - apply bind_Ok in H2. destruct H2 as (u3 & wc & _ & H2).
      apply runFfmpeg_ok in H2. exact H2. }
  assert (Hkeep : confined jobId wb w').
  { eapply keeps_run; [|exact EB]. keeps_tail Hp. }
  destruct Hkeep as (_ & _ & _ & _ & Hstay & _).
  apply bind_Ok in EB. destruct EB as (? & ? & _ & EB).
  apply bind_Ok in EB. destruct EB as (? & ? & _ & EB).
  apply bind_Ok in EB. destruct EB as (? & ? & _ & EB).
  apply bind_Ok in EB. destruct EB as (? & ? & _ & EB).
  apply bind_Ok in EB. destruct EB as (? & ? & _ & EB).
  apply bind_Ok in EB. destruct EB as (? & ? & _ & EB).
  apply bind_Ok in EB. destruct EB as (? & wy & Hrm & EB).
  unfold ret in EB. inversion EB; subst.
  split; [reflexivity|]. split; [apply Hstay; exact Hout|].
  unfold rmTempDir in Hrm. inversion Hrm; subst. simpl.
  intros p Hin. apply filter_In in Hin. destruct Hin as [_ Hin].
  apply negb_true_iff in Hin. exact Hin.
Qed.

End ConfinedRun.


(** X13: a run of the export worker for one job is confined to that job:
    it changes no project and no asset; every row of [export_jobs] keeps its
    id, project and request token, and the rows of other jobs are unchanged;
    the files outside the job's scratch directory and other than its output
    file are the same before and after, apart from the two debug logs in
    the working directory ([ffmpeg_debug.log] and [export_debug.log]), which
    grow, by lines of this job only: the line of its start, the line of its
    failure, and a line for each of its encoder invocations; an output file
    already there is not removed; and every encoder invocation it makes
    writes into the job's scratch directory or to its output file.  This
    holds whatever the encoder does and however the run ends. *)
Theorem processExportJob_confined
        (FFMPEG_PATH : string) (hasAudioStream : string -> bool)
        (encoder : nat -> Invocation -> ProcOutcome)
        (jobId projectId : string) (w : World) :
  confined jobId w
           (snd (processExportJob FFMPEG_PATH hasAudioStream encoder jobId projectId w)).
Proof.
  revert w. change (keeps jobId (processExportJob FFMPEG_PATH hasAudioStream encoder
                                                  jobId projectId)).
  unfold processExportJob.
  assert (Hset : forall f,
             (forall j, job_id (f j) = job_id j /\
                        job_project_id (f j) = job_project_id j /\
                        job_request_id (f j) = job_request_id j) ->
             keeps jobId (updateJob jobId f))
    by (intro f; apply keeps_updateJob).
  apply keeps_tryCatch.
  - apply keeps_bind; [apply keeps_appendFileSync; reflexivity | intros _].
    apply keeps_bind; [apply Hset; intro; repeat split | intros _].
    apply keeps_bind; [apply keeps_reader; reflexivity | intros projectData].
    apply keeps_bind; [|intros out; apply Hset; intro; repeat split].
    apply keeps_exportProject. intro p. apply Hset. intro. repeat split.
  - intro e.
    apply keeps_bind; [apply keeps_appendFileSync; reflexivity | intros _].
    apply Hset. intro. repeat split.
Qed.

(* ================================================================== *)
(** ** The export run: how it ends *)

(** The project graph that [processExportJob] hands to [exportProject]. *)
Definition loadedProject (projectId : string) (d : DB) : Project Q :=
  match find (fun kv => String.eqb (fst kv) projectId) (projects d) with
  | Some kv => {| tracks := map loadTrack (tracks (snd kv)) |}
  | None => {| tracks := [] |}
  end.

Section RunOutcome.

Variable FFMPEG_PATH : string.
Variable hasAudioStream : string -> bool.
Variable encoder : nat -> Invocation -> ProcOutcome.
Variable jobId projectId : string.

(** The call of [exportProject] made by [processExportJob] from [w]. *)
Definition exportRun (w : World) : Result Path * World :=
  exportProject FFMPEG_PATH hasAudioStream encoder
                (loadedProject projectId (db w)) jobId
                (fun progress => updateJob jobId (setProgress progress))
                (snd (updateJob jobId (setStatus RUNNING)
                                (snd (appendFileSync (JobStarted jobId) w)))).

Lemma processExportJob_unfold (w : World) :
  processExportJob FFMPEG_PATH hasAudioStream encoder jobId projectId w =
  match exportRun w with
  | (Ok out, w1) => updateJob jobId (setComplete out) w1
  | (Throw e, w1) =>
      updateJob jobId (setFailed e) (snd (appendFileSync (JobFailed jobId e) w1))
  end.
Proof.
  unfold processExportJob, exportRun, tryCatch, bind.
  cbn [appendFileSync updateJob loadProject fst snd db projects].
  unfold loadedProject.
  match goal with
  | |- context [exportProject ?a ?b ?c ?d ?e ?f ?g] =>
      destruct (exportProject a b c d e f g) as [[out|e'] w1]
  end; reflexivity.
Qed.

(** The job row is still there when [exportProject] is done. *)
Lemma exportRun_job (w w1 : World) (r : Result Path) :
  In jobId (map job_id (export_jobs (db w))) ->
  exportRun w = (r, w1) ->
  exists j1, findJobById jobId (db w1) = Some j1 /\
  exists new,
    trace w1 = (trace w ++ new)%list /\
    forall inv o, In (inv, o) new -> procSucceeded o = false ->
                  errOf r = Some (failureMessage FFMPEG_PATH o).
Proof.
  intros Hjob Erun. unfold exportRun in Erun.
  set (w0 := snd (updateJob jobId (setStatus RUNNING)
                            (snd (appendFileSync (JobStarted jobId) w)))) in *.
  assert (Hord : orderly FFMPEG_PATH (fun _ => True) (assets (db w0))
                   (exportProject FFMPEG_PATH hasAudioStream encoder
                      (loadedProject projectId (db w)) jobId
                      (fun progress => updateJob jobId (setProgress progress)))).
  { apply orderly_exportProject;
      [ intros; exact I | intros; exact I
      | intro; apply quiet_orderly, quiet_updateJob; reflexivity ]. }
  specialize (Hord w0 eq_refl). rewrite Erun in Hord. simpl in Hord.
  destruct Hord as (Hids & _ & new & Htrace & _ & Hnew).
  assert (Hids0 : map job_id (export_jobs (db w0)) = map job_id (export_jobs (db w))).
  { unfold w0. simpl. apply updateJob_ids. reflexivity. }
  rewrite <- Hids0, <- Hids in Hjob.
  destruct (findJobById_In jobId (db w1) Hjob) as (j1 & Hj1 & _).
  exists j1. split; [exact Hj1|]. exists new. split; [exact Htrace | exact Hnew].
Qed.

Lemma exportRun_progress_keeps (p : Q) :
  keeps jobId (updateJob jobId (setProgress p)).
Proof. apply keeps_updateJob. intro j. repeat split. Qed.

End RunOutcome.

(** X14: an export run always ends in a terminal status and leaves no
    scratch file.  For a job that has a row, after [processExportJob] the row
    is either COMPLETE, with progress 100, the output path of the job
    recorded, that output file in place and every encoder invocation of the
    run successful, or it is FAILED with an error message recorded. *)
Theorem processExportJob_terminal
        (FFMPEG_PATH : string) (hasAudioStream : string -> bool)
        (encoder : nat -> Invocation -> ProcOutcome)
        (jobId projectId : string) (w : World) :
  let w' := snd (processExportJob FFMPEG_PATH hasAudioStream encoder
                                  jobId projectId w) in
  In jobId (map job_id (export_jobs (db w))) ->
  exists j,
    findJobById jobId (db w') = Some j /\
    (forall p, In p (fs w') -> inTemp jobId p = false) /\
    ((job_status j = COMPLETE /\ job_progress j = 100 /\
      job_output_path j = Some (ExportFile jobId) /\
      In (ExportFile jobId) (fs w') /\
      Forall (fun entry => procSucceeded (snd entry) = true)
             (skipn (List.length (trace w)) (trace w')))
     \/ (job_status j = FAILED /\ exists e, job_error j = Some e)).
Proof.
  intros w' Hjob.
  assert (Hw' : w' = snd (processExportJob FFMPEG_PATH hasAudioStream encoder
                                           jobId projectId w)) by reflexivity.
  clearbody w'. rewrite processExportJob_unfold in Hw'.
  destruct (exportRun FFMPEG_PATH hasAudioStream encoder jobId projectId w)
    as [[out|e] w1] eqn:Erun.
  - destruct (@exportRun_job _ _ _ _ _ _ _ _ Hjob Erun) as (j1 & Hj1 & new & Htrace & Hnew).
    unfold exportRun in Erun.
    apply exportProject_ok in Erun; [|apply exportRun_progress_keeps].
    destruct Erun as (Hout & Hfile & Hclean). subst out.
    exists (setComplete (ExportFile jobId) j1). subst w'.
    split; [|split].
    + unfold findJobById in *. simpl.
      rewrite find_updated_job by reflexivity. rewrite Hj1. reflexivity.
    + exact Hclean.
    + left. repeat split; try reflexivity; try exact Hfile.
      simpl. rewrite Htrace, skipn_app, skipn_all, Nat.sub_diag. simpl.
      apply Forall_forall. intros [inv o] Hin. simpl.
      destruct (procSucceeded o) eqn:E; [reflexivity|].
      specialize (Hnew inv o Hin E). discriminate.
  - destruct (@exportRun_job _ _ _ _ _ _ _ _ Hjob Erun) as (j1 & Hj1 & _).
    unfold exportRun in Erun.
    pose proof (exportProject_throw_cleans _ _ _ _ _ _ _ Erun) as Hclean.
    exists (setFailed e j1). subst w'.
    split; [|split].
    + unfold findJobById in *. simpl.
      rewrite find_updated_job by reflexivity. rewrite Hj1. reflexivity.
    + exact Hclean.
    + right. split; [reflexivity|]. exists e. reflexivity.
Qed.

Lemma processExportJob_terminal_witness :
  let w' := snd (processExportJob "ffmpeg" (fun _ => true) workingEncoder
                                  "job-1" "p1" sampleWorld) in
  exists j,
    findJobById "job-1" (db w') = Some j /\
    (forall p, In p (fs w') -> inTemp "job-1" p = false) /\
    ((job_status j = COMPLETE /\ job_progress j = 100 /\
      job_output_path j = Some (ExportFile "job-1") /\
      In (ExportFile "job-1") (fs w') /\
      Forall (fun entry => procSucceeded (snd entry) = true)
             (skipn (List.length (trace sampleWorld)) (trace w')))
     \/ (job_status j = FAILED /\ exists e, job_error j = Some e)).
Proof.
  apply (@processExportJob_terminal "ffmpeg" (fun _ => true) workingEncoder
           "job-1" "p1" sampleWorld).
  simpl. left. reflexivity.
Defined.

(* ================================================================== *)
(** ** The export run with an encoder that never fails *)

Section Succeeds.

Variable FFMPEG_PATH : string.
Variable hasAudioStream : string -> bool.
Variable encoder : nat -> Invocation -> ProcOutcome.

Hypothesis encoder_ok : forall n inv, procSucceeded (encoder n inv) = true.

(** The computation returns, from every world. *)
Definition succeeds {X : Type} (m : M X) : Prop :=
  forall w, exists x w', m w = (Ok x, w').

Lemma succeeds_ret {X : Type} (x : X) : succeeds (ret x).
Proof. intro w. exists x, w. reflexivity. Qed.

Lemma succeeds_bind {X Y : Type} (m : M X) (k : X -> M Y) :
  succeeds m -> (forall x, succeeds (k x)) -> succeeds (bind m k).
Proof.
  intros Hm Hk w. destruct (Hm w) as (x & w1 & E).
  destruct (Hk x w1) as (y & w2 & E2).
  exists y, w2. unfold bind. rewrite E. exact E2.
Qed.

Lemma succeeds_foldM {X S : Type} (body : S -> X -> M S) (l : list X) :
  (forall s x, succeeds (body s x)) -> forall s, succeeds (foldM l s body).
Proof.
  intro Hb. induction l as [|x l IH]; intro s; simpl.
  - apply succeeds_ret.
  - apply succeeds_bind; [apply Hb | exact IH].
Qed.

Lemma succeeds_foldM_in {X S : Type} (body : S -> X -> M S) (l : list X) :
  (forall s x, In x l -> succeeds (body s x)) -> forall s, succeeds (foldM l s body).
Proof.
  induction l as [|x l IH]; intros Hb s; simpl.
  - apply succeeds_ret.
  - apply succeeds_bind; [apply Hb; left; reflexivity|].
    intro s'. apply IH. intros s'' y Hy. apply Hb. right. exact Hy.
Qed.

(** The filter of a text overlay whose text and colour are strings. *)
Lemma overlayFilterOf_typed (w : World) (icl : Clip Q * TrackType) :
  textTyped icl -> exists line, overlayFilterOf w icl = Ok line.
Proof.
  intros Ht. unfold overlayFilterOf. cbv zeta.
  assert (Himg : exists line,
             match fst (getAsset (asset_id (fst icl)) w) with
             | Ok (Some asset) =>
                 Ok (Some (ImageOverlay (a_path asset) (start_time (fst icl))
                             (start_time (fst icl) + duration (fst icl))
                             (overlayKeyframes (fst icl))))
             | _ => Ok None
             end = Ok line).
  { destruct (fst (getAsset (asset_id (fst icl)) w)) as [[asset|]|e];
      eexists; reflexivity. }
  destruct Ht as [Hi|[Htext Hcolor]]; [rewrite Hi; exact Himg|].
  assert (Hr : exists t, rawTextOf (properties (fst icl)) = Ok t).
  { unfold rawTextOf, stringOrFalsy in *.
    destruct (propLookup "text" (properties (fst icl))) as [[b|n|s0]|];
      try (eexists; reflexivity); rewrite Htext; eexists; reflexivity. }
  assert (Hf : exists c, fontColorOf (properties (fst icl)) = Ok c).
  { unfold fontColorOf, stringOrFalsy in *.
    destruct (propLookup "color" (properties (fst icl))) as [[b|n|s0]|];
      try (eexists; reflexivity); rewrite Hcolor; eexists; reflexivity. }
  destruct Hr as (t & ->). destruct Hf as (c & ->).
  destruct (snd icl); try (eexists; reflexivity). exact Himg.
Qed.

(** A computation that cannot throw. *)
Lemma succeeds_total {X : Type} (m : M X) :
  (forall w, exists x, fst (m w) = Ok x) -> succeeds m.
Proof.
  intros H w. destruct (H w) as (x & E).
  exists x, (snd (m w)). destruct (m w); simpl in *. subst. reflexivity.
Qed.

Lemma succeeds_runFfmpeg (args : Invocation) :
  succeeds (runFfmpeg FFMPEG_PATH encoder args).
Proof.
  intro w. unfold runFfmpeg. cbv zeta. rewrite encoder_ok.
  eexists. eexists. reflexivity.
Qed.

(** An encoder pass followed by the copy of its output. *)
Lemma succeeds_run_copy (args : Invocation) (dst : Path) :
  succeeds (runFfmpeg FFMPEG_PATH encoder args ;;; copyFileSync (outputOf args) dst).
Proof.
  intro w. unfold bind, runFfmpeg. cbv zeta. rewrite encoder_ok.
  unfold copyFileSync. cbn [fs existsb]. rewrite pathEqb_refl. cbn [orb].
  eexists. eexists. reflexivity.
Qed.

Lemma succeeds_renderClipSegment (call : (RenderCall Q)) :
  succeeds (renderClipSegment FFMPEG_PATH hasAudioStream encoder call).
Proof.
  unfold renderClipSegment. cbv zeta.
  destruct (Qltb _ _).
  - apply succeeds_bind; [apply succeeds_runFfmpeg | intros _].
    apply succeeds_bind; [apply succeeds_runFfmpeg | intros _].
    apply succeeds_total. intro w. exists tt. reflexivity.
  - destruct (_ && _); apply succeeds_runFfmpeg.
Qed.

Lemma succeeds_renderVideoClip (jobId : string) (total : nat)
      (onProgress : Q -> M unit) (segmentFiles : list (SegmentFile Q))
      (icl : nat * (Clip Q * TrackType)) :
  (forall p, succeeds (onProgress p)) ->
  succeeds (renderVideoClip FFMPEG_PATH hasAudioStream encoder jobId total
                            onProgress segmentFiles icl).
Proof.
  intro Hp. unfold renderVideoClip. cbv zeta.
  apply succeeds_bind;
    [apply succeeds_total; intro w; eexists; reflexivity|].
  intros [asset|]; [|apply succeeds_ret].
  apply succeeds_bind.
  - apply succeeds_foldM. intros acc item.
    apply succeeds_bind; [apply succeeds_renderClipSegment | intros _].
    apply succeeds_ret.
  - intro segs. apply succeeds_bind; [apply Hp | intros _; apply succeeds_ret].
Qed.

(** With content on the timeline, [exportProject] returns. *)
Lemma succeeds_exportProject (projectData : Project Q) (jobId : string)
      (onProgress : Q -> M unit) :
  Qle_bool (totalDurationOf projectData) 0 = false ->
  textsTyped projectData ->
  (forall p, succeeds (onProgress p)) ->
  succeeds (exportProject FFMPEG_PATH hasAudioStream encoder projectData jobId
                          onProgress).
Proof.
  intros Hc Htyped Hp. unfold exportProject. cbv zeta. rewrite Hc.
  apply succeeds_bind;
    [apply succeeds_total; intro w; exists tt; reflexivity | intros _].
  intro w. unfold tryCatch.
  match goal with
  | |- context [match ?b w with _ => _ end] =>
      assert (Hb : succeeds b)
  end.
  { apply succeeds_bind.
    { apply succeeds_foldM. intros. apply succeeds_renderVideoClip. exact Hp. }
    intro segs. apply succeeds_bind.
    { destruct segs; [apply succeeds_runFfmpeg|].
      apply succeeds_bind;
        [apply succeeds_total; intro w0; exists tt; reflexivity | intros _].
      apply succeeds_runFfmpeg. }
    intros _. apply succeeds_bind; [apply Hp | intros _].
    apply succeeds_bind.
    { unfold textsTyped in Htyped.
      destruct (collectClips isOverlayTrack projectData) as [|icl0 overlays];
        [apply succeeds_ret|].
      apply succeeds_bind;
        [apply succeeds_total; intro w0; eexists; reflexivity | intro w0].
      apply succeeds_bind.
      { apply succeeds_foldM_in. intros lines icl Hicl.
        rewrite Forall_forall in Htyped.
        destruct (@overlayFilterOf_typed w0 icl (Htyped icl Hicl)) as (line & ->).
        apply succeeds_bind; [apply succeeds_ret | intros line'; apply succeeds_ret]. }
      intros filterLines.
      apply succeeds_bind;
        [apply succeeds_total; intro w1; exists tt; reflexivity | intros _].
      apply (@succeeds_run_copy
               (OverlayPass _ (TempFile jobId OverlayFilterTxt) (ExportFile jobId)
                            (TempFile jobId WithOv)) (ExportFile jobId)). }
    intros _. apply succeeds_bind; [apply Hp | intros _].
    apply succeeds_bind;
      [apply succeeds_total; intro w0; eexists; reflexivity | intro w0].
    apply succeeds_bind.
    { destruct (somes _) as [|a0 rest]; [apply succeeds_ret|].
      apply (@succeeds_run_copy
               (AudioMix (a0 :: rest) (ExportFile jobId) (TempFile jobId WithAud))
               (ExportFile jobId)). }
    intros _. apply succeeds_bind; [apply Hp | intros _].
    apply succeeds_bind;
      [apply succeeds_total; intro w1; exists tt; reflexivity | intros _].
    apply succeeds_ret. }
  destruct (Hb w) as (x & w' & E). rewrite E. exists x, w'. reflexivity.
Qed.

End Succeeds.

(** X15: when the encoder succeeds on every invocation, the project has
    content on its timeline and the text and the colour of its text
    overlays are strings (or falsy values, which the exporter replaces by
    its defaults), the export run of a job that has a row ends with the row
    COMPLETE, progress 100, the output path of the job recorded, and the
    output file in place.  A truthy text or colour that is not a string
    makes step 3 throw a TypeError, and the job ends FAILED. *)
Theorem processExportJob_succeeds
        (FFMPEG_PATH : string) (hasAudioStream : string -> bool)
        (encoder : nat -> Invocation -> ProcOutcome)
        (jobId projectId : string) (w : World) :
  let w' := snd (processExportJob FFMPEG_PATH hasAudioStream encoder
                                  jobId projectId w) in
  (forall n inv, procSucceeded (encoder n inv) = true) ->
  (0 < totalDurationOf (loadedProject projectId (db w)))%Q ->
  textsTyped (loadedProject projectId (db w)) ->
  In jobId (map job_id (export_jobs (db w))) ->
  exists j,
    findJobById jobId (db w') = Some j /\
    job_status j = COMPLETE /\ job_progress j = 100 /\
    job_output_path j = Some (ExportFile jobId) /\
    In (ExportFile jobId) (fs w').
Proof.
  intros w' Henc Hcontent Htyped Hjob.
  assert (Hw' : w' = snd (processExportJob FFMPEG_PATH hasAudioStream encoder
                                           jobId projectId w)) by reflexivity.
  clearbody w'. rewrite processExportJob_unfold in Hw'.
  assert (Hc : Qle_bool (totalDurationOf (loadedProject projectId (db w))) 0 = false).
  { destruct (Qle_bool _ 0) eqn:E; [|reflexivity].
    apply Qle_bool_iff in E. lra. }
  assert (Hs : succeeds
                 (exportProject FFMPEG_PATH hasAudioStream encoder
                    (loadedProject projectId (db w)) jobId
                    (fun progress => updateJob jobId (setProgress progress)))).
  { apply succeeds_exportProject; [exact Henc | exact Hc | exact Htyped|].
    intro p. apply succeeds_total. intro w0. exists tt. reflexivity. }
  destruct (Hs (snd (updateJob jobId (setStatus RUNNING)
                              (snd (appendFileSync (JobStarted jobId) w)))))
    as (out & w1 & Erun).
  fold (exportRun FFMPEG_PATH hasAudioStream encoder jobId projectId w) in Erun.
  rewrite Erun in Hw'.
  destruct (@exportRun_job _ _ _ _ _ _ _ _ Hjob Erun) as (j1 & Hj1 & _).
  unfold exportRun in Erun.
  apply exportProject_ok in Erun; [|apply exportRun_progress_keeps].
  destruct Erun as (Hout & Hfile & _). subst out.
  exists (setComplete (ExportFile jobId) j1). subst w'.
  split; [|repeat split; try reflexivity; exact Hfile].
  unfold findJobById in *. simpl.
  rewrite find_updated_job by reflexivity. rewrite Hj1. reflexivity.
Qed.

(** The sample project with a title over its clip. *)
Definition titleClip : Clip Q :=
  {| clip_id := "t1"; asset_id := None; start_time := 1; duration := 2;
     in_point := 0; out_point := 2; speedKeyframes := [];
     overlayKeyframes := [];
     properties := [("text", PStr "Hello"); ("color", PStr "#ff0000")] |}.
Definition titledProject : Project Q :=
  {| tracks := [ {| track_type := VIDEO_A; clips := [sampleClip] |};
                 {| track_type := OVERLAY_TEXT; clips := [titleClip] |} ] |}.
Definition titledWorld : World :=
  {| fs := [];
     db := {| projects := [("p1", titledProject)]; assets := [sampleAsset];
              export_jobs := [queuedJob] |};
     trace := []; debugLog := [] |}.

Lemma processExportJob_succeeds_witness :
  let w' := snd (processExportJob "ffmpeg" (fun _ => true) workingEncoder
                                  "job-1" "p1" titledWorld) in
  exists j,
    findJobById "job-1" (db w') = Some j /\
    job_status j = COMPLETE /\ job_progress j = 100 /\
    job_output_path j = Some (ExportFile "job-1") /\
    In (ExportFile "job-1") (fs w').
Proof.
  apply (@processExportJob_succeeds "ffmpeg" (fun _ => true) workingEncoder
           "job-1" "p1" titledWorld).
  - reflexivity.
  - vm_compute. reflexivity.
  - repeat constructor; right; simpl; split; exact I.
  - simpl. left. reflexivity.
Defined.

(** A title whose text is the number 42: step 3 throws, and the job fails
    although the encoder never does. *)
Remark numeric_title_fails_the_job :
  let numbered :=
    {| tracks := [ {| track_type := VIDEO_A; clips := [sampleClip] |};
                   {| track_type := OVERLAY_TEXT;
                      clips := [ {| clip_id := "t1"; asset_id := None;
                                    start_time := 1; duration := 2; in_point := 0;
                                    out_point := 2; speedKeyframes := [];
                                    overlayKeyframes := [];
                                    properties := [("text", PNum 42)] |} ] |} ] |} in
  let w := {| fs := [];
              db := {| projects := [("p1", numbered)]; assets := [sampleAsset];
                       export_jobs := [queuedJob] |};
              trace := []; debugLog := [] |} in
  let w' := snd (processExportJob "ffmpeg" (fun _ => true) workingEncoder
                                  "job-1" "p1" w) in
  option_map (fun j => (job_status j, job_error j)) (findJobById "job-1" (db w'))
  = Some (FAILED, Some "rawText.replace is not a function").
Proof. vm_compute. reflexivity. Qed.

(** X16: a project without content (no clip that ends after time 0, which
    includes a project that does not exist) is not exported: the run makes
    no encoder invocation, adds no file (the debug log [export_debug.log]
    gets the line of the job's start and the line of its failure) and the
    job ends FAILED with the error [No content on timeline]. *)
Theorem processExportJob_no_content
        (FFMPEG_PATH : string) (hasAudioStream : string -> bool)
        (encoder : nat -> Invocation -> ProcOutcome)
        (jobId projectId : string) (w : World) :
  let w' := snd (processExportJob FFMPEG_PATH hasAudioStream encoder
                                  jobId projectId w) in
  (totalDurationOf (loadedProject projectId (db w)) <= 0)%Q ->
  In jobId (map job_id (export_jobs (db w))) ->
  trace w' = trace w /\
  (forall p, In p (fs w') -> In p (fs w)) /\
  (exists j,
     findJobById jobId (db w') = Some j /\
     job_status j = FAILED /\ job_error j = Some "No content on timeline") /\
  debugLog w'
  = (debugLog w ++ [JobStarted jobId; JobFailed jobId "No content on timeline"])%list.
Proof.
  intros w' Hempty Hjob.
  assert (Hw' : w' = snd (processExportJob FFMPEG_PATH hasAudioStream encoder
                                           jobId projectId w)) by reflexivity.
  clearbody w'. rewrite processExportJob_unfold in Hw'.
  apply Qle_bool_iff in Hempty.
  unfold exportRun, exportProject in Hw'. cbv zeta in Hw'.
  rewrite Hempty in Hw'.
  unfold bind, tryCatch, mkdirSync, rmTempDir, throw, appendFileSync in Hw'.
  cbn [fst snd updateJob fs db trace debugLog] in Hw'.
  subst w'. cbn [snd updateJob fs db trace debugLog export_jobs].
  split; [reflexivity|]. split; [|split].
  - intros p Hp. apply filter_In in Hp. destruct Hp as [[Hp|Hp] Hn].
    + subst p. simpl in Hn. rewrite String.eqb_refl in Hn. discriminate.
    + exact Hp.
  - destruct (findJobById_In jobId (db w) Hjob) as (j0 & Hj0 & _).
    exists (setFailed "No content on timeline" (setStatus RUNNING j0)).
    split; [|split; reflexivity].
    unfold findJobById in *. cbn [export_jobs].
    rewrite !find_updated_job by reflexivity. rewrite Hj0. reflexivity.
  - rewrite <- app_assoc. reflexivity.
Qed.

Lemma processExportJob_no_content_witness :
  let w' := snd (processExportJob "ffmpeg" (fun _ => true) workingEncoder
                                  "job-1" "no-such-project" sampleWorld) in
  trace w' = trace sampleWorld /\
  (forall p, In p (fs w') -> In p (fs sampleWorld)) /\
  (exists j,
     findJobById "job-1" (db w') = Some j /\
     job_status j = FAILED /\ job_error j = Some "No content on timeline") /\
  debugLog w'
  = (debugLog sampleWorld
     ++ [JobStarted "job-1"; JobFailed "job-1" "No content on timeline"])%list.
Proof.
  apply (@processExportJob_no_content "ffmpeg" (fun _ => true) workingEncoder
           "job-1" "no-such-project" sampleWorld).
  - vm_compute. discriminate.
  - simpl. left. reflexivity.
Defined.

(* ================================================================== *)
(** ** The export routes *)

Lemma existsb_pathEqb (p : Path) (l : list Path) :
  In p l -> existsb (pathEqb p) l = true.
Proof.
  intro H. apply existsb_exists. exists p. split; [exact H | apply pathEqb_refl].
Qed.

Lemma findJobById_id (jobId : string) (d : DB) (j : ExportJob) :
  findJobById jobId d = Some j -> job_id j = jobId /\ In j (export_jobs d).
Proof.
  unfold findJobById. intro H. apply find_some in H. destruct H as [Hin He].
  split; [apply String.eqb_eq; exact He | exact Hin].
Qed.

(** X17: after an export run the download route never answers "not found"
    for the job: it serves the job's output file under the name
    [export_<id>.mp4], and then every encoder invocation of the run had
    succeeded, or it answers that the export is not complete. *)
Theorem downloadExport_after_run
        (FFMPEG_PATH : string) (hasAudioStream : string -> bool)
        (encoder : nat -> Invocation -> ProcOutcome)
        (jobId projectId : string) (w : World) :
  let w' := snd (processExportJob FFMPEG_PATH hasAudioStream encoder
                                  jobId projectId w) in
  In jobId (map job_id (export_jobs (db w))) ->
  (downloadExport jobId w'
   = Download (ExportFile jobId) ("export_" ++ jobId ++ ".mp4") /\
   Forall (fun entry => procSucceeded (snd entry) = true)
          (skipn (List.length (trace w)) (trace w')))
  \/ downloadExport jobId w' = ExportNotComplete.
Proof.
  intros w' Hjob.
  assert (Hw' : w' = snd (processExportJob FFMPEG_PATH hasAudioStream encoder
                                           jobId projectId w)) by reflexivity.
  clearbody w'. rewrite processExportJob_unfold in Hw'.
  destruct (exportRun FFMPEG_PATH hasAudioStream encoder jobId projectId w)
    as [[out|e] w1] eqn:Erun;
    destruct (@exportRun_job _ _ _ _ _ _ _ _ Hjob Erun)
      as (j1 & Hj1 & new & Htrace & Hnew);
    destruct (findJobById_id _ _ Hj1) as [Hid _];
    unfold downloadExport, findJobById in *; subst w'; cbn [snd updateJob appendFileSync db fs trace debugLog export_jobs];
    rewrite find_updated_job by reflexivity; rewrite Hj1; cbn [option_map].
  - left. unfold exportRun in Erun.
    apply exportProject_ok in Erun; [|apply exportRun_progress_keeps].
    destruct Erun as (Hout & Hfile & _). subst out.
    cbn [setComplete job_status job_output_path job_id].
    rewrite (existsb_pathEqb _ _ Hfile), Hid. split; [reflexivity|].
    rewrite Htrace, skipn_app, skipn_all, Nat.sub_diag. simpl.
    apply Forall_forall. intros [inv o] Hin. simpl.
    destruct (procSucceeded o) eqn:E; [reflexivity|].
    specialize (Hnew inv o Hin E). discriminate.
  - right. reflexivity.
Qed.

Lemma downloadExport_after_run_witness :
  let w' := snd (processExportJob "ffmpeg" (fun _ => true) brokenEncoder
                                  "job-1" "p1" sampleWorld) in
  (downloadExport "job-1" w'
   = Download (ExportFile "job-1") ("export_" ++ "job-1" ++ ".mp4") /\
   Forall (fun entry => procSucceeded (snd entry) = true)
          (skipn (List.length (trace sampleWorld)) (trace w')))
  \/ downloadExport "job-1" w' = ExportNotComplete.
Proof.
  apply (@downloadExport_after_run "ffmpeg" (fun _ => true) brokenEncoder
           "job-1" "p1" sampleWorld).
  simpl. left. reflexivity.
Defined.

Section JobKeys.

(** The request tokens recorded in [export_jobs]. *)
Definition requestIds (d : DB) : list string :=
  somes (map job_request_id (export_jobs d)).

(** The constraints of the table: [id] is the primary key and [request_id]
    is UNIQUE. *)
Definition wellKeyed (d : DB) : Prop :=
  NoDup (map job_id (export_jobs d)) /\ NoDup (requestIds d).

Lemma somes_app {X : Type} (l1 l2 : list (option X)) :
  somes (l1 ++ l2) = (somes l1 ++ somes l2)%list.
Proof.
  induction l1 as [|[x|] l1 IH]; simpl; [reflexivity | rewrite IH; reflexivity | exact IH].
Qed.

Lemma findJobByRequest_none (r : string) (d : DB) :
  findJobByRequest r d = None -> ~ In r (requestIds d).
Proof.
  unfold findJobByRequest, requestIds.
  induction (export_jobs d) as [|j jobs IH]; simpl; [auto|].
  destruct (job_request_id j) as [r'|] eqn:E.
  - destruct (String.eqb r' r) eqn:Er; [discriminate|].
    intros Hn [H|H]; [|exact (IH Hn H)].
    subst r'. rewrite String.eqb_refl in Er. discriminate.
  - exact IH.
Qed.

Lemma findJobByRequest_some (r : string) (d : DB) (j : ExportJob) :
  findJobByRequest r d = Some j -> In j (export_jobs d) /\ job_request_id j = Some r.
Proof.
  unfold findJobByRequest. intro H. apply find_some in H. destruct H as [Hin He].
  split; [exact Hin|].
  destruct (job_request_id j) as [r'|]; [|discriminate].
  apply String.eqb_eq in He. subst. reflexivity.
Qed.

(** With unique ids a row is found under its id. *)
Lemma findJobById_unique (d : DB) (j : ExportJob) :
  NoDup (map job_id (export_jobs d)) -> In j (export_jobs d) ->
  findJobById (job_id j) d = Some j.
Proof.
  unfold findJobById. induction (export_jobs d) as [|a jobs IH]; simpl; [intros _ []|].
  intros Hnd [<-|Hin].
  - rewrite String.eqb_refl. reflexivity.
  - inversion Hnd as [|? ? Ha Hnd']; subst.
    destruct (String.eqb (job_id a) (job_id j)) eqn:E; [|apply IH; assumption].
    exfalso. apply Ha. apply String.eqb_eq in E. rewrite E.
    apply in_map. exact Hin.
Qed.

Lemma NoDup_snoc {X : Type} (l : list X) (x : X) :
  NoDup l -> ~ In x l -> NoDup (l ++ [x]).
Proof.
  intros Hl Hx. induction Hl as [|a l Ha Hl IH]; simpl.
  - constructor; [intros [] | constructor].
  - constructor.
    + intro H. apply in_app_or in H. destruct H as [H|[H|[]]]; [exact (Ha H)|].
      apply Hx. left. symmetry. exact H.
    + apply IH. intro H. apply Hx. right. exact H.
Qed.

End JobKeys.

(** X18: the submit route, with fresh ids from [uuid()], on a table that
    satisfies its key constraints: it never fails on the INSERT; it answers
    404 exactly when the project does not exist, and then changes nothing and
    starts nothing; otherwise it answers with a job that the status route
    returns under its id, and either that job was already recorded (nothing
    changed, nothing started) or it is the one new row, QUEUED with progress
    0 for that project, and the export started is that job.  The projects
    and assets are untouched and the key constraints still hold. *)
Theorem postExport_outcomes (d : DB) (projectId : string) (requestId : option string)
        (uuid1 uuid2 : string) :
  wellKeyed d ->
  ~ In uuid1 (map job_id (export_jobs d)) ->
  ~ In uuid2 (map job_id (export_jobs d)) ->
  let resp := fst (fst (postExport projectId requestId uuid1 uuid2 d)) in
  let d' := snd (fst (postExport projectId requestId uuid1 uuid2 d)) in
  let started := snd (postExport projectId requestId uuid1 uuid2 d) in
  projects d' = projects d /\ assets d' = assets d /\ wellKeyed d' /\
  match resp with
  | NotFound => ~ In projectId (map fst (projects d)) /\ d' = d /\ started = None
  | Json job =>
      In projectId (map fst (projects d)) /\
      getExport (job_id job) d' = StatusJson job /\
      ((started = None /\ d' = d /\ In job (export_jobs d)) \/
       (started = Some (job_id job) /\
        export_jobs d' = (export_jobs d ++ [job])%list /\
        job_status job = QUEUED /\ job_progress job = 0 /\
        job_project_id job = projectId /\ job_output_path job = None))
  | Crashed => False
  end.
Proof.
  intros [Hids Hreqs] H1 H2. unfold postExport.
  destruct (find (fun kv => String.eqb (fst kv) projectId) (projects d))
    as [project|] eqn:Eproj.
  - assert (Hp : In projectId (map fst (projects d))).
    { apply find_some in Eproj. destruct Eproj as [Hin He].
      apply String.eqb_eq in He. rewrite <- He. apply in_map. exact Hin. }
    assert (Hfst : fst project = projectId).
    { apply find_some in Eproj. destruct Eproj as [_ He].
      apply String.eqb_eq. exact He. }
    cbv zeta.
    set (supplied := match requestId with
                     | Some r => negb (String.eqb r EmptyString)
                     | None => false
                     end).
    set (rid := match requestId with
                | Some r => if supplied then r else uuid1
                | None => uuid1
                end).
    destruct (findJobByRequest rid d) as [existing|] eqn:Ereq.
    + cbn [fst snd]. split; [reflexivity|]. split; [reflexivity|].
      split; [split; assumption|]. split; [exact Hp|].
      destruct (findJobByRequest_some _ _ Ereq) as [Hin _].
      split.
      * unfold getExport. rewrite (findJobById_unique _ _ Hids Hin). reflexivity.
      * left. repeat split. exact Hin.
    + set (jobId := if supplied then uuid1 else uuid2).
      assert (Hfresh : ~ In jobId (map job_id (export_jobs d)))
        by (unfold jobId; destruct supplied; assumption).
      pose proof (findJobById_none jobId d Hfresh) as Hnone.
      unfold insertJob. cbn [job_id job_request_id]. rewrite Hnone, Ereq.
      set (job := {| job_id := jobId; job_project_id := fst project;
                     job_request_id := Some rid; job_status := QUEUED;
                     job_progress := 0; job_output_path := None;
                     job_error := None |}).
      assert (Hget : findJobById jobId
                       {| projects := projects d; assets := assets d;
                          export_jobs := (export_jobs d ++ [job])%list |} = Some job).
      { unfold findJobById in *. cbn [export_jobs].
        rewrite find_app_none by exact Hnone.
        cbn [job_id job]. rewrite String.eqb_refl. reflexivity. }
      rewrite Hget. cbn [fst snd projects assets].
      split; [reflexivity|]. split; [reflexivity|]. split.
      * split.
        -- cbn [export_jobs]. rewrite map_app. apply NoDup_snoc; assumption.
        -- unfold requestIds. cbn [export_jobs]. rewrite map_app, somes_app.
           apply NoDup_snoc; [exact Hreqs | apply findJobByRequest_none; exact Ereq].
      * split; [exact Hp|]. split.
        -- unfold getExport. cbn [job_id job]. rewrite Hget. reflexivity.
        -- right. repeat split; try reflexivity. exact Hfst.
  - cbn [fst snd]. split; [reflexivity|]. split; [reflexivity|].
    split; [split; assumption|].
    split; [|split; reflexivity].
    intro Hin. apply in_map_iff in Hin. destruct Hin as (kv & Hk & Hin).
    eapply find_none in Eproj; [|exact Hin].
    rewrite Hk, String.eqb_refl in Eproj. discriminate.
Qed.

Lemma postExport_outcomes_witness :
  exists job,
    fst (fst (postExport "p1" None "u-1" "u-2" sampleDB)) = Json job /\
    snd (postExport "p1" None "u-1" "u-2" sampleDB) = Some "u-2" /\
    job_request_id job = Some "u-1" /\
    wellKeyed (snd (fst (postExport "p1" None "u-1" "u-2" sampleDB))).
Proof.
  destruct (@postExport_outcomes sampleDB "p1" None "u-1" "u-2")
    as (_ & _ & Hk & _).
  - split; constructor.
  - simpl. intros [].
  - simpl. intros [].
  - eexists. split; [reflexivity|]. split; [reflexivity|].
    split; [reflexivity | exact Hk].
Defined.

(* ================================================================== *)
(** ** The segment planner: the segments of a clip do not overlap *)

Section Tiles.

Local Open Scope Q_scope.

(** [x] is over before [y] starts. *)
Definition endsBefore (x y : (SegmentFile Q)) : Prop :=
  seg_start x + seg_duration x <= seg_start y.

Lemma chunkLoop_durations (jobId : string) (ci : nat) (clip : Clip Q) (asset : (Asset Q))
      (ki : nat) (prevTime startSpeed endSpeed stepDur : Q) (steps : Z) (n s : nat)
      (a : Q) :
  Forall (fun sg => seg_duration sg = stepDur)
         (map snd (fst (chunkLoop jobId ci clip asset ki prevTime startSpeed
                                  endSpeed stepDur steps n s a))).
Proof.
  apply Forall_map.
  eapply Forall_impl;
    [|apply (chunkLoop_shape jobId ci clip asset ki prevTime startSpeed endSpeed
                             stepDur steps n s a)].
  cbv beta. intros item (_ & Hd & _). exact Hd.
Qed.

Lemma chunkLoop_tiles (jobId : string) (ci : nat) (clip : Clip Q) (asset : (Asset Q))
      (ki : nat) (prevTime startSpeed endSpeed stepDur : Q) (steps : Z) :
  0 <= stepDur ->
  forall n s a,
    pairwise endsBefore
             (map snd (fst (chunkLoop jobId ci clip asset ki prevTime startSpeed
                                      endSpeed stepDur steps n s a))).
Proof.
  intros Hsd. induction n as [|n IH]; intros s a; simpl; qplan; [exact I|].
  match goal with
  | |- context [Qle_bool ?m ?x] => destruct (Qle_bool m x); simpl
  end.
  - split; [constructor | exact I].
  - match goal with
    | |- context [chunkLoop ?j ?c ?cl ?as_ ?k ?p ?ss ?es ?sd ?st ?n' ?s' ?a'] =>
        specialize (IH s' a');
        pose proof (@chunkLoop_starts j c cl as_ k p ss es sd st Hsd n' s' a') as Hb;
        destruct (chunkLoop j c cl as_ k p ss es sd st n' s' a') as [rest final]
    end.
    cbv zeta in Hb. cbn [fst snd map] in IH, Hb |- *. destruct Hb as [_ Hb].
    split; [|exact IH].
    eapply Forall_impl; [|exact Hb]. cbv beta. intros sg [H1 _].
    unfold endsBefore. cbn [seg_start seg_duration].
    rewrite Nat2Z.inj_succ in H1. unfold Z.succ in H1.
    rewrite zmul_succ in H1. lra.
Qed.

Lemma Forall_conj {X : Type} (P1 P2 : X -> Prop) (l : list X) :
  Forall P1 l -> Forall P2 l -> Forall (fun x => P1 x /\ P2 x) l.
Proof.
  intros H1 H2. rewrite Forall_forall in *. intros x Hx. split; auto.
Qed.

Lemma kfLoop_tiles (jobId : string) (ci : nat) (clip : Clip Q) (asset : (Asset Q))
      (sortedKfs : list (SpeedKeyframe Q)) :
  forall n ki prevTime a,
    let segs := map snd (kfLoop jobId ci clip asset sortedKfs n ki prevTime a) in
    pairwise endsBefore segs /\
    Forall (fun sg => start_time clip + prevTime <= seg_start sg /\
                      seg_start sg + seg_duration sg
                      <= start_time clip + duration clip /\
                      0 < seg_duration sg) segs.
Proof.
  induction n as [|n IH]; intros ki prevTime a; cbn [kfLoop]; qplan.
  - split; [exact I | constructor].
  - match goal with
    | |- context [Qle_bool (?kt - prevTime) (1 # 1000)] =>
        set (kfTime := kt);
        destruct (Qle_bool (kfTime - prevTime) (1 # 1000)) eqn:Eseg
    end.
    + apply IH.
    + apply Qle_bool_false in Eseg.
      assert (HkfTime : kfTime <= duration clip).
      { unfold kfTime.
        match goal with
        | |- context [Qltb ?d ?k0] =>
            destruct (Qltb d k0) eqn:E;
            [lra | apply Qltb_false in E; exact E]
        end. }
      pose proof (steps_positive Eseg) as Hsteps.
      set (steps := Qceiling ((kfTime - prevTime) / (1 # 2))) in *.
      assert (Hst : 0 < inject_Z steps)
        by (change 0 with (inject_Z 0); rewrite <- Zlt_Qlt; exact Hsteps).
      set (stepDur := (kfTime - prevTime) / inject_Z steps).
      assert (Hdur : 0 < stepDur) by (apply Qlt_shift_div_l; lra).
      assert (Hfull : inject_Z steps * stepDur == kfTime - prevTime)
        by (unfold stepDur; field; lra).
      match goal with
      | |- context [chunkLoop ?j ?c ?cl ?as_ ?k ?p ?ss ?es ?sd ?st ?n' ?s' ?a'] =>
          pose proof (@chunkLoop_starts j c cl as_ k p ss es sd st
                        ltac:(lra) n' s' a') as Hc;
          pose proof (@chunkLoop_tiles j c cl as_ k p ss es sd st
                        ltac:(lra) n' s' a') as Ht;
          pose proof (@chunkLoop_durations j c cl as_ k p ss es sd st n' s' a') as Hd;
          destruct (chunkLoop j c cl as_ k p ss es sd st n' s' a')
            as [chunks accum']
      end.
      cbv zeta in Hc. simpl in Hc, Ht, Hd. destruct Hc as [_ Hb].
      rewrite Z2Nat.id in Hb by lia. simpl in Hb.
      assert (Hb' : Forall (fun sg => start_time clip + prevTime <= seg_start sg /\
                                      seg_start sg + seg_duration sg
                                      <= start_time clip + kfTime /\
                                      0 < seg_duration sg)
                           (map snd chunks)).
      { eapply Forall_impl; [|exact (Forall_conj Hb Hd)]. cbv beta.
        intros sg [[H1 H2] H3]. rewrite H3.
        change (inject_Z 0) with 0 in H1. repeat split; lra. }
      destruct (Qle_bool (maxSourceDurOf asset) accum').
      * split; [exact Ht|].
        eapply Forall_impl; [|exact Hb']. cbv beta. intros sg (H1 & H2 & H3).
        repeat split; lra.
      * destruct (IH (S ki) kfTime accum') as [Ht2 Hb2]. cbv zeta in Ht2, Hb2.
        rewrite map_app. split.
        -- apply pairwise_app; [exact Ht | exact Ht2 |].
           eapply Forall_impl; [|exact Hb']. cbv beta. intros sg (_ & H2 & _).
           eapply Forall_impl; [|exact Hb2]. cbv beta. intros sg' (H1' & _).
           unfold endsBefore. lra.
        -- apply Forall_app. split.
           ++ eapply Forall_impl; [|exact Hb']. cbv beta. intros sg (H1 & H2 & H3).
              repeat split; lra.
           ++ eapply Forall_impl; [|exact Hb2]. cbv beta. intros sg (H1 & H2 & H3).
              repeat split; lra.
Qed.

End Tiles.

(** X19: in exact arithmetic, the segments planned for a clip of positive
    duration never overlap on the timeline and never leave the clip: each
    segment has a positive duration, starts no earlier than the clip, ends
    no later than the clip, and is over before the next one starts.  (The
    starts and durations are sums and quotients; in binary64 an end can
    pass the next start or the clip's end in the last place, see
    [binary64_planner_segment_ends].) *)
Theorem planClip_segments_tile (jobId : string) (ci : nat) (clip : Clip Q)
        (asset : (Asset Q)) :
  (0 < duration clip)%Q ->
  let segs := map snd (planClip jobId ci clip asset) in
  pairwise endsBefore segs /\
  Forall (fun sg => (start_time clip <= seg_start sg /\
                     seg_start sg + seg_duration sg <= start_time clip + duration clip /\
                     0 < seg_duration sg)%Q) segs.
Proof.
  intros Hd segs. unfold segs, planClip.
  destruct (List.length (speedKeyframes clip) <=? 1)%nat.
  - simpl. split; [split; [constructor | exact I]|].
    constructor; [repeat split; simpl; lra | constructor].
  - unfold planSubdivided.
    destruct (@kfLoop_tiles jobId ci clip asset
                (sortBy bySpeedKfTime (speedKeyframes clip))
                (S (List.length (sortBy bySpeedKfTime (speedKeyframes clip))))
                0%nat 0 (in_point clip)) as [Ht Hb].
    split; [exact Ht|].
    eapply Forall_impl; [|exact Hb]. cbv beta. intros sg (H1 & H2 & H3).
    repeat split; lra.
Qed.

Lemma planClip_segments_tile_witness :
  let segs := map snd (planClip "job-1" 0 scenarioClip shortAsset) in
  pairwise endsBefore segs /\
  Forall (fun sg => (start_time scenarioClip <= seg_start sg /\
                     seg_start sg + seg_duration sg
                     <= start_time scenarioClip + duration scenarioClip /\
                     0 < seg_duration sg)%Q) segs.
Proof.
  apply planClip_segments_tile. vm_compute. reflexivity.
Defined.

(* ================================================================== *)
(** ** The segment planner: no two segments share a file *)

Section DistinctFiles.

Variable jobId : string.

(** The index encoded in the file name of a planned item. *)
Definition itemIndex (item : (RenderCall Q) * (SegmentFile Q)) : option (nat * (nat * nat)) :=
  segmentIndex (seg_path (snd item)).

Lemma NoDup_append {X : Type} (l1 l2 : list X) :
  NoDup l1 -> NoDup l2 -> (forall x, In x l1 -> ~ In x l2) -> NoDup (l1 ++ l2).
Proof.
  intros H1 H2 H12. induction H1 as [|a l1 Ha H1 IH]; simpl; [exact H2|].
  constructor.
  - intro H. apply in_app_or in H. destruct H as [H|H]; [exact (Ha H)|].
    apply (H12 a); [left; reflexivity | exact H].
  - apply IH. intros x Hx. apply H12. right. exact Hx.
Qed.

Lemma chunkLoop_distinct (ci : nat) (clip : Clip Q) (asset : (Asset Q))
      (ki : nat) (prevTime startSpeed endSpeed stepDur : Q) (steps : Z) :
  forall n s a,
    NoDup (map itemIndex
               (fst (chunkLoop jobId ci clip asset ki prevTime startSpeed endSpeed
                               stepDur steps n s a))).
Proof.
  induction n as [|n IH]; intros s a; simpl; qplan; [constructor|].
  match goal with
  | |- context [Qle_bool ?m ?x] => destruct (Qle_bool m x); simpl
  end.
  - constructor; [intros [] | constructor].
  - match goal with
    | |- context [chunkLoop ?j ?c ?cl ?as_ ?k ?p ?ss ?es ?sd ?st ?n' ?s' ?a'] =>
        specialize (IH s' a');
        pose proof (@chunkLoop_shape j c cl as_ k p ss es sd st n' s' a') as Hs;
        destruct (chunkLoop j c cl as_ k p ss es sd st n' s' a') as [rest final]
    end.
    cbn [fst map] in IH, Hs |- *.
    constructor; [|exact IH].
    intro Hin. apply in_map_iff in Hin. destruct Hin as (item & Hi & Hin).
    rewrite Forall_forall in Hs. destruct (Hs item Hin) as (_ & _ & s' & Hle & Hidx).
    unfold itemIndex in Hi. cbn [snd seg_path segmentIndex] in Hi.
    rewrite Hidx in Hi. inversion Hi. lia.
Qed.

Lemma kfLoop_distinct (ci : nat) (clip : Clip Q) (asset : (Asset Q))
      (sortedKfs : list (SpeedKeyframe Q)) :
  forall n ki prevTime a,
    NoDup (map itemIndex (kfLoop jobId ci clip asset sortedKfs n ki prevTime a)).
Proof.
  induction n as [|n IH]; intros ki prevTime a; cbn [kfLoop]; qplan; [constructor|].
  match goal with
  | |- context [Qle_bool (?kt - prevTime) (1 # 1000)] =>
      destruct (Qle_bool (kt - prevTime) (1 # 1000))
  end; [apply IH|].
  match goal with
  | |- context [chunkLoop ?j ?c ?cl ?as_ ?k ?p ?ss ?es ?sd ?st ?n' ?s' ?a'] =>
      pose proof (@chunkLoop_distinct c cl as_ k p ss es sd st n' s' a') as Hd;
      pose proof (@chunkLoop_shape j c cl as_ k p ss es sd st n' s' a') as Hs;
      destruct (chunkLoop j c cl as_ k p ss es sd st n' s' a') as [chunks accum']
  end.
  cbn [fst] in Hd, Hs.
  destruct (Qle_bool (maxSourceDurOf asset) accum'); [exact Hd|].
  rewrite map_app. apply NoDup_append; [exact Hd | apply IH|].
  intros idx H1 H2.
  apply in_map_iff in H1. destruct H1 as (i1 & E1 & H1).
  apply in_map_iff in H2. destruct H2 as (i2 & E2 & H2).
  rewrite Forall_forall in Hs. destruct (Hs i1 H1) as (_ & _ & s1 & _ & Hidx1).
  match type of H2 with
  | In _ (kfLoop _ _ _ _ _ _ _ ?pt ?ac) =>
      pose proof (kfLoop_shape jobId ci clip asset sortedKfs n (S ki) pt ac) as Hl
  end.
  rewrite Forall_forall in Hl. destruct (Hl i2 H2) as (_ & k2 & s2 & Hk2 & Hidx2).
  unfold itemIndex in E1, E2. rewrite Hidx1 in E1. rewrite Hidx2 in E2.
  rewrite <- E2 in E1. inversion E1. lia.
Qed.

Lemma planClip_distinct (ci : nat) (clip : Clip Q) (asset : (Asset Q)) :
  NoDup (map itemIndex (planClip jobId ci clip asset)).
Proof.
  unfold planClip. destruct (List.length (speedKeyframes clip) <=? 1)%nat.
  - simpl. constructor; [intros [] | constructor].
  - apply kfLoop_distinct.
Qed.

Lemma NoDup_map_of {X Y : Type} (f : X -> Y) (l : list X) :
  NoDup (map f l) -> NoDup l.
Proof.
  induction l as [|x l IH]; simpl; intro H; [constructor|].
  inversion H as [|? ? Hx Hl]; subst. constructor; [|apply IH; exact Hl].
  intro Hin. apply Hx. apply in_map. exact Hin.
Qed.

(** The segments of the clips from index [k] on. *)
Lemma segments_distinct (table : list (Asset Q)) (l : list (Clip Q * TrackType)) :
  forall k,
    NoDup (map (fun sg => segmentIndex (seg_path sg))
               (flat_map (clipSegments jobId table) (indexFrom k l))) /\
    Forall (fun sg => exists i pos, (k <= i)%nat /\
                                    segmentIndex (seg_path sg) = Some (i, pos))
           (flat_map (clipSegments jobId table) (indexFrom k l)).
Proof.
  induction l as [|cl l IH]; intro k; simpl; [split; constructor|].
  destruct (IH (S k)) as [Hnd Hidx].
  assert (Hhere : NoDup (map (fun sg => segmentIndex (seg_path sg))
                             (clipSegments jobId table (k, cl))) /\
                  Forall (fun sg => exists pos,
                              segmentIndex (seg_path sg) = Some (k, pos))
                         (clipSegments jobId table (k, cl))).
  { unfold clipSegments. cbn [fst snd].
    destruct (findAsset (asset_id (fst cl)) table) as [asset|]; [|split; constructor].
    split.
    - rewrite map_map. apply (planClip_distinct k (fst cl) asset).
    - apply Forall_map.
      eapply Forall_impl; [|apply (planClip_shape jobId k (fst cl) asset)].
      cbv beta. intros item (_ & pos & Hp). exists pos. exact Hp. }
  destruct Hhere as [Hnd0 Hidx0]. split.
  - rewrite map_app. apply NoDup_append; [exact Hnd0 | exact Hnd|].
    intros idx H1 H2.
    apply in_map_iff in H1. destruct H1 as (s1 & E1 & H1).
    apply in_map_iff in H2. destruct H2 as (s2 & E2 & H2).
    rewrite Forall_forall in Hidx0, Hidx.
    destruct (Hidx0 s1 H1) as (p1 & Hp1).
    destruct (Hidx s2 H2) as (i2 & p2 & Hi2 & Hp2).
    rewrite Hp1 in E1. rewrite Hp2 in E2. rewrite <- E2 in E1.
    inversion E1. lia.
  - apply Forall_app. split.
    + eapply Forall_impl; [|exact Hidx0]. cbv beta. intros sg (pos & Hp).
      exists k, pos. split; [lia | exact Hp].
    + eapply Forall_impl; [|exact Hidx]. cbv beta. intros sg (i & pos & Hi & Hp).
      exists i, pos. split; [lia | exact Hp].
Qed.

End DistinctFiles.

(** X20: no two segments planned for an export are rendered to the same
    file: the paths listed for the concatenation are pairwise different,
    and every one of them lies in the scratch directory of the job. *)
Theorem plannedSegments_distinct_files (jobId : string) (table : list (Asset Q))
        (projectData : Project Q) :
  NoDup (map seg_path (plannedSegments jobId table projectData)) /\
  Forall (fun p => inTemp jobId p = true)
         (map seg_path (plannedSegments jobId table projectData)).
Proof.
  unfold plannedSegments, indexed. split.
  - destruct (segments_distinct jobId table (sortedVideoClips projectData) 0)
      as [Hnd _].
    rewrite <- map_map in Hnd. apply NoDup_map_of in Hnd. exact Hnd.
  - apply Forall_map. apply Forall_forall. intros sg Hin.
    apply in_flat_map in Hin. destruct Hin as ((i & cl) & _ & Hin).
    unfold clipSegments in Hin. cbn [fst snd] in Hin.
    destruct (findAsset (asset_id (fst cl)) table) as [asset|]; [|contradiction].
    apply in_map_iff in Hin. destruct Hin as (item & <- & Hin).
    pose proof (planClip_shape jobId i (fst cl) asset) as Hs.
    rewrite Forall_forall in Hs. destruct (Hs item Hin) as [[_ Ht] _]. exact Ht.
Qed.

(* ================================================================== *)
(** ** The arguments handed to the encoder for one segment *)

Section EncoderArguments.

Local Open Scope Q_scope.

(** The numeric arguments are in the range the encoder's filters accept: a
    positive [setpts] factor of at most 100, an [atempo] between 0.5 and
    100, a frame rate other than 0. *)
Definition encodable (inv : Invocation) : Prop :=
  match inv with
  | RenderSegment _ _ _ ptsFactor mode fps _ =>
      0 < ptsFactor /\ ptsFactor <= 100 /\ ~ fps == 0 /\
      match mode with
      | SourceAudio atempo => (1 # 2) <= atempo /\ atempo <= 100
      | SilentAudio _ => True
      end
  | LoopStill _ _ fps _ => ~ fps == 0
  | _ => True
  end.

Definition isStillPass (inv : Invocation) : bool :=
  match inv with
  | ExtractStill _ _ _ | LoopStill _ _ _ _ => true
  | _ => false
  end.

Definition isRenderSegment (inv : Invocation) : bool :=
  match inv with
  | RenderSegment _ _ _ _ _ _ _ => true
  | _ => false
  end.

Lemma jsMax_ge_l (a b : Q) : a <= jsMax a b.
Proof.
  unfold jsMax. qplan. destruct (Qle_bool a b) eqn:E; [|lra].
  apply Qle_bool_iff in E. exact E.
Qed.

Lemma atempo_range (s : Q) :
  (1 # 2) <= jsMax (1 # 2) (jsMin 100 s) /\ jsMax (1 # 2) (jsMin 100 s) <= 100.
Proof.
  split; [apply jsMax_ge_l|].
  unfold jsMax. qplan. destruct (Qle_bool (1 # 2) (jsMin 100 s)); [apply jsMin_le_l | lra].
Qed.

Lemma ptsFactor_range (s : Q) : (1 # 100) <= s -> 0 < 1 / s /\ 1 / s <= 100.
Proof.
  intro H. split.
  - apply Qlt_shift_div_l; lra.
  - apply Qle_shift_div_r; lra.
Qed.

Lemma fps_nonzero (f : Q) : ~ (if Qeq_bool f 0 then 30 else f) == 0.
Proof.
  destruct (Qeq_bool f 0) eqn:E; [discriminate|].
  apply Qeq_bool_neq. exact E.
Qed.

End EncoderArguments.

(** X21: rendering one segment makes one or two encoder invocations, all
    with arguments in range (a positive [setpts] factor of at most 100, an
    [atempo] in [[0.5, 100]], a frame rate other than 0).  A segment with an
    average speed below 0.01 is rendered from a still frame only, never by
    a speed change; any other segment by exactly one speed-changing
    render. *)
Theorem renderClipSegment_invocations
        (FFMPEG_PATH : string) (hasAudioStream : string -> bool)
        (encoder : nat -> Invocation -> ProcOutcome)
        (call : (RenderCall Q)) (w : World) :
  let w' := snd (renderClipSegment FFMPEG_PATH hasAudioStream encoder call w) in
  exists new,
    trace w' = (trace w ++ new)%list /\
    (1 <= List.length new <= 2)%nat /\
    Forall (fun entry => encodable (fst entry)) new /\
    (if Qltb (rc_avgSpeed call) (1 # 100)
     then forallb (fun entry => isStillPass (fst entry)) new = true
     else exists inv o, new = [(inv, o)] /\ isRenderSegment inv = true).
Proof.
  unfold renderClipSegment. cbv zeta.
  pose proof (fps_nonzero (rc_fps call)) as Hfps.
  destruct (Qltb (rc_avgSpeed call) (1 # 100)) eqn:Ehold.
  - unfold bind, runFfmpeg, unlinkSync. cbv zeta.
    destruct (procSucceeded (encoder (List.length (trace w)) _)); cbn [fst snd trace].
    + destruct (procSucceeded _); cbn [fst snd trace];
        (rewrite <- app_assoc; eexists; split; [reflexivity|];
         split; [simpl; lia|]; split; [|reflexivity];
         repeat constructor; exact Hfps).
    + eexists. split; [reflexivity|]. split; [simpl; lia|].
      split; [|reflexivity]. repeat constructor.
  - apply Qltb_false in Ehold.
    pose proof (ptsFactor_range Ehold) as [Hp1 Hp2].
    pose proof (atempo_range (rc_avgSpeed call)) as Hat.
    destruct (hasAudioStream (rc_assetPath call) && negb (rc_isMuted call));
      unfold runFfmpeg; cbv zeta;
      destruct (procSucceeded _); cbn [fst snd trace];
      (eexists; split; [reflexivity|]; split; [simpl; lia|]; split;
       [repeat constructor; simpl; tauto | eexists; eexists; split; reflexivity]).
Qed.

(* ================================================================== *)
(** ** The helpers of the export service *)

Section Helpers.

(** The characters of a string. *)
Fixpoint chars (s : string) : list ascii :=
  match s with
  | EmptyString => []
  | String c rest => c :: chars rest
  end.

Lemma keepChars_chars (keep : ascii -> bool) (s : string) :
  chars (keepChars keep s) = filter keep (chars s).
Proof.
  induction s as [|c rest IH]; simpl; [reflexivity|].
  destruct (keep c); simpl; rewrite IH; reflexivity.
Qed.

Lemma keepChars_fixed (keep : ascii -> bool) (s : string) :
  forallb keep (chars s) = true -> keepChars keep s = s.
Proof.
  induction s as [|c rest IH]; simpl; [reflexivity|].
  intro H. apply andb_true_iff in H. destruct H as [Hc Hr].
  rewrite Hc, (IH Hr). reflexivity.
Qed.

Lemma keepChars_kept (keep : ascii -> bool) (s : string) :
  forallb keep (chars (keepChars keep s)) = true.
Proof.
  rewrite keepChars_chars. apply forallb_forall.
  intros c Hc. apply filter_In in Hc. apply Hc.
Qed.

End Helpers.

(** X22: [sanitize] returns a number as it is; of a string it keeps, in
    order, exactly the characters of the class [[a-zA-Z0-9._-/: \]], so that
    its result holds only such characters; it changes nothing in a string
    that holds only such characters, and sanitizing twice is sanitizing
    once. *)
Theorem sanitize_keeps_allowed (val : JsValue) :
  sanitize (sanitize val) = sanitize val /\
  (forall n, val = JsNumber n -> sanitize val = val) /\
  (forall s, val = JsString s ->
     exists s', sanitize val = JsString s' /\
                chars s' = filter allowedChar (chars s) /\
                forallb allowedChar (chars s') = true /\
                (forallb allowedChar (chars s) = true -> s' = s)).
Proof.
  split; [|split].
  - destruct val as [n|s]; simpl; [reflexivity|].
    rewrite keepChars_fixed; [reflexivity | apply keepChars_kept].
  - intros n ->. reflexivity.
  - intros s ->. exists (keepChars allowedChar s).
    split; [reflexivity|]. split; [apply keepChars_chars|].
    split; [apply keepChars_kept | apply keepChars_fixed].
Qed.

(** X23: the colour handed to the text filter is never empty and never
    starts with [#]: a missing or empty colour becomes [white], and a
    leading [#] is replaced by [0x]. *)
Theorem ffmpegColor_no_hash (color : option string) :
  ffmpegColor color <> EmptyString /\
  (forall rest, ffmpegColor color <> String "#"%char rest) /\
  (forall rest, color = Some (String "#"%char rest) ->
                ffmpegColor color = "0x" ++ rest).
Proof.
  split; [|split].
  - destruct color as [[|c rest]|]; simpl; try discriminate.
    destruct (Ascii.eqb c "#"%char); discriminate.
  - intros rest' H. destruct color as [[|c rest]|]; simpl in H; try discriminate.
    destruct (Ascii.eqb c "#"%char) eqn:E; [discriminate|].
    inversion H; subst. rewrite Ascii.eqb_refl in E. discriminate.
  - intros rest ->. reflexivity.
Qed.

(* ================================================================== *)
(** ** The segment planner and the time engine *)

Section EngineSteps.

Local Open Scope Q_scope.

Lemma Qeq_bool_compat (x y : Q) : x == y -> Qeq_bool x 0 = Qeq_bool y 0.
Proof.
  intro H. destruct (Qeq_bool x 0) eqn:Ex, (Qeq_bool y 0) eqn:Ey; try reflexivity.
  - apply Qeq_bool_iff in Ex. apply Qeq_bool_neq in Ey. exfalso. apply Ey. lra.
  - apply Qeq_bool_neq in Ex. apply Qeq_bool_iff in Ey. exfalso. apply Ex. lra.
Qed.

Lemma Qle_bool_compat (x y z : Q) : x == y -> Qle_bool x z = Qle_bool y z.
Proof.
  intro H. destruct (Qle_bool x z) eqn:Ex, (Qle_bool y z) eqn:Ey; try reflexivity.
  - apply Qle_bool_iff in Ex. apply Qle_bool_false in Ey. lra.
  - apply Qle_bool_false in Ex. apply Qle_bool_iff in Ey. lra.
Qed.

(** The loop does not depend on how its numbers are written. *)
Lemma integrateFrom_compat (kf : list (SpeedKeyframe Q)) :
  forall t t' acc acc' pT pT' pS pS',
    t == t' -> acc == acc' -> pT == pT' -> pS == pS' ->
    integrateFrom t kf acc pT pS == integrateFrom t' kf acc' pT' pS'.
Proof.
  induction kf as [|k rest IH]; intros t t' acc acc' pT pT' pS pS' Ht Ha Hp Hs;
    simpl; qnum.
  - rewrite Ht, Ha, Hp, Hs. reflexivity.
  - rewrite (Qle_bool_compat (sk_time k) Ht).
    assert (HL : sk_time k - pT == sk_time k - pT') by (rewrite Hp; reflexivity).
    rewrite (Qeq_bool_compat HL).
    destruct (Qle_bool t' (sk_time k)).
    + destruct (Qeq_bool (sk_time k - pT') 0) eqn:EL.
      * rewrite Ht, Ha, Hp, Hs. reflexivity.
      * apply Qeq_bool_neq in EL.
        rewrite !partial_trapezoid by (try exact EL; rewrite HL; exact EL).
        rewrite Ht, Ha, Hp, Hs. reflexivity.
    + apply IH; try assumption; try reflexivity.
      rewrite Ha, Hp, Hs. reflexivity.
Qed.

(** At the time the loop is entered nothing has been added yet. *)
Lemma integrateFrom_at_start (kf : list (SpeedKeyframe Q)) (t acc pT pS : Q) :
  t == pT -> match kf with [] => True | k :: _ => pT <= sk_time k end ->
  integrateFrom t kf acc pT pS == acc.
Proof.
  intros Ht Hk. destruct kf as [|k rest]; simpl; qnum.
  - rewrite Ht. ring.
  - destruct (Qle_bool t (sk_time k)) eqn:E; [|apply Qle_bool_false in E; lra].
    qcase EL.
    + rewrite Ht. ring.
    + rewrite partial_trapezoid by exact EL. rewrite Ht. field. exact EL.
Qed.

(** From the time of the keyframe [k] on, the loop has taken the whole
    trapezoid up to [k]. *)
Lemma integrateFrom_step (k : SpeedKeyframe Q) (rest : list (SpeedKeyframe Q))
      (t acc pT pS : Q) :
  pT <= sk_time k -> sk_time k <= t ->
  match rest with [] => True | k' :: _ => sk_time k <= sk_time k' end ->
  integrateFrom t (k :: rest) acc pT pS ==
  integrateFrom t rest (acc + (sk_time k - pT) * (pS + sk_speed k) / 2)
                (sk_time k) (sk_speed k).
Proof.
  intros Hp Ht Hr. simpl. qnum.
  destruct (Qle_bool t (sk_time k)) eqn:E; [|reflexivity].
  apply Qle_bool_iff in E.
  assert (Et : t == sk_time k) by lra.
  rewrite integrateFrom_at_start by assumption.
  qcase EL.
  - rewrite Et, EL. field.
  - rewrite partial_trapezoid by exact EL. rewrite Et. field. exact EL.
Qed.

End EngineSteps.

Section PlannerSync.

Local Open Scope Q_scope.

Variable jobId : string.
Variable ci : nat.
Variable clip : Clip Q.
Variable asset : (Asset Q).

(** The source consumed by the first [s] sub-chunks of a keyframe span
    that is cut into [steps] sub-chunks of length [stepDur], the speed going
    from [pS] to [kS] over the span. *)
Definition consumed (pS kS stepDur : Q) (steps : Z) (s : nat) : Q :=
  stepDur * (inject_Z (Z.of_nat s) * pS
             + (kS - pS) * (inject_Z (Z.of_nat s) * inject_Z (Z.of_nat s))
               / (2 * inject_Z steps)).

Lemma consumed_succ (pS kS stepDur : Q) (steps : Z) (s : nat) :
  (0 < steps)%Z ->
  consumed pS kS stepDur steps s
  + stepDur * ((pS + (kS - pS) * (inject_Z (Z.of_nat s) / inject_Z steps)
                + (pS + (kS - pS) * (inject_Z (Z.of_nat s + 1) / inject_Z steps))) / 2)
  == consumed pS kS stepDur steps (S s).
Proof.
  intro Hst. unfold consumed.
  assert (Hs : ~ inject_Z steps == 0).
  { intro E. assert (0 < inject_Z steps)
      by (change 0 with (inject_Z 0); rewrite <- Zlt_Qlt; exact Hst). lra. }
  rewrite Nat2Z.inj_succ. unfold Z.succ. rewrite !inject_Z_plus.
  change (inject_Z 1) with 1. field. exact Hs.
Qed.

Lemma chunkLoop_sync (ki : nat) (prevTime pS kS stepDur : Q) (steps : Z) (a0 : Q) :
  (0 < steps)%Z ->
  forall n s a,
    (Z.of_nat s + Z.of_nat n <= steps)%Z ->
    a == a0 + consumed pS kS stepDur steps s ->
    Forall (fun item =>
              exists s', (Z.of_nat s' < steps)%Z /\
                seg_start (snd item)
                = start_time clip + prevTime + inject_Z (Z.of_nat s') * stepDur /\
                rc_sourceStart (fst item) == a0 + consumed pS kS stepDur steps s')
           (fst (chunkLoop jobId ci clip asset ki prevTime pS kS stepDur steps n s a))
    /\ (Qle_bool (maxSourceDurOf asset)
                 (snd (chunkLoop jobId ci clip asset ki prevTime pS kS stepDur
                                 steps n s a)) = true
        \/ snd (chunkLoop jobId ci clip asset ki prevTime pS kS stepDur steps n s a)
           == a0 + consumed pS kS stepDur steps (s + n)).
Proof.
  intro Hst. induction n as [|n IH]; intros s a Hle Ha.
  - simpl. split; [constructor|]. right. rewrite Nat.add_0_r. exact Ha.
  - simpl. qplan.
    assert (Hitem : exists s', (Z.of_nat s' < steps)%Z /\
              start_time clip + prevTime + inject_Z (Z.of_nat s) * stepDur
              = start_time clip + prevTime + inject_Z (Z.of_nat s') * stepDur /\
              a == a0 + consumed pS kS stepDur steps s').
    { exists s. split; [lia|]. split; [reflexivity | exact Ha]. }
    match goal with
    | |- context [Qle_bool ?m ?x] => destruct (Qle_bool m x) eqn:E
    end.
    + cbn [fst snd]. split; [constructor; [exact Hitem | constructor]|].
      left. exact E.
    + match goal with
      | |- context [chunkLoop ?j ?c ?cl ?as_ ?k ?p ?ss ?es ?sd ?st ?n' ?s' ?a'] =>
          specialize (IH s' a' ltac:(lia));
          destruct (chunkLoop j c cl as_ k p ss es sd st n' s' a') as [rest final]
      end.
      cbn [fst snd] in IH |- *.
      destruct IH as [Hall Hfin].
      { rewrite Ha. rewrite <- (consumed_succ pS kS stepDur s Hst). ring. }
      split; [constructor; [exact Hitem | exact Hall]|].
      rewrite <- Nat.add_succ_comm. exact Hfin.
Qed.

Lemma consumed_0 (pS kS stepDur : Q) (steps : Z) :
  (0 < steps)%Z -> consumed pS kS stepDur steps 0 == 0.
Proof.
  intro Hst. unfold consumed. simpl. change (inject_Z 0) with 0.
  field. intro E.
  assert (0 < inject_Z steps)
    by (change 0 with (inject_Z 0); rewrite <- Zlt_Qlt; exact Hst).
  lra.
Qed.

(** The source consumed up to a sub-chunk boundary is the partial trapezoid
    of the time engine. *)
Lemma consumed_trapezoid (pS kS stepDur : Q) (steps : Z) (s : nat) (u L : Q) :
  (0 < steps)%Z -> 0 < stepDur ->
  u == inject_Z (Z.of_nat s) * stepDur -> L == inject_Z steps * stepDur ->
  consumed pS kS stepDur steps s == u * pS + (kS - pS) * (u * u) / (2 * L).
Proof.
  intros Hst Hd Hu HL. rewrite Hu, HL. unfold consumed.
  assert (0 < inject_Z steps)
    by (change 0 with (inject_Z 0); rewrite <- Zlt_Qlt; exact Hst).
  field. split; lra.
Qed.

Lemma consumed_full (pS kS stepDur : Q) (steps : Z) :
  (0 < steps)%Z ->
  consumed pS kS stepDur steps (Z.to_nat steps)
  == inject_Z steps * stepDur * (pS + kS) / 2.
Proof.
  intro Hst. unfold consumed. rewrite Z2Nat.id by lia.
  assert (0 < inject_Z steps)
    by (change 0 with (inject_Z 0); rewrite <- Zlt_Qlt; exact Hst).
  field. lra.
Qed.

(** Inside a keyframe span the loop of the time engine stops in the round
    of the span's end. *)
Lemma integrateFrom_inside (k : SpeedKeyframe Q) (rest : list (SpeedKeyframe Q))
      (t acc pT pS : Q) :
  t <= sk_time k -> ~ sk_time k - pT == 0 ->
  integrateFrom t (k :: rest) acc pT pS ==
  acc + ((t - pT) * pS
         + (sk_speed k - pS) * ((t - pT) * (t - pT)) / (2 * (sk_time k - pT))).
Proof.
  intros Ht HL. simpl. qnum.
  destruct (Qle_bool t (sk_time k)) eqn:E; [|apply Qle_bool_false in E; lra].
  destruct (Qeq_bool (sk_time k - pT) 0) eqn:EL;
    [apply Qeq_bool_iff in EL; contradiction|].
  rewrite partial_trapezoid by exact HL. reflexivity.
Qed.

(** Each keyframe time of [kf] equals the one before it ([p] for the first)
    or is later by more than 0.001, and none is later than the clip's
    duration: the planner then skips only empty spans. *)
Fixpoint spaced (p : Q) (kf : list (SpeedKeyframe Q)) : Prop :=
  match kf with
  | [] => True
  | k :: rest =>
      (sk_time k == p \/ p + (1 # 1000) < sk_time k) /\
      sk_time k <= duration clip /\ spaced (sk_time k) rest
  end.

Lemma spaced_compat (p p' : Q) (kf : list (SpeedKeyframe Q)) :
  p == p' -> spaced p kf -> spaced p' kf.
Proof.
  intros Hp. destruct kf as [|k rest]; simpl; [auto|].
  intros ([H|H] & Hd & Hs); (split; [|split; assumption]).
  - left. lra.
  - right. lra.
Qed.

Lemma spaced_head (p : Q) (kf : list (SpeedKeyframe Q)) :
  spaced p kf -> match kf with [] => True | k :: _ => p <= sk_time k end.
Proof.
  destruct kf as [|k rest]; simpl; [auto|]. intros ([H|H] & _); lra.
Qed.

(** [startSpeed] of the round [ki]. *)
Definition startSpeedAt (sortedKfs : list (SpeedKeyframe Q)) (ki : nat) : Q :=
  match ki with
  | O => speedAtIndex sortedKfs 0
  | S ki' => speedAtIndex sortedKfs ki'
  end.

Lemma nth_error_skipn_hd {X : Type} (l : list X) (i : nat) :
  nth_error l i = hd_error (skipn i l).
Proof.
  revert l. induction i as [|i IH]; intros [|x l]; simpl; try reflexivity.
  apply IH.
Qed.

Lemma skipn_S_tl {X : Type} (l : list X) (i : nat) :
  skipn (S i) l = tl (skipn i l).
Proof.
  revert l. induction i as [|i IH]; intros [|x l]; try reflexivity.
  change (skipn (S (S i)) (x :: l)) with (skipn (S i) l).
  change (skipn (S i) (x :: l)) with (skipn i l). apply IH.
Qed.

Lemma last_of_skipn {X : Type} (l : list X) (i : nat) (k d : X) :
  skipn i l = [k] -> last l d = k.
Proof.
  intro H. rewrite <- (firstn_skipn i l), H. apply last_last.
Qed.

Lemma speedAtIndex_at (sortedKfs : list (SpeedKeyframe Q)) (ki : nat)
      (k : SpeedKeyframe Q) (rest : list (SpeedKeyframe Q)) :
  skipn ki sortedKfs = k :: rest -> speedAtIndex sortedKfs ki = sk_speed k.
Proof.
  intro H. unfold speedAtIndex. rewrite nth_error_skipn_hd, H. reflexivity.
Qed.

Lemma speedAtIndex_past (sortedKfs : list (SpeedKeyframe Q)) (ki : nat) :
  skipn ki sortedKfs = [] -> speedAtIndex sortedKfs ki = lastDefinedSpeed sortedKfs.
Proof.
  intro H. unfold speedAtIndex. rewrite nth_error_skipn_hd, H. reflexivity.
Qed.

Lemma lastDefinedSpeed_at (sortedKfs : list (SpeedKeyframe Q)) (ki : nat)
      (k : SpeedKeyframe Q) :
  skipn ki sortedKfs = [k] -> lastDefinedSpeed sortedKfs = sk_speed k.
Proof.
  intro H. unfold lastDefinedSpeed. destruct sortedKfs as [|k0 l].
  - destruct ki; discriminate H.
  - rewrite (last_of_skipn _ ki k0 H). reflexivity.
Qed.

(** The planned item starts in the source where the loop of the time
    engine, entered with [acc] at [pT] and speed [pS], is at the item's
    clip-local start. *)
Definition inSync (rest : list (SpeedKeyframe Q)) (acc pT pS : Q)
           (item : (RenderCall Q) * (SegmentFile Q)) : Prop :=
  pT <= seg_start (snd item) - start_time clip /\
  rc_sourceStart (fst item) ==
  in_point clip
  + integrateFrom (seg_start (snd item) - start_time clip) rest acc pT pS.

Lemma kfLoop_sync (sortedKfs : list (SpeedKeyframe Q)) :
  forall n ki rest prevTime a acc pS,
    skipn ki sortedKfs = rest ->
    spaced prevTime rest -> prevTime <= duration clip ->
    a == in_point clip + acc ->
    pS = startSpeedAt sortedKfs ki ->
    (rest = [] -> speedAtIndex sortedKfs ki = pS) ->
    Forall (inSync rest acc prevTime pS)
           (kfLoop jobId ci clip asset sortedKfs n ki prevTime a).
Proof.
  induction n as [|n IH]; intros ki rest prevTime a acc pS Hskip Hsp Hpd Ha HpS Hend;
    [constructor|].
  cbn [kfLoop]. qplan.
  change (match ki with
          | O => speedAtIndex sortedKfs 0
          | S ki' => speedAtIndex sortedKfs ki'
          end) with (startSpeedAt sortedKfs ki).
  rewrite <- HpS.
  pose proof (nth_error_skipn_hd sortedKfs ki) as Hnth. rewrite Hskip in Hnth.
  pose proof (skipn_S_tl sortedKfs ki) as Hskip'. rewrite Hskip in Hskip'.
  rewrite Hnth.
  destruct rest as [|k rest']; cbn [hd_error tl] in *.
  - (* past the last keyframe: the speed stays [pS] up to the clip's end *)
    rewrite (Hend eq_refl).
    assert (Hk : (if Qltb (duration clip) (duration clip)
                  then duration clip else duration clip) = duration clip)
      by (destruct (Qltb (duration clip) (duration clip)); reflexivity).
    rewrite Hk.
    assert (Hnext : speedAtIndex sortedKfs (S ki) = pS).
    { rewrite (speedAtIndex_past _ _ Hskip').
      rewrite <- (speedAtIndex_past _ _ Hskip). apply Hend. reflexivity. }
    destruct (Qle_bool (duration clip - prevTime) (1 # 1000)) eqn:Eseg.
    + apply IH; try assumption.
      * simpl. symmetry. apply Hend. reflexivity.
      * intros _. exact Hnext.
    + apply Qle_bool_false in Eseg.
      pose proof (steps_positive Eseg) as Hsteps.
      set (steps := Qceiling ((duration clip - prevTime) / (1 # 2))) in *.
      assert (Hst : 0 < inject_Z steps)
        by (change 0 with (inject_Z 0); rewrite <- Zlt_Qlt; exact Hsteps).
      set (stepDur := (duration clip - prevTime) / inject_Z steps).
      assert (Hdur : 0 < stepDur) by (apply Qlt_shift_div_l; lra).
      assert (Hfull : inject_Z steps * stepDur == duration clip - prevTime)
        by (unfold stepDur; field; lra).
      destruct (@chunkLoop_sync ki prevTime pS pS stepDur steps a Hsteps
                  (Z.to_nat steps) 0%nat a) as [Hall Hfin].
      { rewrite Z2Nat.id by lia. simpl. lia. }
      { rewrite consumed_0 by exact Hsteps. ring. }
      destruct (chunkLoop jobId ci clip asset ki prevTime pS pS stepDur steps
                          (Z.to_nat steps) 0 a) as [chunks accum'].
      cbn [fst snd] in Hall, Hfin.
      assert (Hchunks : Forall (inSync [] acc prevTime pS) chunks).
      { eapply Forall_impl; [|exact Hall]. cbv beta.
        intros item (s' & Hs' & Hstart & Hsrc). unfold inSync. rewrite Hstart.
        assert (Hpos : 0 <= inject_Z (Z.of_nat s') * stepDur).
        { apply Qmult_le_0_compat; [|lra].
          change 0 with (inject_Z 0). rewrite <- Zle_Qle. lia. }
        split; [lra|].
        rewrite Hsrc, Ha. simpl. qnum. unfold consumed. field. lra. }
      destruct (Qle_bool (maxSourceDurOf asset) accum') eqn:Emax; [exact Hchunks|].
      destruct Hfin as [Hfin|Hfin]; [congruence|].
      apply Forall_app. split; [exact Hchunks|].
      eapply Forall_impl;
        [|apply (IH (S ki) [] (duration clip) accum'
                    (acc + (duration clip - prevTime) * (pS + pS) / 2) pS)].
      * cbv beta. intros item [H1 H2]. unfold inSync. split; [lra|].
        rewrite H2. simpl. qnum. field.
      * exact Hskip'.
      * exact I.
      * lra.
      * rewrite Hfin, Ha. simpl. rewrite consumed_full by exact Hsteps.
        rewrite Hfull. field.
      * simpl. symmetry. apply Hend. reflexivity.
      * intros _. exact Hnext.
  - (* the span that ends at the keyframe [k] *)
    destruct Hsp as (Hgap & Hkd & Hsp').
    pose proof (spaced_head _ _ Hsp') as Hhead.
    rewrite (speedAtIndex_at _ _ Hskip).
    assert (Hk : (if Qltb (duration clip) (sk_time k)
                  then duration clip else sk_time k) = sk_time k).
    { destruct (Qltb (duration clip) (sk_time k)) eqn:E; [|reflexivity].
      apply Qltb_true in E. lra. }
    rewrite Hk.
    assert (Hnext : rest' = [] -> speedAtIndex sortedKfs (S ki) = sk_speed k).
    { intro Hr. rewrite Hr in Hskip, Hskip'.
      rewrite (speedAtIndex_past _ _ Hskip').
      apply (lastDefinedSpeed_at _ _ Hskip). }
    assert (HpS' : sk_speed k = startSpeedAt sortedKfs (S ki)).
    { simpl. symmetry. apply (speedAtIndex_at _ _ Hskip). }
    destruct (Qle_bool (sk_time k - prevTime) (1 # 1000)) eqn:Eseg.
    + apply Qle_bool_iff in Eseg.
      assert (Hsame : sk_time k == prevTime) by (destruct Hgap; lra).
      eapply Forall_impl;
        [|apply (IH (S ki) rest' prevTime a acc (sk_speed k))]; try assumption.
      * cbv beta. intros item [H1 H2]. unfold inSync. split; [exact H1|].
        rewrite H2. apply Qplus_comp; [reflexivity|].
        rewrite integrateFrom_step; [|lra|lra|exact Hhead].
        apply integrateFrom_compat; try reflexivity; [|symmetry; exact Hsame].
        rewrite Hsame. field.
      * apply (spaced_compat _ Hsame). exact Hsp'.
    + apply Qle_bool_false in Eseg.
      pose proof (steps_positive Eseg) as Hsteps.
      set (steps := Qceiling ((sk_time k - prevTime) / (1 # 2))) in *.
      assert (Hst : 0 < inject_Z steps)
        by (change 0 with (inject_Z 0); rewrite <- Zlt_Qlt; exact Hsteps).
      set (stepDur := (sk_time k - prevTime) / inject_Z steps).
      assert (Hdur : 0 < stepDur) by (apply Qlt_shift_div_l; lra).
      assert (Hfull : inject_Z steps * stepDur == sk_time k - prevTime)
        by (unfold stepDur; field; lra).
      destruct (@chunkLoop_sync ki prevTime pS (sk_speed k) stepDur steps a Hsteps
                  (Z.to_nat steps) 0%nat a) as [Hall Hfin].
      { rewrite Z2Nat.id by lia. simpl. lia. }
      { rewrite consumed_0 by exact Hsteps. ring. }
      destruct (chunkLoop jobId ci clip asset ki prevTime pS (sk_speed k) stepDur
                          steps (Z.to_nat steps) 0 a) as [chunks accum'].
      cbn [fst snd] in Hall, Hfin.
      assert (Hchunks : Forall (inSync (k :: rest') acc prevTime pS) chunks).
      { eapply Forall_impl; [|exact Hall]. cbv beta.
        intros item (s' & Hs' & Hstart & Hsrc). unfold inSync. rewrite Hstart.
        assert (Hpos : 0 <= inject_Z (Z.of_nat s') * stepDur).
        { apply Qmult_le_0_compat; [|lra].
          change 0 with (inject_Z 0). rewrite <- Zle_Qle. lia. }
        assert (Hup : inject_Z (Z.of_nat s') * stepDur <= inject_Z steps * stepDur).
        { apply zmul_mono; [lia | lra]. }
        split; [lra|].
        rewrite integrateFrom_inside by lra.
        rewrite Hsrc, Ha.
        rewrite (@consumed_trapezoid pS (sk_speed k) stepDur steps s'
                   (start_time clip + prevTime + inject_Z (Z.of_nat s') * stepDur
                    - start_time clip - prevTime)
                   (sk_time k - prevTime) Hsteps Hdur);
          [ring | ring | rewrite Hfull; reflexivity]. }
      destruct (Qle_bool (maxSourceDurOf asset) accum') eqn:Emax; [exact Hchunks|].
      destruct Hfin as [Hfin|Hfin]; [congruence|].
      apply Forall_app. split; [exact Hchunks|].
      eapply Forall_impl;
        [|apply (IH (S ki) rest' (sk_time k) accum'
                    (acc + (sk_time k - prevTime) * (pS + sk_speed k) / 2)
                    (sk_speed k))]; try assumption.
      * cbv beta. intros item [H1 H2]. unfold inSync. split; [lra|].
        rewrite H2. apply Qplus_comp; [reflexivity|].
        symmetry. apply integrateFrom_step; [lra | exact H1 | exact Hhead].
      * rewrite Hfin, Ha. simpl. rewrite consumed_full by exact Hsteps.
        rewrite Hfull. field.
Qed.

End PlannerSync.

Lemma mapClipSourceTime_single_zero (k : SpeedKeyframe Q) (t : Q) :
  (t == 0)%Q -> (mapClipSourceTime t [k] == 0)%Q.
Proof.
  intro Ht. unfold mapClipSourceTime. simpl. qnum.
  destruct (Qle_bool t (sk_time k)).
  - qcase EL.
    + rewrite Ht. ring.
    + rewrite partial_trapezoid by exact EL. rewrite Ht. field.
      intro Z. apply EL. lra.
  - rewrite Ht. field.
Qed.

(** X24: in exact arithmetic, the export starts every planned segment of a
    clip in the source exactly where the time engine puts the source at the
    segment's start on the timeline: [sourceStart = in_point +
    mapClipSourceTime(start - clip.start_time)].  (In binary64 the two are
    rounded sums taken in different orders and can differ in the last
    places, see [binary64_planner_boundary].)  For two or more speed
    keyframes this needs the keyframes to lie within the clip and to be
    spaced so that the planner skips only empty spans: each keyframe time, in time order, equals the
    one before it (0 for the first) or exceeds it by more than 0.001, and
    none exceeds the clip's duration. *)
Theorem planClip_sources_follow_time_engine
        (jobId : string) (ci : nat) (clip : Clip Q) (asset : (Asset Q)) :
  spaced clip 0 (sortBy bySpeedKfTime (speedKeyframes clip)) ->
  Forall (fun item =>
            (rc_sourceStart (fst item) ==
             in_point clip
             + mapClipSourceTime (seg_start (snd item) - start_time clip)
                                 (speedKeyframes clip))%Q)
         (planClip jobId ci clip asset).
Proof.
  intro Hsp. unfold planClip.
  destruct (List.length (speedKeyframes clip) <=? 1)%nat eqn:Elen.
  - unfold planSingle. qplan. cbv zeta. constructor; [|constructor].
    cbn [fst snd rc_sourceStart seg_start].
    assert (Ht : (start_time clip - start_time clip == 0)%Q) by ring.
    apply Nat.leb_le in Elen.
    destruct (speedKeyframes clip) as [|k [|k2 l]].
    + unfold mapClipSourceTime. simpl. ring.
    + rewrite (mapClipSourceTime_single_zero k Ht). ring.
    + simpl in Elen. lia.
  - unfold planSubdivided. cbv zeta.
    pose proof (sortBy_perm bySpeedKfTime (speedKeyframes clip)) as HP.
    unfold mapClipSourceTime.
    destruct (sortBy bySpeedKfTime (speedKeyframes clip)) as [|k0 sorted'] eqn:Es.
    + apply Permutation_nil in HP. rewrite HP in Elen. discriminate.
    + assert (Hd : (0 <= duration clip)%Q).
      { destruct Hsp as ([H|H] & Hk & _); lra. }
      eapply Forall_impl;
        [|apply (@kfLoop_sync jobId ci clip asset (k0 :: sorted')
                   (S (List.length (k0 :: sorted'))) 0%nat (k0 :: sorted') 0
                   (in_point clip) 0 (sk_speed k0))].
      * cbv beta. intros item [_ H]. exact H.
      * reflexivity.
      * exact Hsp.
      * exact Hd.
      * ring.
      * reflexivity.
      * discriminate.
Qed.

Lemma planClip_sources_follow_time_engine_witness :
  Forall (fun item =>
            (rc_sourceStart (fst item) ==
             in_point scenarioClip
             + mapClipSourceTime (seg_start (snd item) - start_time scenarioClip)
                                 (speedKeyframes scenarioClip))%Q)
         (planClip "job-1" 0 scenarioClip sampleAsset).
Proof.
  apply planClip_sources_follow_time_engine.
  simpl. repeat split; try lra; first [left; reflexivity | right; lra].
Defined.

(** The hypothesis on the keyframe times is needed.  With a keyframe past
    the end of the clip, the planner ramps to that keyframe's speed at the
    clip's end instead of the speed the time engine interpolates there:
    on a clip of 5 s with the keyframes [{0, 1}, {10, 3}], the second
    sub-chunk starts in the source at 0.55, where the time engine is at
    0.525. *)
Remark planner_ramp_to_keyframe_past_clip_end :
  let clip := {| clip_id := "c"; asset_id := Some "asset1"; start_time := 0;
                 duration := 5; in_point := 0; out_point := 5;
                 speedKeyframes := [kfQ 0 1; kfQ 10 3];
                 overlayKeyframes := []; properties := [] |} in
  exists item,
    nth_error (planClip "job-1" 0 clip sampleAsset) 1 = Some item /\
    (seg_start (snd item) == 1 # 2)%Q /\
    (rc_sourceStart (fst item) == 11 # 20)%Q /\
    (mapClipSourceTime (1 # 2) (speedKeyframes clip) == 21 # 40)%Q.
Proof.
  cbv zeta. eexists. split; [vm_compute; reflexivity|].
  split; [vm_compute; reflexivity|]. split; vm_compute; reflexivity.
Qed.

(* ================================================================== *)
(** * The editor store *)

Section StoreKeyframes.

Local Open Scope Q_scope.

(** The keyframes of the clip are in time order. *)
Definition keyframesSorted (c : Clip Q) : Prop :=
  sortedBy (@sk_time Q) (speedKeyframes c) /\
  sortedBy (@ok_time Q) (overlayKeyframes c).

(** Every clip of the store's project has its keyframes in time order. *)
Definition storeSorted (st : (Store Q)) : Prop :=
  match currentProject st with
  | None => True
  | Some project =>
      Forall (fun track => Forall keyframesSorted (et_clips track))
             (ep_tracks project)
  end.

Lemma pairwise_sortedBy {X : Type} (key : X -> Q) (l : list X) :
  nondecreasing key l -> sortedBy key l.
Proof.
  induction l as [|x l IH]; simpl; [auto|].
  intros [Hx Hl]. split; [|apply IH; exact Hl].
  destruct l as [|y l]; [exact I|]. inversion Hx; assumption.
Qed.

Lemma pairwise_removeAt {X : Type} (R : X -> X -> Prop) (l : list X) :
  forall i, pairwise R l -> pairwise R (removeAt i l).
Proof.
  unfold removeAt. induction l as [|x l IH]; intros i H.
  - destruct i; exact I.
  - destruct H as [Hx Hl]. destruct i as [|i].
    + exact Hl.
    + change (pairwise R (x :: (firstn i l ++ skipn (S i) l))%list).
      split; [|apply IH; exact Hl].
      rewrite Forall_forall in *. intros y Hy. apply Hx.
      apply in_app_or in Hy. destruct Hy as [Hy|Hy].
      * rewrite <- (firstn_skipn i l). apply in_or_app. left. exact Hy.
      * rewrite <- (firstn_skipn (S i) l). apply in_or_app. right. exact Hy.
Qed.

Lemma sortedBy_removeAt {X : Type} (key : X -> Q) (l : list X) (i : nat) :
  sortedBy key l -> sortedBy key (removeAt i l).
Proof.
  intro H. apply pairwise_sortedBy. apply pairwise_removeAt.
  apply sortedBy_pairwise. exact H.
Qed.

Lemma updateAt_Forall {X : Type} (P : X -> Prop) (f : X -> X) (l : list X) (i : nat) :
  (forall x, P x -> P (f x)) -> Forall P l -> Forall P (updateAt i f l).
Proof.
  intros Hf Hl. unfold updateAt, splice1.
  destruct (nth_error l i) as [x|] eqn:E; [|exact Hl].
  rewrite Forall_forall in *. intros y Hy.
  apply in_app_or in Hy. destruct Hy as [Hy|Hy].
  - apply Hl. rewrite <- (firstn_skipn i l). apply in_or_app. left. exact Hy.
  - apply in_app_or in Hy. destruct Hy as [[<-|[]]|Hy].
    + apply Hf, Hl. eapply nth_error_In. exact E.
    + apply Hl. rewrite <- (firstn_skipn (S i) l). apply in_or_app. right. exact Hy.
Qed.

Lemma onClip_sorted (clipId : string) (f : Clip Q -> Clip Q) (st : (Store Q)) :
  (forall c, keyframesSorted c -> keyframesSorted (f c)) ->
  storeSorted st -> storeSorted (onClip clipId f st).
Proof.
  intros Hf. unfold storeSorted, onClip.
  destruct (currentProject st) as [project|] eqn:E; [|rewrite E; auto].
  intro H. simpl. apply Forall_map.
  eapply Forall_impl; [|exact H]. cbv beta. intros track Ht.
  destruct (findIndex (hasId clipId) (et_clips track)); [|exact Ht].
  simpl. apply updateAt_Forall; assumption.
Qed.

End StoreKeyframes.

(** X25: the store keeps the keyframes of every clip in time order: when
    they are in time order before [addKeyframe] or [removeKeyframe], they
    are afterwards, for speed and for overlay keyframes. *)
Theorem store_keeps_keyframes_in_time_order
        (st : (Store Q)) (clipId : string)
        (kf : SpeedKeyframe Q + OverlayKeyframe Q) (isSpeed : bool) (index : nat) :
  storeSorted st ->
  storeSorted (addKeyframe clipId kf st) /\
  storeSorted (removeKeyframe clipId isSpeed index st).
Proof.
  intro H. split.
  - destruct kf as [k|k]; simpl; apply onClip_sorted; try exact H;
      intros c [Hs Ho]; split; simpl; try assumption.
    + apply sorted_speed_keyframes.
    + apply sorted_overlay_keyframes.
  - unfold removeKeyframe. destruct isSpeed; apply onClip_sorted; try exact H;
      intros c [Hs Ho]; split; simpl; try assumption;
      apply sortedBy_removeAt; assumption.
Qed.

Definition demoStore : (Store Q) :=
  {| currentProject :=
       Some {| ep_tracks :=
                 [ {| et_id := "t1"; et_type := VIDEO_A;
                      et_clips := [plainClip "c1" (Some "asset1") 0 4 0 [kfQ 0 1; kfQ 2 3]] |} ] |};
     selectedClipId := None; currentTime := 1; zoom := 100 |}.

Lemma store_keeps_keyframes_in_time_order_witness :
  storeSorted (addKeyframe "c1" (inl (kfQ 1 2)) demoStore) /\
  storeSorted (removeKeyframe "c1" true 0 demoStore).
Proof.
  apply store_keeps_keyframes_in_time_order.
  simpl. repeat constructor; simpl; lra.
Defined.

Section Snapping.

Local Open Scope Q_scope.



End Snapping.


(* ================================================================== *)
(** ** Splitting a clip at the playhead *)

Section Split.

Local Open Scope Q_scope.

(** Two video entries that show the same frame of the same asset. *)
Definition sameFrame (e e' : VideoEntry Q) : Prop :=
  ve_assetId e = ve_assetId e' /\ ve_sourceTime e == ve_sourceTime e' /\
  ve_properties e = ve_properties e'.

Definition sameSlot (a b : option (VideoEntry Q)) : Prop :=
  match a, b with
  | Some e, Some e' => sameFrame e e'
  | None, None => True
  | _, _ => False
  end.

Lemma sameSlot_refl (a : option (VideoEntry Q)) : sameSlot a a.
Proof. destruct a; simpl; [|exact I]. repeat split; reflexivity. Qed.

Lemma sameSlot_orElse (a a' b b' : option (VideoEntry Q)) :
  sameSlot a a' -> sameSlot b b' -> sameSlot (orElse a b) (orElse a' b').
Proof.
  destruct a, a'; simpl; try contradiction; auto.
Qed.

(** The clip that [splitAtPlayhead] splits, if any. *)
Fixpoint splitTarget (t : Q) (tracks : list (EditorTrack Q)) : option (Clip Q) :=
  match tracks with
  | [] => None
  | track :: rest =>
      match findIndex (strictlyInside t) (et_clips track) with
      | Some clipIdx => nth_error (et_clips track) clipIdx
      | None => splitTarget t rest
      end
  end.

Lemma findIndex_nth {X : Type} (f : X -> bool) (l : list X) (i : nat) :
  findIndex f l = Some i -> exists x, nth_error l i = Some x /\ f x = true.
Proof.
  revert i. induction l as [|y l IH]; intros i; simpl; [discriminate|].
  destruct (f y) eqn:E.
  - intro H. injection H as <-. exists y. split; [reflexivity | exact E].
  - destruct (findIndex f l) as [j|]; [|discriminate].
    intro H. injection H as <-. apply IH. reflexivity.
Qed.

Lemma nth_error_decompose {X : Type} (l : list X) (i : nat) (x : X) :
  nth_error l i = Some x -> l = (firstn i l ++ x :: skipn (S i) l)%list.
Proof.
  revert i. induction l as [|y l IH]; intros [|i]; simpl; try discriminate.
  - intro H. injection H as <-. reflexivity.
  - intro H. f_equal. apply IH. exact H.
Qed.

Lemma clipActive_false (t : Q) (c : Clip Q) :
  t < start_time c \/ start_time c + duration c <= t -> clipActive t c = false.
Proof.
  intro H. destruct (clipActive t c) eqn:E; [|reflexivity].
  apply clipActive_iff in E. lra.
Qed.

Lemma clipActive_true (t : Q) (c : Clip Q) :
  start_time c <= t -> t < start_time c + duration c -> clipActive t c = true.
Proof. intros H1 H2. apply clipActive_iff. split; assumption. Qed.

(** The two parts of a clip without speed keyframes show, between them,
    what the clip showed. *)
Lemma split_parts_same (newId : string) (T t : Q) (c : Clip Q) :
  strictlyInside T c = true -> speedKeyframes c = [] ->
  sameSlot (lastActiveEntry t [c])
           (lastActiveEntry t [firstPart (T - start_time c) c;
                               secondPart newId T (T - start_time c) c]).
Proof.
  intros Hin Hk. unfold strictlyInside in Hin.
  apply andb_true_iff in Hin. destruct Hin as [H1 H2].
  apply Qltb_true in H1. apply Qltb_true in H2.
  set (c1 := firstPart (T - start_time c) c).
  set (c2 := secondPart newId T (T - start_time c) c).
  unfold lastActiveEntry. cbn [filter].
  destruct (Qlt_le_dec t (start_time c)) as [Hlo|Hlo].
  { rewrite (@clipActive_false t c), (@clipActive_false t c1),
      (@clipActive_false t c2); simpl; qplan; [exact I| | |]; lra. }
  destruct (Qlt_le_dec t T) as [Hmid|Hmid].
  { rewrite (@clipActive_true t c), (@clipActive_true t c1),
      (@clipActive_false t c2); simpl; qplan; try lra.
    unfold sameFrame, videoEntryOf. simpl. rewrite Hk. simpl.
    repeat split; reflexivity. }
  destruct (Qlt_le_dec t (start_time c + duration c)) as [Hhi|Hhi].
  { rewrite (@clipActive_true t c), (@clipActive_false t c1),
      (@clipActive_true t c2); simpl; qplan; try lra.
    unfold sameFrame, videoEntryOf. cbn [ve_assetId ve_sourceTime ve_properties].
    unfold c2, secondPart. cbn [asset_id in_point start_time speedKeyframes properties].
    rewrite Hk. unfold mapClipSourceTime. simpl. qnum.
    repeat split; try reflexivity. ring. }
  rewrite (@clipActive_false t c), (@clipActive_false t c1),
    (@clipActive_false t c2); simpl; qplan; [exact I| | |]; lra.
Qed.

Lemma split_clips_same (newId : string) (T t : Q) (cs : list (Clip Q))
      (i : nat) (c : Clip Q) :
  nth_error cs i = Some c -> strictlyInside T c = true -> speedKeyframes c = [] ->
  sameSlot (lastActiveEntry t cs)
           (lastActiveEntry t
              (splice1 i [firstPart (T - start_time c) c;
                          secondPart newId T (T - start_time c) c] cs)).
Proof.
  intros Hn Hin Hk. unfold splice1.
  rewrite (nth_error_decompose _ _ Hn) at 1.
  rewrite !lastActiveEntry_app.
  apply sameSlot_orElse; [|apply sameSlot_refl].
  change (c :: skipn (S i) cs) with ([c] ++ skipn (S i) cs)%list.
  rewrite lastActiveEntry_app.
  apply sameSlot_orElse; [apply sameSlot_refl|].
  apply split_parts_same; assumption.
Qed.

(** A track before and after an edit: the same type, and the same frame at
    every time. *)
Definition sameTrack (tr tr' : (EditorTrack Q)) : Prop :=
  et_type tr' = et_type tr /\
  forall t, sameSlot (lastActiveEntry t (et_clips tr))
                     (lastActiveEntry t (et_clips tr')).

Lemma sameTrack_refl (tr : (EditorTrack Q)) : sameTrack tr tr.
Proof. split; [reflexivity | intro t; apply sameSlot_refl]. Qed.

Lemma sameTracks_slot (t : Q) (ty : TrackType) (trs trs' : list (EditorTrack Q)) :
  Forall2 sameTrack trs trs' ->
  sameSlot (lastActiveEntry t (clipsOfType ty (map trackOf trs)))
           (lastActiveEntry t (clipsOfType ty (map trackOf trs'))).
Proof.
  induction 1 as [|tr tr' trs trs' [Hty Hs] _ IH]; [apply sameSlot_refl|].
  unfold clipsOfType in *. simpl. rewrite Hty.
  destruct (trackTypeEqb ty (et_type tr)); [|exact IH].
  simpl. rewrite !lastActiveEntry_app.
  apply sameSlot_orElse; [exact IH | apply Hs].
Qed.

Lemma Forall2_map_self {X : Type} (R : X -> X -> Prop) (g : X -> X) (l : list X) :
  (forall x, In x l -> R x (g x)) -> Forall2 R l (map g l).
Proof.
  induction l as [|x l IH]; intro H; simpl; constructor.
  - apply H. left. reflexivity.
  - apply IH. intros y Hy. apply H. right. exact Hy.
Qed.

Lemma unique_by_id (trs : list (EditorTrack Q)) (a b : (EditorTrack Q)) :
  NoDup (map et_id trs) -> In a trs -> In b trs -> et_id a = et_id b -> a = b.
Proof.
  induction trs as [|x trs IH]; simpl; intros Hnd Ha Hb E; [contradiction|].
  inversion Hnd as [|? ? Hx Hnd']; subst.
  destruct Ha as [<-|Ha], Hb as [<-|Hb].
  - reflexivity.
  - exfalso. apply Hx. rewrite E. apply in_map. exact Hb.
  - exfalso. apply Hx. rewrite <- E. apply in_map. exact Ha.
  - apply IH; assumption.
Qed.

End Split.

Lemma sameTracks_refl (trs : list (EditorTrack Q)) : Forall2 sameTrack trs trs.
Proof.
  induction trs; constructor; [apply sameTrack_refl | assumption].
Qed.

Lemma splitIn_same (newId : string) (st : (Store Q)) (project : (EditorProject Q)) :
  currentProject st = Some project ->
  NoDup (map et_id (ep_tracks project)) ->
  forall trs,
    incl trs (ep_tracks project) ->
    (forall c, splitTarget (currentTime st) trs = Some c -> speedKeyframes c = []) ->
    exists project',
      currentProject (splitIn newId st trs) = Some project' /\
      Forall2 sameTrack (ep_tracks project) (ep_tracks project').
Proof.
  intros Hp Hnd. induction trs as [|track rest IH]; intros Hincl Hk; simpl.
  - exists project. split; [exact Hp | apply sameTracks_refl].
  - simpl in Hk.
    destruct (findIndex (strictlyInside (currentTime st)) (et_clips track))
      as [clipIdx|] eqn:Ei.
    + destruct (findIndex_nth _ _ Ei) as (c & Hc & Hin).
      rewrite Hc in Hk |- *. specialize (Hk c eq_refl). cbv zeta.
      unfold selectClip, updateTrackClips. rewrite Hp.
      eexists. split; [reflexivity|].
      cbn [ep_tracks]. apply Forall2_map_self.
      intros tr Htr.
      destruct (String.eqb (et_id tr) (et_id track)) eqn:E;
        [|apply sameTrack_refl].
      apply String.eqb_eq in E.
      assert (tr = track).
      { apply (@unique_by_id (ep_tracks project) tr track Hnd Htr); [|exact E].
        apply Hincl. left. reflexivity. }
      subst tr. split; [reflexivity|]. intro t. cbn [et_clips].
      apply split_clips_same; assumption.
    + apply IH; [|exact Hk].
      intros x Hx. apply Hincl. right. exact Hx.
Qed.

(** X27: in exact arithmetic, splitting at the playhead does not change the
    preview of the video tracks when the clip that is split has no speed
    keyframes: with pairwise different track ids, at every time each video
    slot of the evaluated timeline shows the same frame of the same asset
    (the same asset, source time and properties) before and after
    [splitAtPlayhead], whether or not a clip was split.  (In binary64 the
    end of the second part, [t + (duration - (t - start))], can differ from
    the end of the clip in the last place, see [binary64_split_end].) *)
Theorem splitAtPlayhead_keeps_preview
        (newId : string) (st : (Store Q)) (project : (EditorProject Q)) :
  currentProject st = Some project ->
  NoDup (map et_id (ep_tracks project)) ->
  (forall c, splitTarget (currentTime st) (ep_tracks project) = Some c ->
             speedKeyframes c = []) ->
  exists project',
    currentProject (splitAtPlayhead newId st) = Some project' /\
    forall t ty,
      isVideo ty = true ->
      sameSlot (videoSlot ty (evaluateTimeline (Some (projectOf project)) t))
               (videoSlot ty (evaluateTimeline (Some (projectOf project')) t)).
Proof.
  intros Hp Hnd Hk. unfold splitAtPlayhead. rewrite Hp.
  destruct (@splitIn_same newId st project Hp Hnd (ep_tracks project))
    as (project' & Hp' & Hsame); [apply incl_refl | exact Hk|].
  exists project'. split; [exact Hp'|].
  intros t ty Hv. unfold evaluateTimeline, projectOf. cbn [tracks].
  rewrite !videoSlot_tracks by exact Hv.
  apply sameSlot_orElse; [|apply sameSlot_refl].
  apply sameTracks_slot. exact Hsame.
Qed.

Definition splitStore : (Store Q) :=
  {| currentProject :=
       Some {| ep_tracks :=
                 [ {| et_id := "t1"; et_type := VIDEO_A;
                      et_clips := [plainClip "c1" (Some "asset1") 0 4 0 []] |} ] |};
     selectedClipId := None; currentTime := 1; zoom := 100 |}.

Lemma splitAtPlayhead_keeps_preview_witness :
  exists project',
    currentProject (splitAtPlayhead "c2" splitStore) = Some project' /\
    List.length (flat_map et_clips (ep_tracks project')) = 2%nat /\
    forall t ty,
      isVideo ty = true ->
      sameSlot
        (videoSlot ty
           (evaluateTimeline
              (Some (projectOf
                       {| ep_tracks :=
                            [ {| et_id := "t1"; et_type := VIDEO_A;
                                 et_clips := [plainClip "c1" (Some "asset1") 0 4 0 []] |} ] |}))
              t))
        (videoSlot ty (evaluateTimeline (Some (projectOf project')) t)).
Proof.
  destruct (@splitAtPlayhead_keeps_preview "c2" splitStore
              {| ep_tracks :=
                   [ {| et_id := "t1"; et_type := VIDEO_A;
                        et_clips := [plainClip "c1" (Some "asset1") 0 4 0 []] |} ] |})
    as (project' & Hp & Hsame).
  - reflexivity.
  - simpl. repeat constructor. intros [].
  - simpl. intros c H. injection H as <-. reflexivity.
  - exists project'. split; [exact Hp|]. split; [|exact Hsame].
    vm_compute in Hp. injection Hp as <-. reflexivity.
Defined.

(** The hypothesis on the speed keyframes is needed.  The second part of a
    split starts in the source at [in_point + localT], not where the first
    part ends under its speed keyframes: a clip played at twice the speed
    (keyframes [{0, 2}, {4, 2}]) and split at 1 shows at time 2 the source
    at 4 before the split and at 3 after it. *)
Remark split_with_speed_keyframes_changes_frame :
  let clip := plainClip "c1" (Some "asset1") 0 4 0 [kfQ 0 2; kfQ 4 2] in
  let st := {| currentProject :=
                 Some {| ep_tracks := [ {| et_id := "t1"; et_type := VIDEO_A;
                                           et_clips := [clip] |} ] |};
               selectedClipId := None; currentTime := 1; zoom := 100 |} in
  exists project' e e',
    currentProject st = Some {| ep_tracks := [ {| et_id := "t1"; et_type := VIDEO_A;
                                                   et_clips := [clip] |} ] |} /\
    currentProject (splitAtPlayhead "c2" st) = Some project' /\
    videoA (evaluateTimeline (option_map projectOf (currentProject st)) 2) = Some e /\
    videoA (evaluateTimeline (Some (projectOf project')) 2) = Some e' /\
    (ve_sourceTime e == 4)%Q /\ (ve_sourceTime e' == 3)%Q.
Proof.
  cbv zeta. eexists. eexists. eexists.
  split; [reflexivity|]. split; [reflexivity|].
  split; [reflexivity|]. split; [reflexivity|].
  split; vm_compute; reflexivity.
Qed.

(* ================================================================== *)
(** ** The length of the timeline *)

Section TimelineLength.

Local Open Scope Q_scope.

(** [v] is the largest of [m] and the numbers of [l]. *)
Definition largest (v m : Q) (l : list Q) : Prop :=
  (v == m \/ exists x, In x l /\ v == x) /\ m <= v /\ Forall (fun x => x <= v) l.

Lemma largest_unique (v v' m : Q) (l : list Q) :
  largest v m l -> largest v' m l -> v == v'.
Proof.
  intros ([E|(x & Hx & E)] & Hm & Hl) ([E'|(x' & Hx' & E')] & Hm' & Hl');
    rewrite Forall_forall in *.
  - lra.
  - specialize (Hl x' Hx'). lra.
  - specialize (Hl' x Hx). lra.
  - specialize (Hl x' Hx'). specialize (Hl' x Hx). lra.
Qed.

Lemma largest_step (v m x : Q) (l : list Q) (m' : Q) :
  (m' == m \/ m' == x) -> m <= m' -> x <= m' ->
  largest v m' l -> largest v m (x :: l).
Proof.
  intros Hm' Hle Hx ([E|(y & Hy & E)] & Hge & Hl).
  - split; [|split; [lra | constructor; [lra | exact Hl]]].
    destruct Hm' as [H|H]; [left; lra|].
    right. exists x. split; [left; reflexivity | lra].
  - split; [|split; [lra | constructor; [lra | exact Hl]]].
    right. exists y. split; [right; exact Hy | exact E].
Qed.

(** The ends of the clips, in the order of the loops. *)
Definition clipEnds (cs : list (Clip Q)) : list Q :=
  map (fun c => start_time c + duration c) cs.

Lemma editor_fold_largest (cs : list (Clip Q)) :
  forall m,
    largest (fold_left (fun m' clip =>
                          if Qltb m' (start_time clip + duration clip)
                          then start_time clip + duration clip else m') cs m)
            m (clipEnds cs).
Proof.
  induction cs as [|c cs IH]; intro m; simpl.
  - split; [left; reflexivity | split; [lra | constructor]].
  - destruct (Qltb m (start_time c + duration c)) eqn:E;
      [apply Qltb_true in E | apply Qltb_false in E];
      (eapply largest_step; [| | |apply IH]); lra.
Qed.

Lemma export_fold_largest (cs : list (Clip Q)) :
  forall m,
    largest (fold_left (fun acc' c => jsMax acc' (start_time c + duration c)) cs m)
            m (clipEnds cs).
Proof.
  induction cs as [|c cs IH]; intro m; simpl.
  - split; [left; reflexivity | split; [lra | constructor]].
  - unfold jsMax at 2. qplan.
    destruct (Qle_bool m (start_time c + duration c)) eqn:E;
      [apply Qle_bool_iff in E | apply Qle_bool_false in E];
      (eapply largest_step; [| | |apply IH]); lra.
Qed.

Lemma largest_app (v w m : Q) (l1 l2 : list Q) :
  largest w m l1 -> largest v w l2 -> largest v m (l1 ++ l2).
Proof.
  intros (Hw & Hmw & Hl1) (Hv & Hwv & Hl2). split; [|split].
  - destruct Hv as [E|(x & Hx & E)].
    + destruct Hw as [E'|(y & Hy & E')]; [left; lra|].
      right. exists y. split; [apply in_or_app; left; exact Hy | lra].
    + right. exists x. split; [apply in_or_app; right; exact Hx | exact E].
  - lra.
  - apply Forall_app. split; [|exact Hl2].
    eapply Forall_impl; [|exact Hl1]. cbv beta. intros x Hx. lra.
Qed.

Lemma editor_tracks_largest (ts : list (EditorTrack Q)) :
  forall m,
    largest (fold_left (fun m0 track =>
                          fold_left (fun m' clip =>
                                       if Qltb m' (start_time clip + duration clip)
                                       then start_time clip + duration clip else m')
                                    (et_clips track) m0) ts m)
            m (flat_map (fun t => clipEnds (et_clips t)) ts).
Proof.
  induction ts as [|t ts IH]; intro m; simpl.
  - split; [left; reflexivity | split; [lra | constructor]].
  - eapply largest_app; [apply editor_fold_largest | apply IH].
Qed.

Lemma export_tracks_largest (ts : list (EditorTrack Q)) :
  forall m,
    largest (fold_left (fun acc tr =>
                          fold_left (fun acc' c => jsMax acc' (start_time c + duration c))
                                    (clips tr) acc)
                       (map trackOf ts) m)
            m (flat_map (fun t => clipEnds (et_clips t)) ts).
Proof.
  induction ts as [|t ts IH]; intro m; simpl.
  - split; [left; reflexivity | split; [lra | constructor]].
  - eapply largest_app; [apply export_fold_largest | apply IH].
Qed.

End TimelineLength.

(** X28: the length of the editor's timeline is 5 s more than the later of
    10 s and the end of the last clip; so it is at least 15 s, exceeds the
    end of every clip by at least 5 s, and equals 5 s more than the total
    duration that the export computes for the same project, or than 10 s
    if that is less. *)
Theorem getTimelineDuration_covers_clips (st : (Store Q)) :
  (15 <= getTimelineDuration st)%Q /\
  match currentProject st with
  | Some project =>
      (forall track clip,
          In track (ep_tracks project) -> In clip (et_clips track) ->
          (start_time clip + duration clip + 5 <= getTimelineDuration st)%Q) /\
      (getTimelineDuration st
       == jsMax 10 (totalDurationOf (projectOf project)) + 5)%Q
  | None => (getTimelineDuration st == 15)%Q
  end.
Proof.
  unfold getTimelineDuration. cbv zeta. qplan.
  destruct (currentProject st) as [project|]; [|split; [lra | reflexivity]].
  pose proof (editor_tracks_largest (ep_tracks project) 10) as HE.
  assert (HX : largest (totalDurationOf (projectOf project)) 0
                       (flat_map (fun t => clipEnds (et_clips t)) (ep_tracks project)))
    by (apply (export_tracks_largest (ep_tracks project) 0)).
  set (vE := fold_left _ (ep_tracks project) 10) in *.
  set (vX := totalDurationOf (projectOf project)) in *.
  destruct HE as (HE1 & HE2 & HE3). split; [lra|]. split.
  - intros track clip Ht Hc. rewrite Forall_forall in HE3.
    assert (start_time clip + duration clip <= vE)%Q; [|lra].
    apply HE3. apply in_flat_map. exists track. split; [exact Ht|].
    unfold clipEnds. apply in_map_iff. exists clip. split; [reflexivity | exact Hc].
  - apply Qplus_comp; [|reflexivity].
    apply (@largest_unique vE (jsMax 10 vX) 10
             (flat_map (fun t => clipEnds (et_clips t)) (ep_tracks project)));
      [split; [exact HE1 | split; [exact HE2 | exact HE3]]|].
    destruct HX as (HX1 & HX2 & HX3).
    unfold jsMax. qplan. destruct (Qle_bool 10 vX) eqn:E;
      [apply Qle_bool_iff in E | apply Qle_bool_false in E].
    + split; [|split; [exact E | exact HX3]].
      destruct HX1 as [H|H]; [exfalso; lra | right; exact H].
    + split; [left; reflexivity | split; [lra|]].
      eapply Forall_impl; [|exact HX3]. cbv beta. intros x Hx. lra.
Qed.

(* ================================================================== *)
(** ** The animated expressions of the overlays

    The text built by [buildAnimExpr] is read as an expression of the
    encoder's language: [if(c\,a\,b)] is [a] when [c] is not 0 and [b]
    otherwise, [lte(x\,y)] is 1 when [x <= y] and 0 otherwise, and [t] is
    the time on the timeline. *)

Section AnimReading.

Context {A : Type} {N : Num A}.
Local Open Scope num_scope.

Inductive AnimLerp : Type :=
| LerpFlat (v1 : AnimValue A)
| LerpRamp (v1 v2 : AnimValue A) (clipStart time1 dur : A).

Inductive AnimTree : Type :=
| AnimHold (v : AnimValue A)
| AnimStep (clipStart time2 : A) (lerp : AnimLerp) (rest : AnimTree).

Inductive AnimExprTree : Type :=
| AnimDefault (v : AnimValue A)
| AnimFirst (clipStart time : A) (firstVal : AnimValue A) (rest : AnimTree).

Variable showNumber : A -> string.

(** The text of an expression. *)
Definition renderLerp (l : AnimLerp) : string :=
  match l with
  | LerpFlat v1 => pv showNumber v1
  | LerpRamp v1 v2 clipStart time1 dur =>
      "(" ++ pv showNumber v1 ++ "+(" ++ pv showNumber v2 ++ "-" ++ pv showNumber v1
      ++ ")*(" ++ ("(t-" ++ showNumber clipStart ++ ")")
      ++ "-" ++ showNumber time1 ++ ")/" ++ showNumber dur ++ ")"
  end.

Fixpoint renderTree (a : AnimTree) : string :=
  match a with
  | AnimHold v => pv showNumber v
  | AnimStep clipStart time2 lerp rest =>
      "if(lte(" ++ ("(t-" ++ showNumber clipStart ++ ")") ++ "\,"
      ++ showNumber time2 ++ ")\," ++ renderLerp lerp ++ "\," ++ renderTree rest
      ++ ")"
  end.

Definition renderExpr (e : AnimExprTree) : string :=
  match e with
  | AnimDefault v => showValue showNumber v
  | AnimFirst clipStart time firstVal rest =>
      "if(lte(t-" ++ showNumber clipStart ++ "\," ++ showNumber time ++ ")\,"
      ++ pv showNumber firstVal ++ "\," ++ renderTree rest ++ ")"
  end.

(** The expression that [buildAnimExpr] writes. *)
Fixpoint animTree (prop : OverlayProp) (defaultVal : AnimValue A) (clipStart : A)
         (sorted : list (OverlayKeyframe A)) : AnimTree :=
  match sorted with
  | [] => AnimHold (AnimText EmptyString)
  | k1 :: rest =>
      match rest with
      | [] => AnimHold (valueAt prop defaultVal k1)
      | k2 :: _ =>
          let v1 := valueAt prop defaultVal k1 in
          let v2 := valueAt prop defaultVal k2 in
          let dur := ok_time k2 - ok_time k1 in
          AnimStep clipStart (ok_time k2)
                   (if dur <=? nlit 0 then LerpFlat v1
                    else LerpRamp v1 v2 clipStart (ok_time k1) dur)
                   (animTree prop defaultVal clipStart rest)
      end
  end.

Definition buildAnimTree (kfs : list (OverlayKeyframe A)) (prop : OverlayProp)
           (defaultVal : AnimValue A) (clipStart : A) : AnimExprTree :=
  match sortBy byOverlayKfTime kfs with
  | [] => AnimDefault defaultVal
  | (first :: _) as sorted =>
      AnimFirst clipStart (ok_time first) (valueAt prop defaultVal first)
                (animTree prop defaultVal clipStart sorted)
  end.

Lemma animLoop_reads (prop : OverlayProp) (defaultVal : AnimValue A) (clipStart : A)
      (sorted : list (OverlayKeyframe A)) :
  sorted <> [] ->
  animLoop showNumber prop defaultVal clipStart sorted
  = renderTree (animTree prop defaultVal clipStart sorted).
Proof.
  induction sorted as [|k1 rest IH]; intro Hne; [contradiction Hne; reflexivity|].
  assert (Hrest : rest = [] \/ exists k2 r', rest = k2 :: r')
    by (destruct rest as [|k2 r']; [left; reflexivity | right; exists k2, r'; reflexivity]).
  destruct Hrest as [->|(k2 & r' & Hr)]; [reflexivity|].
  assert (IH' := IH ltac:(rewrite Hr; discriminate)).
  cbn [animLoop animTree renderTree]. rewrite IH'. rewrite Hr. cbv zeta.
  destruct (ok_time k2 - ok_time k1 <=? nlit 0); reflexivity.
Qed.

Lemma buildAnimExpr_reads (kfs : list (OverlayKeyframe A)) (prop : OverlayProp)
      (defaultVal : AnimValue A) (clipStart : A) :
  buildAnimExpr showNumber kfs prop defaultVal clipStart
  = renderExpr (buildAnimTree kfs prop defaultVal clipStart).
Proof.
  unfold buildAnimExpr, buildAnimTree.
  destruct (sortBy byOverlayKfTime kfs) as [|k0 rest]; [reflexivity|].
  cbv zeta. cbn [renderExpr]. rewrite animLoop_reads by discriminate. reflexivity.
Qed.

(** The value of an expression at the timeline time [t]; [textValue] gives
    the value of a default that is the text of an expression. *)
Variable textValue : string -> A.

Definition evalValue (v : AnimValue A) : A :=
  match v with
  | AnimNum q => q
  | AnimText s => textValue s
  end.

Definition evalLerp (l : AnimLerp) (t : A) : A :=
  match l with
  | LerpFlat v1 => evalValue v1
  | LerpRamp v1 v2 clipStart time1 dur =>
      evalValue v1 + (evalValue v2 - evalValue v1) * ((t - clipStart) - time1) / dur
  end.

Fixpoint evalTree (a : AnimTree) (t : A) : A :=
  match a with
  | AnimHold v => evalValue v
  | AnimStep clipStart time2 lerp rest =>
      if t - clipStart <=? time2 then evalLerp lerp t else evalTree rest t
  end.

Definition evalExpr (e : AnimExprTree) (t : A) : A :=
  match e with
  | AnimDefault v => evalValue v
  | AnimFirst clipStart time firstVal rest =>
      if t - clipStart <=? time then evalValue firstVal else evalTree rest t
  end.

End AnimReading.

Arguments AnimLerp A : clear implicits.
Arguments AnimTree A : clear implicits.
Arguments AnimExprTree A : clear implicits.

Section AnimMeaning.

Local Open Scope Q_scope.

Variable textValue : string -> Q.

(** A keyframe with its easing removed: the interpolation to the next
    keyframe is then linear. *)
Definition withoutEasing (kf : OverlayKeyframe Q) : OverlayKeyframe Q :=
  {| ok_time := ok_time kf; ok_x := ok_x kf; ok_y := ok_y kf;
     ok_scale_x := ok_scale_x kf; ok_scaleX := ok_scaleX kf;
     ok_scale_y := ok_scale_y kf; ok_scaleY := ok_scaleY kf;
     ok_rotation := ok_rotation kf; ok_opacity := ok_opacity kf;
     ok_easing := None |}.

(** The field of a transform that a property animates. *)
Definition transformField (prop : OverlayProp) (tr : Transform Q) : Q :=
  match prop with
  | PropX => tr_x tr
  | PropY => tr_y tr
  | PropScaleX => tr_scaleX tr
  | PropScaleY => tr_scaleY tr
  | PropRotation => tr_rotation tr
  | PropOpacity => tr_opacity tr
  end.

(** The value the exporter reads off a keyframe is the one the time engine
    reads. *)
Definition valueAgrees (prop : OverlayProp) (defaultVal : (AnimValue Q))
           (k : OverlayKeyframe Q) : Prop :=
  evalValue textValue (valueAt prop defaultVal k)
  == transformField prop (kfToTransform k).

(** For a scale, a keyframe without the stored spelling [scale_x] has no
    [scaleX] either, and the default is 1. *)
Definition scalesStored (prop : OverlayProp) (defaultVal : (AnimValue Q))
           (kfs : list (OverlayKeyframe Q)) : Prop :=
  match prop with
  | PropScaleX =>
      Forall (fun k => ok_scale_x k = None ->
                       ok_scaleX k = None /\ evalValue textValue defaultVal == 1) kfs
  | PropScaleY =>
      Forall (fun k => ok_scale_y k = None ->
                       ok_scaleY k = None /\ evalValue textValue defaultVal == 1) kfs
  | _ => True
  end.

Lemma scalesStored_agrees (prop : OverlayProp) (defaultVal : (AnimValue Q))
      (kfs : list (OverlayKeyframe Q)) :
  scalesStored prop defaultVal kfs ->
  forall k, In k kfs -> valueAgrees prop defaultVal k.
Proof.
  intros H k Hk. unfold valueAgrees, valueAt.
  destruct prop; simpl in *; try reflexivity;
    rewrite Forall_forall in H; specialize (H k Hk).
  - destruct (ok_scale_x k); simpl; [reflexivity|].
    destruct (H eq_refl) as [-> Hd]. exact Hd.
  - destruct (ok_scale_y k); simpl; [reflexivity|].
    destruct (H eq_refl) as [-> Hd]. exact Hd.
Qed.

Lemma insertBy_withoutEasing (k : OverlayKeyframe Q) (l : list (OverlayKeyframe Q)) :
  insertBy byOverlayKfTime (withoutEasing k) (map withoutEasing l)
  = map withoutEasing (insertBy byOverlayKfTime k l).
Proof.
  induction l as [|y l IH]; [reflexivity|].
  cbn [map insertBy].
  change (byOverlayKfTime (withoutEasing k) (withoutEasing y))
    with (byOverlayKfTime k y).
  destruct (byOverlayKfTime k y <=? nlit 0)%num; cbn [map]; [reflexivity|].
  rewrite IH. reflexivity.
Qed.

Lemma sortBy_withoutEasing (l : list (OverlayKeyframe Q)) :
  sortBy byOverlayKfTime (map withoutEasing l)
  = map withoutEasing (sortBy byOverlayKfTime l).
Proof.
  induction l as [|k l IH]; simpl; [reflexivity|].
  rewrite IH. apply insertBy_withoutEasing.
Qed.

(** The field of the transform interpolated between two keyframes. *)
Lemma segment_field (prop : OverlayProp) (a b : OverlayKeyframe Q) (f : Q) :
  transformField prop
    {| tr_x := lerp (ok_x a) (ok_x b) f;
       tr_y := lerp (ok_y a) (ok_y b) f;
       tr_scaleX := lerp (coalesce1 (ok_scale_x a) (ok_scaleX a))
                         (coalesce1 (ok_scale_x b) (ok_scaleX b)) f;
       tr_scaleY := lerp (coalesce1 (ok_scale_y a) (ok_scaleY a))
                         (coalesce1 (ok_scale_y b) (ok_scaleY b)) f;
       tr_rotation := lerp (ok_rotation a) (ok_rotation b) f;
       tr_opacity := lerp (ok_opacity a) (ok_opacity b) f |}
  = lerp (transformField prop (kfToTransform a))
         (transformField prop (kfToTransform b)) f.
Proof. destruct prop; reflexivity. Qed.

(** What the time engine returns past the first keyframe and before the
    last: the segment found, or else the last keyframe. *)
Definition segmentOrLast (local : Q) (kf : list (OverlayKeyframe Q))
           (d : OverlayKeyframe Q) : Transform Q :=
  match overlaySegment local kf with
  | Some tr => tr
  | None => kfToTransform (last kf d)
  end.

Lemma segmentOrLast_step (local : Q) (a b : OverlayKeyframe Q)
      (r : list (OverlayKeyframe Q)) (d : OverlayKeyframe Q) :
  ok_time a < local ->
  segmentOrLast local (withoutEasing a :: withoutEasing b :: r) d =
  if Qle_bool local (ok_time b)
  then {| tr_x := lerp (ok_x a) (ok_x b) ((local - ok_time a) / (ok_time b - ok_time a));
          tr_y := lerp (ok_y a) (ok_y b) ((local - ok_time a) / (ok_time b - ok_time a));
          tr_scaleX := lerp (coalesce1 (ok_scale_x a) (ok_scaleX a))
                            (coalesce1 (ok_scale_x b) (ok_scaleX b))
                            ((local - ok_time a) / (ok_time b - ok_time a));
          tr_scaleY := lerp (coalesce1 (ok_scale_y a) (ok_scaleY a))
                            (coalesce1 (ok_scale_y b) (ok_scaleY b))
                            ((local - ok_time a) / (ok_time b - ok_time a));
          tr_rotation := lerp (ok_rotation a) (ok_rotation b)
                              ((local - ok_time a) / (ok_time b - ok_time a));
          tr_opacity := lerp (ok_opacity a) (ok_opacity b)
                             ((local - ok_time a) / (ok_time b - ok_time a)) |}
  else segmentOrLast local (withoutEasing b :: r) d.
Proof.
  intro Ha. unfold segmentOrLast at 1. cbn [overlaySegment]. qnum.
  cbn [ok_time withoutEasing].
  assert (E1 : Qle_bool (ok_time a) local = true) by (apply Qle_bool_iff; lra).
  rewrite E1. cbn [andb].
  destruct (Qle_bool local (ok_time b)) eqn:E2.
  - apply Qle_bool_iff in E2.
    assert (EL : Qeq_bool (ok_time b - ok_time a) 0 = false).
    { destruct (Qeq_bool (ok_time b - ok_time a) 0) eqn:E; [|reflexivity].
      apply Qeq_bool_iff in E. lra. }
    rewrite EL. reflexivity.
  - unfold segmentOrLast.
    change (last (withoutEasing a :: withoutEasing b :: r) d)
      with (last (withoutEasing b :: r) d).
    reflexivity.
Qed.

Lemma animTree_step (prop : OverlayProp) (defaultVal : (AnimValue Q)) (cs : Q)
      (a b : OverlayKeyframe Q) (r : list (OverlayKeyframe Q)) :
  animTree prop defaultVal cs (a :: b :: r)
  = AnimStep cs (ok_time b)
             (if Qle_bool (ok_time b - ok_time a) 0
              then LerpFlat (valueAt prop defaultVal a)
              else LerpRamp (valueAt prop defaultVal a) (valueAt prop defaultVal b)
                            cs (ok_time a) (ok_time b - ok_time a))
             (animTree prop defaultVal cs (b :: r)).
Proof. reflexivity. Qed.

(** Past the first keyframe, the expression follows the segments of the
    time engine. *)
Lemma animTree_inside (prop : OverlayProp) (defaultVal : (AnimValue Q)) (cs t : Q)
      (d : OverlayKeyframe Q) :
  forall l a,
    (forall k, In k (a :: l) -> valueAgrees prop defaultVal k) ->
    ok_time a < t - cs ->
    evalTree textValue (animTree prop defaultVal cs (a :: l)) t
    == transformField prop
         (segmentOrLast (t - cs) (map withoutEasing (a :: l)) d).
Proof.
  induction l as [|b r IH]; intros a Hag Ha.
  - cbn. apply (Hag a). left; reflexivity.
  - cbn [map]. rewrite segmentOrLast_step by exact Ha.
    rewrite animTree_step. cbn [evalTree]. qnum.
    destruct (Qle_bool (t - cs) (ok_time b)) eqn:E.
    + apply Qle_bool_iff in E.
      assert (ED : Qle_bool (ok_time b - ok_time a) 0 = false).
      { destruct (Qle_bool (ok_time b - ok_time a) 0) eqn:E'; [|reflexivity].
        apply Qle_bool_iff in E'. lra. }
      rewrite ED. cbn [evalLerp]. qnum. rewrite segment_field.
      pose proof (Hag a (or_introl eq_refl)) as Va.
      pose proof (Hag b (or_intror (or_introl eq_refl))) as Vb.
      unfold valueAgrees in Va, Vb. rewrite Va, Vb. unfold lerp. qnum.
      field. intro Z. lra.
    + apply Qle_bool_false in E.
      apply (IH b); [|exact E].
      intros k Hk. apply Hag. right. exact Hk.
Qed.

(** From the last keyframe on, the expression holds that keyframe's
    value. *)
Lemma animTree_at_end (prop : OverlayProp) (defaultVal : (AnimValue Q)) (cs t : Q) :
  forall l a,
    sortedBy (@ok_time Q) (a :: l) -> distinctBy (@ok_time Q) (a :: l) ->
    (forall k, In k (a :: l) -> valueAgrees prop defaultVal k) ->
    ok_time a < t - cs ->
    ok_time (last (a :: l) a) <= t - cs ->
    evalTree textValue (animTree prop defaultVal cs (a :: l)) t
    == transformField prop (kfToTransform (last (a :: l) a)).
Proof.
  induction l as [|b r IH]; intros a Hs Hd Hag Ha Hl.
  - cbn. apply (Hag a). left; reflexivity.
  - change (last (a :: b :: r) a) with (last (b :: r) a) in *.
    rewrite (@last_any_default _ (b :: r) a b) in * by discriminate.
    assert (Hs' : sortedBy (@ok_time Q) (b :: r)) by (destruct Hs as [_ Hs]; exact Hs).
    assert (Hd' : distinctBy (@ok_time Q) (b :: r)) by (destruct Hd as [_ Hd]; exact Hd).
    assert (Hbl : ok_time b <= ok_time (last (b :: r) b)).
    { apply nondecreasing_last; [apply sortedBy_pairwise; exact Hs' | left; reflexivity]. }
    assert (Hab : ok_time a < ok_time b).
    { destruct Hs as [Hab _]. destruct Hd as [Hda _].
      inversion Hda as [|? ? Hne _]; subst.
      destruct (Qlt_le_dec (ok_time a) (ok_time b)) as [L|L]; [exact L|].
      exfalso. apply Hne. lra. }
    rewrite animTree_step. cbn [evalTree]. qnum.
    destruct (Qle_bool (t - cs) (ok_time b)) eqn:E.
    + apply Qle_bool_iff in E.
      assert (Hlast : last (b :: r) b = b).
      { apply (@distinct_same_key _ (@ok_time Q) (b :: r));
          [exact Hd' | apply last_In; discriminate | left; reflexivity | lra]. }
      rewrite Hlast.
      assert (ED : Qle_bool (ok_time b - ok_time a) 0 = false).
      { destruct (Qle_bool (ok_time b - ok_time a) 0) eqn:E'; [|reflexivity].
        apply Qle_bool_iff in E'. lra. }
      rewrite ED. cbn [evalLerp]. qnum.
      pose proof (Hag a (or_introl eq_refl)) as Va.
      pose proof (Hag b (or_intror (or_introl eq_refl))) as Vb.
      unfold valueAgrees in Va, Vb. rewrite Va, Vb.
      assert (Ht : t - cs == ok_time b) by (rewrite Hlast in Hl; lra).
      rewrite Ht. field. intro Z. lra.
    + apply Qle_bool_false in E.
      apply (IH b); [exact Hs' | exact Hd' | | exact E | exact Hl].
      intros k Hk. apply Hag. right. exact Hk.
Qed.

Lemma last_withoutEasing (l : list (OverlayKeyframe Q)) (d : OverlayKeyframe Q) :
  last (map withoutEasing l) (withoutEasing d) = withoutEasing (last l d).
Proof.
  induction l as [|a l IH]; [reflexivity|].
  destruct l as [|b l]; [reflexivity|].
  change (last (map withoutEasing (b :: l)) (withoutEasing d)
          = withoutEasing (last (b :: l) d)).
  exact IH.
Qed.

End AnimMeaning.

(** X29: the expression that [buildAnimExpr] writes for an overlay property
    is a chain of [if(lte(t-start, time), ..., ...)] over the keyframes in
    time order; read as the encoder evaluates [if], [lte] and the
    arithmetic, and in exact arithmetic, its value at every timeline time is
    the property of the transform that [interpolateOverlay] gives at that
    clip-local time for the same keyframes with their easing removed.  (In
    binary64 the expression computes [(v2 - v1) * x / dur] where the preview
    computes [(v2 - v1) * (x / dur)]; the two can differ in the last place,
    see [binary64_expression_and_preview].)
    The keyframes are not empty and have distinct times, and a scale is
    stored as [scale_x] / [scale_y] or is absent with default 1. *)
Theorem buildAnimExpr_follows_linear_preview
        (showNumber : Q -> string) (textValue : string -> Q)
        (kfs : list (OverlayKeyframe Q)) (prop : OverlayProp)
        (defaultVal : (AnimValue Q)) (clipStart : Q) :
  kfs <> [] ->
  distinctBy (@ok_time Q) kfs ->
  scalesStored textValue prop defaultVal kfs ->
  buildAnimExpr showNumber kfs prop defaultVal clipStart
  = renderExpr showNumber (buildAnimTree kfs prop defaultVal clipStart) /\
  forall t : Q,
    evalExpr textValue (buildAnimTree kfs prop defaultVal clipStart) t
    == transformField prop
         (interpolateOverlay (t - clipStart) (map withoutEasing kfs)).
Proof.
  intros Hne Hd Hsc. split; [apply buildAnimExpr_reads|]. intro t.
  pose proof (sortBy_perm byOverlayKfTime kfs) as HP.
  pose proof (sorted_overlay_keyframes kfs) as Hs.
  assert (Hd' : distinctBy (@ok_time Q) (sortBy byOverlayKfTime kfs)).
  { eapply distinctBy_perm; [apply Permutation_sym; exact HP | exact Hd]. }
  assert (Hag : forall k, In k (sortBy byOverlayKfTime kfs) ->
                          valueAgrees textValue prop defaultVal k).
  { intros k Hk. apply (@scalesStored_agrees textValue prop defaultVal kfs Hsc).
    eapply Permutation_in; [exact HP | exact Hk]. }
  unfold buildAnimTree, interpolateOverlay. rewrite sortBy_withoutEasing.
  destruct (sortBy byOverlayKfTime kfs) as [|k0 rest].
  { exfalso. apply Hne. apply Permutation_nil. exact HP. }
  cbn [map]. cbv zeta. cbn [evalExpr]. qnum.
  change (ok_time (withoutEasing k0)) with (ok_time k0).
  change (withoutEasing k0 :: map withoutEasing rest)
    with (map withoutEasing (k0 :: rest)).
  rewrite last_withoutEasing.
  change (ok_time (withoutEasing (last (k0 :: rest) k0)))
    with (ok_time (last (k0 :: rest) k0)).
  change (kfToTransform (withoutEasing (last (k0 :: rest) k0)))
    with (kfToTransform (last (k0 :: rest) k0)).
  destruct (Qle_bool (t - clipStart) (ok_time k0)) eqn:E0.
  - apply (Hag k0). left; reflexivity.
  - apply Qle_bool_false in E0.
    destruct (Qle_bool (ok_time (last (k0 :: rest) k0)) (t - clipStart)) eqn:E1.
    + apply Qle_bool_iff in E1.
      apply animTree_at_end; assumption.
    + rewrite (@animTree_inside textValue prop defaultVal clipStart t
                 (withoutEasing k0) rest k0 Hag E0).
      unfold segmentOrLast. rewrite last_withoutEasing. reflexivity.
Qed.

(** [String(v)] on whole numbers. *)
Definition showWhole (q : Q) : string :=
  NilZero.string_of_int (Z.to_int (Qfloor q)).

Definition driftKfs : list (OverlayKeyframe Q) :=
  [ mkOverlayKf 3 200 40 (Some 2) None None None 90 1 (Some "easeOut"%string);
    mkOverlayKf 1 100 20 None None None None 0 0 (Some "easeIn"%string) ].

Lemma buildAnimExpr_follows_linear_preview_witness :
  buildAnimExpr showWhole driftKfs PropScaleX (AnimNum 1) 5
  = renderExpr showWhole (buildAnimTree driftKfs PropScaleX (AnimNum 1) 5) /\
  forall t : Q,
    evalExpr (fun _ => 0) (buildAnimTree driftKfs PropScaleX (AnimNum 1) 5) t
    == transformField PropScaleX
         (interpolateOverlay (t - 5) (map withoutEasing driftKfs)).
Proof.
  apply (@buildAnimExpr_follows_linear_preview showWhole (fun _ => 0) driftKfs
           PropScaleX (AnimNum 1) 5).
  - discriminate.
  - simpl. repeat split; repeat constructor; intro H; discriminate H.
  - simpl. repeat constructor; intros _; reflexivity.
Defined.

(** With an easing on the keyframe, the exported expression and the preview
    differ between the keyframes: the expression stays linear. *)
Remark buildAnimExpr_ignores_easing :
  evalExpr (fun _ => 0) (buildAnimTree driftKfs PropX (AnimNum 100) 0) 2 == 150 /\
  tr_x (interpolateOverlay 2 driftKfs) == 125.
Proof. split; vm_compute; reflexivity. Qed.

(** In binary64 the expression and the preview can differ in the last
    place.  For the property [x] going from 0 at time 0 to 10 at time 0.3,
    on a clip that starts at 0, the expression computes
    [0 + (10 - 0) * ((0.1 - 0) - 0) / 0.3] at 0.1, which is
    3.3333333333333335, and the preview [0 + (10 - 0) * (0.1 / 0.3)], which
    is 3.3333333333333339. *)
Definition driftKfsF : list (OverlayKeyframe float) :=
  [ mkOverlayKf 0%float 0%float 0%float None None None None 0%float 1%float None;
    mkOverlayKf f0_3 10%float 0%float None None None None 0%float 1%float None ].

Remark binary64_expression_and_preview :
  let expr := evalExpr (fun _ => 0%float)
                       (buildAnimTree driftKfsF PropX (AnimNum 0%float) 0%float)
                       f0_1 in
  let preview := tr_x (interpolateOverlay (f0_1 - nlit 0)%num driftKfsF) in
  expr = 0x1.aaaaaaaaaaaabp+1%float /\
  preview = 0x1.aaaaaaaaaaaacp+1%float /\
  (expr =? preview)%num = false.
Proof. repeat split; vm_compute; reflexivity. Qed.
